(** * A shallow embedding of the truth-table engine (utils/logic.ts)

    The engine tokenizes and parses a propositional formula, enumerates its
    truth table, classifies it and derives secondary artefacts (RightAway
    heuristic, implication forms, Karnaugh map).  Every definition of the
    first part is a transcription of the TypeScript function of the same
    name; the sample inputs and the vocabulary of the statements follow it.

    Modelling conventions.
    - A JavaScript string is the list of its UTF-16 code units ([jsstring]).
    - A [Record<string, boolean>] is an association list kept in JavaScript
      property order ([JSObject]); keys that inherited members of
      [Object.prototype] would shadow are outside the model.
    - Numbers are exact integers; the 32-bit behaviour of [>>], [<<] and [&]
      is written out where the source uses them.
    - [String.prototype.toUpperCase] is a built-in that is not part of the
      repository; the tokenizer takes it as a parameter.
    - The template-literal identifiers [node-k] and [row-i] are kept as the
      number they carry, and a column identifier as a tagged value
      ([ColumnId]); the rendering is injective.
    - The functions of the engine are given as the values they return when
      the call stack suffices for their recursion.  The parser, whose
      recursion follows the nesting of the input and which [analyzeLogic]
      calls outside any [try], is given a second time with the frames of
      the stack counted ([parseWithin], [analyzeLogicCheck]): there it
      returns the same tree or throws [RangeError]. *)

From Stdlib Require Import String Ascii.
From Stdlib Require Import List Bool Arith NArith ZArith Lia Sorted.
Import ListNotations.

(* ------------------------------------------------------------------ *)
(** ** Strings *)

Definition jsstring := list N.

Definition lit (s : string) : jsstring :=
  map N_of_ascii (list_ascii_of_string s).
Arguments lit s%_string.

Fixpoint str_eqb (a b : jsstring) : bool :=
  match a, b with
  | [], [] => true
  | x :: a', y :: b' => N.eqb x y && str_eqb a' b'
  | _, _ => false
  end.

Fixpoint startsWith (s key : jsstring) : bool :=
  match key, s with
  | [], _ => true
  | k :: key', c :: s' => N.eqb c k && startsWith s' key'
  | _ :: _, [] => false
  end.

Definition endsWith (s key : jsstring) : bool :=
  startsWith (rev s) (rev key).

Definition includes (l : list jsstring) (s : jsstring) : bool :=
  existsb (str_eqb s) l.

Fixpoint join (sep : jsstring) (l : list jsstring) : jsstring :=
  match l with
  | [] => []
  | [x] => x
  | x :: rest => x ++ sep ++ join sep rest
  end.

(** The operator glyphs, as code units. *)
Definition ch_not : N := 172.      (* U+00AC *)
Definition ch_and : N := 8743.     (* U+2227 *)
Definition ch_or : N := 8744.      (* U+2228 *)
Definition ch_implies : N := 8594. (* U+2192 *)
Definition ch_iff : N := 8596.     (* U+2194 *)
Definition ch_xor : N := 8853.     (* U+2295 *)
Definition ch_lparen : N := 40.
Definition ch_rparen : N := 41.
Definition ch_lbracket : N := 91.
Definition ch_rbracket : N := 93.
Definition ch_lbrace : N := 123.
Definition ch_rbrace : N := 125.
Definition ch_minus : N := 45.
Definition ch_bang : N := 33.
Definition ch_tilde : N := 126.
Definition ch_zero : N := 48.
Definition ch_one : N := 49.
Definition ch_question : N := 63.

(** [/\s/]: the code units the regular-expression class matches. *)
Definition isWhitespace (c : N) : bool :=
  ((9 <=? c) && (c <=? 13) || (c =? 32) || (c =? 160) || (c =? 5760)
   || (8192 <=? c) && (c <=? 8202) || (c =? 8232) || (c =? 8233)
   || (c =? 8239) || (c =? 8287) || (c =? 12288) || (c =? 65279))%N.

(** [/[A-Z]/] *)
Definition isUpperLetter (c : N) : bool := ((65 <=? c) && (c <=? 90))%N.

(* ------------------------------------------------------------------ *)
(** ** Constants *)

(** [OPS], in insertion order (the order [Object.keys] returns). *)
Definition OPS : list (jsstring * N) :=
  [ (lit "->", ch_implies); (lit "=>", ch_implies); (lit "IMPLIES", ch_implies);
    (lit "<->", ch_iff); (lit "<=>", ch_iff); (lit "IFF", ch_iff);
    (lit "&", ch_and); (lit "&&", ch_and); (lit "AND", ch_and);
    (lit "|", ch_or); (lit "||", ch_or); (lit "OR", ch_or);
    (lit "!", ch_not); (lit "~", ch_not); (lit "-", ch_not); (lit "NOT", ch_not);
    (lit "^", ch_xor); (lit "XOR", ch_xor) ].

(** [Object.values(SYMBOLS)] *)
Definition SYMBOLS : list N :=
  [ ch_not; ch_and; ch_or; ch_implies; ch_iff; ch_xor;
    ch_lparen; ch_rparen; ch_lbracket; ch_rbracket; ch_lbrace; ch_rbrace ].

(* ------------------------------------------------------------------ *)
(** ** Tokens *)

Inductive BinOp := AND | OR | XOR | IMPLIES | IFF.

Inductive TokenType :=
| T_VAR | T_NOT | T_BIN (op : BinOp)
| LPAREN | RPAREN | LBRACKET | RBRACKET | LBRACE | RBRACE
| EOF.

Record Token := { tok_type : TokenType; tok_value : jsstring }.

Definition eofToken : Token := {| tok_type := EOF; tok_value := [] |}.

Definition binop_eqb (a b : BinOp) : bool :=
  match a, b with
  | AND, AND | OR, OR | XOR, XOR | IMPLIES, IMPLIES | IFF, IFF => true
  | _, _ => false
  end.

Definition toktype_eqb (a b : TokenType) : bool :=
  match a, b with
  | T_VAR, T_VAR | T_NOT, T_NOT | LPAREN, LPAREN | RPAREN, RPAREN
  | LBRACKET, LBRACKET | RBRACKET, RBRACKET | LBRACE, LBRACE
  | RBRACE, RBRACE | EOF, EOF => true
  | T_BIN x, T_BIN y => binop_eqb x y
  | _, _ => false
  end.

(** The chain of [if (symbol === ...) type = ...] shared by both token
    branches; the default is ['VAR']. *)
Definition operatorType (symbol : N) : TokenType :=
  if (symbol =? ch_not)%N then T_NOT
  else if (symbol =? ch_and)%N then T_BIN AND
  else if (symbol =? ch_or)%N then T_BIN OR
  else if (symbol =? ch_implies)%N then T_BIN IMPLIES
  else if (symbol =? ch_iff)%N then T_BIN IFF
  else if (symbol =? ch_xor)%N then T_BIN XOR
  else T_VAR.

Definition symbolType (char : N) : TokenType :=
  match operatorType char with
  | T_VAR =>
      if (char =? ch_lparen)%N then LPAREN
      else if (char =? ch_rparen)%N then RPAREN
      else if (char =? ch_lbracket)%N then LBRACKET
      else if (char =? ch_rbracket)%N then RBRACKET
      else if (char =? ch_lbrace)%N then LBRACE
      else if (char =? ch_rbrace)%N then RBRACE
      else T_VAR
  | t => t
  end.

(* ------------------------------------------------------------------ *)
(** ** Tokenizer *)

(** [Array.prototype.sort] with a comparator [(a, b) => key(b) - key(a)]:
    the sort is stable, and inserting each element after the ones that
    compare equal keeps the input order among them. *)
Fixpoint insertDescBy {A : Type} (key : A -> nat) (x : A) (l : list A)
  : list A :=
  match l with
  | [] => [x]
  | y :: rest =>
      if key x <=? key y then y :: insertDescBy key x rest else x :: l
  end.

Definition sortDescBy {A : Type} (key : A -> nat) (l : list A) : list A :=
  fold_left (fun acc x => insertDescBy key x acc) l [].

(** [Object.keys(OPS).sort((a, b) => b.length - a.length)], each key with
    the symbol [OPS[key]]. *)
Definition opKeys : list (jsstring * N) :=
  sortDescBy (fun kv => length (fst kv)) OPS.

(** The [for (const key of opKeys)] loop: the first key the remainder
    starts with. *)
Definition matchOperator (remainder : jsstring) : option (jsstring * N) :=
  find (fun kv => startsWith remainder (fst kv)) opKeys.

(** One turn of the [while] loop for a position where no operator alias
    matched: the token pushed for [char], if any. *)
Definition charToken (char : N) : option Token :=
  if existsb (N.eqb char) SYMBOLS
     || existsb (N.eqb char)
          [ch_lbracket; ch_rbracket; ch_lbrace; ch_rbrace; ch_lparen; ch_rparen]
  then Some {| tok_type := symbolType char; tok_value := [char] |}
  else if isUpperLetter char || (char =? ch_one)%N || (char =? ch_zero)%N
  then Some {| tok_type := T_VAR; tok_value := [char] |}
  else if (char =? ch_minus)%N
  then Some {| tok_type := T_NOT; tok_value := [ch_minus] |}
  else None.

(** The scanning loop over [str.slice(i)].  [skip] counts the code units
    still to be passed over after [i += key.length]. *)
Fixpoint scanTokens (skip : nat) (str : jsstring) : list Token :=
  match str with
  | [] => [eofToken]
  | char :: rest =>
      match skip with
      | S k => scanTokens k rest
      | O =>
          match matchOperator str with
          | Some (key, symbol) =>
              {| tok_type := operatorType symbol; tok_value := [symbol] |}
                :: scanTokens (length key - 1) rest
          | None =>
              match charToken char with
              | Some t => t :: scanTokens 0 rest
              | None => scanTokens 0 rest
              end
          end
      end
  end.

Section Tokenizer.

(** [String.prototype.toUpperCase] *)
Variable toUpperCase : jsstring -> jsstring.

Definition tokenize (input : jsstring) : list Token :=
  let str := filter (fun c => negb (isWhitespace c)) (toUpperCase input) in
  scanTokens 0 str.

End Tokenizer.

(** Upper-casing of the ASCII letters; it agrees with [toUpperCase] on
    every string of ASCII code units. *)
Definition upperAscii (s : jsstring) : jsstring :=
  map (fun c => if ((97 <=? c) && (c <=? 122))%N then (c - 32)%N else c) s.

(* ------------------------------------------------------------------ *)
(** ** Abstract syntax trees *)

(** [ASTNode].  The node kinds the parser builds: ['VAR'] carries [value],
    ['NOT'] carries [operand], the five binary kinds carry [left] and
    [right].  [id] is the number [k] of the identifier [node-k]. *)
Inductive ASTNode :=
| VarNode (id : nat) (value expression : jsstring) (depth : nat)
| NotNode (id : nat) (operand : ASTNode) (expression : jsstring) (depth : nat)
| BinNode (id : nat) (type : BinOp) (left right : ASTNode)
          (expression : jsstring) (depth : nat).

(** [Operator | 'VAR'], the type of [node.type]. *)
Inductive NodeType := N_VAR | N_NOT | N_BIN (op : BinOp).

Definition node_type (n : ASTNode) : NodeType :=
  match n with
  | VarNode _ _ _ _ => N_VAR
  | NotNode _ _ _ _ => N_NOT
  | BinNode _ op _ _ _ _ => N_BIN op
  end.

Definition node_id (n : ASTNode) : nat :=
  match n with
  | VarNode id _ _ _ | NotNode id _ _ _ | BinNode id _ _ _ _ _ => id
  end.

Definition node_expression (n : ASTNode) : jsstring :=
  match n with
  | VarNode _ _ e _ | NotNode _ _ e _ | BinNode _ _ _ _ e _ => e
  end.

Definition node_depth (n : ASTNode) : nat :=
  match n with
  | VarNode _ _ _ d | NotNode _ _ _ d | BinNode _ _ _ _ _ d => d
  end.

(** [node.expression = e] *)
Definition setExpression (n : ASTNode) (e : jsstring) : ASTNode :=
  match n with
  | VarNode id v _ d => VarNode id v e d
  | NotNode id o _ d => NotNode id o e d
  | BinNode id op l r _ d => BinNode id op l r e d
  end.

(* ------------------------------------------------------------------ *)
(** ** Parser *)

Record Parser := {
  tokens : list Token;
  pos : nat;
  nodeIdCounter : nat
}.

Definition newParser (toks : list Token) : Parser :=
  {| tokens := toks; pos := 0; nodeIdCounter := 0 |}.

(** [this.tokens[this.pos] || { type: 'EOF', value: '' }] *)
Definition peek (p : Parser) : Token := nth (pos p) (tokens p) eofToken.

(** [this.tokens[this.pos++] || ...] *)
Definition consume (p : Parser) : Token * Parser :=
  (peek p,
   {| tokens := tokens p; pos := S (pos p); nodeIdCounter := nodeIdCounter p |}).

(** [this.nodeIdCounter++] *)
Definition generateId (p : Parser) : nat * Parser :=
  (nodeIdCounter p,
   {| tokens := tokens p; pos := pos p; nodeIdCounter := S (nodeIdCounter p) |}).

(** The precedence levels, one per parsing method. *)
Inductive Level := LevelBin (op : BinOp) | LevelNot | LevelFactor.

(** The method each binary level calls for its operands. *)
Definition nextLevel (op : BinOp) : Level :=
  match op with
  | IFF => LevelBin IMPLIES
  | IMPLIES => LevelBin XOR
  | XOR => LevelBin OR
  | OR => LevelBin AND
  | AND => LevelNot
  end.

Definition opGlyph (op : BinOp) : N :=
  match op with
  | IFF => ch_iff
  | IMPLIES => ch_implies
  | XOR => ch_xor
  | OR => ch_or
  | AND => ch_and
  end.

(** [`${left.expression} op ${right.expression}`] *)
Definition binExpression (op : BinOp) (l r : ASTNode) : jsstring :=
  node_expression l ++ [32%N; opGlyph op; 32%N] ++ node_expression r.

Definition isOpenBracket (t : TokenType) : bool :=
  match t with
  | LPAREN | LBRACKET | LBRACE => true
  | _ => false
  end.

Definition expectedCloseType (openType : TokenType) : TokenType :=
  match openType with
  | LPAREN => RPAREN
  | LBRACKET => RBRACKET
  | _ => RBRACE
  end.

Definition expectedCloseChar (openType : TokenType) : N :=
  match openType with
  | LPAREN => ch_rparen
  | LBRACKET => ch_rbracket
  | _ => ch_rbrace
  end.

Definition placeholder (id : nat) : ASTNode :=
  VarNode id [ch_question] [ch_question] 0.

(** The recursive-descent methods.  [parseAt fuel (LevelBin op)] is the
    method for the binary connective [op] ([parseIFF], [parseImplies],
    [parseXor], [parseOr], [parseAnd] differ in the connective only),
    [parseLoop] its [while] loop over the node [lhs] built so far
    (the variable [left] of the source), [LevelNot] is [parseNot] and
    [LevelFactor] is [parseFactor].  [fuel] bounds the unfoldings, a
    call or a turn of the loop each; [None] means it ran out. *)
Fixpoint parseAt (fuel : nat) (lv : Level) (p : Parser)
  : option (ASTNode * Parser) :=
  match fuel with
  | O => None
  | S fuel' =>
      match lv with
      | LevelBin op =>
          match parseAt fuel' (nextLevel op) p with
          | Some (lhs, p1) => parseLoop fuel' op lhs p1
          | None => None
          end
      | LevelNot =>
          if toktype_eqb (tok_type (peek p)) T_NOT then
            let (token, p1) := consume p in
            match parseAt fuel' LevelNot p1 with
            | Some (operand, p2) =>
                let (id, p3) := generateId p2 in
                Some (NotNode id operand
                        (tok_value token ++ node_expression operand)
                        (node_depth operand + 1), p3)
            | None => None
            end
          else parseAt fuel' LevelFactor p
      | LevelFactor =>
          let token := peek p in
          if isOpenBracket (tok_type token) then
            let openType := tok_type token in
            let openChar := tok_value token in
            let (_, p1) := consume p in
            match parseAt fuel' (LevelBin IFF) p1 with
            | Some (node, p2) =>
                let closeToken := peek p2 in
                if toktype_eqb (tok_type closeToken) (expectedCloseType openType)
                then
                  let (_, p3) := consume p2 in
                  Some (setExpression node
                          (openChar ++ node_expression node
                             ++ [expectedCloseChar openType]), p3)
                else Some (node, p2)
            | None => None
            end
          else if toktype_eqb (tok_type token) T_VAR then
            let (_, p1) := consume p in
            let (id, p2) := generateId p1 in
            Some (VarNode id (tok_value token) (tok_value token) 0, p2)
          else
            let (_, p1) := consume p in
            let (id, p2) := generateId p1 in
            Some (placeholder id, p2)
      end
  end
with parseLoop (fuel : nat) (op : BinOp) (lhs : ASTNode) (p : Parser)
  : option (ASTNode * Parser) :=
  match fuel with
  | O => None
  | S fuel' =>
      if toktype_eqb (tok_type (peek p)) (T_BIN op) then
        let (_, p1) := consume p in
        match parseAt fuel' (nextLevel op) p1 with
        | Some (rhs, p2) =>
            let (id, p3) := generateId p2 in
            parseLoop fuel' op
              (BinNode id op lhs rhs (binExpression op lhs rhs)
                 (Nat.max (node_depth lhs) (node_depth rhs) + 1)) p3
        | None => None
        end
      else Some (lhs, p)
  end.

Definition parseIFF (fuel : nat) := parseAt fuel (LevelBin IFF).
Definition parseImplies (fuel : nat) := parseAt fuel (LevelBin IMPLIES).
Definition parseXor (fuel : nat) := parseAt fuel (LevelBin XOR).
Definition parseOr (fuel : nat) := parseAt fuel (LevelBin OR).
Definition parseAnd (fuel : nat) := parseAt fuel (LevelBin AND).
Definition parseNot (fuel : nat) := parseAt fuel LevelNot.
Definition parseFactor (fuel : nat) := parseAt fuel LevelFactor.

(** Unfoldings that always suffice for a token list (see
    [parseAt_total]). *)
Definition parseFuel (toks : list Token) : nat := 12 * length toks + 12.

(** [new Parser(tokens).parse()]; the look at the next token after
    [parseIFF] has no effect.  This is the tree [parse] returns when the
    call stack suffices; [parseWithin] is the same method with the frames
    counted. *)
Definition parse (toks : list Token) : option ASTNode :=
  match parseIFF (parseFuel toks) (newParser toks) with
  | Some (node, _) => Some node
  | None => None
  end.

(* ------------------------------------------------------------------ *)
(** ** JavaScript objects used as maps *)

(** Own properties in property order: array-index keys in ascending
    numeric order first, then the other keys in insertion order. *)
Definition JSObject := list (jsstring * bool).

Definition isDigit (c : N) : bool := ((48 <=? c) && (c <=? 57))%N.

Definition digitsValue (s : jsstring) : N :=
  fold_left (fun acc c => (acc * 10 + (c - 48))%N) s 0%N.

(** The array index a key denotes, if it is a canonical numeric string
    below 2^32 - 1. *)
Definition arrayIndex (k : jsstring) : option N :=
  match k with
  | [] => None
  | c :: rest =>
      if forallb isDigit k
         && (negb (c =? ch_zero)%N || match rest with [] => true | _ => false end)
         && (length k <=? 10)
         && (digitsValue k <? 4294967295)%N
      then Some (digitsValue k) else None
  end.

Fixpoint obj_get (o : JSObject) (k : jsstring) : option bool :=
  match o with
  | [] => None
  | (k', v) :: rest => if str_eqb k k' then Some v else obj_get rest k
  end.

Fixpoint obj_update (o : JSObject) (k : jsstring) (v : bool) : JSObject :=
  match o with
  | [] => []
  | (k', v') :: rest =>
      if str_eqb k k' then (k', v) :: rest else (k', v') :: obj_update rest k v
  end.

(** Placement of a new array-index key [k] with index [n]. *)
Fixpoint obj_insertIndex (o : JSObject) (n : N) (k : jsstring) (v : bool)
  : JSObject :=
  match o with
  | [] => [(k, v)]
  | (k', v') :: rest =>
      match arrayIndex k' with
      | Some n' =>
          if (n' <? n)%N then (k', v') :: obj_insertIndex rest n k v
          else (k, v) :: o
      | None => (k, v) :: o
      end
  end.

(** [o[k] = v] *)
Definition obj_set (o : JSObject) (k : jsstring) (v : bool) : JSObject :=
  match obj_get o k with
  | Some _ => obj_update o k v
  | None =>
      match arrayIndex k with
      | Some n => obj_insertIndex o n k v
      | None => o ++ [(k, v)]
      end
  end.

(** [Object.values(o)] *)
Definition obj_values (o : JSObject) : list bool := map snd o.

(** A property read coerced to a boolean: a missing key reads as
    [undefined], which [??], [||] and [if] all treat as [false]. *)
Definition truthy (v : option bool) : bool :=
  match v with
  | Some b => b
  | None => false
  end.

(* ------------------------------------------------------------------ *)
(** ** Evaluator *)

Fixpoint evaluateAST (node : ASTNode) (context : JSObject) : bool :=
  match node with
  | VarNode _ value _ _ =>
      if str_eqb value [ch_one] then true
      else if str_eqb value [ch_zero] then false
      else truthy (obj_get context value)
  | NotNode _ operand _ _ => negb (evaluateAST operand context)
  | BinNode _ type lhs rhs _ _ =>
      let l := evaluateAST lhs context in
      let r := evaluateAST rhs context in
      match type with
      | AND => l && r
      | OR => l || r
      | XOR => negb (Bool.eqb l r)
      | IMPLIES => negb l || r
      | IFF => Bool.eqb l r
      end
  end.

Definition pushIfNew (node : ASTNode) (acc : list ASTNode) : list ASTNode :=
  match find (fun n => str_eqb (node_expression n) (node_expression node)) acc with
  | Some _ => acc
  | None => acc ++ [node]
  end.

(** Post-order walk that keeps the first node of each expression string. *)
Fixpoint extractSubExpressions (node : ASTNode) (acc : list ASTNode)
  : list ASTNode :=
  match node with
  | VarNode _ _ _ _ => pushIfNew node acc
  | NotNode _ operand _ _ =>
      pushIfNew node (extractSubExpressions operand acc)
  | BinNode _ _ lhs rhs _ _ =>
      pushIfNew node
        (extractSubExpressions rhs (extractSubExpressions lhs acc))
  end.

Definition getDirectDependencies (node : ASTNode) : list nat :=
  match node with
  | VarNode _ _ _ _ => []
  | NotNode _ operand _ _ => [node_id operand]
  | BinNode _ _ lhs rhs _ _ => [node_id lhs; node_id rhs]
  end.

(** [calculateComplexity], returning [(operators, depth)]. *)
Fixpoint calculateComplexity (node : ASTNode) : nat * nat :=
  match node with
  | VarNode _ _ _ _ => (0, 1)
  | NotNode _ operand _ _ =>
      let c := calculateComplexity operand in
      (1 + fst c, snd c + 1)
  | BinNode _ _ lhs rhs _ _ =>
      let l := calculateComplexity lhs in
      let r := calculateComplexity rhs in
      (1 + (fst l + fst r), Nat.max (snd l) (snd r) + 1)
  end.

(* ------------------------------------------------------------------ *)
(** ** Settings and label formatting *)

Inductive NegationHandling := preserve | normalize | simplify.
Inductive TruthValues := TV_01 | TV_FT.
Inductive RowOrder := Ascending (* '0→1' *) | Descending (* '1→0' *).

Record LogicSettings := {
  negationHandling : NegationHandling;
  truthValues : TruthValues;
  rowOrder : RowOrder
}.

Record TableSettings := {
  stickyHeaders : bool;
  showSubExpressions : bool;
  highlightDependencies : bool;
  dense : bool
}.

(** [AppSettings]; the [ai] group is never read by the engine. *)
Record AppSettings := { logic : LogicSettings; table : TableSettings }.

Definition DEFAULT_SETTINGS : AppSettings :=
  {| logic := {| negationHandling := preserve; truthValues := TV_01;
                 rowOrder := Ascending |};
     table := {| stickyHeaders := true; showSubExpressions := true;
                 highlightDependencies := true; dense := false |} |}.

(** [expr.replace(/[-!~]/g, '¬')] *)
Definition normalizeNegations (expr : jsstring) : jsstring :=
  map (fun ch =>
         if ((ch =? ch_minus) || (ch =? ch_bang) || (ch =? ch_tilde))%N
         then ch_not else ch) expr.

(** [s.replace(/¬¬/g, '')]: one left-to-right pass over the
    non-overlapping matches. *)
Fixpoint removeDoubleNegations (s : jsstring) : jsstring :=
  match s with
  | a :: ((b :: rest) as t) =>
      if ((a =? ch_not) && (b =? ch_not))%N then removeDoubleNegations rest
      else a :: removeDoubleNegations t
  | _ => s
  end.

(** [while (normalized !== prev) { prev = normalized; normalized = ... }] *)
Fixpoint simplifyLoop (fuel : nat) (normalized prev : jsstring)
  : option jsstring :=
  match fuel with
  | O => None
  | S fuel' =>
      if str_eqb normalized prev then Some normalized
      else simplifyLoop fuel' (removeDoubleNegations normalized) normalized
  end.

(** The loop is given [length + 2] turns, which always suffice (see
    [simplifyLoop_total]); the final [return expr] is not reached. *)
Definition formatLabel (expr : jsstring) (settings : AppSettings) : jsstring :=
  match negationHandling (logic settings) with
  | preserve => expr
  | normalize => normalizeNegations expr
  | simplify =>
      let normalized := normalizeNegations expr in
      match simplifyLoop (length normalized + 2) normalized [] with
      | Some [] => [ch_not; ch_not]
      | Some result => result
      | None => expr
      end
  end.

(* ------------------------------------------------------------------ *)
(** ** Columns and rows *)

(** Column identifiers: [`var-${v}`] or the identifier of a node. *)
Inductive ColumnId := VarColumnId (v : jsstring) | NodeColumnId (k : nat).

Record TableColumn := {
  col_id : ColumnId;
  label : jsstring;
  expression : jsstring;
  isInput : bool;
  isOutput : bool;
  astId : option nat;
  dependencyIds : option (list nat)
}.

(** [row_id] is the number [i] of the identifier [row-i]. *)
Record TruthTableRow := {
  row_id : nat;
  values : JSObject;
  index : nat
}.

(** [n.id === col.astId] *)
Definition idMatches (col : TableColumn) (n : ASTNode) : bool :=
  match astId col with
  | Some k => node_id n =? k
  | None => false
  end.

(** The context [recalculateRow] builds from the input columns of a row. *)
Definition inputContext (row : TruthTableRow) (columns : list TableColumn)
  : JSObject :=
  fold_left
    (fun context c =>
       obj_set context (expression c)
         (truthy (obj_get (values row) (expression c))))
    (filter isInput columns) [].

Definition recalculateRow (row : TruthTableRow) (columns : list TableColumn)
  (ast : ASTNode) : TruthTableRow :=
  let subExprNodes := extractSubExpressions ast [] in
  let context := inputContext row columns in
  let newValues :=
    fold_left
      (fun newValues col =>
         if isInput col then newValues
         else
           let node :=
             match find (idMatches col) subExprNodes with
             | Some n => Some n
             | None => if idMatches col ast then Some ast else None
             end in
           match node with
           | Some n => obj_set newValues (expression col) (evaluateAST n context)
           | None => newValues
           end)
      columns (values row) in
  {| row_id := row_id row; values := newValues; index := index row |}.

(* ------------------------------------------------------------------ *)
(** ** RightAway engine *)

Record RightAwayResult := {
  isApplicable : bool;
  resultValue : option bool;
  explanation : jsstring
}.

Definition isZero (n : ASTNode) : bool :=
  match n with
  | VarNode _ value _ _ => str_eqb value [ch_zero]
  | _ => false
  end.

Definition isOne (n : ASTNode) : bool :=
  match n with
  | VarNode _ value _ _ => str_eqb value [ch_one]
  | _ => false
  end.

Definition operandExpressionIs (a : ASTNode) (e : jsstring) : bool :=
  match a with
  | NotNode _ operand _ _ => str_eqb (node_expression operand) e
  | _ => false
  end.

Definition isNegationOf (a b : ASTNode) : bool :=
  if operandExpressionIs a (node_expression b) then true
  else if operandExpressionIs b (node_expression a) then true
  else false.

Definition rightAwayResult (v : bool) (why : jsstring) : RightAwayResult :=
  {| isApplicable := true; resultValue := Some v; explanation := why |}.

Definition analyzeRightAwayEngine (node : ASTNode) : option RightAwayResult :=
  match node with
  | BinNode _ type lhs rhs _ _ =>
      if binop_eqb type IMPLIES && isZero lhs then
        Some (rightAwayResult true
                (lit "Antecedent is 0. Implication is always True."))
      else if binop_eqb type IMPLIES && isOne rhs then
        Some (rightAwayResult true
                (lit "Consequent is 1. Implication is always True."))
      else if binop_eqb type IMPLIES && isOne lhs && isZero rhs then
        Some (rightAwayResult false (lit "True cannot imply False."))
      else if binop_eqb type AND && (isZero lhs || isZero rhs) then
        Some (rightAwayResult false (lit "AND with 0 is always False."))
      else if binop_eqb type OR && (isOne lhs || isOne rhs) then
        Some (rightAwayResult true (lit "OR with 1 is always True."))
      else if (binop_eqb type IMPLIES || binop_eqb type IFF)
              && str_eqb (node_expression lhs) (node_expression rhs) then
        Some (rightAwayResult true
                (lit "Self-implication or Equivalence is always True."))
      else if binop_eqb type AND
              && (isNegationOf lhs rhs || isNegationOf rhs lhs) then
        Some (rightAwayResult false
                (lit "Contradiction (X " ++ [ch_and] ++ lit " "
                   ++ [ch_not] ++ lit "X) detected."))
      else if binop_eqb type OR
              && (isNegationOf lhs rhs || isNegationOf rhs lhs) then
        Some (rightAwayResult true
                (lit "Tautology (X " ++ [ch_or] ++ lit " "
                   ++ [ch_not] ++ lit "X) detected."))
      else None
  | _ => None
  end.

(* ------------------------------------------------------------------ *)
(** ** Shortened truth-table helper *)

Inductive Classification := Tautology | Contradiction | Contingency.

Record STTTResult := {
  criticalRowId : option nat;
  reasoning : jsstring
}.

Fixpoint decimalDigits (fuel n : nat) (acc : jsstring) : jsstring :=
  match fuel with
  | O => acc
  | S fuel' =>
      let acc' := (48 + N.of_nat (n mod 10))%N :: acc in
      if n / 10 =? 0 then acc' else decimalDigits fuel' (n / 10) acc'
  end.

(** [`${n}`] for a non-negative integer. *)
Definition numberToString (n : nat) : jsstring := decimalDigits (S n) n [].

(** [r.values[key]] in a boolean position. *)
Definition rowValue (key : jsstring) (row : TruthTableRow) : bool :=
  truthy (obj_get (values row) key).

Definition performSTTT (rows : list TruthTableRow) (astExpression : jsstring)
  (classification : Classification) : option STTTResult :=
  match classification with
  | Tautology =>
      Some {| criticalRowId := None;
              reasoning :=
                lit "No counter-example found (all rows True). Proved Tautology." |}
  | Contradiction =>
      Some {| criticalRowId := None;
              reasoning := lit "No row evaluated to True. Proved Contradiction." |}
  | Contingency =>
      let falseRow := find (fun r => negb (rowValue astExpression r)) rows in
      let trueRow := find (rowValue astExpression) rows in
      match falseRow, trueRow with
      | Some fr, Some _ =>
          Some {| criticalRowId := Some (row_id fr);
                  reasoning :=
                    lit "Proven Contingent. Row "
                      ++ numberToString (index fr + 1)
                      ++ lit " is False, while others are True." |}
      | _, _ => None
      end
  end.

(* ------------------------------------------------------------------ *)
(** ** Karnaugh map *)

Record KMapCell := { value : bool; mintermIndex : N }.
Record KMapGroupCell := { cell_r : nat; cell_c : nat }.
Record KMapGroup := {
  cells : list KMapGroupCell;
  color : jsstring;
  term : jsstring
}.

Record KMapData := {
  grid : list (list KMapCell);
  rowLabels : list jsstring;
  colLabels : list jsstring;
  km_variables : list jsstring;
  groups : list KMapGroup;
  minimizedExpression : jsstring
}.

Definition getGrayCode (n : nat) : list jsstring :=
  if n =? 1 then [lit "0"; lit "1"]
  else if n =? 2 then [lit "00"; lit "01"; lit "11"; lit "10"]
  else [].

(** [parseInt(bits, 2)] on a string of binary digits. *)
Definition parseBinary (bits : jsstring) : N :=
  fold_left (fun acc ch => (2 * acc + (ch - 48))%N) bits 0%N.

(** [Set.prototype.add] on a set kept in insertion order. *)
Definition set_add (m : N) (s : list N) : list N :=
  if existsb (N.eqb m) s then s else s ++ [m].

Definition set_has (s : list N) (m : N) : bool := existsb (N.eqb m) s.

(** [grid[rr][cc]] *)
Definition cellAt (g : list (list KMapCell)) (rr cc : nat) : KMapCell :=
  nth cc (nth rr g []) {| value := false; mintermIndex := 0 |}.

Definition colors : list jsstring :=
  [ lit "bg-red-500/20 border-red-500"; lit "bg-blue-500/20 border-blue-500";
    lit "bg-green-500/20 border-green-500";
    lit "bg-yellow-500/20 border-yellow-500";
    lit "bg-purple-500/20 border-purple-500";
    lit "bg-orange-500/20 border-orange-500" ].

(** [(m >> k) & 1] for the small non-negative operands that occur. *)
Definition bitAt (m : N) (k : nat) : N :=
  N.land (N.shiftr m (N.of_nat k)) 1.

Definition generateTerm (minterms : list N) (rowVars colVars : list jsstring)
  (numRows numCols : nat) : jsstring :=
  let allVars := rowVars ++ colVars in
  let totalBits := length allVars in
  let term :=
    fold_left
      (fun term i =>
         match map (fun m => bitAt m (totalBits - 1 - i)) minterms with
         | [] => term
         | bitVal :: others =>
             if forallb (N.eqb bitVal) others then
               term ++ (if (bitVal =? 1)%N then nth i allVars []
                        else ch_not :: nth i allVars [])
             else term
         end)
      (seq 0 totalBits) [] in
  match term with
  | [] => lit "1"
  | _ => term
  end.

(** A candidate shape [{h, w, area}]. *)
Record Size := { size_h : nat; size_w : nat; area : nat }.

(** [Number.isInteger(Math.log2(n))] for a positive integer [n]. *)
Definition isPowerOfTwo (n : nat) : bool :=
  (2 ^ N.log2 (N.of_nat n) =? N.of_nat n)%N.

Definition candidateSizes (rows cols : nat) : list Size :=
  sortDescBy area
    (flat_map
       (fun h =>
          flat_map
            (fun w =>
               if (h <=? rows) && (w <=? cols) && isPowerOfTwo (h * w)
               then [{| size_h := h; size_w := w; area := h * w |}]
               else [])
            [4; 2; 1])
       [4; 2; 1]).

(** The two inner [for] loops over [i] and [j] of one candidate: [None]
    when a covered cell is not set ([allOnes] false), otherwise the cells
    and minterms collected. *)
Fixpoint collectCells (g : list (list KMapCell)) (rows cols r c : nat)
  (offsets : list (nat * nat)) (cells : list KMapGroupCell)
  (currentMinterms : list N) : option (list KMapGroupCell * list N) :=
  match offsets with
  | [] => Some (cells, currentMinterms)
  | (i, j) :: rest =>
      let rr := (r + i) mod rows in
      let cc := (c + j) mod cols in
      if value (cellAt g rr cc) then
        collectCells g rows cols r c rest
          (cells ++ [{| cell_r := rr; cell_c := cc |}])
          (set_add (mintermIndex (cellAt g rr cc)) currentMinterms)
      else None
  end.

Definition offsetsOf (size : Size) : list (nat * nat) :=
  flat_map (fun i => map (fun j => (i, j)) (seq 0 (size_w size)))
    (seq 0 (size_h size)).

(** The solver's mutable state: [groups] and [coveredMinterms]. *)
Definition SolverState := (list KMapGroup * list N)%type.

(** The body of the innermost origin loop for one [(size, r, c)]. *)
Definition tryCandidate (g : list (list KMapCell)) (rows cols : nat)
  (rowVars colVars rowGray colGray : list jsstring)
  (size : Size) (r c : nat) (st : SolverState) : SolverState :=
  let (groups, coveredMinterms) := st in
  match collectCells g rows cols r c (offsetsOf size) [] [] with
  | Some (cells, currentMinterms) =>
      let coversNew :=
        existsb (fun m => negb (set_has coveredMinterms m)) currentMinterms in
      if coversNew then
        let term :=
          generateTerm currentMinterms rowVars colVars
            (length rowGray) (length colGray) in
        (groups ++ [{| cells := cells;
                       color := nth (length groups mod length colors) colors [];
                       term := term |}],
         fold_left (fun s m => set_add m s) currentMinterms coveredMinterms)
      else st
  | None => st
  end.

Definition solveKMap (g : list (list KMapCell)) (onMinterms : list N)
  (rowVars colVars rowGray colGray : list jsstring)
  : list KMapGroup * jsstring :=
  let rows := length g in
  let cols := length (nth 0 g []) in
  let sizes := candidateSizes rows cols in
  let final :=
    fold_left
      (fun st size =>
         fold_left
           (fun st r =>
              fold_left
                (fun st c =>
                   tryCandidate g rows cols rowVars colVars rowGray colGray
                     size r c st)
                (seq 0 cols) st)
           (seq 0 rows) st)
      sizes ([], []) in
  (fst final, join (lit " " ++ [ch_or] ++ lit " ") (map term (fst final))).

(** The minterm of a row: [minterm |= 1 << (variables.length - 1 - i)] for
    every variable that is set. *)
Definition rowMinterm (variables : list jsstring) (row : TruthTableRow) : N :=
  fold_left
    (fun minterm iv =>
       if rowValue (snd iv) row
       then N.lor minterm (N.shiftl 1 (N.of_nat (length variables - 1 - fst iv)))
       else minterm)
    (combine (seq 0 (length variables)) variables) 0%N.

(** [Object.values(row.values)[Object.values(row.values).length - 1]],
    read in boolean positions only. *)
Definition lastValue (row : TruthTableRow) : bool :=
  last (obj_values (values row)) false.

(** [Map.prototype.get] on the bindings, latest first. *)
Definition mintermLookup (m : list (N * bool)) (k : N) : option bool :=
  match find (fun kv => (fst kv =? k)%N) m with
  | Some kv => Some (snd kv)
  | None => None
  end.

(** The two [for] loops that fill [grid] from the Gray-code labels. *)
Definition buildGrid (rowGray colGray : list jsstring)
  (mintermMap : list (N * bool)) : list (list KMapCell) :=
  map (fun rbits =>
         map (fun cbits =>
                let mintermIndex := parseBinary (rbits ++ cbits) in
                {| value := truthy (mintermLookup mintermMap mintermIndex);
                   mintermIndex := mintermIndex |})
           colGray)
    rowGray.

Definition generateKMap (variables : list jsstring) (rows : list TruthTableRow)
  : option KMapData :=
  let numVars := length variables in
  if (numVars <? 2) || (4 <? numVars) then None
  else
    let rowVars :=
      if numVars =? 2 then [nth 0 variables []]
      else if numVars =? 3 then [nth 0 variables []]
      else firstn 2 variables in
    let colVars :=
      if numVars =? 2 then [nth 1 variables []]
      else if numVars =? 3 then skipn 1 variables
      else skipn 2 variables in
    let rowGray := getGrayCode (length rowVars) in
    let colGray := getGrayCode (length colVars) in
    let mintermMap :=
      fold_left
        (fun acc row => (rowMinterm variables row, lastValue row) :: acc)
        rows [] in
    let onMinterms :=
      fold_left
        (fun acc row =>
           if lastValue row then set_add (rowMinterm variables row) acc else acc)
        rows [] in
    let g := buildGrid rowGray colGray mintermMap in
    let (groups, minimizedExpression) :=
      solveKMap g onMinterms rowVars colVars rowGray colGray in
    Some {| grid := g; rowLabels := rowGray; colLabels := colGray;
            km_variables := variables; groups := groups;
            minimizedExpression :=
              match minimizedExpression with
              | [] => match onMinterms with [] => lit "0" | _ => lit "1" end
              | _ => minimizedExpression
              end |}.

(* ------------------------------------------------------------------ *)
(** ** Implication forms *)

Record ImplicationForms := {
  original : jsstring;
  converse : jsstring;
  inverse : jsstring;
  contrapositive : jsstring
}.

(** [s.slice(1, -1)] *)
Definition sliceInner (s : jsstring) : jsstring := removelast (tl s).

Definition clean (s : jsstring) : jsstring :=
  if startsWith s [ch_lparen] && endsWith s [ch_rparen] then sliceInner s
  else s.

Definition arrow : jsstring := [32%N; ch_implies; 32%N].

Definition negated (s : jsstring) : jsstring :=
  [ch_not; ch_lparen] ++ s ++ [ch_rparen].

Definition generateImplicationForms (node : ASTNode) : option ImplicationForms :=
  match node with
  | BinNode _ IMPLIES lhs rhs _ _ =>
      let P := node_expression lhs in
      let Q := node_expression rhs in
      let pClean := clean P in
      let qClean := clean Q in
      Some {| original := P ++ arrow ++ Q;
              converse := Q ++ arrow ++ P;
              inverse := negated pClean ++ arrow ++ negated qClean;
              contrapositive := negated qClean ++ arrow ++ negated pClean |}
  | _ => None
  end.

(* ------------------------------------------------------------------ *)
(** ** Main analysis *)

Record ComplexityMetrics := {
  operators : nat;
  cx_depth : nat;
  cx_variables : nat;
  totalRows : nat
}.

Record AnalysisResult := {
  ast : ASTNode;
  columns : list TableColumn;
  rows : list TruthTableRow;
  variables : list jsstring;
  classification : Classification;
  mainConnective : NodeType;
  implicationForms : option ImplicationForms;
  kMapData : option KMapData;
  rightAway : option RightAwayResult;
  sttt : option STTTResult;
  complexity : ComplexityMetrics
}.

(** [ToInt32] *)
Definition toInt32 (z : Z) : Z :=
  let m := (z mod 2 ^ 32)%Z in
  if (m <? 2 ^ 31)%Z then m else (m - 2 ^ 32)%Z.

(** [((valIndex >> shift) & 1) === 1]: the left operand is taken as a
    32-bit integer and the shift count modulo 32. *)
Definition bitIsSet (valIndex shift : nat) : bool :=
  (Z.land (Z.shiftr (toInt32 (Z.of_nat valIndex)) (Z.of_nat (shift mod 32))) 1
   =? 1)%Z.

(** Insertion sort for [Array.prototype.sort()] on single-code-unit
    strings (the default order compares code units). *)
Fixpoint insertSorted (x : jsstring) (l : list jsstring) : list jsstring :=
  match l with
  | [] => [x]
  | y :: rest =>
      if (hd 0%N y <=? hd 0%N x)%N then y :: insertSorted x rest else x :: l
  end.

Definition classify (tautology contradiction : bool) : Classification :=
  let classification := Contingency in
  let classification := if tautology then Tautology else classification in
  if contradiction then Contradiction else classification.

(** The two flags after the rows have been scanned. *)
Definition scanFlags (resultExpr : jsstring) (rows : list TruthTableRow)
  : bool * bool :=
  fold_left
    (fun flags row =>
       if rowValue resultExpr row then (fst flags, false)
       else (false, snd flags))
    rows (true, true).

(** The context of the row with value index [valIndex]: bits are handed
    out most significant first, in declaration order. *)
Definition rowContext (declaredVariables : list jsstring) (valIndex : nat)
  : JSObject :=
  fold_left
    (fun context iv =>
       obj_set context (snd iv)
         (bitIsSet valIndex (length declaredVariables - 1 - fst iv)))
    (combine (seq 0 (length declaredVariables)) declaredVariables) [].

(** The [finalColumns.forEach] of one row. *)
Definition evaluateColumns (ast : ASTNode) (subExprNodes : list ASTNode)
  (finalColumns : list TableColumn) (context : JSObject) : JSObject :=
  fold_left
    (fun rowValues col =>
       if isInput col then
         obj_set rowValues (expression col)
           (truthy (obj_get context (expression col)))
       else
         match find (idMatches col) subExprNodes with
         | Some node =>
             obj_set rowValues (expression col) (evaluateAST node context)
         | None =>
             if isOutput col then
               obj_set rowValues (expression col) (evaluateAST ast context)
             else rowValues
         end)
    finalColumns [].

Definition varColumns (declaredVariables : list jsstring) : list TableColumn :=
  map (fun v =>
         {| col_id := VarColumnId v; label := v; expression := v;
            isInput := true; isOutput := false; astId := None;
            dependencyIds := None |})
    declaredVariables.

Definition stepColumns (ast : ASTNode) (subExprNodes : list ASTNode)
  (settings : AppSettings) : list TableColumn :=
  map (fun n =>
         {| col_id := NodeColumnId (node_id n);
            label := formatLabel (node_expression n) settings;
            expression := node_expression n;
            isInput := false; isOutput := false;
            astId := Some (node_id n);
            dependencyIds := Some (getDirectDependencies n) |})
    (filter
       (fun n =>
          match node_type n with N_VAR => false | _ => true end
          && negb (str_eqb (node_expression n) (node_expression ast)))
       subExprNodes).

Definition resultColumn (ast : ASTNode) (settings : AppSettings)
  : TableColumn :=
  {| col_id := NodeColumnId (node_id ast);
     label := formatLabel (node_expression ast) settings;
     expression := node_expression ast;
     isInput := false; isOutput := true;
     astId := Some (node_id ast);
     dependencyIds := Some (getDirectDependencies ast) |}.

Definition finalColumns (ast : ASTNode) (declaredVariables : list jsstring)
  (settings : AppSettings) : list TableColumn :=
  if showSubExpressions (table settings)
  then varColumns declaredVariables
         ++ stepColumns ast (extractSubExpressions ast []) settings
         ++ [resultColumn ast settings]
  else varColumns declaredVariables ++ [resultColumn ast settings].

(** [valIndex]: [i], or [(numRows - 1) - i] when the row order is '1→0'. *)
Definition valIndexOf (settings : AppSettings) (numRows i : nat) : nat :=
  match rowOrder (logic settings) with
  | Descending => (numRows - 1) - i
  | Ascending => i
  end.

(** The body of the [for (let i = 0; i < numRows; i++)] loop. *)
Definition tableRow (ast : ASTNode) (declaredVariables : list jsstring)
  (settings : AppSettings) (i : nat) : TruthTableRow :=
  let numRows := 2 ^ length declaredVariables in
  let valIndex := valIndexOf settings numRows i in
  let context := rowContext declaredVariables valIndex in
  {| row_id := i;
     values :=
       evaluateColumns ast (extractSubExpressions ast [])
         (finalColumns ast declaredVariables settings) context;
     index := i |}.

Definition tableRows (ast : ASTNode) (declaredVariables : list jsstring)
  (settings : AppSettings) : list TruthTableRow :=
  map (tableRow ast declaredVariables settings)
    (seq 0 (2 ^ length declaredVariables)).

(** Everything [analyzeLogic] does after the undeclared-variable check. *)
Definition analysisOf (ast : ASTNode) (declaredVariables : list jsstring)
  (settings : AppSettings) : AnalysisResult :=
  let numRows := 2 ^ length declaredVariables in
  let rows := tableRows ast declaredVariables settings in
  let flags := scanFlags (node_expression ast) rows in
  let classification := classify (fst flags) (snd flags) in
  let forms := generateImplicationForms ast in
  let complexity := calculateComplexity ast in
  {| ast := ast;
     columns := finalColumns ast declaredVariables settings;
     rows := rows;
     variables := declaredVariables;
     classification := classification;
     mainConnective := node_type ast;
     implicationForms :=
       match forms with
       | Some f =>
           Some {| original := formatLabel (original f) settings;
                   converse := formatLabel (converse f) settings;
                   inverse := formatLabel (inverse f) settings;
                   contrapositive := formatLabel (contrapositive f) settings |}
       | None => None
       end;
     kMapData := generateKMap declaredVariables rows;
     rightAway := analyzeRightAwayEngine ast;
     sttt := performSTTT rows (node_expression ast) classification;
     complexity :=
       {| operators := fst complexity; cx_depth := snd complexity;
          cx_variables := length declaredVariables;
          totalRows := numRows |} |}.

(** [`Variable${...} ${undeclared.join(', ')} used but not declared.`] *)
Definition undeclaredMessage (undeclared : list jsstring) : jsstring :=
  lit "Variable" ++ (if 1 <? length undeclared then lit "s" else [])
    ++ lit " " ++ join (lit ", ") undeclared ++ lit " used but not declared.".

Section Analysis.

Variable toUpperCase : jsstring -> jsstring.

Definition evaluateRawExpression (expr : jsstring) (context : JSObject)
  : bool :=
  match parse (tokenize toUpperCase expr) with
  | Some ast => evaluateAST ast context
  | None => false
  end.

Definition extractVariablesFromExpression (expr : jsstring)
  : list jsstring :=
  let toks := tokenize toUpperCase expr in
  let vars :=
    fold_left
      (fun vars t =>
         if toktype_eqb (tok_type t) T_VAR
            && negb (includes [lit "0"; lit "1"] (tok_value t))
         then (if includes vars (tok_value t) then vars
               else vars ++ [tok_value t])
         else vars)
      toks [] in
  fold_left (fun acc x => insertSorted x acc) vars [].

Definition undeclaredVariables (expr : jsstring)
  (declaredVariables : list jsstring) : list jsstring :=
  filter (fun v => negb (includes declaredVariables v))
    (extractVariablesFromExpression expr).

(** [analyzeLogic] when the call stack suffices; [inr message] stands
    for [throw new Error(message)].  The expression is parsed first, the
    check follows, and the table is built only after it.  A parser that
    ran out of fuel would end as [inr []], which does not happen (see
    [parse_total]).  [analyzeLogicCheck] gives the parse and the check
    with the frames of the stack counted. *)
Definition analyzeLogic (expr : jsstring) (declaredVariables : list jsstring)
  (settings : AppSettings) : AnalysisResult + jsstring :=
  match parse (tokenize toUpperCase expr) with
  | None => inr []
  | Some ast =>
      let undeclared := undeclaredVariables expr declaredVariables in
      if 0 <? length undeclared then inr (undeclaredMessage undeclared)
      else inl (analysisOf ast declaredVariables settings)
  end.

End Analysis.

Definition reanalyzeFromRows (current : AnalysisResult)
  (updatedRows : list TruthTableRow) (settings : AppSettings) : AnalysisResult :=
  let resultExpr := node_expression (ast current) in
  let flags := scanFlags resultExpr updatedRows in
  let classification := classify (fst flags) (snd flags) in
  {| ast := ast current; columns := columns current; rows := updatedRows;
     variables := variables current; classification := classification;
     mainConnective := mainConnective current;
     implicationForms := implicationForms current;
     kMapData := generateKMap (variables current) updatedRows;
     rightAway := rightAway current;
     sttt := performSTTT updatedRows (node_expression (ast current)) classification;
     complexity := complexity current |}.

(* ------------------------------------------------------------------ *)
(** ** The call stack *)

(** The call stack of the engine holds finitely many frames, and a call
    that finds none throws [RangeError: Maximum call stack size exceeded].
    The stack is counted in calls here, one frame for each call that has
    not returned; an engine counts it in bytes. *)
Inductive Outcome (A : Type) : Type :=
| Returned (a : A)
| RangeError.

Arguments Returned {A} a.
Arguments RangeError {A}.

(** The parsing methods with [stack] frames left when they are called.
    The method takes one frame for as long as it runs, and each of its
    calls, of another method or of [peek], [consume] and [generateId],
    one more while that call runs: a method called with a single frame
    left throws at its first call.  The [while] loop of a binary level
    runs in the frame of its method.  [fuel] bounds the unfoldings as in
    [parseAt], where the stack is taken to suffice; [None] means the fuel
    ran out. *)
Fixpoint parseAtWithin (fuel stack : nat) (lv : Level) (p : Parser)
  : option (Outcome (ASTNode * Parser)) :=
  match fuel with
  | O => None
  | S fuel' =>
      match stack with
      | O => Some RangeError
      | S O => Some RangeError
      | S (S _ as avail) =>
          match lv with
          | LevelBin op =>
              match parseAtWithin fuel' avail (nextLevel op) p with
              | Some (Returned (lhs, p1)) => parseLoopWithin fuel' avail op lhs p1
              | Some RangeError => Some RangeError
              | None => None
              end
          | LevelNot =>
              if toktype_eqb (tok_type (peek p)) T_NOT then
                let (token, p1) := consume p in
                match parseAtWithin fuel' avail LevelNot p1 with
                | Some (Returned (operand, p2)) =>
                    let (id, p3) := generateId p2 in
                    Some (Returned
                            (NotNode id operand
                               (tok_value token ++ node_expression operand)
                               (node_depth operand + 1), p3))
                | Some RangeError => Some RangeError
                | None => None
                end
              else parseAtWithin fuel' avail LevelFactor p
          | LevelFactor =>
              let token := peek p in
              if isOpenBracket (tok_type token) then
                let openType := tok_type token in
                let openChar := tok_value token in
                let (_, p1) := consume p in
                match parseAtWithin fuel' avail (LevelBin IFF) p1 with
                | Some (Returned (node, p2)) =>
                    let closeToken := peek p2 in
                    if toktype_eqb (tok_type closeToken)
                         (expectedCloseType openType)
                    then
                      let (_, p3) := consume p2 in
                      Some (Returned
                              (setExpression node
                                 (openChar ++ node_expression node
                                    ++ [expectedCloseChar openType]), p3))
                    else Some (Returned (node, p2))
                | Some RangeError => Some RangeError
                | None => None
                end
              else if toktype_eqb (tok_type token) T_VAR then
                let (_, p1) := consume p in
                let (id, p2) := generateId p1 in
                Some (Returned
                        (VarNode id (tok_value token) (tok_value token) 0, p2))
              else
                let (_, p1) := consume p in
                let (id, p2) := generateId p1 in
                Some (Returned (placeholder id, p2))
          end
      end
  end
with parseLoopWithin (fuel avail : nat) (op : BinOp) (lhs : ASTNode)
  (p : Parser) : option (Outcome (ASTNode * Parser)) :=
  match fuel with
  | O => None
  | S fuel' =>
      if toktype_eqb (tok_type (peek p)) (T_BIN op) then
        let (_, p1) := consume p in
        match parseAtWithin fuel' avail (nextLevel op) p1 with
        | Some (Returned (rhs, p2)) =>
            let (id, p3) := generateId p2 in
            parseLoopWithin fuel' avail op
              (BinNode id op lhs rhs (binExpression op lhs rhs)
                 (Nat.max (node_depth lhs) (node_depth rhs) + 1)) p3
        | Some RangeError => Some RangeError
        | None => None
        end
      else Some (Returned (lhs, p))
  end.

(** [new Parser(tokens).parse()] with [stack] frames left: [parse] takes
    one of them and calls [parseIFF].  The fuel of [parse] does not run
    out here either (see [parseAtWithin_cases]). *)
Definition parseWithin (stack : nat) (toks : list Token) : Outcome ASTNode :=
  match stack with
  | O => RangeError
  | S avail =>
      match parseAtWithin (parseFuel toks) avail (LevelBin IFF)
              (newParser toks) with
      | Some (Returned (node, _)) => Returned node
      | _ => RangeError
      end
  end.

Section Entry.

Variable toUpperCase : jsstring -> jsstring.

(** The statements of [analyzeLogic] up to its [throw] (l.526-531), with
    [stack] frames left for the calls it makes: the parse, which is not
    inside any [try], and the undeclared-variable check.
    [Returned (inr message)] is [throw new Error(message)] and
    [Returned (inl ast)] the tree from which the table is then built.
    [tokenize] and [extractVariablesFromExpression] call nothing that
    recurses and need fewer frames than the parse does. *)
Definition analyzeLogicCheck (stack : nat) (expr : jsstring)
  (declaredVariables : list jsstring) : Outcome (ASTNode + jsstring) :=
  match parseWithin stack (tokenize toUpperCase expr) with
  | RangeError => RangeError
  | Returned ast =>
      let undeclared :=
        undeclaredVariables toUpperCase expr declaredVariables in
      if 0 <? length undeclared
      then Returned (inr (undeclaredMessage undeclared))
      else Returned (inl ast)
  end.

End Entry.

(* ------------------------------------------------------------------ *)
(** ** Callers of the engine *)

(** [TruthTable.handleCellClick] (components/TruthTable.tsx): the clicked
    cell is negated in a copy of the row, and the copy is handed to
    [onRowChange] with the column.  [!row.values[k]] of a missing key is
    [true]. *)
Definition handleCellClick {S : Type}
  (onRowChange : TruthTableRow -> TableColumn -> S)
  (row : TruthTableRow) (col : TableColumn) : S :=
  let newValue := negb (rowValue (expression col) row) in
  let newRow :=
    {| row_id := row_id row;
       values := obj_set (values row) (expression col) newValue;
       index := index row |} in
  onRowChange newRow col.

(** [App.handleRowChange]: the state [analysis] is [null] or a result;
    the function returns the state it sets (the unchanged [null] when
    there is no analysis). *)
Definition handleRowChange (analysis : option AnalysisResult)
  (settings : AppSettings) (updatedRow : TruthTableRow)
  (changedCol : TableColumn) : option AnalysisResult :=
  match analysis with
  | None => None
  | Some analysis =>
      let finalRow :=
        if isInput changedCol
        then recalculateRow updatedRow (columns analysis) (ast analysis)
        else updatedRow in
      let newRows :=
        map (fun r => if row_id r =? row_id finalRow then finalRow else r)
          (rows analysis) in
      Some (reanalyzeFromRows analysis newRows settings)
  end.

(** [StepByStep] (components/StepByStep.tsx). *)
Record Step := {
  step_node : ASTNode;
  step_result : option bool;
  step_explanation : jsstring;
  step_depth : nat
}.

(** [b ? 'True' : 'False'] *)
Definition truthWord (b : bool) : jsstring :=
  if b then lit "True" else lit "False".

(** [row.values[node.expression]], which is [undefined] for a missing key. *)
Definition evaluateNode (row : TruthTableRow) (node : ASTNode) : option bool :=
  obj_get (values row) (node_expression node).

Definition connectiveWord (op : BinOp) : jsstring :=
  match op with
  | AND => lit "AND"
  | OR => lit "OR"
  | IMPLIES => [ch_implies]
  | IFF => [ch_iff]
  | XOR => [ch_xor]
  end.

Definition generateExplanation (row : TruthTableRow) (node : ASTNode)
  (result : option bool) : jsstring :=
  let val := fun n => truthWord (rowValue (node_expression n) row) in
  match node with
  | NotNode _ operand _ _ =>
      lit "Since " ++ node_expression operand ++ lit " is " ++ val operand
        ++ lit ", its negation is " ++ truthWord (truthy result) ++ lit "."
  | BinNode _ op lhs rhs _ _ =>
      val lhs ++ lit " " ++ connectiveWord op ++ lit " " ++ val rhs
        ++ lit " results in " ++ truthWord (truthy result) ++ lit "."
  | VarNode _ _ _ _ => []
  end.

(** The post-order walk that fills [generatedSteps]. *)
Fixpoint traverse (row : TruthTableRow) (node : ASTNode)
  (generatedSteps : list Step) : list Step :=
  let push := fun steps =>
    let result := evaluateNode row node in
    steps ++ [{| step_node := node; step_result := result;
                 step_explanation := generateExplanation row node result;
                 step_depth := node_depth node |}] in
  match node with
  | VarNode _ _ _ _ => generatedSteps
  | NotNode _ operand _ _ => push (traverse row operand generatedSteps)
  | BinNode _ _ lhs rhs _ _ =>
      push (traverse row rhs (traverse row lhs generatedSteps))
  end.

(** [STTTInteractive] (components/STTTInteractive.tsx). *)

(** A [Record<string, V>] in property order, written like [JSObject]:
    an assignment replaces the value of a present key in place, and places
    a new key among the array indices or after the last property. *)
Section Records.

Context {V : Type}.

Fixpoint rec_get (o : list (jsstring * V)) (k : jsstring) : option V :=
  match o with
  | [] => None
  | (k', v) :: rest => if str_eqb k k' then Some v else rec_get rest k
  end.

Fixpoint rec_update (o : list (jsstring * V)) (k : jsstring) (v : V)
  : list (jsstring * V) :=
  match o with
  | [] => []
  | (k', v') :: rest =>
      if str_eqb k k' then (k', v) :: rest else (k', v') :: rec_update rest k v
  end.

Fixpoint rec_insertIndex (o : list (jsstring * V)) (n : N) (k : jsstring)
  (v : V) : list (jsstring * V) :=
  match o with
  | [] => [(k, v)]
  | (k', v') :: rest =>
      match arrayIndex k' with
      | Some n' =>
          if (n' <? n)%N then (k', v') :: rec_insertIndex rest n k v
          else (k, v) :: o
      | None => (k, v) :: o
      end
  end.

Definition rec_set (o : list (jsstring * V)) (k : jsstring) (v : V)
  : list (jsstring * V) :=
  match rec_get o k with
  | Some _ => rec_update o k v
  | None =>
      match arrayIndex k with
      | Some n => rec_insertIndex o n k v
      | None => o ++ [(k, v)]
      end
  end.

End Records.

(** The state [mode] without its [null], and [result]. *)
Inductive TestMode := TestTautology | TestContradiction.

Inductive CheckStatus := Success | Failure.

Record CheckResult := { status : CheckStatus; message : jsstring }.

(** [Record<string, boolean | null>]: [None] is [null]. *)
Definition Assumptions := list (jsstring * option bool).

(** The three pieces of state of the component. *)
Record STTTState := {
  mode : option TestMode;
  assumptions : Assumptions;
  result : option CheckResult
}.

(** [startTest]: [Object.fromEntries] defines the properties in the order
    of [variables]. *)
Definition startTest (variables : list jsstring) (m : TestMode) : STTTState :=
  {| mode := Some m;
     assumptions := fold_left (fun o v => rec_set o v None) variables [];
     result := None |}.

(** [toggleAssumption]: [null] becomes [true], [true] becomes [false] and
    everything else, [undefined] included, becomes [null]. *)
Definition toggleAssumption (st : STTTState) (v : jsstring) : STTTState :=
  let current := rec_get (assumptions st) v in
  let next :=
    match current with
    | Some None => Some true
    | Some (Some true) => Some false
    | _ => None
    end in
  {| mode := mode st;
     assumptions := rec_set (assumptions st) v next;
     result := None |}.

(** [assumptions as Record<string, boolean>]: the same object read as a
    context.  A [null] entry reads as [false] there ([null ?? false]). *)
Definition contextOf (a : Assumptions) : JSObject :=
  map (fun kv => (fst kv, match snd kv with Some b => b | None => false end)) a.

Section CheckLogic.

Variable toUpperCase : jsstring -> jsstring.

(** [checkLogic]; every mode but ['Tautology'] takes the last branch. *)
Definition checkLogic (expression : jsstring) (st : STTTState) : STTTState :=
  let setResult := fun r =>
    {| mode := mode st; assumptions := assumptions st; result := Some r |} in
  let allSet :=
    forallb (fun kv => match snd kv with Some _ => true | None => false end)
      (assumptions st) in
  if negb allSet then
    setResult
      {| status := Failure;
         message := lit "Please assign values to all variables first." |}
  else
    let context := contextOf (assumptions st) in
    let exprValue := evaluateRawExpression toUpperCase expression context in
    match mode st with
    | Some TestTautology =>
        if negb exprValue then
          setResult
            {| status := Success;
               message := lit "Counter-example found! The expression evaluates to FALSE with these inputs. Therefore, it is NOT a Tautology (it is Contingent or Contradiction)." |}
        else
          setResult
            {| status := Failure;
               message := lit "The expression evaluates to TRUE. This row does not disprove Tautology. Try different values." |}
    | _ =>
        if exprValue then
          setResult
            {| status := Success;
               message := lit "Counter-example found! The expression evaluates to TRUE with these inputs. Therefore, it is NOT a Contradiction." |}
        else
          setResult
            {| status := Failure;
               message := lit "The expression evaluates to FALSE. This row does not disprove Contradiction. Try different values." |}
    end.

End CheckLogic.

(** [VariableSelector] (components/VariableSelector.tsx). *)

(** The default order of [Array.prototype.sort()] on strings: code units
    are compared from the left, and a proper prefix comes first. *)
Fixpoint str_ltb (a b : jsstring) : bool :=
  match a, b with
  | _, [] => false
  | [], _ :: _ => true
  | x :: a', y :: b' => (x <? y)%N || ((x =? y)%N && str_ltb a' b')
  end.

(** [sort()] as an insertion sort; the order is total, so every sorting
    method returns the same list of strings. *)
Fixpoint insertString (x : jsstring) (l : list jsstring) : list jsstring :=
  match l with
  | [] => [x]
  | y :: rest => if str_ltb x y then x :: l else y :: insertString x rest
  end.

Definition sortStrings (l : list jsstring) : list jsstring :=
  fold_left (fun acc x => insertString x acc) l [].

(** [String.prototype.trim]: it removes the code units of [/\s/] at both
    ends. *)
Fixpoint trimStart (s : jsstring) : jsstring :=
  match s with
  | c :: rest => if isWhitespace c then trimStart rest else s
  | [] => []
  end.

Definition trim (s : jsstring) : jsstring := rev (trimStart (rev (trimStart s))).

(** [/^[A-Z][0-9]*$/.test(v)] *)
Definition isVariableName (v : jsstring) : bool :=
  match v with
  | c :: rest => isUpperLetter c && forallb isDigit rest
  | [] => false
  end.

(** [toggleVar]: the list handed to [onChange]. *)
Definition toggleVar (selected : list jsstring) (v : jsstring)
  : list jsstring :=
  if includes selected v
  then sortStrings (filter (fun s => negb (str_eqb s v)) selected)
  else sortStrings (selected ++ [v]).

Section VariableSelector.

Variable toUpperCase : jsstring -> jsstring.

(** [handleAddSubmit]: the list handed to [onChange], or [None] when
    [onChange] is not called.  The empty string fails the test of the
    regular expression as well as the test [v &&]. *)
Definition handleAddSubmit (selected : list jsstring) (newVar : jsstring)
  : option (list jsstring) :=
  let v := toUpperCase (trim newVar) in
  if negb (length v =? 0) && isVariableName v then
    if negb (includes selected v) then Some (sortStrings (selected ++ [v]))
    else None
  else None.

End VariableSelector.

(** [LogicAnalysis.handleExportCSV] (components/LogicAnalysis.tsx): the
    text [csvContent] that is put into the file. *)
Definition csvContent (analysis : AnalysisResult) : jsstring :=
  let header := map label (columns analysis) in
  let rows :=
    map (fun r =>
           map (fun c => if rowValue (expression c) r then lit "1" else lit "0")
             (columns analysis))
      (rows analysis) in
  join [10%N] (join (lit ",") header :: map (fun r => join (lit ",") r) rows).

(** The validation effect of [App] on [expression] and [selectedVars]:
    the values it gives [isValid] and [errorMessage]. *)

(** [(s.match(/[...]/g) || []).length] for a class of code units. *)
Definition countMatches (class : list N) (s : jsstring) : nat :=
  length (filter (fun c => existsb (N.eqb c) class) s).

Section Validation.

Variable toUpperCase : jsstring -> jsstring.

Definition validate (expression : jsstring) (selectedVars : list jsstring)
  : bool * option jsstring :=
  let trimmed := trim expression in
  if length trimmed =? 0 then (false, None)
  else
    let used := extractVariablesFromExpression toUpperCase trimmed in
    let undeclared :=
      filter (fun v => negb (includes selectedVars v)) used in
    let openBrackets :=
      countMatches [ch_lparen; ch_lbracket; ch_lbrace] trimmed in
    let closeBrackets :=
      countMatches [ch_rparen; ch_rbracket; ch_rbrace] trimmed in
    if 0 <? length undeclared then
      (false, Some (lit "Undeclared: " ++ join (lit ", ") undeclared))
    else if length selectedVars =? 0 then
      (false, Some (lit "Declare variables above"))
    else if negb (openBrackets =? closeBrackets) then
      (false, Some (lit "Mismatched brackets"))
    else (true, None).

End Validation.

(* ------------------------------------------------------------------ *)
(** * Sample inputs *)

Definition simplifySettings : AppSettings :=
  {| logic := {| negationHandling := simplify; truthValues := TV_01;
                 rowOrder := Ascending |};
     table := table DEFAULT_SETTINGS |}.

Definition varP : jsstring := lit "P".
Definition varQ : jsstring := lit "Q".

(** The tree of [P & Q]. *)
Definition sampleAst : ASTNode :=
  BinNode 2 AND (VarNode 0 varP varP 0) (VarNode 1 varQ varQ 0)
    (varP ++ [32%N; ch_and; 32%N] ++ varQ) 1.

(** The analysis of [P & Q] over the variables P and Q. *)
Definition sample : AnalysisResult :=
  analysisOf sampleAst [varP; varQ] DEFAULT_SETTINGS.

(** Its last row, P = Q = 1, and the same row with a stale result. *)
Definition sampleRow : TruthTableRow :=
  tableRow sampleAst [varP; varQ] DEFAULT_SETTINGS 3.

Definition staleRow : TruthTableRow :=
  {| row_id := 3;
     values := [(varP, true); (varQ, true);
                (varP ++ [32%N; ch_and; 32%N] ++ varQ, false)];
     index := 3 |}.

(** The Karnaugh map of the sample: one group, the cell P = Q = 1. *)
Definition sampleKMap : KMapData :=
  {| grid := [[{| value := false; mintermIndex := 0 |};
               {| value := false; mintermIndex := 1 |}];
              [{| value := false; mintermIndex := 2 |};
               {| value := true; mintermIndex := 3 |}]];
     rowLabels := [lit "0"; lit "1"];
     colLabels := [lit "0"; lit "1"];
     km_variables := [varP; varQ];
     groups := [{| cells := [{| cell_r := 1; cell_c := 1 |}];
                   color := lit "bg-red-500/20 border-red-500";
                   term := varP ++ varQ |}];
     minimizedExpression := varP ++ varQ |}.

(** A state of the parser in front of [(A]]. *)
Definition mismatchParser : Parser := newParser (tokenize upperAscii (lit "(A]")).

(** The tree of [P ∨ ¬P] and the context P = 1. *)
Definition excludedMiddle : ASTNode :=
  BinNode 3 OR (VarNode 0 varP varP 0)
    (NotNode 2 (VarNode 1 varP varP 0) (ch_not :: varP) 1)
    (varP ++ [32%N; ch_or; 32%N] ++ ch_not :: varP) 2.

Definition contextP : JSObject := [(varP, true)].

(** The tree of [P → Q] and its implication forms. *)
Definition sampleImplication : ASTNode :=
  BinNode 2 IMPLIES (VarNode 0 varP varP 0) (VarNode 1 varQ varQ 0)
    (varP ++ arrow ++ varQ) 1.

Definition sampleForms : ImplicationForms :=
  {| original := varP ++ arrow ++ varQ;
     converse := varQ ++ arrow ++ varP;
     inverse := negated varP ++ arrow ++ negated varQ;
     contrapositive := negated varQ ++ arrow ++ negated varP |}.

(** The assignment A = B = 1, C = 0. *)
Definition contextABnotC : JSObject :=
  [(lit "A", true); (lit "B", true); (lit "C", false)].

(** The input column of P and the result column of the sample. *)
Definition columnP : TableColumn :=
  {| col_id := VarColumnId varP; label := varP; expression := varP;
     isInput := true; isOutput := false; astId := None;
     dependencyIds := None |}.

Definition sampleResultColumn : TableColumn :=
  resultColumn sampleAst DEFAULT_SETTINGS.


(** The default settings with the rows from 1 down to 0. *)
Definition descendingSettings : AppSettings :=
  {| logic := {| negationHandling := preserve; truthValues := TV_01;
                 rowOrder := Descending |};
     table := table DEFAULT_SETTINGS |}.

(** The analysis of the bare variable [P] over the variables P and Q, and
    its Karnaugh map. *)
Definition bareP : AnalysisResult :=
  analysisOf (VarNode 0 varP varP 0) [varP; varQ] DEFAULT_SETTINGS.

Definition barePKMap : KMapData :=
  {| grid := [[{| value := false; mintermIndex := 0 |};
               {| value := true; mintermIndex := 1 |}];
              [{| value := false; mintermIndex := 2 |};
               {| value := true; mintermIndex := 3 |}]];
     rowLabels := [lit "0"; lit "1"];
     colLabels := [lit "0"; lit "1"];
     km_variables := [varP; varQ];
     groups := [{| cells := [{| cell_r := 0; cell_c := 1 |};
                             {| cell_r := 1; cell_c := 1 |}];
                   color := nth 0 colors [];
                   term := varQ |}];
     minimizedExpression := varQ |}.

(** The default settings with the sub-expression columns hidden, the tree
    of [-P & Q], its analysis under these settings and the first row. *)
Definition hiddenSettings : AppSettings :=
  {| logic := logic DEFAULT_SETTINGS;
     table := {| stickyHeaders := true; showSubExpressions := false;
                 highlightDependencies := true; dense := false |} |}.

Definition notPandQ : ASTNode :=
  BinNode 3 AND
    (NotNode 1 (VarNode 0 varP varP 0) (ch_not :: varP) 1)
    (VarNode 2 varQ varQ 0)
    (ch_not :: varP ++ [32%N; ch_and; 32%N] ++ varQ) 2.

Definition hiddenSample : AnalysisResult :=
  analysisOf notPandQ [varP; varQ] hiddenSettings.

Definition hiddenRow : TruthTableRow :=
  tableRow notPandQ [varP; varQ] hiddenSettings 0.

(** A call stack of ten thousand frames, the order of an engine's
    default; two thousand open brackets; and the variable A inside two
    thousand pairs of parentheses. *)
Definition sampleStack : nat := 100 * 100.

Definition deepOpen : jsstring := repeat ch_lparen 2000.


(* ------------------------------------------------------------------ *)
(** * Specification vocabulary *)

(** ** Parser results *)

(** A token other than the end marker holds one code unit. *)
Definition tok_ok (t : Token) : Prop :=
  tok_type t = EOF \/ length (tok_value t) = 1.

(** Every identifier in the tree is below [k]. *)
Fixpoint ids_lt (n : ASTNode) (k : nat) : Prop :=
  match n with
  | VarNode id _ _ _ => id < k
  | NotNode id o _ _ => id < k /\ ids_lt o k
  | BinNode id _ l r _ _ => id < k /\ ids_lt l k /\ ids_lt r k
  end.

(** The shape of a parsed tree: a variable symbol is one code unit, and
    its expression string is the symbol unless it was bracketed; an
    operator node has a longer string, and an identifier above all those
    below it. *)
Fixpoint wf_node (n : ASTNode) : Prop :=
  match n with
  | VarNode _ v e _ => length v = 1 /\ 1 <= length e /\ (length e = 1 -> e = v)
  | NotNode id o e _ => 2 <= length e /\ ids_lt o id /\ wf_node o
  | BinNode id _ l r e _ =>
      2 <= length e /\ ids_lt l id /\ ids_lt r id /\ wf_node l /\ wf_node r
  end.

(** The calls a method makes, at most, before it reads a token. *)
Definition rank (lv : Level) : nat :=
  match lv with
  | LevelFactor => 1
  | LevelNot => 2
  | LevelBin AND => 4
  | LevelBin OR => 6
  | LevelBin XOR => 8
  | LevelBin IMPLIES => 10
  | LevelBin IFF => 12
  end.

(** The tokens not yet consumed. *)
Definition remaining (p : Parser) : nat := length (tokens p) - pos p.

(** What a parsing method guarantees about its result. *)
Definition Good (p : Parser) (node : ASTNode) (p' : Parser) : Prop :=
  tokens p' = tokens p /\ pos p <= pos p'
  /\ nodeIdCounter p <= nodeIdCounter p'
  /\ ids_lt node (nodeIdCounter p')
  /\ (Forall tok_ok (tokens p) -> wf_node node).

(** ** Classification and labels *)

(** Every row of [rows] reads [b] in the column [e]. *)
Definition allRows (b : bool) (e : jsstring) (rows : list TruthTableRow) : Prop :=
  forall row, In row rows -> rowValue e row = b.

(** The classification [cls] is the one the rows determine. *)
Definition consistent (cls : Classification) (e : jsstring)
  (rows : list TruthTableRow) : Prop :=
  (cls = Tautology <-> allRows true e rows)
  /\ (cls = Contradiction <-> allRows false e rows)
  /\ (cls = Contingency <-> ~ allRows true e rows /\ ~ allRows false e rows).

(** The negation symbols [¬], [-], [!] and [~]. *)
Definition isNegationSymbol (ch : N) : bool :=
  ((ch =? ch_not) || (ch =? ch_minus) || (ch =? ch_bang) || (ch =? ch_tilde))%N.

(** ** Columns and sub-nodes *)

(** One write into a row object: [upd] says what a column writes under
    its expression, if anything. *)
Definition writeColumn (upd : TableColumn -> option bool) (o : JSObject)
  (col : TableColumn) : JSObject :=
  match upd col with
  | Some v => obj_set o (expression col) v
  | None => o
  end.

(** The last value written under [k] by the columns [cols]. *)
Fixpoint assigned (upd : TableColumn -> option bool) (k : jsstring)
  (cols : list TableColumn) : option bool :=
  match cols with
  | [] => None
  | col :: rest =>
      match assigned upd k rest with
      | Some v => Some v
      | None =>
          match upd col with
          | Some v => if str_eqb k (expression col) then Some v else None
          | None => None
          end
      end
  end.

(** The write [analyzeLogic] makes for a column. *)
Definition tableWrite (ast : ASTNode) (subExprNodes : list ASTNode)
  (context : JSObject) (col : TableColumn) : option bool :=
  if isInput col then Some (truthy (obj_get context (expression col)))
  else
    match find (idMatches col) subExprNodes with
    | Some node => Some (evaluateAST node context)
    | None => if isOutput col then Some (evaluateAST ast context) else None
    end.

(** The node [recalculateRow] re-evaluates for a column. *)
Definition columnNode (ast : ASTNode) (subExprNodes : list ASTNode)
  (col : TableColumn) : option ASTNode :=
  match find (idMatches col) subExprNodes with
  | Some n => Some n
  | None => if idMatches col ast then Some ast else None
  end.

(** The write [recalculateRow] makes for a column. *)
Definition recalcWrite (ast : ASTNode) (subExprNodes : list ASTNode)
  (context : JSObject) (col : TableColumn) : option bool :=
  if isInput col then None
  else option_map (fun n => evaluateAST n context) (columnNode ast subExprNodes col).

(** [n] occurs in the tree [ast]. *)
Fixpoint subnode (n ast : ASTNode) : Prop :=
  n = ast \/
  match ast with
  | VarNode _ _ _ _ => False
  | NotNode _ o _ _ => subnode n o
  | BinNode _ _ l r _ _ => subnode n l \/ subnode n r
  end.

(** A derived column that is not the result column. *)
Definition stepColumnOf (ast : ASTNode) (col : TableColumn) : Prop :=
  isInput col = false /\ isOutput col = false
  /\ exists n, In n (extractSubExpressions ast [])
               /\ node_type n <> N_VAR
               /\ expression col = node_expression n
               /\ astId col = Some (node_id n).

(** Equality of strings is decidable. *)
Definition str_eq_dec : forall a b : jsstring, {a = b} + {a <> b} :=
  list_eq_dec N.eq_dec.

(** The evaluator reads a context only at the variables of the tree. *)
Fixpoint agreeOn (n : ASTNode) (c1 c2 : JSObject) : Prop :=
  match n with
  | VarNode _ v _ _ =>
      v = [ch_one] \/ v = [ch_zero]
      \/ truthy (obj_get c1 v) = truthy (obj_get c2 v)
  | NotNode _ o _ _ => agreeOn o c1 c2
  | BinNode _ _ l r _ _ => agreeOn l c1 c2 /\ agreeOn r c1 c2
  end.

(** ** Tokens *)

(** The test [extractVariablesFromExpression] makes on a token. *)
Definition isVariableToken (t : Token) : bool :=
  toktype_eqb (tok_type t) T_VAR
  && negb (includes [lit "0"; lit "1"] (tok_value t)).


(** Code units that are tokens by themselves. *)
Definition isTokenChar (ch : N) : bool :=
  isUpperLetter ch || (ch =? ch_zero)%N || (ch =? ch_one)%N
  || existsb (N.eqb ch)
       [ch_not; ch_and; ch_or; ch_implies; ch_iff; ch_xor;
        ch_lparen; ch_rparen; ch_lbracket; ch_rbracket; ch_lbrace; ch_rbrace].

(** The other code units an operator alias can start with:
    [- = < & | ! ~ ^]. *)
Definition isAliasStart (ch : N) : bool :=
  existsb (N.eqb ch) [45; 61; 60; 38; 124; 33; 126; 94]%N.

(** A code unit that is no token and starts no alias. *)
Definition unrecognized (ch : N) : bool :=
  negb (isTokenChar ch) && negb (isAliasStart ch).

(** ** Karnaugh-map solver *)

(** The minterm of a group cell, whether it is set, and whether it lies
    in the grid [g]. *)
Definition mintermOf (g : list (list KMapCell)) (gc : KMapGroupCell) : N :=
  mintermIndex (cellAt g (cell_r gc) (cell_c gc)).

Definition cellOn (g : list (list KMapCell)) (gc : KMapGroupCell) : Prop :=
  value (cellAt g (cell_r gc) (cell_c gc)) = true.

Definition inGrid (g : list (list KMapCell)) (gc : KMapGroupCell) : Prop :=
  cell_r gc < length g /\ cell_c gc < length (nth 0 g []).

(** The group at position [i] brings a minterm no earlier group has. *)
Definition bringsNew (g : list (list KMapCell)) (groups : list KMapGroup)
  (i : nat) (grp : KMapGroup) : Prop :=
  exists gc, In gc (cells grp)
    /\ forall j grp' gc', j < i -> nth_error groups j = Some grp' ->
         In gc' (cells grp') -> mintermOf g gc' <> mintermOf g gc.

(** What holds of the solver's state after every candidate. *)
Record SolverInv (g : list (list KMapCell)) (st : SolverState) : Prop := {
  inv_cells : forall grp gc, In grp (fst st) -> In gc (cells grp) ->
                inGrid g gc /\ cellOn g gc /\ In (mintermOf g gc) (snd st);
  inv_covered : forall m, In m (snd st) ->
                  exists grp gc, In grp (fst st) /\ In gc (cells grp)
                                 /\ mintermOf g gc = m;
  inv_new : forall i grp, nth_error (fst st) i = Some grp ->
              bringsNew g (fst st) i grp
}.

(** The state after all the loops of [solveKMap]. *)
Definition solved (g : list (list KMapCell))
  (rowVars colVars rowGray colGray : list jsstring) (sizes : list Size)
  : SolverState :=
  fold_left
    (fun st size =>
       fold_left
         (fun st r =>
            fold_left
              (fun st c =>
                 tryCandidate g (length g) (length (nth 0 g [])) rowVars colVars
                   rowGray colGray size r c st)
              (seq 0 (length (nth 0 g []))) st)
         (seq 0 (length g)) st)
    sizes ([], []).

(** The Gray-code layouts [generateKMap] can choose. *)
Definition layoutOf (rowGray colGray : list jsstring) : Prop :=
  (rowGray = getGrayCode 1 /\ colGray = getGrayCode 1)
  \/ (rowGray = getGrayCode 1 /\ colGray = getGrayCode 2)
  \/ (rowGray = getGrayCode 2 /\ colGray = getGrayCode 2).

(** ** RightAway *)

(** The patterns of the engine are sound for a tree whose two operands,
    whenever their expression strings are compared equal, evaluate
    alike. *)
Definition stringsFaithful (node : ASTNode) (context : JSObject) : Prop :=
  match node with
  | BinNode _ _ lhs rhs _ _ =>
      (node_expression lhs = node_expression rhs ->
       evaluateAST lhs context = evaluateAST rhs context)
      /\ (forall o, (exists id e d, lhs = NotNode id o e d) ->
            node_expression o = node_expression rhs ->
            evaluateAST o context = evaluateAST rhs context)
      /\ (forall o, (exists id e d, rhs = NotNode id o e d) ->
            node_expression o = node_expression lhs ->
            evaluateAST o context = evaluateAST lhs context)
  | _ => True
  end.

(** ** Trees *)

(** The identifiers of a tree in post-order: operands before the node. *)
Fixpoint nodeIds (n : ASTNode) : list nat :=
  match n with
  | VarNode id _ _ _ => [id]
  | NotNode id o _ _ => nodeIds o ++ [id]
  | BinNode id _ l r _ _ => nodeIds l ++ nodeIds r ++ [id]
  end.

(** The nodes of a tree in post-order, and the test for an operator node. *)
Fixpoint postOrder (n : ASTNode) : list ASTNode :=
  match n with
  | VarNode _ _ _ _ => [n]
  | NotNode _ o _ _ => postOrder o ++ [n]
  | BinNode _ _ l r _ _ => postOrder l ++ postOrder r ++ [n]
  end.

Definition isOperatorNode (n : ASTNode) : bool :=
  match node_type n with
  | N_VAR => false
  | _ => true
  end.

(** ** Token and expression strings *)

(** A token other than the end marker: one code unit that is a token by
    itself, with the type that code unit determines. *)
Definition glyphToken (t : Token) : Prop :=
  exists ch, tok_value t = [ch] /\ isTokenChar ch = true
             /\ tok_type t = symbolType ch.

(** The code units of the expression strings the parser builds: those of
    the tokens, the blank around a binary connective and the placeholder. *)
Definition isExpressionChar (ch : N) : bool :=
  isTokenChar ch || (ch =? 32)%N || (ch =? ch_question)%N.

(** Strings of expression code units, and tokens of token code units. *)
Definition exprChars (s : jsstring) : Prop :=
  Forall (fun ch => isExpressionChar ch = true) s.

Definition tokenChars (t : Token) : Prop :=
  Forall (fun ch => isTokenChar ch = true) (tok_value t).

(** ** The call stack *)

(** The frames a parsing method has on the stack when it reads its first
    token: its own and those of the methods of lower precedence it calls
    on the way. *)
Definition framesTo (lv : Level) : nat :=
  match lv with
  | LevelFactor => 1
  | LevelNot => 2
  | LevelBin AND => 3
  | LevelBin OR => 4
  | LevelBin XOR => 5
  | LevelBin IMPLIES => 6
  | LevelBin IFF => 7
  end.

(** The open brackets a token list starts with, and those at the
    parser's position. *)
Fixpoint leadingOpenCount (toks : list Token) : nat :=
  match toks with
  | t :: rest =>
      if isOpenBracket (tok_type t) then S (leadingOpenCount rest) else 0
  | [] => 0
  end.

Definition leadingOpens (p : Parser) : nat :=
  leadingOpenCount (skipn (pos p) (tokens p)).

(** ** The grammar *)

(** What a derivation covers: the whole expression of a precedence level,
    or a left fold of operands of one binary connective that may still go
    on. *)
Inductive Phase := Whole (lv : Level) | Fold (op : BinOp).

(** Spec side: the grammar with its lenient rules, as a relation between
    the state a derivation starts in, its tree and the state it ends in.
    The levels run from [↔] down to the atoms; a binary level folds its
    operands to the left for as long as its connective follows; [¬]
    applies to the negation or atom after it; a group is the expression
    between an open bracket and its close bracket, whose string it wraps
    ([derives_group]).  The two lenient rules: a group whose close
    bracket does not follow is its inner expression, the token found
    instead left in place ([derives_unclosed]); and where an atom is
    expected, a token that is neither a variable nor an open bracket is
    passed over and stands for the placeholder ([derives_placeholder]). *)
Inductive Derives : Phase -> Parser -> ASTNode -> Parser -> Prop :=
| derives_var p :
    tok_type (peek p) = T_VAR ->
    Derives (Whole LevelFactor) p
      (VarNode (nodeIdCounter p) (tok_value (peek p)) (tok_value (peek p)) 0)
      (snd (generateId (snd (consume p))))
| derives_placeholder p :
    isOpenBracket (tok_type (peek p)) = false ->
    tok_type (peek p) <> T_VAR ->
    Derives (Whole LevelFactor) p
      (VarNode (nodeIdCounter p) [ch_question] [ch_question] 0)
      (snd (generateId (snd (consume p))))
| derives_group p node p2 :
    isOpenBracket (tok_type (peek p)) = true ->
    Derives (Whole (LevelBin IFF)) (snd (consume p)) node p2 ->
    tok_type (peek p2) = expectedCloseType (tok_type (peek p)) ->
    Derives (Whole LevelFactor) p
      (setExpression node
         (tok_value (peek p) ++ node_expression node
            ++ [expectedCloseChar (tok_type (peek p))]))
      (snd (consume p2))
| derives_unclosed p node p2 :
    isOpenBracket (tok_type (peek p)) = true ->
    Derives (Whole (LevelBin IFF)) (snd (consume p)) node p2 ->
    tok_type (peek p2) <> expectedCloseType (tok_type (peek p)) ->
    Derives (Whole LevelFactor) p node p2
| derives_not p operand p2 :
    tok_type (peek p) = T_NOT ->
    Derives (Whole LevelNot) (snd (consume p)) operand p2 ->
    Derives (Whole LevelNot) p
      (NotNode (nodeIdCounter p2) operand
         (tok_value (peek p) ++ node_expression operand)
         (node_depth operand + 1))
      (snd (generateId p2))
| derives_atom p node p' :
    tok_type (peek p) <> T_NOT ->
    Derives (Whole LevelFactor) p node p' ->
    Derives (Whole LevelNot) p node p'
| derives_first op p node p' :
    Derives (Whole (nextLevel op)) p node p' ->
    Derives (Fold op) p node p'
| derives_more op p lhs p1 rhs p2 :
    Derives (Fold op) p lhs p1 ->
    tok_type (peek p1) = T_BIN op ->
    Derives (Whole (nextLevel op)) (snd (consume p1)) rhs p2 ->
    Derives (Fold op) p
      (BinNode (nodeIdCounter p2) op lhs rhs (binExpression op lhs rhs)
         (Nat.max (node_depth lhs) (node_depth rhs) + 1))
      (snd (generateId p2))
| derives_level op p node p' :
    Derives (Fold op) p node p' ->
    tok_type (peek p') <> T_BIN op ->
    Derives (Whole (LevelBin op)) p node p'.

(** The tree the grammar gives a token list. *)
Definition grammarTree (toks : list Token) (a : ASTNode) : Prop :=
  exists p', Derives (Whole (LevelBin IFF)) (newParser toks) a p'.

(** The binary connectives a level folds, itself or through the levels
    it calls. *)
Definition levelHas (lv : Level) (op : BinOp) : Prop :=
  match lv with
  | LevelBin o => framesTo (LevelBin op) <= framesTo (LevelBin o)
  | _ => False
  end.

(** Two states with the same counter and the same tokens ahead. *)
Definition sameRest (p q : Parser) : Prop :=
  nodeIdCounter p = nodeIdCounter q
  /\ forall k, nth (pos p + k) (tokens p) eofToken
               = nth (pos q + k) (tokens q) eofToken.

(** The state with one more token in front of the parser's position. *)
Definition behind (t : Token) (p : Parser) : Parser :=
  {| tokens := t :: tokens p; pos := S (pos p);
     nodeIdCounter := nodeIdCounter p |}.

(** The token a variable [?] would give. *)
Definition questionToken : Token :=
  {| tok_type := T_VAR; tok_value := [ch_question] |}.

(** ** Cancelling negations *)

(** Spec side: one double negation struck out of a string, and any
    number of them one after the other. *)
Inductive cancelStep : jsstring -> jsstring -> Prop :=
| cancel_pair a b : cancelStep (a ++ [ch_not; ch_not] ++ b) (a ++ b).

Inductive cancels : jsstring -> jsstring -> Prop :=
| cancels_done s : cancels s s
| cancels_step s t r : cancelStep s t -> cancels t r -> cancels s r.




(** ** Variables and assignments *)

(** A name the variable selector lets through: one upper-case letter. *)
Definition variableName (v : jsstring) : Prop :=
  exists ch, v = [ch] /\ isUpperLetter ch = true.

(** Order of two single-code-unit strings by their code unit, strict and
    not. *)
Definition codeBefore (a b : jsstring) : Prop := (hd 0%N a < hd 0%N b)%N.

Definition codeNotAfter (a b : jsstring) : Prop := (hd 0%N a <= hd 0%N b)%N.

(** The number whose binary digits, most significant first, are [bs]. *)
Definition binaryValue (bs : list bool) : nat :=
  fold_left (fun acc (b : bool) => 2 * acc + (if b then 1 else 0)) bs 0.

(** The context [c] gives values to declared variables only; every other
    variable reads as false in it. *)
Definition assignsOnly (declared : list jsstring) (c : JSObject) : Prop :=
  forall k, obj_get c k <> None -> In k declared.

(** ** Reports *)

(** What [performSTTT] reports for the rows [rows] read in column [e]
    under the classification [cls]: a result in every case, which names a
    critical row exactly for a contingency, the first row that reads
    false. *)
Definition stttReported (rows : list TruthTableRow) (e : jsstring)
  (cls : Classification) (report : option STTTResult) : Prop :=
  exists r, report = Some r
    /\ match cls with
       | Contingency =>
           exists fr rest1 rest2,
             rows = rest1 ++ fr :: rest2
             /\ rowValue e fr = false
             /\ (forall row, In row rest1 -> rowValue e row = true)
             /\ criticalRowId r = Some (row_id fr)
       | _ => criticalRowId r = None
       end.

(** ** Karnaugh-map cells *)

(** Two minterm indices that differ in exactly one binary digit. *)
Definition oneBitApart (a b : N) : Prop := exists k, N.lxor a b = (2 ^ k)%N.

(** ** The interactive test *)

(** The classification a test mode tries to refute. *)
Definition refuted (m : TestMode) : Classification :=
  match m with
  | TestTautology => Tautology
  | TestContradiction => Contradiction
  end.

(** The state after [startTest] and clicks on the variables [clicks]. *)
Definition afterClicks (variables : list jsstring) (m : TestMode)
  (clicks : list jsstring) : STTTState :=
  fold_left toggleAssumption clicks (startTest variables m).

(** ** Selections *)

(** A list of strings in strictly ascending order of [sort()]: sorted and
    free of repetitions. *)
Definition strictlySorted (l : list jsstring) : Prop :=
  StronglySorted (fun a b => str_ltb a b = true) l.

(** ** Reading delimited text *)

(** [s.split(sep)] for a separator of one code unit. *)
Fixpoint splitOn (sep : N) (s : jsstring) : list jsstring :=
  match s with
  | [] => [[]]
  | c :: rest =>
      if (c =? sep)%N then [] :: splitOn sep rest
      else match splitOn sep rest with
           | field :: fields => (c :: field) :: fields
           | [] => [[c]]
           end
  end.

(** The table a text of comma-separated lines spells. *)
Definition readCsv (text : jsstring) : list (list jsstring) :=
  map (splitOn 44%N) (splitOn 10%N text).

(** ** Upper-casing and white space *)

(** What the validation needs of [toUpperCase]: the white space [trim]
    removes is white space the tokenizer would have dropped. *)
Definition trimInsensitive (up : jsstring -> jsstring) : Prop :=
  forall s,
    filter (fun c => negb (isWhitespace c)) (up (trim s))
    = filter (fun c => negb (isWhitespace c)) (up s).

(* ------------------------------------------------------------------ *)
(** * Properties *)

(** ** Strings and objects *)

Lemma str_eqb_eq (a b : jsstring) : str_eqb a b = true <-> a = b.
Proof.
  revert b; induction a as [|x a IH]; intros [|y b]; simpl; split;
    try congruence; try reflexivity.
  - intros H. apply andb_true_iff in H as [H1 H2].
    apply N.eqb_eq in H1. apply IH in H2. congruence.
  - intros H. injection H as -> ->. rewrite N.eqb_refl. simpl. now apply IH.
Qed.

Lemma str_eqb_refl (a : jsstring) : str_eqb a a = true.
Proof. now apply str_eqb_eq. Qed.

Lemma str_eqb_neq (a b : jsstring) : str_eqb a b = false <-> a <> b.
Proof.
  split.
  - intros H E. apply str_eqb_eq in E. congruence.
  - intros H. destruct (str_eqb a b) eqn:E; [|reflexivity].
    apply str_eqb_eq in E. contradiction.
Qed.

Lemma str_eqb_sym (a b : jsstring) : str_eqb a b = str_eqb b a.
Proof.
  destruct (str_eqb a b) eqn:E.
  - apply str_eqb_eq in E. subst. now rewrite str_eqb_refl.
  - symmetry. apply str_eqb_neq. apply str_eqb_neq in E. congruence.
Qed.

Lemma obj_get_app (o1 o2 : JSObject) (k : jsstring) :
  obj_get (o1 ++ o2) k =
  match obj_get o1 k with Some v => Some v | None => obj_get o2 k end.
Proof.
  induction o1 as [|[k' v'] o1 IH]; simpl; [reflexivity|].
  destruct (str_eqb k k'); auto.
Qed.

Lemma obj_get_update_same (o : JSObject) (k : jsstring) (v : bool) :
  obj_get o k <> None -> obj_get (obj_update o k v) k = Some v.
Proof.
  induction o as [|[k' v'] o IH]; simpl; [congruence|].
  destruct (str_eqb k k') eqn:E; simpl; rewrite E; auto.
Qed.

Lemma obj_get_update_other (o : JSObject) (k k' : jsstring) (v : bool) :
  k' <> k -> obj_get (obj_update o k v) k' = obj_get o k'.
Proof.
  intros Hne. induction o as [|[k0 v0] o IH]; simpl; [reflexivity|].
  destruct (str_eqb k k0) eqn:E; simpl.
  - apply str_eqb_eq in E. subst k0.
    destruct (str_eqb k' k) eqn:E'; [|reflexivity].
    apply str_eqb_eq in E'. contradiction.
  - destruct (str_eqb k' k0); auto.
Qed.

Lemma obj_get_insertIndex_same (o : JSObject) n (k : jsstring) (v : bool) :
  obj_get o k = None -> obj_get (obj_insertIndex o n k v) k = Some v.
Proof.
  induction o as [|[k0 v0] o IH]; simpl; intros H.
  - now rewrite str_eqb_refl.
  - destruct (str_eqb k k0) eqn:E; [discriminate|].
    destruct (arrayIndex k0) as [n'|]; [destruct (n' <? n)%N|]; simpl;
      rewrite ?E, ?str_eqb_refl; auto.
Qed.

Lemma obj_get_insertIndex_other (o : JSObject) n (k k' : jsstring) (v : bool) :
  k' <> k -> obj_get (obj_insertIndex o n k v) k' = obj_get o k'.
Proof.
  intros Hne. apply str_eqb_neq in Hne.
  induction o as [|[k0 v0] o IH]; simpl.
  - now rewrite Hne.
  - destruct (arrayIndex k0) as [n'|]; [destruct (n' <? n)%N|]; simpl;
      rewrite ?Hne, ?IH; auto.
Qed.

Lemma obj_get_set_same (o : JSObject) (k : jsstring) (v : bool) :
  obj_get (obj_set o k v) k = Some v.
Proof.
  unfold obj_set. destruct (obj_get o k) eqn:E.
  - apply obj_get_update_same. congruence.
  - destruct (arrayIndex k).
    + now apply obj_get_insertIndex_same.
    + rewrite obj_get_app, E. simpl. now rewrite str_eqb_refl.
Qed.

Lemma obj_get_set_other (o : JSObject) (k k' : jsstring) (v : bool) :
  k' <> k -> obj_get (obj_set o k v) k' = obj_get o k'.
Proof.
  intros Hne. unfold obj_set. destruct (obj_get o k) eqn:E.
  - now apply obj_get_update_other.
  - destruct (arrayIndex k).
    + now apply obj_get_insertIndex_other.
    + rewrite obj_get_app. simpl. apply str_eqb_neq in Hne. rewrite Hne.
      now destruct (obj_get o k').
Qed.

Lemma obj_get_set (o : JSObject) (k k' : jsstring) (v : bool) :
  obj_get (obj_set o k v) k' = if str_eqb k' k then Some v else obj_get o k'.
Proof.
  destruct (str_eqb k' k) eqn:E.
  - apply str_eqb_eq in E. subst. apply obj_get_set_same.
  - apply str_eqb_neq in E. now apply obj_get_set_other.
Qed.

(** ** Parser: totality and the shape of its result *)

Lemma ids_lt_mono n k k' : ids_lt n k -> k <= k' -> ids_lt n k'.
Proof.
  induction n; simpl; intros H Hle; intuition lia.
Qed.

Lemma ids_lt_node_id n k : ids_lt n k -> node_id n < k.
Proof. destruct n; simpl; intuition. Qed.

Lemma ids_lt_setExpression n e k : ids_lt (setExpression n e) k <-> ids_lt n k.
Proof. destruct n; simpl; tauto. Qed.

Lemma wf_node_expression_nonempty n : wf_node n -> 1 <= length (node_expression n).
Proof. destruct n; simpl; intuition lia. Qed.

Lemma wf_setExpression n e : wf_node n -> 2 <= length e -> wf_node (setExpression n e).
Proof. destruct n; simpl; intuition lia. Qed.

Lemma node_expression_setExpression n e : node_expression (setExpression n e) = e.
Proof. now destruct n. Qed.

Lemma rank_nextLevel op : rank (nextLevel op) + 2 = rank (LevelBin op).
Proof. now destruct op. Qed.

Lemma rank_pos lv : 1 <= rank lv.
Proof. destruct lv as [[]| |]; simpl; lia. Qed.

Lemma toktype_eqb_eq a b : toktype_eqb a b = true <-> a = b.
Proof.
  destruct a as [| |[]| | | | | | |], b as [| |[]| | | | | | |]; simpl;
    split; intros H; try reflexivity; try discriminate.
Qed.

Lemma peek_not_eof p : tok_type (peek p) <> EOF -> pos p < length (tokens p).
Proof.
  unfold peek. intros H.
  destruct (Nat.lt_ge_cases (pos p) (length (tokens p))) as [Hlt|Hge]; auto.
  rewrite nth_overflow in H by lia. now elim H.
Qed.

Lemma peek_ok p : Forall tok_ok (tokens p) -> tok_ok (peek p).
Proof.
  intros H. unfold peek.
  destruct (Nat.lt_ge_cases (pos p) (length (tokens p))) as [Hlt|Hge].
  - rewrite Forall_forall in H. apply H. now apply nth_In.
  - rewrite nth_overflow by lia. now left.
Qed.

Lemma isOpenBracket_not_eof t : isOpenBracket t = true -> t <> EOF.
Proof. now destruct t. Qed.

Lemma binExpression_length op l r :
  2 <= length (binExpression op l r).
Proof. unfold binExpression. rewrite !length_app. simpl. lia. Qed.

Ltac good_split :=
  unfold Good; refine (conj _ (conj _ (conj _ (conj _ _))));
  cbn [tokens pos nodeIdCounter ids_lt wf_node].

Ltac unfold_states :=
  repeat match goal with p := _ : Parser |- _ => subst p end;
  unfold remaining in *; cbn [rank tokens pos nodeIdCounter] in *.

(** With fuel above the bound every method returns, and its result is
    [Good]. *)
Lemma parse_good_aux (fuel : nat) :
  (forall lv p, rank lv + 12 * remaining p <= fuel ->
     exists node p', parseAt fuel lv p = Some (node, p') /\ Good p node p')
  /\
  (forall op lhs p, rank (LevelBin op) - 1 + 12 * remaining p <= fuel ->
     ids_lt lhs (nodeIdCounter p) ->
     (Forall tok_ok (tokens p) -> wf_node lhs) ->
     exists node p', parseLoop fuel op lhs p = Some (node, p') /\ Good p node p').
Proof.
  induction fuel as [|fuel [IHat IHloop]].
  - split.
    + intros lv p H. pose proof (rank_pos lv). lia.
    + intros op lhs p H. pose proof (rank_nextLevel op).
      pose proof (rank_pos (nextLevel op)). lia.
  - split.
    + intros [op| |] p Hfuel; cbn [parseAt].
      * (* a binary level *)
        pose proof (rank_nextLevel op) as Hr.
        destruct (IHat (nextLevel op) p) as (lhs & p1 & E1 & G1); [lia|].
        rewrite E1.
        destruct G1 as (Ht1 & Hp1 & Hc1 & Hi1 & Hw1).
        destruct (IHloop op lhs p1) as (node & p2 & E2 & G2).
        { unfold remaining in *. rewrite Ht1. lia. }
        { exact Hi1. }
        { rewrite Ht1. exact Hw1. }
        exists node, p2. split; [exact E2|].
        destruct G2 as (Ht2 & Hp2 & Hc2 & Hi2 & Hw2).
        good_split; try congruence; try lia; auto.
        intros Hok. apply Hw2. now rewrite Ht1.
      * (* parseNot *)
        destruct (toktype_eqb (tok_type (peek p)) T_NOT) eqn:Enot.
        -- apply toktype_eqb_eq in Enot.
           assert (Hlt : pos p < length (tokens p))
             by (apply peek_not_eof; rewrite Enot; discriminate).
           unfold consume.
           set (p1 := {| tokens := tokens p; pos := S (pos p);
                         nodeIdCounter := nodeIdCounter p |}).
           destruct (IHat LevelNot p1) as (operand & p2 & E2 & G2).
           { unfold_states. lia. }
           rewrite E2. unfold generateId.
           destruct G2 as (Ht2 & Hp2 & Hc2 & Hi2 & Hw2).
           eexists _, _. split; [reflexivity|].
           unfold_states.
           good_split; try congruence; try lia.
           ++ split; [lia|]. apply ids_lt_mono with (1 := Hi2). lia.
           ++ intros Hok. specialize (Hw2 Hok).
              split; [|split; assumption].
              destruct (peek_ok p Hok) as [Hpk|Hpk]; [congruence|].
              pose proof (wf_node_expression_nonempty _ Hw2).
              rewrite length_app. lia.
        -- destruct (IHat LevelFactor p) as (node & p1 & E1 & G1);
             [cbn [rank] in *; lia|].
           exists node, p1. split; auto.
      * (* parseFactor *)
        destruct (isOpenBracket (tok_type (peek p))) eqn:Eopen.
        -- assert (Hlt : pos p < length (tokens p))
             by (apply peek_not_eof; now apply isOpenBracket_not_eof).
           unfold consume.
           set (p1 := {| tokens := tokens p; pos := S (pos p);
                         nodeIdCounter := nodeIdCounter p |}).
           destruct (IHat (LevelBin IFF) p1) as (node & p2 & E2 & G2).
           { unfold_states. lia. }
           rewrite E2.
           destruct G2 as (Ht2 & Hp2 & Hc2 & Hi2 & Hw2).
           destruct (toktype_eqb (tok_type (peek p2))
                       (expectedCloseType (tok_type (peek p)))).
           ++ eexists _, _. split; [reflexivity|].
              unfold_states.
              good_split; try congruence; try lia.
              ** now apply ids_lt_setExpression.
              ** intros Hok. apply wf_setExpression; auto.
                 rewrite !length_app. cbn [length].
                 pose proof (wf_node_expression_nonempty _ (Hw2 Hok)). lia.
           ++ eexists _, _. split; [reflexivity|].
              unfold_states.
              good_split; try congruence; try lia; auto.
        -- unfold consume, generateId.
           destruct (toktype_eqb (tok_type (peek p)) T_VAR) eqn:Evar.
           ++ eexists _, _. split; [reflexivity|].
              good_split; try reflexivity; try lia.
              intros Hok. apply toktype_eqb_eq in Evar.
              destruct (peek_ok p Hok) as [Hpk|Hpk]; [congruence|].
              repeat split; auto; lia.
           ++ eexists _, _. split; [reflexivity|].
              good_split; try reflexivity; try lia.
              ** unfold placeholder. cbn. lia.
              ** intros _. unfold placeholder. cbn. auto.
    + intros op lhs p Hfuel Hids Hwf. cbn [parseLoop].
      pose proof (rank_nextLevel op) as Hr.
      destruct (toktype_eqb (tok_type (peek p)) (T_BIN op)) eqn:Eop.
      * apply toktype_eqb_eq in Eop.
        assert (Hlt : pos p < length (tokens p))
          by (apply peek_not_eof; rewrite Eop; discriminate).
        unfold consume.
        set (p1 := {| tokens := tokens p; pos := S (pos p);
                      nodeIdCounter := nodeIdCounter p |}).
        destruct (IHat (nextLevel op) p1) as (rhs & p2 & E2 & G2).
        { unfold_states. lia. }
        rewrite E2. unfold generateId.
        destruct G2 as (Ht2 & Hp2 & Hc2 & Hi2 & Hw2).
        set (p3 := {| tokens := tokens p2; pos := pos p2;
                      nodeIdCounter := S (nodeIdCounter p2) |}).
        set (node := BinNode _ _ _ _ _ _).
        destruct (IHloop op node p3) as (res & p4 & E4 & G4).
        { unfold_states. rewrite Ht2. lia. }
        { subst node. unfold_states. cbn [ids_lt]. repeat split; try lia.
          - apply ids_lt_mono with (1 := Hids). lia.
          - apply ids_lt_mono with (1 := Hi2). lia. }
        { subst node. unfold_states. rewrite Ht2. intros Hok.
          cbn [wf_node]. repeat split; auto.
          - apply binExpression_length.
          - apply ids_lt_mono with (1 := Hids). lia. }
        exists res, p4. split; [exact E4|].
        destruct G4 as (Ht4 & Hp4 & Hc4 & Hi4 & Hw4). unfold_states.
        good_split; try congruence; try lia; auto.
        intros Hok. apply Hw4. now rewrite Ht2.
      * exists lhs, p. split; [reflexivity|].
        good_split; auto.
Qed.

Lemma parseAt_total (lv : Level) (p : Parser) (fuel : nat) :
  rank lv + 12 * remaining p <= fuel ->
  exists node p', parseAt fuel lv p = Some (node, p') /\ Good p node p'.
Proof. apply parse_good_aux. Qed.

Lemma parse_total (toks : list Token) :
  exists ast, parse toks = Some ast
              /\ (Forall tok_ok toks -> wf_node ast).
Proof.
  unfold parse, parseIFF, parseFuel.
  destruct (parseAt_total (LevelBin IFF) (newParser toks)
              (12 * length toks + 12)) as (node & p' & E & G).
  { unfold remaining. simpl. lia. }
  rewrite E. exists node. split; [reflexivity|].
  destruct G as (_ & _ & _ & _ & Hw). exact Hw.
Qed.

(** ** Classification *)

Lemma scanFlags_fold e rows t c :
  fold_left
    (fun flags row =>
       if rowValue e row then (fst flags, false) else (false, snd flags))
    rows (t, c)
  = (t && forallb (rowValue e) rows,
     c && forallb (fun row => negb (rowValue e row)) rows).
Proof.
  revert t c. induction rows as [|row rows IH]; intros t c; simpl.
  - now rewrite !andb_true_r.
  - destruct (rowValue e row); simpl; rewrite IH; simpl;
      now rewrite ?andb_false_r.
Qed.

Lemma forallb_allRows_true e rows :
  forallb (rowValue e) rows = true <-> allRows true e rows.
Proof. unfold allRows. now rewrite forallb_forall. Qed.

Lemma forallb_allRows_false e rows :
  forallb (fun row => negb (rowValue e row)) rows = true <-> allRows false e rows.
Proof.
  unfold allRows. rewrite forallb_forall.
  split; intros H row Hin; specialize (H row Hin);
    destruct (rowValue e row); simpl in *; congruence.
Qed.

Lemma classify_consistent e rows :
  rows <> [] ->
  consistent (classify (fst (scanFlags e rows)) (snd (scanFlags e rows))) e rows.
Proof.
  intros Hne. unfold scanFlags. rewrite scanFlags_fold. simpl.
  pose proof (forallb_allRows_true e rows) as Ht.
  pose proof (forallb_allRows_false e rows) as Hf.
  assert (Hexcl : allRows true e rows -> allRows false e rows -> False).
  { destruct rows as [|row rows]; [congruence|].
    intros H1 H2. specialize (H1 row (or_introl eq_refl)).
    specialize (H2 row (or_introl eq_refl)). congruence. }
  unfold consistent, classify.
  destruct (forallb (rowValue e) rows) eqn:E1;
    destruct (forallb (fun row => negb (rowValue e row)) rows) eqn:E2;
    repeat split; intros; try discriminate; try tauto;
    try (exfalso; intuition congruence).
Qed.

Lemma tableRows_nonempty ast declared settings :
  tableRows ast declared settings <> [].
Proof.
  unfold tableRows.
  assert (H : 2 ^ length declared <> 0) by (apply Nat.pow_nonzero; lia).
  destruct (2 ^ length declared); [congruence|]. simpl. discriminate.
Qed.

Lemma analyzeLogic_inl up expr declared settings res :
  analyzeLogic up expr declared settings = inl res ->
  exists a, parse (tokenize up expr) = Some a
            /\ undeclaredVariables up expr declared = []
            /\ res = analysisOf a declared settings.
Proof.
  unfold analyzeLogic. destruct (parse (tokenize up expr)) as [a|]; [|discriminate].
  destruct (undeclaredVariables up expr declared) as [|u us] eqn:E; simpl.
  - intros H. injection H as <-. now exists a.
  - discriminate.
Qed.

(** C3 (as amended): the classification of an analysis is Tautology
    exactly when every row reads true in the root column, Contradiction
    exactly when every row reads false there, and Contingency exactly when
    neither holds.  This holds of every result of [analyzeLogic], and of
    every result of [reanalyzeFromRows] given at least one row.  A row
    that lacks the root column reads false, as in the source. *)
Theorem classification_consistent :
  (forall up expr declared settings res,
      analyzeLogic up expr declared settings = inl res ->
      consistent (classification res) (node_expression (ast res)) (rows res))
  /\
  (forall current updatedRows settings,
      updatedRows <> [] ->
      consistent (classification (reanalyzeFromRows current updatedRows settings))
        (node_expression (ast current)) updatedRows).
Proof.
  split.
  - intros up expr declared settings res H.
    apply analyzeLogic_inl in H as (a & _ & _ & ->).
    unfold analysisOf. cbn [classification ast rows].
    apply classify_consistent, tableRows_nonempty.
  - intros current updatedRows settings Hne.
    unfold reanalyzeFromRows. cbn [classification].
    now apply classify_consistent.
Qed.

(** ** Label formatting *)

Lemma normalizeNegations_negations s :
  Forall (fun ch => isNegationSymbol ch = true) s ->
  normalizeNegations s = repeat ch_not (length s).
Proof.
  induction 1 as [|ch s Hch _ IH]; simpl; [reflexivity|].
  rewrite IH. f_equal. unfold isNegationSymbol in Hch.
  destruct (ch =? ch_minus)%N, (ch =? ch_bang)%N, (ch =? ch_tilde)%N; simpl;
    try reflexivity.
  rewrite !orb_false_r in Hch. now apply N.eqb_eq in Hch.
Qed.

Lemma removeDoubleNegations_pairs k :
  removeDoubleNegations (repeat ch_not (2 * k)) = []
  /\ removeDoubleNegations (repeat ch_not (2 * k + 1)) = [ch_not].
Proof.
  induction k as [|k [IH1 IH2]]; [now split|].
  replace (2 * S k) with (S (S (2 * k))) by lia.
  replace (S (S (2 * k)) + 1) with (S (S (2 * k + 1))) by lia.
  split; simpl repeat; cbn [removeDoubleNegations]; simpl; assumption.
Qed.

Lemma simplifyLoop_settles s r fuel :
  s <> [] -> removeDoubleNegations s = r -> removeDoubleNegations r = r ->
  simplifyLoop (S (S (S fuel))) s [] = Some r.
Proof.
  intros Hne Hr Hrr.
  change (simplifyLoop (S (S (S fuel))) s [])
    with (if str_eqb s [] then Some s
          else simplifyLoop (S (S fuel)) (removeDoubleNegations s) s).
  destruct (str_eqb s []) eqn:E; [apply str_eqb_eq in E; contradiction|].
  rewrite Hr.
  change (simplifyLoop (S (S fuel)) r s)
    with (if str_eqb r s then Some r
          else simplifyLoop (S fuel) (removeDoubleNegations r) r).
  destruct (str_eqb r s); [reflexivity|].
  rewrite Hrr. cbn [simplifyLoop]. now rewrite str_eqb_refl.
Qed.

Lemma simplifyLoop_even k fuel :
  simplifyLoop (S (S (S fuel))) (repeat ch_not (2 * k)) [] = Some [].
Proof.
  destruct k as [|k]; [reflexivity|].
  apply simplifyLoop_settles.
  - replace (2 * S k) with (S (S (2 * k))) by lia. discriminate.
  - apply removeDoubleNegations_pairs.
  - reflexivity.
Qed.

Lemma simplifyLoop_odd k fuel :
  simplifyLoop (S (S (S fuel))) (repeat ch_not (2 * k + 1)) [] = Some [ch_not].
Proof.
  apply simplifyLoop_settles.
  - replace (2 * k + 1) with (S (2 * k)) by lia. discriminate.
  - apply removeDoubleNegations_pairs.
  - reflexivity.
Qed.

(** ** Assignments made column by column *)

Section ColumnFold.

Variable upd : TableColumn -> option bool.

Lemma obj_get_writeColumns (cols : list TableColumn) (init : JSObject)
  (k : jsstring) :
  obj_get (fold_left (writeColumn upd) cols init) k =
  match assigned upd k cols with
  | Some v => Some v
  | None => obj_get init k
  end.
Proof.
  revert init. induction cols as [|col rest IH]; intros init; simpl.
  - reflexivity.
  - rewrite IH. destruct (assigned upd k rest); [reflexivity|].
    unfold writeColumn. destruct (upd col) as [v|]; [|reflexivity].
    rewrite obj_get_set. now destruct (str_eqb k (expression col)).
Qed.

Lemma assigned_app (k : jsstring) (c1 c2 : list TableColumn) :
  assigned upd k (c1 ++ c2) =
  match assigned upd k c2 with
  | Some v => Some v
  | None => assigned upd k c1
  end.
Proof.
  induction c1 as [|col rest IH]; simpl.
  - now destruct (assigned upd k c2).
  - rewrite IH. now destruct (assigned upd k c2).
Qed.

Lemma assigned_none (k : jsstring) (cols : list TableColumn) :
  assigned upd k cols = None ->
  forall col, In col cols -> expression col = k -> upd col = None.
Proof.
  induction cols as [|c rest IH]; simpl; [tauto|].
  destruct (assigned upd k rest) eqn:E; [discriminate|].
  intros H col [->|Hin] Hk.
  - destruct (upd col); [|reflexivity].
    subst k. now rewrite str_eqb_refl in H.
  - now apply IH.
Qed.

Lemma assigned_untouched (k : jsstring) (cols : list TableColumn) :
  (forall col, In col cols -> expression col <> k) -> assigned upd k cols = None.
Proof.
  induction cols as [|c rest IH]; simpl; intros H; [reflexivity|].
  rewrite IH by auto.
  destruct (upd c); [|reflexivity].
  destruct (str_eqb k (expression c)) eqn:E; [|reflexivity].
  apply str_eqb_eq in E. exfalso. apply (H c); auto.
Qed.

End ColumnFold.

Lemma assigned_ext (u1 u2 : TableColumn -> option bool) k cols :
  (forall col, In col cols -> u1 col = u2 col) ->
  assigned u1 k cols = assigned u2 k cols.
Proof.
  induction cols as [|c rest IH]; simpl; intros H; [reflexivity|].
  rewrite IH by auto. rewrite (H c) by auto. reflexivity.
Qed.

Lemma fold_left_pointwise {A B : Type} (f g : A -> B -> A) (l : list B) :
  (forall a b, f a b = g a b) ->
  forall init, fold_left f l init = fold_left g l init.
Proof.
  intros H. induction l as [|b l IH]; intros init; simpl; [reflexivity|].
  now rewrite H, IH.
Qed.

Lemma evaluateColumns_fold ast subs cols context :
  evaluateColumns ast subs cols context =
  fold_left (writeColumn (tableWrite ast subs context)) cols [].
Proof.
  unfold evaluateColumns. apply fold_left_pointwise. intros o col.
  unfold writeColumn, tableWrite.
  destruct (isInput col); [reflexivity|].
  destruct (find (idMatches col) subs); [reflexivity|].
  now destruct (isOutput col).
Qed.

Lemma recalculateRow_values row cols ast :
  values (recalculateRow row cols ast) =
  fold_left
    (writeColumn (recalcWrite ast (extractSubExpressions ast [])
                    (inputContext row cols)))
    cols (values row).
Proof.
  unfold recalculateRow. cbn [values].
  apply fold_left_pointwise. intros o col.
  unfold writeColumn, recalcWrite, columnNode.
  destruct (isInput col); [reflexivity|].
  destruct (find (idMatches col) (extractSubExpressions ast []));
    [reflexivity|].
  now destruct (idMatches col ast).
Qed.

(** ** Sub-nodes *)

Lemma subnode_refl n : subnode n n.
Proof. destruct n; simpl; auto. Qed.

Lemma pushIfNew_in n node acc :
  In n (pushIfNew node acc) -> In n acc \/ n = node.
Proof.
  unfold pushIfNew.
  destruct (find _ acc); [auto|].
  rewrite in_app_iff. simpl. intuition.
Qed.

Lemma extractSubExpressions_in ast : forall acc n,
  In n (extractSubExpressions ast acc) -> In n acc \/ subnode n ast.
Proof.
  induction ast as [id v e d|id o IHo e d|id op l IHl r IHr e d];
    intros acc n H; simpl in H; apply pushIfNew_in in H;
    destruct H as [H|H]; try (right; subst n; apply subnode_refl).
  - auto.
  - apply IHo in H as [H|H]; [auto|]. right. simpl. auto.
  - apply IHr in H as [H|H].
    + apply IHl in H as [H|H]; [auto|]. right. simpl. auto.
    + right. simpl. auto.
Qed.

Lemma subnode_ids_lt n ast k : subnode n ast -> ids_lt ast k -> ids_lt n k.
Proof.
  induction ast as [id v e d|id o IHo e d|id op l IHl r IHr e d];
    simpl; intros [->|H] Hk; simpl; auto; tauto.
Qed.

Lemma subnode_wf n ast : subnode n ast -> wf_node ast -> wf_node n.
Proof.
  induction ast as [id v e d|id o IHo e d|id op l IHl r IHr e d];
    simpl; intros [->|H] Hw; simpl; auto; tauto.
Qed.

(** Within a well-formed tree only the root carries the root's id. *)
Lemma subnode_same_id n ast :
  wf_node ast -> subnode n ast -> node_id n = node_id ast -> n = ast.
Proof.
  intros Hw Hs Hid.
  destruct ast as [id v e d|id o e d|id op l r e d]; simpl in Hs, Hw, Hid.
  - destruct Hs as [->|[]]. reflexivity.
  - destruct Hs as [->|Hs]; [reflexivity|].
    destruct Hw as (_ & Ho & _).
    pose proof (ids_lt_node_id _ _ (subnode_ids_lt _ _ _ Hs Ho)). lia.
  - destruct Hs as [->|[Hs|Hs]]; [reflexivity| |];
      destruct Hw as (_ & Hl & Hr & _).
    + pose proof (ids_lt_node_id _ _ (subnode_ids_lt _ _ _ Hs Hl)). lia.
    + pose proof (ids_lt_node_id _ _ (subnode_ids_lt _ _ _ Hs Hr)). lia.
Qed.

Lemma extractSubExpressions_subnode ast n :
  In n (extractSubExpressions ast []) -> subnode n ast.
Proof.
  intros H. apply extractSubExpressions_in in H as [[]|H]. exact H.
Qed.

(** Looking the root's id up among the sub-expressions gives the root. *)
Lemma find_root ast col n :
  wf_node ast -> astId col = Some (node_id ast) ->
  find (idMatches col) (extractSubExpressions ast []) = Some n -> n = ast.
Proof.
  intros Hw Hid Hf. apply find_some in Hf as [Hin Hm].
  apply extractSubExpressions_subnode in Hin.
  unfold idMatches in Hm. rewrite Hid in Hm. apply Nat.eqb_eq in Hm.
  now apply subnode_same_id.
Qed.

(** ** The columns of a table *)

Lemma stepColumns_spec ast settings col :
  In col (stepColumns ast (extractSubExpressions ast []) settings) ->
  stepColumnOf ast col.
Proof.
  unfold stepColumns. rewrite in_map_iff. intros (n & <- & Hin).
  apply filter_In in Hin as [Hin Hf]. unfold stepColumnOf. cbn.
  repeat split. exists n. repeat split; auto.
  destruct (node_type n); simpl in Hf; congruence.
Qed.

Lemma finalColumns_shape ast declared settings :
  exists mid,
    finalColumns ast declared settings =
      varColumns declared ++ mid ++ [resultColumn ast settings]
    /\ forall col, In col mid -> stepColumnOf ast col.
Proof.
  unfold finalColumns. destruct (showSubExpressions (table settings)).
  - eexists. split; [reflexivity|]. apply stepColumns_spec.
  - exists []. split; [reflexivity|]. intros col [].
Qed.

Lemma varColumns_in declared col :
  In col (varColumns declared) ->
  isInput col = true /\ In (expression col) declared.
Proof.
  unfold varColumns. rewrite in_map_iff. intros (v & <- & Hin). now split.
Qed.

Lemma filter_isInput_finalColumns ast declared settings :
  filter isInput (finalColumns ast declared settings) = varColumns declared.
Proof.
  destruct (finalColumns_shape ast declared settings) as (mid & -> & Hmid).
  rewrite !filter_app. cbn [filter resultColumn isInput].
  replace (filter isInput mid) with (@nil TableColumn).
  - rewrite !app_nil_r. unfold varColumns.
    induction declared as [|v rest IH]; simpl; [reflexivity|]. now rewrite IH.
  - symmetry. induction mid as [|c rest IH]; [reflexivity|]. simpl.
    destruct (Hmid c (or_introl eq_refl)) as (-> & _).
    apply IH. intros col Hin. apply Hmid. now right.
Qed.

(** ** Tokens produced by the tokenizer *)

Lemma matchOperator_in str key symbol :
  matchOperator str = Some (key, symbol) -> In (key, symbol) OPS.
Proof.
  unfold matchOperator. intros H. apply find_some in H as [H _].
  revert H. vm_compute. tauto.
Qed.

Lemma charToken_ok char t : charToken char = Some t -> tok_ok t.
Proof.
  unfold charToken. intros H.
  repeat match type of H with
         | (if ?b then _ else _) = _ => destruct b
         end; inversion H; now right.
Qed.

Lemma scanTokens_ok str : forall skip, Forall tok_ok (scanTokens skip str).
Proof.
  induction str as [|char rest IH]; intros skip; simpl.
  - repeat constructor.
  - destruct skip; [|apply IH].
    destruct (matchOperator (char :: rest)) as [[key symbol]|].
    + constructor; [now right|apply IH].
    + destruct (charToken char) eqn:E; [|apply IH].
      constructor; [eapply charToken_ok; eauto|apply IH].
Qed.

Lemma tokenize_ok up input : Forall tok_ok (tokenize up input).
Proof. apply scanTokens_ok. Qed.

Lemma parse_tokenize_wf up expr a :
  parse (tokenize up expr) = Some a -> wf_node a.
Proof.
  intros H. destruct (parse_total (tokenize up expr)) as (a' & E & Hw).
  rewrite E in H. injection H as <-. apply Hw, tokenize_ok.
Qed.

(** ** The output column of a row *)

Lemma columnNode_resolves ast declared settings col :
  In col (finalColumns ast declared settings) -> isInput col = false ->
  columnNode ast (extractSubExpressions ast []) col <> None.
Proof.
  destruct (finalColumns_shape ast declared settings) as (mid & -> & Hmid).
  rewrite !in_app_iff. intros [H|[H|[<-|[]]]] Hin; unfold columnNode.
  - apply varColumns_in in H as [H _]. congruence.
  - destruct (Hmid col H) as (_ & _ & n & Hn & _ & _ & Hid).
    destruct (find (idMatches col) (extractSubExpressions ast [])) eqn:E;
      [discriminate|].
    exfalso. apply (find_none _ _ E) in Hn.
    unfold idMatches in Hn. rewrite Hid, Nat.eqb_refl in Hn. discriminate.
  - destruct (find _ _); [discriminate|].
    unfold idMatches. cbn. rewrite Nat.eqb_refl. discriminate.
Qed.

Lemma tableWrite_result ast settings context :
  wf_node ast ->
  tableWrite ast (extractSubExpressions ast []) context
    (resultColumn ast settings) = Some (evaluateAST ast context).
Proof.
  intros Hw. unfold tableWrite. cbn [isInput isOutput resultColumn].
  destruct (find _ _) as [n|] eqn:E; [|reflexivity].
  apply find_root in E; auto. now subst n.
Qed.

Lemma evaluateColumns_root ast declared settings context :
  wf_node ast ->
  obj_get
    (evaluateColumns ast (extractSubExpressions ast [])
       (finalColumns ast declared settings) context)
    (node_expression ast)
  = Some (evaluateAST ast context).
Proof.
  intros Hw. rewrite evaluateColumns_fold, obj_get_writeColumns.
  destruct (finalColumns_shape ast declared settings) as (mid & -> & _).
  rewrite !assigned_app. cbn [assigned].
  rewrite tableWrite_result by assumption.
  cbn [expression resultColumn]. now rewrite str_eqb_refl.
Qed.

(** ** Contexts *)

Lemma obj_get_fold_pairs {A : Type} (f : A * jsstring -> bool)
  (l : list (A * jsstring)) (k : jsstring) : forall init,
  (In k (map snd l) ->
   exists b, obj_get (fold_left (fun c iv => obj_set c (snd iv) (f iv)) l init) k
             = Some b)
  /\ (~ In k (map snd l) ->
      obj_get (fold_left (fun c iv => obj_set c (snd iv) (f iv)) l init) k
      = obj_get init k).
Proof.
  induction l as [|iv l IH]; intros init; simpl.
  - split; [tauto|reflexivity].
  - destruct (IH (obj_set init (snd iv) (f iv))) as [IH1 IH2].
    split.
    + intros [E|Hin].
      * destruct (in_dec str_eq_dec k (map snd l)) as [Hi|Hn];
          [auto|].
        rewrite IH2 by assumption. subst k. rewrite obj_get_set_same. eauto.
      * auto.
    + intros Hn. rewrite IH2 by tauto. apply obj_get_set_other. intuition.
Qed.

Lemma map_snd_combine_seq (l : list jsstring) (s : nat) :
  map snd (combine (seq s (length l)) l) = l.
Proof.
  revert s. induction l as [|x l IH]; intros s; simpl; [reflexivity|].
  now rewrite IH.
Qed.

Lemma rowContext_get declared valIndex k :
  (In k declared -> exists b, obj_get (rowContext declared valIndex) k = Some b)
  /\ (~ In k declared -> obj_get (rowContext declared valIndex) k = None).
Proof.
  unfold rowContext.
  destruct (obj_get_fold_pairs
              (fun iv => bitIsSet valIndex (length declared - 1 - fst iv))
              (combine (seq 0 (length declared)) declared) k []) as [H1 H2].
  rewrite map_snd_combine_seq in *. split; auto.
Qed.

Lemma inputContext_fold row cols :
  inputContext row cols =
  fold_left
    (writeColumn (fun c => Some (truthy (obj_get (values row) (expression c)))))
    (filter isInput cols) [].
Proof. reflexivity. Qed.

Lemma assigned_keyed (g : jsstring -> bool) upd k cols :
  (forall col, In col cols -> upd col = Some (g (expression col))) ->
  (exists col, In col cols /\ expression col = k) ->
  assigned upd k cols = Some (g k).
Proof.
  intros Hupd (col & Hin & Hk).
  destruct (assigned upd k cols) as [v|] eqn:E.
  - f_equal. clear col Hin Hk. revert v E.
    induction cols as [|c rest IH]; simpl; intros v E; [discriminate|].
    destruct (assigned upd k rest) as [w|].
    + injection E as <-. apply IH; auto. intros; apply Hupd; now right.
    + rewrite Hupd in E by now left.
      destruct (str_eqb k (expression c)) eqn:Ek; [|discriminate].
      apply str_eqb_eq in Ek. injection E as <-. now subst k.
  - pose proof (assigned_none _ _ _ E col Hin Hk) as Hnone.
    rewrite Hupd in Hnone by assumption. discriminate.
Qed.

Lemma inputContext_get ast declared settings row k :
  obj_get (inputContext row (finalColumns ast declared settings)) k =
  if in_dec str_eq_dec k declared
  then Some (truthy (obj_get (values row) k)) else None.
Proof.
  rewrite inputContext_fold, filter_isInput_finalColumns, obj_get_writeColumns.
  destruct (in_dec str_eq_dec k declared) as [Hin|Hn].
  - rewrite assigned_keyed
      with (g := fun key => truthy (obj_get (values row) key)); auto.
    exists {| col_id := VarColumnId k; label := k; expression := k;
              isInput := true; isOutput := false; astId := None;
              dependencyIds := None |}.
    split; [|reflexivity]. unfold varColumns. apply in_map_iff. eauto.
  - rewrite assigned_untouched; [reflexivity|].
    intros col Hc Hk. apply varColumns_in in Hc as [_ Hc]. congruence.
Qed.

(** ** Round trip through the input columns *)

Lemma evaluateAST_agree n c1 c2 :
  agreeOn n c1 c2 -> evaluateAST n c1 = evaluateAST n c2.
Proof.
  induction n as [id v e d|id o IHo e d|id op l IHl r IHr e d]; simpl.
  - intros [->|[->|H]]; try reflexivity.
    destruct (str_eqb v [ch_one]); [reflexivity|].
    destruct (str_eqb v [ch_zero]); [reflexivity|]. exact H.
  - intros H. now rewrite IHo.
  - intros [H1 H2]. now rewrite IHl, IHr.
Qed.

Lemma agreeOn_keys n c1 c2 :
  wf_node n ->
  (forall k, length k = 1 -> k <> [ch_one] -> k <> [ch_zero] ->
             truthy (obj_get c1 k) = truthy (obj_get c2 k)) ->
  agreeOn n c1 c2.
Proof.
  intros Hw H.
  induction n as [id v e d|id o IHo e d|id op l IHl r IHr e d]; simpl in *.
  - destruct (str_eq_dec v [ch_one]); [auto|].
    destruct (str_eq_dec v [ch_zero]); [auto|].
    right; right. apply H; tauto.
  - apply IHo. tauto.
  - split; [apply IHl|apply IHr]; tauto.
Qed.

Lemma tableRow_values_key ast declared settings i k :
  wf_node ast -> In k declared ->
  length k = 1 -> k <> [ch_one] -> k <> [ch_zero] ->
  truthy (obj_get (values (tableRow ast declared settings i)) k)
  = truthy (obj_get
              (rowContext declared
                 (valIndexOf settings (2 ^ length declared) i)) k).
Proof.
  intros Hw Hin Hlen H1 H0. unfold tableRow. cbn [values].
  set (context := rowContext declared _).
  rewrite evaluateColumns_fold, obj_get_writeColumns.
  destruct (finalColumns_shape ast declared settings) as (mid & -> & Hmid).
  rewrite !assigned_app.
  assert (Hvars :
            assigned (tableWrite ast (extractSubExpressions ast []) context) k
              (varColumns declared) = Some (truthy (obj_get context k))).
  { apply assigned_keyed with (g := fun key => truthy (obj_get context key)).
    - intros col Hc. apply varColumns_in in Hc as [Hc _].
      unfold tableWrite. now rewrite Hc.
    - exists {| col_id := VarColumnId k; label := k; expression := k;
                isInput := true; isOutput := false; astId := None;
                dependencyIds := None |}.
      split; [|reflexivity]. unfold varColumns. apply in_map_iff. eauto. }
  assert (Hmid' :
            assigned (tableWrite ast (extractSubExpressions ast []) context) k
              mid = None).
  { apply assigned_untouched. intros col Hc Hk.
    destruct (Hmid col Hc) as (_ & _ & n & Hn & Hty & He & _).
    apply extractSubExpressions_subnode in Hn.
    pose proof (subnode_wf _ _ Hn Hw) as Hwn.
    rewrite He in Hk.
    destruct n; simpl in *; try congruence; subst k; lia. }
  rewrite Hmid', Hvars. cbn [assigned].
  rewrite tableWrite_result by assumption. cbn [expression resultColumn].
  destruct (str_eqb k (node_expression ast)) eqn:E; [|reflexivity].
  apply str_eqb_eq in E. cbn [truthy].
  destruct ast as [id v e d|id o e d|id op l r e d]; simpl in *.
  - subst e. destruct Hw as (_ & _ & Hv). rewrite <- (Hv Hlen).
    apply str_eqb_neq in H1, H0. now rewrite H1, H0.
  - subst e. lia.
  - subst e. lia.
Qed.

(** C2: for every expression and declared-variable list that
    [analyzeLogic] accepts, and every row of the result, the value stored
    under the root's expression string is [evaluateAST] of the root in the
    context formed from that row's input columns alone. *)
Theorem output_column_roundtrip up expr declared settings res row :
  analyzeLogic up expr declared settings = inl res ->
  In row (rows res) ->
  obj_get (values row) (node_expression (ast res))
  = Some (evaluateAST (ast res) (inputContext row (columns res))).
Proof.
  intros H Hrow.
  apply analyzeLogic_inl in H as (a & Hparse & _ & ->).
  pose proof (parse_tokenize_wf _ _ _ Hparse) as Hw.
  unfold analysisOf in *. cbn [ast rows columns] in *.
  unfold tableRows in Hrow. apply in_map_iff in Hrow as (i & <- & _).
  set (row := tableRow a declared settings i).
  assert (Hroot : obj_get (values row) (node_expression a)
                  = Some (evaluateAST a
                            (rowContext declared
                               (valIndexOf settings (2 ^ length declared) i)))).
  { unfold row, tableRow. cbn [values]. now apply evaluateColumns_root. }
  rewrite Hroot. f_equal. apply evaluateAST_agree, agreeOn_keys; [exact Hw|].
  intros k Hlen H1 H0. rewrite inputContext_get.
  destruct (in_dec str_eq_dec k declared) as [Hin|Hn].
  - cbn [truthy]. symmetry. now apply tableRow_values_key.
  - now rewrite (proj2 (rowContext_get declared _ k) Hn).
Qed.

(** ** Recomputing a row *)

Lemma fold_left_ext_in {A B : Type} (f g : A -> B -> A) (l : list B) :
  (forall a b, In b l -> f a b = g a b) ->
  forall init, fold_left f l init = fold_left g l init.
Proof.
  induction l as [|b l IH]; intros H init; simpl; [reflexivity|].
  rewrite H by now left. apply IH. intros; apply H; now right.
Qed.

Lemma inputContext_agree row1 row2 cols :
  (forall col, In col cols -> isInput col = true ->
     obj_get (values row1) (expression col)
     = obj_get (values row2) (expression col)) ->
  inputContext row1 cols = inputContext row2 cols.
Proof.
  intros H. unfold inputContext. apply fold_left_ext_in.
  intros c col Hin. apply filter_In in Hin as [Hin Hi].
  now rewrite (H col Hin Hi).
Qed.

(** C10: over the tree and the columns of an analysis, two rows that agree
    on every input column are recomputed by [recalculateRow] into rows that
    agree on every column, whatever derived values the given rows held. *)
Theorem recalculateRow_depends_on_inputs up expr declared settings res row1 row2 :
  analyzeLogic up expr declared settings = inl res ->
  (forall col, In col (columns res) -> isInput col = true ->
     obj_get (values row1) (expression col)
     = obj_get (values row2) (expression col)) ->
  forall col, In col (columns res) ->
    obj_get (values (recalculateRow row1 (columns res) (ast res)))
      (expression col)
    = obj_get (values (recalculateRow row2 (columns res) (ast res)))
        (expression col).
Proof.
  intros H Hagree col Hcol.
  apply analyzeLogic_inl in H as (a & _ & _ & ->).
  unfold analysisOf in *. cbn [ast columns] in *.
  rewrite !recalculateRow_values, !obj_get_writeColumns.
  rewrite (inputContext_agree row1 row2 _ Hagree).
  destruct (assigned _ _ _) eqn:E; [reflexivity|].
  apply Hagree; [exact Hcol|].
  pose proof (assigned_none _ _ _ E col Hcol eq_refl) as Hnone.
  unfold recalcWrite in Hnone.
  destruct (isInput col) eqn:Ei; [reflexivity|].
  pose proof (columnNode_resolves a declared settings col Hcol Ei) as Hres.
  destruct (columnNode a (extractSubExpressions a []) col);
    [discriminate|congruence].
Qed.

(** ** Input without tokens *)

Lemma includes_In l s : includes l s = true <-> In s l.
Proof.
  unfold includes. rewrite existsb_exists. split.
  - intros (x & Hin & E). apply str_eqb_eq in E. now subst.
  - intros H. exists s. split; [exact H|apply str_eqb_refl].
Qed.


(** ** The undeclared-variable check *)

Lemma insertSorted_in x y l : In y (insertSorted x l) <-> y = x \/ In y l.
Proof.
  induction l as [|z l IH]; simpl; [intuition|].
  destruct (hd 0%N z <=? hd 0%N x)%N; simpl; rewrite ?IH; intuition.
Qed.

Lemma sorted_in y vars : forall init,
  In y (fold_left (fun acc x => insertSorted x acc) vars init)
  <-> In y vars \/ In y init.
Proof.
  induction vars as [|x vars IH]; intros init; simpl; [tauto|].
  rewrite IH, insertSorted_in. intuition.
Qed.

Lemma collected_in v toks : forall acc,
  In v (fold_left
          (fun vars t =>
             if isVariableToken t
             then (if includes vars (tok_value t) then vars
                   else vars ++ [tok_value t])
             else vars) toks acc)
  <-> In v acc \/ exists t, In t toks /\ isVariableToken t = true
                            /\ tok_value t = v.
Proof.
  induction toks as [|t toks IH]; intros acc; simpl.
  - split; [auto|]. intros [H|(t & [] & _)]. exact H.
  - rewrite IH. destruct (isVariableToken t) eqn:Et.
    + destruct (includes acc (tok_value t)) eqn:Ei.
      * apply includes_In in Ei. split.
        -- intros [H|(t' & Hin & H)]; [auto|]. right. exists t'. tauto.
        -- intros [H|(t' & [->|Hin] & Hq & Hv)]; [auto| |].
           ++ left. now subst v.
           ++ right. eauto.
      * rewrite in_app_iff. simpl. split.
        -- intros [[H|[H|[]]]|(t' & Hin & H)]; [auto| |].
           ++ right. exists t. auto.
           ++ right. exists t'. tauto.
        -- intros [H|(t' & [->|Hin] & Hq & Hv)]; [auto| |].
           ++ left. right. now left.
           ++ right. eauto.
    + split.
      * intros [H|(t' & Hin & H)]; [auto|]. right. exists t'. tauto.
      * intros [H|(t' & [->|Hin] & Hq & Hv)]; [auto|congruence|].
        right. eauto.
Qed.

Lemma isVariableToken_spec t :
  isVariableToken t = true <->
  tok_type t = T_VAR /\ tok_value t <> [ch_zero] /\ tok_value t <> [ch_one].
Proof.
  unfold isVariableToken. rewrite andb_true_iff, negb_true_iff.
  rewrite toktype_eqb_eq.
  split; intros [H1 H2]; split; auto.
  - split; intros E; rewrite E in H2; discriminate.
  - destruct (includes _ _) eqn:E; [|reflexivity].
    apply includes_In in E. simpl in E.
    change (lit "0") with [ch_zero] in E. change (lit "1") with [ch_one] in E.
    intuition congruence.
Qed.

Lemma extractVariables_in up expr v :
  In v (extractVariablesFromExpression up expr) <->
  exists t, In t (tokenize up expr) /\ tok_type t = T_VAR /\ tok_value t = v
            /\ v <> [ch_zero] /\ v <> [ch_one].
Proof.
  unfold extractVariablesFromExpression.
  rewrite sorted_in.
  change (fold_left _ (tokenize up expr) [])
    with (fold_left
            (fun vars t =>
               if isVariableToken t
               then (if includes vars (tok_value t) then vars
                     else vars ++ [tok_value t])
               else vars) (tokenize up expr) []).
  rewrite collected_in. simpl. split.
  - intros [[[]|(t & Hin & Hq & Hv)]|[]].
    apply isVariableToken_spec in Hq as (Ht & H0 & H1).
    exists t. subst v. auto.
  - intros (t & Hin & Ht & Hv & H0 & H1). left. right. exists t.
    repeat split; auto. apply isVariableToken_spec. subst v. auto.
Qed.


(** A ['VAR'] token is an upper-case letter or one of the constants. *)
Lemma operatorType_symbol key symbol :
  In (key, symbol) OPS -> operatorType symbol <> T_VAR.
Proof.
  simpl. intros H.
  repeat (destruct H as [H|H]; [injection H as _ <-; discriminate|]).
  destruct H.
Qed.

Lemma charToken_var char t :
  charToken char = Some t -> tok_type t = T_VAR ->
  tok_value t = [char]
  /\ (isUpperLetter char = true \/ char = ch_one \/ char = ch_zero).
Proof.
  unfold charToken.
  destruct (existsb (N.eqb char) SYMBOLS || _) eqn:Esym.
  - intros H Ht. injection H as <-. exfalso. cbn [tok_type] in Ht.
    apply orb_true_iff in Esym.
    assert (Hc : In char (SYMBOLS ++ [ch_lbracket; ch_rbracket; ch_lbrace;
                                       ch_rbrace; ch_lparen; ch_rparen])).
    { apply in_app_iff.
      destruct Esym as [E|E]; apply existsb_exists in E as (x & Hx & Ex);
        apply N.eqb_eq in Ex; subst x; auto. }
    simpl in Hc.
    repeat (destruct Hc as [Hc|Hc]; [subst char; discriminate|]).
    destruct Hc.
  - destruct (isUpperLetter char || (char =? ch_one)%N || (char =? ch_zero)%N)
      eqn:Evar.
    + intros H _. injection H as <-. split; [reflexivity|].
      rewrite !orb_true_iff, !N.eqb_eq in Evar. tauto.
    + destruct (char =? ch_minus)%N; intros H Ht; [|discriminate].
      injection H as <-. discriminate.
Qed.

Lemma scanTokens_var str : forall skip t,
  In t (scanTokens skip str) -> tok_type t = T_VAR ->
  exists char, tok_value t = [char]
               /\ (isUpperLetter char = true \/ char = ch_one \/ char = ch_zero).
Proof.
  induction str as [|char rest IH]; intros skip t; simpl.
  - intros [<-|[]]. discriminate.
  - destruct skip; [|apply IH].
    destruct (matchOperator (char :: rest)) as [[key symbol]|] eqn:Eop.
    + intros [<-|Hin]; [|eapply IH; eauto].
      intros Ht. exfalso.
      apply matchOperator_in in Eop.
      now apply operatorType_symbol in Eop.
    + destruct (charToken char) as [t'|] eqn:Ec.
      * intros [<-|Hin]; [|eapply IH; eauto].
        intros Ht. exists char. eapply charToken_var; eauto.
      * apply IH.
Qed.

(** ** Lenient tokenizing and parsing *)

Lemma startsWith_head ch rest key :
  startsWith (ch :: rest) key = true -> key = [] \/ hd_error key = Some ch.
Proof.
  destruct key as [|k key]; simpl; [auto|].
  intros H. apply andb_true_iff in H as [H _]. apply N.eqb_eq in H.
  right. now subst.
Qed.

Lemma unrecognized_no_operator ch rest :
  unrecognized ch = true -> matchOperator (ch :: rest) = None.
Proof.
  intros Hu. unfold matchOperator.
  destruct (find _ opKeys) as [kv|] eqn:E; [|reflexivity].
  exfalso. apply find_some in E as [Hin Hs].
  apply startsWith_head in Hs.
  revert Hin. vm_compute opKeys. intros Hin. simpl in Hin.
  repeat (destruct Hin as [Hin|Hin];
          [subst kv; destruct Hs as [Hs|Hs];
           [discriminate|injection Hs as <-; discriminate]|]).
  destruct Hin.
Qed.

Lemma unrecognized_no_token ch :
  unrecognized ch = true -> charToken ch = None.
Proof.
  unfold unrecognized, isTokenChar, isAliasStart, charToken, SYMBOLS.
  cbn [existsb]. intros H.
  destruct (isUpperLetter ch); [discriminate H|].
  repeat match type of H with
         | context [(ch =? ?k)%N] =>
             let E := fresh "E" in
             destruct (ch =? k)%N eqn:E;
             [apply N.eqb_eq in E; subst ch; discriminate H|]
         end.
  change 45%N with ch_minus in *.
  repeat match goal with
         | E : (ch =? _)%N = false |- _ => rewrite E; clear E
         end.
  reflexivity.
Qed.

Lemma scanTokens_unrecognized ch rest :
  unrecognized ch = true -> scanTokens 0 (ch :: rest) = scanTokens 0 rest.
Proof.
  intros H. cbn [scanTokens].
  now rewrite (unrecognized_no_operator ch rest H), (unrecognized_no_token ch H).
Qed.

Lemma parseFactor_mismatch fuel p node p' :
  isOpenBracket (tok_type (peek p)) = true ->
  parseIFF fuel (snd (consume p)) = Some (node, p') ->
  tok_type (peek p') <> expectedCloseType (tok_type (peek p)) ->
  parseFactor (S fuel) p = Some (node, p').
Proof.
  intros Hopen Hinner Hclose. unfold parseFactor, parseIFF in *.
  cbn [parseAt]. rewrite Hopen. unfold consume in *. cbn [snd] in Hinner.
  rewrite Hinner.
  destruct (toktype_eqb _ _) eqn:E; [|reflexivity].
  apply toktype_eqb_eq in E. contradiction.
Qed.

Lemma parseFactor_placeholder fuel p :
  isOpenBracket (tok_type (peek p)) = false ->
  tok_type (peek p) <> T_VAR ->
  parseFactor (S fuel) p
  = Some (VarNode (nodeIdCounter p) [ch_question] [ch_question] 0,
          {| tokens := tokens p; pos := S (pos p);
             nodeIdCounter := S (nodeIdCounter p) |}).
Proof.
  intros Hopen Hvar. unfold parseFactor. cbn [parseAt]. rewrite Hopen.
  destruct (toktype_eqb (tok_type (peek p)) T_VAR) eqn:E.
  - apply toktype_eqb_eq in E. contradiction.
  - reflexivity.
Qed.

(** ** Loops *)

Lemma fold_left_preserves {A B : Type} (P : A -> Prop) (f : A -> B -> A)
  (l : list B) :
  (forall a b, P a -> P (f a b)) ->
  forall init, P init -> P (fold_left f l init).
Proof.
  intros H. induction l as [|b l IH]; intros init Hi; simpl; auto.
Qed.

Lemma fold_left_reaches {A B : Type} (Q : A -> Prop) (f : A -> B -> A)
  (l : list B) (x : B) :
  In x l ->
  (forall a, Q (f a x)) ->
  (forall a b, Q a -> Q (f a b)) ->
  forall init, Q (fold_left f l init).
Proof.
  intros Hin Hx Hmono.
  induction l as [|b l IH]; intros init; simpl; [destruct Hin|].
  destruct Hin as [->|Hin].
  - apply fold_left_preserves; auto.
  - now apply IH.
Qed.

(** ** Sets of minterms *)

Lemma set_add_in x m s : In x (set_add m s) <-> x = m \/ In x s.
Proof.
  unfold set_add. destruct (existsb (N.eqb m) s) eqn:E.
  - split; [auto|]. intros [->|H]; [|exact H].
    apply existsb_exists in E as (y & Hy & Ey).
    apply N.eqb_eq in Ey. now subst.
  - rewrite in_app_iff. simpl. intuition.
Qed.

Lemma set_has_in s m : set_has s m = true <-> In m s.
Proof.
  unfold set_has. rewrite existsb_exists. split.
  - intros (y & Hy & Ey). apply N.eqb_eq in Ey. now subst.
  - intros H. exists m. split; [exact H|apply N.eqb_refl].
Qed.

Lemma fold_set_add_in x ms : forall cov,
  In x (fold_left (fun s m => set_add m s) ms cov) <-> In x ms \/ In x cov.
Proof.
  induction ms as [|m ms IH]; intros cov; simpl; [tauto|].
  rewrite IH, set_add_in. intuition.
Qed.

(** ** The group solver *)

Section Solver.

Variable g : list (list KMapCell).
Variables rowVars colVars rowGray colGray : list jsstring.

Let rows := length g.
Let cols := length (nth 0 g []).

Hypothesis rows_pos : 0 < rows.
Hypothesis cols_pos : 0 < cols.

Lemma collectCells_spec r c offsets : forall cells0 mins0 cells1 mins1,
  collectCells g rows cols r c offsets cells0 mins0 = Some (cells1, mins1) ->
  exists fresh,
    cells1 = cells0 ++ fresh
    /\ fresh = map (fun ij => {| cell_r := (r + fst ij) mod rows;
                                 cell_c := (c + snd ij) mod cols |}) offsets
    /\ (forall gc, In gc fresh ->
          inGrid g gc /\ cellOn g gc /\ In (mintermOf g gc) mins1)
    /\ (forall m, In m mins1 ->
          In m mins0 \/ exists gc, In gc fresh /\ mintermOf g gc = m)
    /\ (forall m, In m mins0 -> In m mins1).
Proof.
  induction offsets as [|[i j] offsets IH]; intros cells0 mins0 cells1 mins1;
    cbn [collectCells].
  - intros H. injection H as <- <-. exists []. rewrite app_nil_r.
    split; [reflexivity|]. split; [reflexivity|].
    split; [intros gc []|]. split; auto.
  - destruct (value (cellAt g ((r + i) mod rows) ((c + j) mod cols))) eqn:Ev;
      [|discriminate].
    intros H. apply IH in H as (fresh & -> & Hf & Hall & Hmins & Hsub).
    set (gc0 := {| cell_r := (r + i) mod rows; cell_c := (c + j) mod cols |}).
    exists (gc0 :: fresh). rewrite <- app_assoc. split; [reflexivity|].
    split; [cbn [map fst snd]; now rewrite Hf|]. split; [|split].
    + intros gc [<-|Hin]; [|now apply Hall].
      split; [|split].
      * split; cbn; apply Nat.mod_upper_bound; lia.
      * exact Ev.
      * apply Hsub, set_add_in. now left.
    + intros m Hm. apply Hmins in Hm as [Hm|(gc & Hin & Hgc)].
      * apply set_add_in in Hm as [->|Hm]; [|auto].
        right. exists gc0. split; [now left|reflexivity].
      * right. exists gc. split; [now right|exact Hgc].
    + intros m Hm. apply Hsub, set_add_in. now right.
Qed.

Lemma tryCandidate_mono size r c st m :
  In m (snd st) ->
  In m (snd (tryCandidate g rows cols rowVars colVars rowGray colGray
               size r c st)).
Proof.
  destruct st as [groups covered]. unfold tryCandidate.
  destruct (collectCells _ _ _ _ _ _ _ _) as [[cs ms]|]; [|auto].
  destruct (existsb _ ms); [|auto].
  cbn [snd]. intros H. apply fold_set_add_in. now right.
Qed.

Lemma tryCandidate_inv size r c st :
  SolverInv g st ->
  SolverInv g (tryCandidate g rows cols rowVars colVars rowGray colGray
               size r c st).
Proof.
  destruct st as [groups covered]. intros [Hcells Hcov Hnew].
  cbn [fst snd] in *. unfold tryCandidate.
  destruct (collectCells _ _ _ _ _ _ _ _) as [[cs ms]|] eqn:Ecol;
    [|now constructor].
  destruct (existsb _ ms) eqn:Enew; [|now constructor].
  apply collectCells_spec in Ecol as (fresh & Hcs & _ & Hall & Hmins & _).
  cbn [app] in Hcs. subst cs.
  constructor; cbn [fst snd].
  - intros grp gc Hg Hgc. apply in_app_iff in Hg as [Hg|[<-|[]]].
    + destruct (Hcells grp gc Hg Hgc) as (H1 & H2 & H3).
      repeat split; try apply H1; auto. apply fold_set_add_in. now right.
    + cbn [cells] in Hgc. destruct (Hall gc Hgc) as (H1 & H2 & H3).
      repeat split; try apply H1; auto. apply fold_set_add_in. now left.
  - intros m Hm. apply fold_set_add_in in Hm as [Hm|Hm].
    + apply Hmins in Hm as [[]|(gc & Hgc & Hm)].
      eexists _, gc. split; [apply in_app_iff; right; now left|].
      split; [exact Hgc|exact Hm].
    + destruct (Hcov m Hm) as (grp & gc & Hg & Hgc & Hm').
      exists grp, gc. split; [apply in_app_iff; now left|auto].
  - intros i grp Hi.
    destruct (Nat.lt_ge_cases i (length groups)) as [Hlt|Hge].
    + rewrite nth_error_app1 in Hi by assumption.
      destruct (Hnew i grp Hi) as (gc & Hgc & Hfresh).
      exists gc. split; [exact Hgc|].
      intros j grp' gc' Hj Hj'. rewrite nth_error_app1 in Hj' by lia.
      now apply (Hfresh j).
    + rewrite nth_error_app2 in Hi by assumption.
      destruct (i - length groups) as [|d] eqn:Ed;
        [|destruct d; discriminate].
      injection Hi as <-. cbn [cells].
      apply existsb_exists in Enew as (m & Hm & Hnot).
      apply negb_true_iff in Hnot.
      apply Hmins in Hm as [[]|(gc & Hgc & Hm)].
      exists gc. split; [exact Hgc|].
      intros j grp' gc' Hj Hj' Hgc' Heq.
      assert (Hjlt : j < length groups) by lia.
      rewrite nth_error_app1 in Hj' by assumption.
      apply nth_error_In in Hj'.
      destruct (Hcells grp' gc' Hj' Hgc') as (_ & _ & Hin).
      rewrite Heq, Hm in Hin. apply set_has_in in Hin. congruence.
Qed.

Lemma tryCandidate_unit size r c st :
  size_h size = 1 -> size_w size = 1 -> r < rows -> c < cols ->
  value (cellAt g r c) = true ->
  In (mintermIndex (cellAt g r c))
    (snd (tryCandidate g rows cols rowVars colVars rowGray colGray
            size r c st)).
Proof.
  intros Hh Hw Hr Hc Hon. destruct st as [groups covered].
  unfold tryCandidate, offsetsOf. rewrite Hh, Hw.
  cbn [seq map flat_map app collectCells].
  rewrite !Nat.add_0_r, !Nat.mod_small by assumption.
  rewrite Hon. cbn [set_add existsb app].
  destruct (set_has covered (mintermIndex (cellAt g r c))) eqn:E;
    cbn [negb orb snd].
  - now apply set_has_in.
  - cbn [fold_left]. apply set_add_in. now left.
Qed.

Lemma solved_inv sizes : SolverInv g (solved g rowVars colVars rowGray colGray sizes).
Proof.
  unfold solved.
  apply fold_left_preserves.
  - intros st size Hst. apply fold_left_preserves; [|exact Hst].
    intros st' r Hst'. apply fold_left_preserves; [|exact Hst'].
    intros st'' c. apply tryCandidate_inv.
  - constructor; cbn.
    + intros grp gc [].
    + intros m [].
    + intros [|i] grp H; discriminate.
Qed.

Lemma solved_covers sizes size r c :
  In size sizes -> size_h size = 1 -> size_w size = 1 ->
  r < rows -> c < cols -> value (cellAt g r c) = true ->
  In (mintermIndex (cellAt g r c)) (snd (solved g rowVars colVars rowGray colGray sizes)).
Proof.
  intros Hsize Hh Hw Hr Hc Hon. unfold solved.
  set (Q := fun st : SolverState => In (mintermIndex (cellAt g r c)) (snd st)).
  assert (Hmono : forall sz r' c' st,
             Q st -> Q (tryCandidate g rows cols rowVars colVars rowGray
                          colGray sz r' c' st))
    by (intros; now apply tryCandidate_mono).
  assert (HmonoC : forall sz r' st,
             Q st ->
             Q (fold_left
                  (fun st c' =>
                     tryCandidate g rows cols rowVars colVars rowGray colGray
                       sz r' c' st) (seq 0 cols) st)).
  { intros sz r' st Hst. apply fold_left_preserves; auto. }
  assert (HmonoR : forall sz st,
             Q st ->
             Q (fold_left
                  (fun st r' =>
                     fold_left
                       (fun st c' =>
                          tryCandidate g rows cols rowVars colVars rowGray
                            colGray sz r' c' st) (seq 0 cols) st)
                  (seq 0 rows) st)).
  { intros sz st Hst. apply fold_left_preserves; auto. }
  change (Q (fold_left
               (fun st sz =>
                  fold_left
                    (fun st r' =>
                       fold_left
                         (fun st c' =>
                            tryCandidate g rows cols rowVars colVars rowGray
                              colGray sz r' c' st) (seq 0 cols) st)
                    (seq 0 rows) st) sizes ([], []))).
  apply fold_left_reaches with (x := size); auto.
  intros st. apply fold_left_reaches with (x := r); auto.
  - apply in_seq. lia.
  - intros st'. apply fold_left_reaches with (x := c); auto.
    + apply in_seq. lia.
    + intros st''. unfold Q. now apply tryCandidate_unit.
Qed.

End Solver.

(** ** Karnaugh maps of two, three and four variables *)

Lemma mintermIndex_cellAt g r c :
  mintermIndex (cellAt g r c)
  = nth c (nth r (map (map mintermIndex) g) []) 0%N.
Proof.
  unfold cellAt.
  change (@nil N) with (map mintermIndex []).
  rewrite map_nth.
  change 0%N with (mintermIndex {| value := false; mintermIndex := 0 |}).
  now rewrite map_nth.
Qed.

Lemma buildGrid_indices rowGray colGray mintermMap :
  map (map mintermIndex) (buildGrid rowGray colGray mintermMap)
  = map (fun rbits => map (fun cbits => parseBinary (rbits ++ cbits)) colGray)
      rowGray.
Proof.
  unfold buildGrid. rewrite map_map. apply map_ext. intros rbits.
  rewrite map_map. now apply map_ext.
Qed.

Lemma buildGrid_length rowGray colGray mintermMap :
  length (buildGrid rowGray colGray mintermMap) = length rowGray.
Proof. unfold buildGrid. apply length_map. Qed.

Lemma buildGrid_row_length rowGray colGray mintermMap r :
  r < length rowGray ->
  length (nth r (buildGrid rowGray colGray mintermMap) []) = length colGray.
Proof.
  intros Hr. unfold buildGrid.
  rewrite nth_indep with (d' := map
    (fun cbits =>
       {| value := truthy (mintermLookup mintermMap (parseBinary ([] ++ cbits)));
          mintermIndex := parseBinary ([] ++ cbits) |}) colGray)
    by (now rewrite length_map).
  rewrite (map_nth (fun rbits => map _ colGray)). apply length_map.
Qed.

Lemma layout_injective rowGray colGray mintermMap gc gc' :
  layoutOf rowGray colGray ->
  cell_r gc < length rowGray -> cell_c gc < length colGray ->
  cell_r gc' < length rowGray -> cell_c gc' < length colGray ->
  mintermOf (buildGrid rowGray colGray mintermMap) gc
  = mintermOf (buildGrid rowGray colGray mintermMap) gc' ->
  gc = gc'.
Proof.
  unfold mintermOf. rewrite !mintermIndex_cellAt, buildGrid_indices.
  destruct gc as [r c], gc' as [r' c']. cbn [cell_r cell_c].
  intros [[-> ->]|[[-> ->]|[-> ->]]]; cbn [getGrayCode Nat.eqb length];
    intros Hr Hc Hr' Hc';
    repeat (destruct r as [|r]; [|try lia]);
    repeat (destruct c as [|c]; [|try lia]);
    repeat (destruct r' as [|r']; [|try lia]);
    repeat (destruct c' as [|c']; [|try lia]);
    vm_compute; intros H; try reflexivity; discriminate H.
Qed.

Lemma layout_unit_size rowGray colGray :
  layoutOf rowGray colGray ->
  In {| size_h := 1; size_w := 1; area := 1 |}
    (candidateSizes (length rowGray) (length colGray)).
Proof.
  intros [[-> ->]|[[-> ->]|[-> ->]]]; vm_compute; tauto.
Qed.

Lemma layout_positive rowGray colGray :
  layoutOf rowGray colGray -> 0 < length rowGray /\ 0 < length colGray.
Proof.
  intros [[-> ->]|[[-> ->]|[-> ->]]]; cbn; lia.
Qed.

Lemma generateKMap_some variables rows k :
  generateKMap variables rows = Some k ->
  exists rowVars colVars rowGray colGray mintermMap onMinterms,
    layoutOf rowGray colGray
    /\ grid k = buildGrid rowGray colGray mintermMap
    /\ groups k
       = fst (solveKMap (grid k) onMinterms rowVars colVars rowGray colGray).
Proof.
  unfold generateKMap.
  destruct ((length variables <? 2) || (4 <? length variables)) eqn:Econd;
    [discriminate|].
  cbv zeta.
  match goal with
  | |- (let (_, _) := solveKMap (buildGrid ?rg ?cg ?mm) ?on ?rv ?cv _ _ in _)
       = _ -> _ =>
      destruct (solveKMap (buildGrid rg cg mm) on rv cv rg cg)
        as [grps mexpr] eqn:Es;
      intros H; injection H as <-; cbv beta iota delta [grid groups];
      exists rv, cv, rg, cg, mm, on
  end.
  split; [|split; [reflexivity|symmetry; exact (f_equal fst Es)]].
  apply orb_false_iff in Econd as [E2 E4].
  apply Nat.ltb_ge in E2, E4.
  destruct variables as [|a [|b [|c [|d [|e rest]]]]]; cbn [length] in *;
    try lia; cbn; unfold layoutOf; auto.
Qed.

(** C4: in every Karnaugh map [generateKMap] produces (two, three or four
    variables), every grid cell whose value is true belongs to an accepted
    group, every cell of an accepted group has the value true, and every
    accepted group has a cell whose minterm no earlier group covers. *)
Theorem kmap_groups_cover variables rows k :
  generateKMap variables rows = Some k ->
  (forall r c row cell,
      nth_error (grid k) r = Some row -> nth_error row c = Some cell ->
      value cell = true ->
      exists grp, In grp (groups k)
                  /\ In {| cell_r := r; cell_c := c |} (cells grp))
  /\
  (forall i grp, nth_error (groups k) i = Some grp ->
     (forall gc, In gc (cells grp) ->
        value (cellAt (grid k) (cell_r gc) (cell_c gc)) = true)
     /\ exists gc, In gc (cells grp)
          /\ forall j grp' gc', j < i -> nth_error (groups k) j = Some grp' ->
               In gc' (cells grp') ->
               mintermIndex (cellAt (grid k) (cell_r gc') (cell_c gc'))
               <> mintermIndex (cellAt (grid k) (cell_r gc) (cell_c gc))).
Proof.
  intros H.
  apply generateKMap_some in H
    as (rowVars & colVars & rowGray & colGray & mintermMap & onMinterms
        & Hlay & Hgrid & Hgroups).
  rewrite Hgroups, Hgrid. clear Hgroups.
  set (g := buildGrid rowGray colGray mintermMap).
  destruct (layout_positive _ _ Hlay) as [Hrows Hcols].
  assert (Hlen : length g = length rowGray) by apply buildGrid_length.
  assert (Hwid : forall r, r < length rowGray ->
                           length (nth r g []) = length colGray)
    by (intros; now apply buildGrid_row_length).
  assert (Hcols0 : length (nth 0 g []) = length colGray) by now apply Hwid.
  change (fst (solveKMap g onMinterms rowVars colVars rowGray colGray))
    with (fst (solved g rowVars colVars rowGray colGray
                 (candidateSizes (length g) (length (nth 0 g []))))).
  set (sizes := candidateSizes (length g) (length (nth 0 g []))).
  assert (Hrows' : 0 < length g) by lia.
  assert (Hcols' : 0 < length (nth 0 g [])) by lia.
  pose proof (solved_inv g rowVars colVars rowGray colGray Hrows' Hcols' sizes)
    as [Hcells Hcov Hnew].
  split.
  - intros r c row cell Hr Hc Hon.
    assert (Hrlt : r < length g) by (apply nth_error_Some; congruence).
    assert (Hrow : row = nth r g []).
    { symmetry. now apply nth_error_nth. }
    assert (Hclt : c < length (nth 0 g [])).
    { rewrite Hcols0, <- (Hwid r) by lia. rewrite <- Hrow.
      apply nth_error_Some. congruence. }
    assert (Hcell : cell = cellAt g r c).
    { unfold cellAt. rewrite <- Hrow. symmetry. now apply nth_error_nth. }
    assert (Hin : In (mintermIndex (cellAt g r c))
                    (snd (solved g rowVars colVars rowGray colGray sizes))).
    { apply solved_covers with (size := {| size_h := 1; size_w := 1; area := 1 |});
        auto.
      - unfold sizes. rewrite Hlen, Hcols0. now apply layout_unit_size.
      - now rewrite <- Hcell. }
    destruct (Hcov _ Hin) as (grp & gc & Hgrp & Hgc & Hm).
    exists grp. split; [exact Hgrp|].
    destruct (Hcells grp gc Hgrp Hgc) as ((Hgr & Hgcc) & _ & _).
    replace {| cell_r := r; cell_c := c |} with gc; [exact Hgc|].
    apply (layout_injective rowGray colGray mintermMap); auto; cbn; lia.
  - intros i grp Hi. split.
    + intros gc Hgc. apply nth_error_In in Hi.
      now destruct (Hcells grp gc Hi Hgc) as (_ & Hon & _).
    + destruct (Hnew i grp Hi) as (gc & Hgc & Hfresh).
      exists gc. split; [exact Hgc|]. exact Hfresh.
Qed.

(** ** The simplify loop ends *)

Lemma removeDoubleNegations_cons a b rest :
  removeDoubleNegations (a :: b :: rest)
  = if ((a =? ch_not) && (b =? ch_not))%N then removeDoubleNegations rest
    else a :: removeDoubleNegations (b :: rest).
Proof. reflexivity. Qed.

Lemma removeDoubleNegations_length n : forall s, length s <= n ->
  length (removeDoubleNegations s) <= length s
  /\ (removeDoubleNegations s <> s ->
      length (removeDoubleNegations s) + 2 <= length s).
Proof.
  induction n as [|n IH]; intros s Hn.
  - destruct s; [|cbn [length] in Hn; lia]. split; [reflexivity|intros HH; now elim HH].
  - destruct s as [|a [|b rest]]; try (split; [reflexivity|intros HH; now elim HH]).
    rewrite removeDoubleNegations_cons.
    destruct ((a =? ch_not) && (b =? ch_not))%N.
    + destruct (IH rest) as [H1 _]; [cbn [length] in *; lia|].
      cbn [length]. split; intros; lia.
    + destruct (IH (b :: rest)) as [H1 H2]; [cbn [length] in *; lia|].
      cbn [length] in *. split; [lia|].
      intros Hne. assert (removeDoubleNegations (b :: rest) <> b :: rest)
        by congruence.
      specialize (H2 H). lia.
Qed.

Lemma simplifyLoop_total fuel : forall s prev,
  length s + 1 < fuel -> exists r, simplifyLoop fuel s prev = Some r.
Proof.
  induction fuel as [|fuel IH]; intros s prev Hf; [lia|].
  cbn [simplifyLoop]. destruct (str_eqb s prev); [eauto|].
  destruct (removeDoubleNegations_length (length s) s (le_n _)) as [H1 H2].
  destruct (str_eq_dec (removeDoubleNegations s) s) as [E|E].
  - rewrite E. destruct fuel; [lia|]. cbn [simplifyLoop].
    rewrite str_eqb_refl. eauto.
  - apply IH. specialize (H2 E). lia.
Qed.

(** With [simplify] the label is the cancelled string, or the two-symbol
    fallback when nothing is left. *)
Lemma formatLabel_simplify_total expr settings :
  negationHandling (logic settings) = simplify ->
  exists r, simplifyLoop (length (normalizeNegations expr) + 2)
              (normalizeNegations expr) [] = Some r
            /\ formatLabel expr settings
               = match r with [] => [ch_not; ch_not] | _ => r end.
Proof.
  intros Hs. unfold formatLabel. rewrite Hs.
  destruct (simplifyLoop_total (length (normalizeNegations expr) + 2)
              (normalizeNegations expr) []) as (r & E); [lia|].
  rewrite E. exists r. split; [reflexivity|]. now destruct r.
Qed.

(** ** RightAway against the enumeration *)

(** C1 (evaluation at the failing input): for [[A&(B|C]<->[A&B|C]] over
    A, B, C the RightAway engine answers "always true" while the
    enumeration classifies the expression as a contingency. *)
Example rightAway_contradicts_enumeration :
  exists res,
    analyzeLogic upperAscii (lit "[A&(B|C]<->[A&B|C]")
      [lit "A"; lit "B"; lit "C"] DEFAULT_SETTINGS = inl res
    /\ option_map resultValue (rightAway res) = Some (Some true)
    /\ classification res = Contingency.
Proof.
  eexists. split; [vm_compute; reflexivity|]. split; vm_compute; reflexivity.
Qed.

Lemma isZero_eval n context : isZero n = true -> evaluateAST n context = false.
Proof.
  destruct n; simpl; try discriminate. intros H.
  apply str_eqb_eq in H. subst. reflexivity.
Qed.

Lemma isOne_eval n context : isOne n = true -> evaluateAST n context = true.
Proof.
  destruct n; simpl; try discriminate. intros H.
  apply str_eqb_eq in H. subst. reflexivity.
Qed.

Lemma isNegationOf_eval a b context :
  (forall o, (exists id e d, a = NotNode id o e d) ->
     node_expression o = node_expression b ->
     evaluateAST o context = evaluateAST b context) ->
  (forall o, (exists id e d, b = NotNode id o e d) ->
     node_expression o = node_expression a ->
     evaluateAST o context = evaluateAST a context) ->
  isNegationOf a b = true ->
  evaluateAST a context = negb (evaluateAST b context).
Proof.
  intros Ha Hb. unfold isNegationOf.
  destruct (operandExpressionIs a (node_expression b)) eqn:E1.
  - intros _. destruct a; simpl in E1; try discriminate.
    apply str_eqb_eq in E1. simpl. f_equal. apply Ha; eauto.
  - destruct (operandExpressionIs b (node_expression a)) eqn:E2;
      [|discriminate].
    intros _. destruct b; simpl in E2; try discriminate.
    apply str_eqb_eq in E2. simpl. rewrite (Hb b); eauto.
    now rewrite negb_involutive.
Qed.

Lemma negation_pair_eval lhs rhs context :
  (forall o, (exists id e d, lhs = NotNode id o e d) ->
     node_expression o = node_expression rhs ->
     evaluateAST o context = evaluateAST rhs context) ->
  (forall o, (exists id e d, rhs = NotNode id o e d) ->
     node_expression o = node_expression lhs ->
     evaluateAST o context = evaluateAST lhs context) ->
  isNegationOf lhs rhs || isNegationOf rhs lhs = true ->
  evaluateAST lhs context = negb (evaluateAST rhs context).
Proof.
  intros Hl Hr H. apply orb_true_iff in H as [H|H].
  - now apply isNegationOf_eval.
  - apply isNegationOf_eval with (context := context) in H; auto.
    rewrite H. now rewrite negb_involutive.
Qed.

(** X1: when the operands of the root evaluate alike wherever the engine
    compares their expression strings, a RightAway result is the value of
    the root. *)
Lemma analyzeRightAwayEngine_sound node context r :
  stringsFaithful node context ->
  analyzeRightAwayEngine node = Some r ->
  resultValue r = Some (evaluateAST node context).
Proof.
  destruct node as [id v e d|id o e d|id op lhs rhs e d]; try discriminate.
  intros (Heq & Hl & Hr). unfold analyzeRightAwayEngine.
  destruct op; cbn [binop_eqb];
    rewrite ?orb_true_l, ?orb_false_l, ?andb_false_l, ?andb_true_l;
    repeat match goal with
           | |- (if ?b then _ else _) = _ -> _ =>
               let E := fresh "E" in destruct b eqn:E
           end; try discriminate;
    intros H; injection H as <-; cbn [resultValue rightAwayResult];
    f_equal; cbn [evaluateAST];
    repeat match goal with
           | H : _ && _ = true |- _ => apply andb_true_iff in H as [? ?]
           | H : isZero _ = true |- _ =>
               rewrite (isZero_eval _ context H); clear H
           | H : isOne _ = true |- _ =>
               rewrite (isOne_eval _ context H); clear H
           | H : str_eqb _ _ = true |- _ =>
               apply str_eqb_eq in H; rewrite (Heq H); clear H
           | H : isNegationOf lhs rhs || isNegationOf rhs lhs = true |- _ =>
               rewrite (negation_pair_eval lhs rhs context Hl Hr H); clear H
           | H : _ || _ = true |- _ => apply orb_true_iff in H as [H|H]
           end;
    destruct (evaluateAST lhs context), (evaluateAST rhs context);
    reflexivity.
Qed.

(** ** Implication forms *)

(** X2: implication forms are produced only for a root whose connective
    is IMPLIES. *)
Lemma generateImplicationForms_only_implies node forms :
  generateImplicationForms node = Some forms ->
  node_type node = N_BIN IMPLIES.
Proof.
  destruct node as [| |id [] l r e d]; simpl; intros H;
    try discriminate; reflexivity.
Qed.

(** C7 (evaluation at the failing input): for [(A)|(B)->C] the
    contrapositive string is [¬(C) → ¬(A) ∨ (B)]; under A = B = 1, C = 0 the
    implication is false and the contrapositive, once tokenized, parsed and
    evaluated, is true. *)
Example contrapositive_not_equivalent :
  exists ast forms,
    parse (tokenize upperAscii (lit "(A)|(B)->C")) = Some ast
    /\ node_type ast = N_BIN IMPLIES
    /\ generateImplicationForms ast = Some forms
    /\ contrapositive forms
       = [ch_not] ++ lit "(C) " ++ [ch_implies] ++ lit " " ++ [ch_not]
           ++ lit "(A) " ++ [ch_or] ++ lit " (B)"
    /\ evaluateAST ast contextABnotC = false
    /\ evaluateRawExpression upperAscii (contrapositive forms) contextABnotC
       = true.
Proof.
  eexists _, _. split; [vm_compute; reflexivity|].
  split; [reflexivity|]. split; [reflexivity|].
  repeat split; vm_compute; reflexivity.
Qed.

(** ** Counterexamples *)

(** C3 (counterexample): re-analysing with no row gives Contradiction
    although every row, there being none, reads true. *)
Lemma reanalyze_empty_rows :
  classification (reanalyzeFromRows sample [] DEFAULT_SETTINGS) = Contradiction
  /\ allRows true (node_expression (ast sample)) [].
Proof. split; [reflexivity|]. intros row []. Qed.


(** ** Witnesses *)

Lemma analyzeRightAwayEngine_sound_witness :
  stringsFaithful excludedMiddle contextP
  /\ analyzeRightAwayEngine excludedMiddle
     = Some (rightAwayResult true
               (lit "Tautology (X " ++ [ch_or] ++ lit " " ++ [ch_not]
                  ++ lit "X) detected."))
  /\ Some true = Some (evaluateAST excludedMiddle contextP).
Proof.
  assert (H1 : stringsFaithful excludedMiddle contextP).
  { split; [discriminate|]. split.
    - intros o (id & e & d & E). discriminate E.
    - intros o (id & e & d & E) _. injection E as _ <- _ _. reflexivity. }
  assert (H2 : analyzeRightAwayEngine excludedMiddle
               = Some (rightAwayResult true
                         (lit "Tautology (X " ++ [ch_or] ++ lit " " ++ [ch_not]
                            ++ lit "X) detected."))) by reflexivity.
  split; [exact H1|]. split; [exact H2|].
  exact (analyzeRightAwayEngine_sound excludedMiddle contextP _ H1 H2).
Defined.

Lemma generateImplicationForms_only_implies_witness :
  generateImplicationForms sampleImplication = Some sampleForms
  /\ node_type sampleImplication = N_BIN IMPLIES.
Proof.
  assert (H : generateImplicationForms sampleImplication = Some sampleForms)
    by reflexivity.
  split; [exact H|].
  exact (generateImplicationForms_only_implies sampleImplication sampleForms H).
Defined.

Lemma output_column_roundtrip_witness :
  analyzeLogic upperAscii (lit "P&Q") [varP; varQ] DEFAULT_SETTINGS = inl sample
  /\ In sampleRow (rows sample)
  /\ obj_get (values sampleRow) (node_expression (ast sample))
     = Some (evaluateAST (ast sample) (inputContext sampleRow (columns sample))).
Proof.
  assert (H1 : analyzeLogic upperAscii (lit "P&Q") [varP; varQ] DEFAULT_SETTINGS
               = inl sample) by (vm_compute; reflexivity).
  assert (H2 : In sampleRow (rows sample))
    by (right; right; right; left; reflexivity).
  split; [exact H1|]. split; [exact H2|].
  exact (output_column_roundtrip upperAscii (lit "P&Q") [varP; varQ]
           DEFAULT_SETTINGS sample sampleRow H1 H2).
Defined.

Lemma classification_consistent_witness :
  consistent (classification sample) (node_expression (ast sample)) (rows sample)
  /\ consistent
       (classification (reanalyzeFromRows sample [staleRow] DEFAULT_SETTINGS))
       (node_expression (ast sample)) [staleRow].
Proof.
  split.
  - apply (proj1 classification_consistent upperAscii (lit "P&Q")
             [varP; varQ] DEFAULT_SETTINGS). reflexivity.
  - apply (proj2 classification_consistent). discriminate.
Defined.

Lemma kmap_groups_cover_witness :
  generateKMap [varP; varQ] (rows sample) = Some sampleKMap
  /\ (forall r c row cell,
        nth_error (grid sampleKMap) r = Some row ->
        nth_error row c = Some cell -> value cell = true ->
        exists grp, In grp (groups sampleKMap)
                    /\ In {| cell_r := r; cell_c := c |} (cells grp)).
Proof.
  assert (H : generateKMap [varP; varQ] (rows sample) = Some sampleKMap)
    by (vm_compute; reflexivity).
  split; [exact H|].
  exact (proj1 (kmap_groups_cover [varP; varQ] (rows sample) sampleKMap H)).
Defined.


Lemma recalculateRow_depends_on_inputs_witness :
  analyzeLogic upperAscii (lit "P&Q") [varP; varQ] DEFAULT_SETTINGS = inl sample
  /\ (forall col, In col (columns sample) -> isInput col = true ->
        obj_get (values staleRow) (expression col)
        = obj_get (values sampleRow) (expression col))
  /\ (forall col, In col (columns sample) ->
        obj_get (values (recalculateRow staleRow (columns sample) (ast sample)))
          (expression col)
        = obj_get (values (recalculateRow sampleRow (columns sample) (ast sample)))
            (expression col)).
Proof.
  assert (H1 : analyzeLogic upperAscii (lit "P&Q") [varP; varQ] DEFAULT_SETTINGS
               = inl sample) by (vm_compute; reflexivity).
  assert (H2 : forall col, In col (columns sample) -> isInput col = true ->
                 obj_get (values staleRow) (expression col)
                 = obj_get (values sampleRow) (expression col)).
  { intros col Hin Hi.
    destruct Hin as [<-|[<-|[<-|[]]]]; try reflexivity. discriminate Hi. }
  split; [exact H1|]. split; [exact H2|].
  exact (recalculateRow_depends_on_inputs upperAscii (lit "P&Q") [varP; varQ]
           DEFAULT_SETTINGS sample staleRow sampleRow H1 H2).
Defined.

(** ** Size of the table, and when a map exists *)

(** X3: the table of an accepted analysis has exactly [2^n] rows for [n]
    declared variables. *)
Lemma analyzeLogic_row_count up expr declared settings res :
  analyzeLogic up expr declared settings = inl res ->
  length (rows res) = 2 ^ length declared.
Proof.
  intros H. apply analyzeLogic_inl in H as (a & _ & _ & ->).
  unfold analysisOf. cbn [rows]. unfold tableRows.
  now rewrite length_map, length_seq.
Qed.

Lemma analyzeLogic_row_count_witness :
  analyzeLogic upperAscii (lit "P&Q") [varP; varQ] DEFAULT_SETTINGS = inl sample
  /\ length (rows sample) = 4.
Proof.
  assert (H : analyzeLogic upperAscii (lit "P&Q") [varP; varQ] DEFAULT_SETTINGS
              = inl sample) by (vm_compute; reflexivity).
  split; [exact H|].
  exact (analyzeLogic_row_count upperAscii (lit "P&Q") [varP; varQ]
           DEFAULT_SETTINGS sample H).
Defined.

(** X4: a Karnaugh map is produced exactly for two, three or four
    variables. *)
Lemma generateKMap_defined variables rows :
  (exists k, generateKMap variables rows = Some k)
  <-> 2 <= length variables <= 4.
Proof.
  unfold generateKMap.
  destruct ((length variables <? 2) || (4 <? length variables)) eqn:E.
  - apply orb_true_iff in E. rewrite !Nat.ltb_lt in E.
    split; [intros (k & H); discriminate|lia].
  - apply orb_false_iff in E. rewrite !Nat.ltb_ge in E.
    split; [lia|]. intros _. cbv zeta.
    match goal with
    | |- exists k, (let (_, _) := ?s in _) = _ => destruct s
    end.
    eauto.
Qed.

Lemma generateKMap_defined_witness :
  2 <= length [varP; varQ] <= 4
  /\ exists k, generateKMap [varP; varQ] (rows sample) = Some k.
Proof.
  assert (H : 2 <= length [varP; varQ] <= 4) by (cbn; lia).
  split; [exact H|].
  exact (proj2 (generateKMap_defined [varP; varQ] (rows sample)) H).
Defined.

(** ** The scenarios of the specification *)

(** [P∧Q] over P, Q: four rows, a contingency, true in the last row only. *)
Example scenario_conjunction :
  classification sample = Contingency
  /\ map (rowValue (node_expression (ast sample))) (rows sample)
     = [false; false; false; true].
Proof. split; vm_compute; reflexivity. Qed.

(** [P∨¬P] over P: a tautology, and RightAway fires with the
    excluded-middle explanation. *)
Example scenario_excluded_middle :
  exists res,
    analyzeLogic upperAscii ([80; ch_or; ch_not; 80]%N) [varP] DEFAULT_SETTINGS
    = inl res
    /\ classification res = Tautology
    /\ rightAway res
       = Some (rightAwayResult true
                 (lit "Tautology (X " ++ [ch_or] ++ lit " " ++ [ch_not]
                    ++ lit "X) detected.")).
Proof.
  eexists. split; [vm_compute; reflexivity|]. split; vm_compute; reflexivity.
Qed.

(** [(P→Q)] over P, Q: the converse is [Q → P], the inverse
    [¬(P) → ¬(Q)], the contrapositive [¬(Q) → ¬(P)]. *)
Example scenario_implication_forms :
  exists res,
    analyzeLogic upperAscii (lit "(P->Q)") [varP; varQ] DEFAULT_SETTINGS
    = inl res
    /\ option_map converse (implicationForms res) = Some (converse sampleForms)
    /\ option_map inverse (implicationForms res) = Some (inverse sampleForms)
    /\ option_map contrapositive (implicationForms res)
       = Some (contrapositive sampleForms).
Proof.
  eexists. split; [vm_compute; reflexivity|]. repeat split.
Qed.

(** On-set P = Q = 1 over P, Q: one 1×1 group and the minimized
    expression [PQ]. *)
Example scenario_kmap :
  option_map minimizedExpression (kMapData sample) = Some (varP ++ varQ)
  /\ option_map (fun k => map cells (groups k)) (kMapData sample)
     = Some [[{| cell_r := 1; cell_c := 1 |}]].
Proof. split; vm_compute; reflexivity. Qed.

(** [P∧¬P] over P: a contradiction, and the helper reports that no row is
    true. *)
Example scenario_contradiction :
  exists res,
    analyzeLogic upperAscii ([80; ch_and; ch_not; 80]%N) [varP] DEFAULT_SETTINGS
    = inl res
    /\ classification res = Contradiction
    /\ option_map reasoning (sttt res)
       = Some (lit "No row evaluated to True. Proved Contradiction.").
Proof.
  eexists. split; [vm_compute; reflexivity|]. split; vm_compute; reflexivity.
Qed.

(** A bracketed sub-expression keeps the brackets it was written with. *)
Example scenario_brackets :
  option_map node_expression
    (parse (tokenize upperAscii ([91; 80; ch_or; 81; 93]%N)))
  = Some ([91%N] ++ varP ++ [32%N; ch_or; 32%N] ++ varQ ++ [93%N]).
Proof. vm_compute. reflexivity. Qed.

(** Scenario: the result [generateKMap] reads from a row is the last value of
    the row object in property order.  For the expression [1] over A, B the
    output column has the array-index key [1], which precedes A and B, so
    the map is drawn from the values of B: the expression is a tautology
    and the minimized expression is [B]. *)
Example kmap_reads_last_property :
  exists res,
    analyzeLogic upperAscii (lit "1") [lit "A"; lit "B"] DEFAULT_SETTINGS
    = inl res
    /\ classification res = Tautology
    /\ map (fun row => map fst (values row)) (rows res)
       = repeat [lit "1"; lit "A"; lit "B"] 4
    /\ option_map (fun k => map (map value) (grid k)) (kMapData res)
       = Some [[false; true]; [false; true]]
    /\ option_map minimizedExpression (kMapData res) = Some (lit "B").
Proof.
  eexists. split; [vm_compute; reflexivity|]. repeat split; vm_compute;
    reflexivity.
Qed.

(** ** An induction principle for the parser *)

Section ParserInduction.

(** [R p node p'] relates the state a parsing method starts in, the node
    it returns and the state it leaves. *)
Variable R : Parser -> ASTNode -> Parser -> Prop.

Hypothesis R_var : forall p,
  tok_type (peek p) = T_VAR ->
  R p (VarNode (nodeIdCounter p) (tok_value (peek p)) (tok_value (peek p)) 0)
    (snd (generateId (snd (consume p)))).

Hypothesis R_placeholder : forall p,
  isOpenBracket (tok_type (peek p)) = false ->
  tok_type (peek p) <> T_VAR ->
  R p (placeholder (nodeIdCounter p)) (snd (generateId (snd (consume p)))).

Hypothesis R_not : forall p operand p2,
  tok_type (peek p) = T_NOT ->
  R (snd (consume p)) operand p2 ->
  R p (NotNode (nodeIdCounter p2) operand
         (tok_value (peek p) ++ node_expression operand)
         (node_depth operand + 1))
    (snd (generateId p2)).

Hypothesis R_closed : forall p node p2,
  isOpenBracket (tok_type (peek p)) = true ->
  R (snd (consume p)) node p2 ->
  tok_type (peek p2) = expectedCloseType (tok_type (peek p)) ->
  R p (setExpression node
         (tok_value (peek p) ++ node_expression node
            ++ [expectedCloseChar (tok_type (peek p))]))
    (snd (consume p2)).

Hypothesis R_unclosed : forall p node p2,
  isOpenBracket (tok_type (peek p)) = true ->
  R (snd (consume p)) node p2 ->
  tok_type (peek p2) <> expectedCloseType (tok_type (peek p)) ->
  R p node p2.

Hypothesis R_bin : forall op p lhs p1 rhs p2,
  R p lhs p1 ->
  tok_type (peek p1) = T_BIN op ->
  R (snd (consume p1)) rhs p2 ->
  R p (BinNode (nodeIdCounter p2) op lhs rhs (binExpression op lhs rhs)
         (Nat.max (node_depth lhs) (node_depth rhs) + 1))
    (snd (generateId p2)).

Lemma parser_induction (fuel : nat) :
  (forall lv p node p', parseAt fuel lv p = Some (node, p') -> R p node p')
  /\
  (forall op p0 lhs p node p',
     R p0 lhs p -> parseLoop fuel op lhs p = Some (node, p') -> R p0 node p').
Proof.
  induction fuel as [|fuel [IHat IHloop]].
  - split; intros; discriminate.
  - split.
    + intros [op| |] p node p' H; cbn [parseAt] in H.
      * destruct (parseAt fuel (nextLevel op) p) as [[lhs p1]|] eqn:E1;
          [|discriminate].
        apply IHat in E1. eapply IHloop; eauto.
      * destruct (toktype_eqb (tok_type (peek p)) T_NOT) eqn:Enot.
        -- apply toktype_eqb_eq in Enot.
           destruct (consume p) as [token p1] eqn:Ec.
           destruct (parseAt fuel LevelNot p1) as [[operand p2]|] eqn:E2;
             [|discriminate].
           injection H as <- <-.
           replace token with (peek p) by (unfold consume in Ec; congruence).
           apply R_not; auto. rewrite Ec. cbn [snd]. eapply IHat; eassumption.
        -- eapply IHat; eassumption.
      * destruct (isOpenBracket (tok_type (peek p))) eqn:Eopen.
        -- destruct (consume p) as [token p1] eqn:Ec.
           destruct (parseAt fuel (LevelBin IFF) p1) as [[inner p2]|] eqn:E2;
             [|discriminate].
           assert (Hin : R (snd (consume p)) inner p2)
             by (rewrite Ec; cbn [snd]; eapply IHat; eassumption).
           destruct (toktype_eqb (tok_type (peek p2))
                       (expectedCloseType (tok_type (peek p)))) eqn:Eclose.
           ++ apply toktype_eqb_eq in Eclose.
              destruct (consume p2) as [t3 p3] eqn:Ec3.
              injection H as <- <-.
              replace p3 with (snd (consume p2)) by now rewrite Ec3.
              now apply R_closed.
           ++ injection H as <- <-. apply R_unclosed; auto.
              intros Heq. rewrite Heq in Eclose.
              rewrite (proj2 (toktype_eqb_eq _ _) eq_refl) in Eclose.
              discriminate.
        -- destruct (toktype_eqb (tok_type (peek p)) T_VAR) eqn:Evar.
           ++ apply toktype_eqb_eq in Evar.
              unfold consume, generateId in H. cbn in H.
              injection H as <- <-. now apply R_var.
           ++ unfold consume, generateId in H. cbn in H.
              injection H as <- <-. apply R_placeholder; auto.
              intros Heq. rewrite Heq in Evar. discriminate.
    + intros op p0 lhs p node p' Hlhs H. cbn [parseLoop] in H.
      destruct (toktype_eqb (tok_type (peek p)) (T_BIN op)) eqn:Eop.
      * apply toktype_eqb_eq in Eop.
        destruct (consume p) as [t1 p1] eqn:Ec.
        destruct (parseAt fuel (nextLevel op) p1) as [[rhs p2]|] eqn:E2;
          [|discriminate].
        unfold generateId in H. cbn in H.
        eapply IHloop; [|exact H].
        apply (R_bin op p0 lhs p rhs p2); auto.
        rewrite Ec. cbn [snd]. eapply IHat; eassumption.
      * injection H as <- <-. exact Hlhs.
Qed.

Lemma parse_induction (toks : list Token) (a : ASTNode) :
  parse toks = Some a -> exists p', R (newParser toks) a p'.
Proof.
  unfold parse, parseIFF. 
  destruct (parseAt (parseFuel toks) (LevelBin IFF) (newParser toks))
    as [[node p']|] eqn:E; [|discriminate].
  intros H. injection H as <-. exists p'.
  now apply (proj1 (parser_induction _)) in E.
Qed.

End ParserInduction.

(** ** Identifiers *)

Lemma nodeIds_setExpression n e : nodeIds (setExpression n e) = nodeIds n.
Proof. now destruct n. Qed.

Lemma seq_snoc s n : seq s n ++ [s + n] = seq s (S n).
Proof. now rewrite seq_S. Qed.

Lemma parseAt_ids fuel lv p node p' :
  parseAt fuel lv p = Some (node, p') ->
  nodeIdCounter p <= nodeIdCounter p'
  /\ nodeIds node = seq (nodeIdCounter p) (nodeIdCounter p' - nodeIdCounter p).
Proof.
  revert fuel lv p node p'.
  intros fuel.
  refine (proj1 (parser_induction
             (fun p node p' =>
                nodeIdCounter p <= nodeIdCounter p'
                /\ nodeIds node
                   = seq (nodeIdCounter p) (nodeIdCounter p' - nodeIdCounter p))
             _ _ _ _ _ _ fuel)); cbn [consume generateId snd nodeIdCounter nodeIds].
  - intros p _. split; [lia|].
    replace (S (nodeIdCounter p) - nodeIdCounter p) with 1 by lia. reflexivity.
  - intros p _ _. split; [lia|].
    replace (S (nodeIdCounter p) - nodeIdCounter p) with 1 by lia. reflexivity.
  - intros p operand p2 _ [Hle Hids]. split; [lia|].
    rewrite Hids.
    replace (S (nodeIdCounter p2) - nodeIdCounter p)
      with (S (nodeIdCounter p2 - nodeIdCounter p)) by lia.
    rewrite <- seq_snoc. f_equal. f_equal. lia.
  - intros p node p2 _ [Hle Hids] _. now rewrite nodeIds_setExpression.
  - intros p node p2 _ H _. exact H.
  - intros op p lhs p1 rhs p2 [Hle1 Hids1] _ [Hle2 Hids2]. split; [lia|].
    rewrite Hids1, Hids2.
    replace (S (nodeIdCounter p2) - nodeIdCounter p)
      with ((nodeIdCounter p1 - nodeIdCounter p)
            + S (nodeIdCounter p2 - nodeIdCounter p1)) by lia.
    rewrite seq_app, <- seq_snoc.
    replace (nodeIdCounter p + (nodeIdCounter p1 - nodeIdCounter p))
      with (nodeIdCounter p1) by lia.
    do 3 f_equal. lia.
Qed.

Lemma parse_ids toks a :
  parse toks = Some a -> nodeIds a = seq 0 (length (nodeIds a)).
Proof.
  unfold parse, parseIFF.
  destruct (parseAt _ _ _) as [[node p']|] eqn:E; [|discriminate].
  intros H. injection H as <-.
  apply parseAt_ids in E as [_ E]. cbn in E.
  rewrite E at 2. now rewrite length_seq, Nat.sub_0_r in *.
Qed.

(** Two occurrences in a tree with the same identifier are the same node
    when the identifiers of the tree are pairwise distinct. *)
Lemma subnode_ids n ast : subnode n ast -> incl (nodeIds n) (nodeIds ast).
Proof.
  induction ast as [id v e d|id o IHo e d|id op l IHl r IHr e d];
    simpl; intros [->|H]; try apply incl_refl; try contradiction.
  - apply incl_appl. auto.
  - destruct H as [H|H].
    + apply incl_appl. auto.
    + apply incl_appr, incl_appl. auto.
Qed.

Lemma node_id_in n : In (node_id n) (nodeIds n).
Proof. destruct n; simpl; rewrite ?in_app_iff; simpl; auto. Qed.

Lemma subnode_unique_id ast : NoDup (nodeIds ast) ->
  forall n n', subnode n ast -> subnode n' ast ->
               node_id n = node_id n' -> n = n'.
Proof.
  induction ast as [id v e d|id o IHo e d|id op l IHl r IHr e d];
    simpl; intros Hnd n n' Hn Hn' Hid.
  - destruct Hn as [->|[]], Hn' as [->|[]]. reflexivity.
  - apply NoDup_remove in Hnd as [Hnd Hni]. rewrite app_nil_r in *.
    destruct Hn as [->|Hn], Hn' as [->|Hn']; auto.
    + exfalso. apply Hni. simpl in Hid. rewrite Hid.
      apply (subnode_ids _ _ Hn'), node_id_in.
    + exfalso. apply Hni. simpl in Hid. rewrite <- Hid.
      apply (subnode_ids _ _ Hn), node_id_in.
  - pose proof Hnd as Hnd0.
    rewrite app_assoc in Hnd. apply NoDup_remove in Hnd as [Hnd Hni].
    rewrite app_nil_r in *.
    pose proof (NoDup_app_remove_r _ _ Hnd) as Hl.
    pose proof (NoDup_app_remove_l _ _ Hnd) as Hr.
    assert (Hroot : forall m, subnode m l \/ subnode m r -> node_id m <> id).
    { intros m Hm E. apply Hni. rewrite <- E. apply in_app_iff.
      destruct Hm as [Hm|Hm]; [left|right];
        apply (subnode_ids _ _ Hm), node_id_in. }
    assert (Hcross : forall m m', subnode m l -> subnode m' r ->
                                  node_id m <> node_id m').
    { intros m m' Hm Hm' E.
      pose proof (subnode_ids _ _ Hm _ (node_id_in m)) as H1.
      pose proof (subnode_ids _ _ Hm' _ (node_id_in m')) as H2.
      rewrite E in H1. clear - Hnd H1 H2.
      induction (nodeIds l) as [|x xs IH]; [contradiction|].
      simpl in Hnd. inversion Hnd as [|? ? Hx Hxs]; subst.
      destruct H1 as [->|H1].
      - apply Hx. apply in_app_iff. now right.
      - now apply IH. }
    destruct Hn as [->|[Hn|Hn]], Hn' as [->|[Hn'|Hn']]; auto; simpl in Hid;
      try (exfalso; eapply Hroot; eauto; fail);
      try (exfalso; symmetry in Hid; eapply Hroot; eauto; fail).
    + exfalso. eapply Hcross; eauto.
    + exfalso. symmetry in Hid. eapply Hcross; eauto.
Qed.

(** ** The list of sub-expressions *)

Lemma find_expression_none node acc :
  find (fun n => str_eqb (node_expression n) (node_expression node)) acc = None
  <-> ~ In (node_expression node) (map node_expression acc).
Proof.
  induction acc as [|x acc IH]; simpl; [tauto|].
  destruct (str_eqb (node_expression x) (node_expression node)) eqn:E.
  - apply str_eqb_eq in E. split; [discriminate|]. intros H. exfalso. auto.
  - apply str_eqb_neq in E. rewrite IH. tauto.
Qed.

Lemma pushIfNew_nodup node acc :
  NoDup (map node_expression acc) ->
  NoDup (map node_expression (pushIfNew node acc)).
Proof.
  intros H. unfold pushIfNew.
  destruct (find _ acc) eqn:E; [exact H|].
  apply find_expression_none in E.
  rewrite map_app. simpl.
  apply NoDup_app; [exact H|repeat constructor; auto|].
  intros x Hx [<-|[]]. contradiction.
Qed.

Lemma pushIfNew_has node acc :
  In (node_expression node) (map node_expression (pushIfNew node acc)).
Proof.
  unfold pushIfNew.
  destruct (find _ acc) as [n|] eqn:E.
  - apply find_some in E as [Hin E]. apply str_eqb_eq in E.
    rewrite <- E. now apply in_map.
  - rewrite map_app, in_app_iff. right. now left.
Qed.

Lemma pushIfNew_keeps node acc n : In n acc -> In n (pushIfNew node acc).
Proof.
  unfold pushIfNew. destruct (find _ acc); [auto|].
  rewrite in_app_iff. auto.
Qed.

Lemma extractSubExpressions_nodup ast : forall acc,
  NoDup (map node_expression acc) ->
  NoDup (map node_expression (extractSubExpressions ast acc)).
Proof.
  induction ast as [id v e d|id o IHo e d|id op l IHl r IHr e d];
    intros acc H; simpl; apply pushIfNew_nodup; auto.
Qed.

Lemma extractSubExpressions_keeps ast : forall acc n,
  In n acc -> In n (extractSubExpressions ast acc).
Proof.
  induction ast as [id v e d|id o IHo e d|id op l IHl r IHr e d];
    intros acc n H; simpl; apply pushIfNew_keeps; auto.
Qed.

Lemma extractSubExpressions_complete ast : forall acc m,
  subnode m ast ->
  In (node_expression m) (map node_expression (extractSubExpressions ast acc)).
Proof.
  induction ast as [id v e d|id o IHo e d|id op l IHl r IHr e d];
    intros acc m Hm; simpl in Hm.
  - destruct Hm as [->|[]]. apply pushIfNew_has.
  - destruct Hm as [->|Hm]; [apply pushIfNew_has|].
    simpl. specialize (IHo acc m Hm).
    apply in_map_iff in IHo as (n & En & Hn). rewrite <- En.
    apply in_map, pushIfNew_keeps, Hn.
  - destruct Hm as [->|[Hm|Hm]]; [apply pushIfNew_has| |]; simpl.
    + specialize (IHl acc m Hm).
      apply in_map_iff in IHl as (n & En & Hn). rewrite <- En.
      apply in_map, pushIfNew_keeps, extractSubExpressions_keeps, Hn.
    + specialize (IHr (extractSubExpressions l acc) m Hm).
      apply in_map_iff in IHr as (n & En & Hn). rewrite <- En.
      apply in_map, pushIfNew_keeps, Hn.
Qed.

(** ** Every derived column of a row *)

Lemma assigned_unique upd k cols c v :
  NoDup (map expression cols) -> In c cols -> expression c = k ->
  upd c = Some v -> assigned upd k cols = Some v.
Proof.
  induction cols as [|x rest IH]; simpl; intros Hnd Hin Hk Hv; [contradiction|].
  inversion Hnd as [|? ? Hx Hrest]; subst.
  destruct Hin as [->|Hin].
  - rewrite assigned_untouched.
    + now rewrite Hv, str_eqb_refl.
    + intros col Hc E. apply Hx. rewrite <- E. now apply in_map.
  - now rewrite IH.
Qed.

Lemma NoDup_map_filter {A B : Type} (f : A -> B) (g : A -> bool) (l : list A) :
  NoDup (map f l) -> NoDup (map f (filter g l)).
Proof.
  induction l as [|x l IH]; simpl; intros H; [constructor|].
  inversion H as [|? ? Hx Hl]; subst.
  destruct (g x); simpl; auto.
  constructor; auto.
  intros Hin. apply Hx. apply in_map_iff in Hin as (y & E & Hy).
  apply filter_In in Hy as [Hy _]. rewrite <- E. now apply in_map.
Qed.

Lemma stepColumns_nodup ast settings :
  NoDup (map expression
           (stepColumns ast (extractSubExpressions ast []) settings)).
Proof.
  unfold stepColumns. rewrite map_map. cbn [expression].
  apply NoDup_map_filter, extractSubExpressions_nodup. constructor.
Qed.

Lemma stepColumns_not_root ast settings col :
  In col (stepColumns ast (extractSubExpressions ast []) settings) ->
  expression col <> node_expression ast.
Proof.
  unfold stepColumns. rewrite in_map_iff. intros (n & <- & Hin).
  apply filter_In in Hin as [_ Hf]. cbn [expression].
  apply andb_true_iff in Hf as [_ Hf]. apply negb_true_iff in Hf.
  now apply str_eqb_neq.
Qed.

Lemma find_idMatches ast n col :
  NoDup (nodeIds ast) -> In n (extractSubExpressions ast []) ->
  astId col = Some (node_id n) ->
  find (idMatches col) (extractSubExpressions ast []) = Some n.
Proof.
  intros Hnd Hin Hid.
  destruct (find (idMatches col) (extractSubExpressions ast [])) as [n'|] eqn:E.
  - apply find_some in E as [Hin' Hm].
    unfold idMatches in Hm. rewrite Hid in Hm. apply Nat.eqb_eq in Hm.
    f_equal. apply (subnode_unique_id ast Hnd);
      auto using extractSubExpressions_subnode.
  - apply (find_none _ _ E) in Hin.
    unfold idMatches in Hin. rewrite Hid, Nat.eqb_refl in Hin. discriminate.
Qed.

Lemma finalColumns_parts ast declared settings :
  exists mid,
    finalColumns ast declared settings
    = varColumns declared ++ mid ++ [resultColumn ast settings]
    /\ NoDup (map expression mid)
    /\ (forall c, In c mid -> stepColumnOf ast c)
    /\ (forall c, In c mid -> expression c <> node_expression ast).
Proof.
  unfold finalColumns. destruct (showSubExpressions (table settings)).
  - eexists. split; [reflexivity|].
    split; [apply stepColumns_nodup|].
    split; [apply stepColumns_spec|apply stepColumns_not_root].
  - exists []. split; [reflexivity|]. split; [constructor|].
    split; intros c [].
Qed.

(** Among the columns of a table, the last write under the key of a
    derived column is that column's own. *)
Lemma last_writer upd ast declared settings col v :
  In col (finalColumns ast declared settings) -> isInput col = false ->
  upd col = Some v ->
  assigned upd (expression col) (finalColumns ast declared settings) = Some v.
Proof.
  intros Hcol Hin Hv.
  destruct (finalColumns_parts ast declared settings)
    as (mid & Ecols & Hmidnd & Hmid & Hmidroot).
  rewrite Ecols in Hcol |- *. rewrite !in_app_iff in Hcol.
  rewrite !assigned_app. cbn [assigned].
  destruct Hcol as [H|[H|[<-|[]]]].
  - apply varColumns_in in H as [H _]. congruence.
  - destruct (upd (resultColumn ast settings)) as [w|].
    + cbn [expression resultColumn].
      destruct (str_eqb (expression col) (node_expression ast)) eqn:Er.
      { apply str_eqb_eq in Er. exfalso. now apply (Hmidroot col H). }
      now rewrite (assigned_unique upd (expression col) mid col v).
    + now rewrite (assigned_unique upd (expression col) mid col v).
  - rewrite Hv. cbn [expression resultColumn]. now rewrite str_eqb_refl.
Qed.

(** The node a derived column of the table stands for. *)
Lemma derived_column_node ast declared settings col :
  wf_node ast -> NoDup (nodeIds ast) ->
  In col (finalColumns ast declared settings) -> isInput col = false ->
  exists n, subnode n ast /\ astId col = Some (node_id n)
            /\ expression col = node_expression n
            /\ columnNode ast (extractSubExpressions ast []) col = Some n
            /\ forall context,
                 tableWrite ast (extractSubExpressions ast []) context col
                 = Some (evaluateAST n context).
Proof.
  intros Hw Hnd Hcol Hin.
  destruct (finalColumns_parts ast declared settings)
    as (mid & Ecols & Hmidnd & Hmid & Hmidroot).
  rewrite Ecols in Hcol. rewrite !in_app_iff in Hcol.
  destruct Hcol as [H|[H|[<-|[]]]].
  - apply varColumns_in in H as [H _]. congruence.
  - destruct (Hmid col H) as (_ & Hout & n & Hn & _ & He & Hid).
    exists n. split; [now apply extractSubExpressions_subnode|].
    split; [exact Hid|]. split; [exact He|].
    split.
    + unfold columnNode. now rewrite (find_idMatches ast n col Hnd Hn Hid).
    + intros context. unfold tableWrite. rewrite Hin.
      now rewrite (find_idMatches ast n col Hnd Hn Hid).
  - exists ast. split; [apply subnode_refl|]. split; [reflexivity|].
    split; [reflexivity|].
    split.
    + unfold columnNode.
      destruct (find _ _) as [n'|] eqn:E.
      * f_equal. exact (find_root ast (resultColumn ast settings) n' Hw eq_refl E).
      * unfold idMatches. cbn [astId resultColumn].
        now rewrite Nat.eqb_refl.
    + intros context. now apply tableWrite_result.
Qed.

(** The value the row loop stores under the key of a derived column. *)
Lemma derived_column_value ast declared settings col context :
  wf_node ast -> NoDup (nodeIds ast) ->
  In col (finalColumns ast declared settings) -> isInput col = false ->
  exists n, subnode n ast /\ astId col = Some (node_id n)
            /\ expression col = node_expression n
            /\ columnNode ast (extractSubExpressions ast []) col = Some n
            /\ obj_get
                 (evaluateColumns ast (extractSubExpressions ast [])
                    (finalColumns ast declared settings) context)
                 (expression col)
               = Some (evaluateAST n context).
Proof.
  intros Hw Hnd Hcol Hin.
  destruct (derived_column_node ast declared settings col Hw Hnd Hcol Hin)
    as (n & Hn & Hid & He & Hc & Hwrite).
  exists n. repeat split; auto.
  rewrite evaluateColumns_fold, obj_get_writeColumns.
  now rewrite (last_writer _ ast declared settings col
                 (evaluateAST n context) Hcol Hin (Hwrite context)).
Qed.

Lemma rowContext_inputContext ast declared settings i n :
  wf_node ast -> subnode n ast ->
  evaluateAST n
    (rowContext declared (valIndexOf settings (2 ^ length declared) i))
  = evaluateAST n
      (inputContext (tableRow ast declared settings i)
         (finalColumns ast declared settings)).
Proof.
  intros Hw Hn. apply evaluateAST_agree, agreeOn_keys.
  - exact (subnode_wf _ _ Hn Hw).
  - intros k Hlen H1 H0. rewrite inputContext_get.
    destruct (in_dec str_eq_dec k declared) as [Hin|Hni].
    + cbn [truthy]. symmetry. now apply tableRow_values_key.
    + now rewrite (proj2 (rowContext_get declared _ k) Hni).
Qed.

Lemma parse_tokenize_nodup up expr a :
  parse (tokenize up expr) = Some a -> NoDup (nodeIds a).
Proof.
  intros H. apply parse_ids in H. rewrite H. apply seq_NoDup.
Qed.

Lemma derived_column_row up expr declared settings res row col :
  analyzeLogic up expr declared settings = inl res ->
  In row (rows res) -> In col (columns res) -> isInput col = false ->
  exists n, subnode n (ast res) /\ astId col = Some (node_id n)
            /\ expression col = node_expression n
            /\ columnNode (ast res) (extractSubExpressions (ast res) []) col
               = Some n
            /\ obj_get (values row) (expression col)
               = Some (evaluateAST n (inputContext row (columns res))).
Proof.
  intros H Hrow Hcol Hin.
  apply analyzeLogic_inl in H as (a & Hparse & _ & ->).
  pose proof (parse_tokenize_wf _ _ _ Hparse) as Hw.
  pose proof (parse_tokenize_nodup _ _ _ Hparse) as Hnd.
  unfold analysisOf in *. cbn [ast rows columns] in *.
  unfold tableRows in Hrow. apply in_map_iff in Hrow as (i & <- & _).
  destruct (derived_column_value a declared settings col
              (rowContext declared (valIndexOf settings (2 ^ length declared) i))
              Hw Hnd Hcol Hin) as (n & Hn & Hid & He & Hc & Hv).
  exists n. repeat split; auto.
  rewrite <- (rowContext_inputContext a declared settings i n Hw Hn).
  exact Hv.
Qed.

(** ** Rows that are already up to date *)

Lemma obj_update_same o k v : obj_get o k = Some v -> obj_update o k v = o.
Proof.
  induction o as [|[k' v'] o IH]; simpl; [reflexivity|].
  destruct (str_eqb k k'); intros H.
  - now injection H as ->.
  - now rewrite IH.
Qed.

Lemma obj_set_same o k v : obj_get o k = Some v -> obj_set o k v = o.
Proof.
  intros H. unfold obj_set. rewrite H. now apply obj_update_same.
Qed.

Lemma fold_left_fixed {A B : Type} (f : A -> B -> A) (l : list B) (a : A) :
  (forall b, In b l -> f a b = a) -> fold_left f l a = a.
Proof.
  induction l as [|b l IH]; simpl; intros H; [reflexivity|].
  rewrite H by now left. apply IH. intros; apply H; now right.
Qed.

Lemma recalculateRow_fixed_row up expr declared settings res row :
  analyzeLogic up expr declared settings = inl res ->
  In row (rows res) ->
  recalculateRow row (columns res) (ast res) = row.
Proof.
  intros H Hrow.
  assert (Hv : values (recalculateRow row (columns res) (ast res)) = values row).
  { rewrite recalculateRow_values. apply fold_left_fixed.
    intros col Hcol. unfold writeColumn, recalcWrite.
    destruct (isInput col) eqn:Ei; [reflexivity|].
    destruct (derived_column_row _ _ _ _ _ row col H Hrow Hcol Ei)
      as (n & _ & _ & _ & Hc & Hval).
    rewrite Hc. cbn [option_map]. now apply obj_set_same. }
  destruct row as [rid vals idx]. unfold recalculateRow in *.
  cbn [row_id index values] in *. now rewrite Hv.
Qed.

(** ** Reanalysis of unchanged rows *)

Lemma reanalyzeFromRows_unchanged up expr declared settings settings' res :
  analyzeLogic up expr declared settings = inl res ->
  reanalyzeFromRows res (rows res) settings' = res.
Proof.
  intros H. apply analyzeLogic_inl in H as (a & _ & _ & ->).
  reflexivity.
Qed.

(** ** The rows enumerate every assignment *)

Lemma binaryValue_snoc bs b :
  binaryValue (bs ++ [b]) = 2 * binaryValue bs + (if b then 1 else 0).
Proof. unfold binaryValue. now rewrite fold_left_app. Qed.

Lemma binaryValue_lt bs : binaryValue bs < 2 ^ length bs.
Proof.
  induction bs as [|b bs IH] using rev_ind; [cbv; lia|].
  rewrite binaryValue_snoc, length_app. cbn [length].
  replace (length bs + 1) with (S (length bs)) by lia.
  rewrite Nat.pow_succ_r'. destruct b; lia.
Qed.

Lemma binaryValue_testbit bs : forall idx, idx < length bs ->
  Z.testbit (Z.of_nat (binaryValue bs)) (Z.of_nat (length bs - 1 - idx))
  = nth idx bs false.
Proof.
  induction bs as [|b bs IH] using rev_ind; intros idx Hidx;
    [simpl in Hidx; lia|].
  rewrite length_app in *. cbn [length] in *.
  rewrite binaryValue_snoc.
  replace (Z.of_nat (2 * binaryValue bs + (if b then 1 else 0)))
    with (2 * Z.of_nat (binaryValue bs) + Z.b2z b)%Z
    by (destruct b; simpl Z.b2z; lia).
  destruct (Nat.eq_dec idx (length bs)) as [->|Hne].
  - replace (length bs + 1 - 1 - length bs) with 0 by lia.
    rewrite Z.testbit_0_r, app_nth2, Nat.sub_diag by lia. reflexivity.
  - replace (Z.of_nat (length bs + 1 - 1 - idx))
      with (Z.succ (Z.of_nat (length bs - 1 - idx))) by lia.
    rewrite Z.testbit_succ_r by lia.
    rewrite app_nth1 by lia. apply IH. lia.
Qed.

Lemma toInt32_testbit z s :
  (0 <= s < 32)%Z -> Z.testbit (toInt32 z) s = Z.testbit z s.
Proof.
  intros Hs. unfold toInt32.
  assert (Hlow : forall y, Z.testbit (y mod 2 ^ 32) s = Z.testbit y s)
    by (intros y; apply Z.mod_pow2_bits_low; lia).
  destruct (z mod 2 ^ 32 <? 2 ^ 31)%Z; [apply Hlow|].
  rewrite <- (Hlow (z mod 2 ^ 32 - 2 ^ 32)%Z), <- (Hlow z).
  f_equal.
  replace (z mod 2 ^ 32 - 2 ^ 32)%Z with (z mod 2 ^ 32 + (-1) * 2 ^ 32)%Z by lia.
  rewrite Z.mod_add by lia. apply Z.mod_mod. lia.
Qed.

Lemma bitIsSet_testbit v s :
  s < 32 -> bitIsSet v s = Z.testbit (Z.of_nat v) (Z.of_nat s).
Proof.
  intros Hs. unfold bitIsSet. rewrite Nat.mod_small by lia.
  rewrite <- (toInt32_testbit (Z.of_nat v) (Z.of_nat s)) by lia.
  set (x := toInt32 (Z.of_nat v)).
  change 1%Z with (Z.ones 1) at 1. rewrite Z.land_ones by lia.
  rewrite Z.shiftr_div_pow2 by lia.
  rewrite Z.testbit_eqb by lia. reflexivity.
Qed.

(** A value index for any choice [g] of the bits, within 32 variables. *)
Lemma valIndex_exists (declared : list jsstring) (g : jsstring -> bool) :
  length declared <= 32 ->
  exists vi, vi < 2 ^ length declared
    /\ forall idx, idx < length declared ->
         bitIsSet vi (length declared - 1 - idx) = g (nth idx declared []).
Proof.
  intros Hlen. exists (binaryValue (map g declared)).
  pose proof (binaryValue_lt (map g declared)) as Hlt.
  rewrite length_map in Hlt. split; [exact Hlt|].
  intros idx Hidx. rewrite bitIsSet_testbit by lia.
  pose proof (binaryValue_testbit (map g declared) idx) as Hb.
  rewrite length_map in Hb. rewrite Hb by assumption.
  rewrite (nth_indep _ false (g [])) by (now rewrite length_map).
  apply map_nth.
Qed.

Lemma combine_seq_in (l : list jsstring) : forall s i v,
  In (i, v) (combine (seq s (length l)) l) ->
  s <= i < s + length l /\ nth (i - s) l [] = v.
Proof.
  induction l as [|x l IH]; intros s i v; simpl; [tauto|].
  intros [E|H].
  - injection E as <- <-. rewrite Nat.sub_diag. split; [lia|reflexivity].
  - apply IH in H as [Hi Hv]. split; [lia|].
    replace (i - s) with (S (i - S s)) by lia. exact Hv.
Qed.

Lemma obj_get_fold_keyed {A : Type} (f : A * jsstring -> bool)
  (g : jsstring -> bool) (l : list (A * jsstring)) (k : jsstring) :
  (forall iv, In iv l -> f iv = g (snd iv)) ->
  In k (map snd l) ->
  forall init,
    obj_get (fold_left (fun c iv => obj_set c (snd iv) (f iv)) l init) k
    = Some (g k).
Proof.
  induction l as [|iv l IH]; simpl; intros Hf Hin init; [contradiction|].
  destruct (in_dec str_eq_dec k (map snd l)) as [Hl|Hl].
  - apply IH; auto.
  - destruct Hin as [E|Hin]; [|contradiction].
    rewrite (proj2 (obj_get_fold_pairs f l k _) Hl).
    subst k. rewrite obj_get_set_same. f_equal. apply Hf. now left.
Qed.

(** The context of a row whose value index carries the bits [g]. *)
Lemma rowContext_assignment declared vi (g : jsstring -> bool) k :
  (forall idx, idx < length declared ->
     bitIsSet vi (length declared - 1 - idx) = g (nth idx declared [])) ->
  In k declared ->
  obj_get (rowContext declared vi) k = Some (g k).
Proof.
  intros Hbits Hin. unfold rowContext.
  apply obj_get_fold_keyed
    with (f := fun iv => bitIsSet vi (length declared - 1 - fst iv)).
  - intros [i v] Hiv. cbn [fst snd].
    apply combine_seq_in in Hiv as [Hi Hv].
    rewrite Nat.sub_0_r in Hv. rewrite <- Hv. apply Hbits. unfold jsstring in *. lia.
  - now rewrite map_snd_combine_seq.
Qed.

Lemma agreeOn_all n c1 c2 :
  (forall k, truthy (obj_get c1 k) = truthy (obj_get c2 k)) -> agreeOn n c1 c2.
Proof.
  intros H. induction n; simpl; auto.
Qed.

(** Some row carries any given assignment of the declared variables. *)
Lemma row_for_assignment declared settings c :
  length declared <= 32 -> assignsOnly declared c ->
  exists i, i < 2 ^ length declared
    /\ forall n, evaluateAST n c
         = evaluateAST n
             (rowContext declared (valIndexOf settings (2 ^ length declared) i)).
Proof.
  intros Hlen Hc.
  destruct (valIndex_exists declared (fun k => truthy (obj_get c k)) Hlen)
    as (vi & Hvi & Hbits).
  assert (Hagree : forall n, evaluateAST n c
                             = evaluateAST n (rowContext declared vi)).
  { intros n. apply evaluateAST_agree, agreeOn_all. intros k.
    destruct (in_dec str_eq_dec k declared) as [Hin|Hni].
    - now rewrite (rowContext_assignment declared vi
                     (fun k => truthy (obj_get c k)) k Hbits Hin).
    - rewrite (proj2 (rowContext_get declared vi k) Hni).
      destruct (obj_get c k) eqn:E; [|reflexivity].
      exfalso. apply Hni, Hc. congruence. }
  unfold valIndexOf. destruct (rowOrder (logic settings)).
  - exists vi. split; [exact Hvi|exact Hagree].
  - exists (2 ^ length declared - 1 - vi). split; [lia|].
    replace (2 ^ length declared - 1 - (2 ^ length declared - 1 - vi))
      with vi by lia.
    exact Hagree.
Qed.

Lemma rowContext_assignsOnly declared vi : assignsOnly declared (rowContext declared vi).
Proof.
  intros k H. destruct (in_dec str_eq_dec k declared) as [Hin|Hni]; [exact Hin|].
  now rewrite (proj2 (rowContext_get declared vi k) Hni) in H.
Qed.

Lemma tableRows_allRows ast declared settings b :
  wf_node ast ->
  allRows b (node_expression ast) (tableRows ast declared settings)
  <-> forall i, i < 2 ^ length declared ->
        evaluateAST ast
          (rowContext declared (valIndexOf settings (2 ^ length declared) i))
        = b.
Proof.
  intros Hw. unfold allRows, tableRows, rowValue. split.
  - intros H i Hi.
    assert (Hin : In (tableRow ast declared settings i)
                    (map (tableRow ast declared settings)
                       (seq 0 (2 ^ length declared))))
      by (apply in_map, in_seq; lia).
    specialize (H _ Hin). unfold tableRow in H. cbn [values] in H.
    rewrite evaluateColumns_root in H by assumption. exact H.
  - intros H row Hrow. apply in_map_iff in Hrow as (i & <- & Hi).
    apply in_seq in Hi. unfold tableRow. cbn [values].
    rewrite evaluateColumns_root by assumption. cbn [truthy].
    apply H. lia.
Qed.

Lemma classification_semantics up expr declared settings res b :
  analyzeLogic up expr declared settings = inl res ->
  length declared <= 32 ->
  allRows b (node_expression (ast res)) (rows res)
  <-> forall c, assignsOnly declared c -> evaluateRawExpression up expr c = b.
Proof.
  intros H Hlen.
  apply analyzeLogic_inl in H as (a & Hparse & _ & ->).
  pose proof (parse_tokenize_wf _ _ _ Hparse) as Hw.
  unfold analysisOf. cbn [ast rows]. unfold evaluateRawExpression.
  rewrite Hparse, tableRows_allRows by assumption. split.
  - intros Hrows c Hc.
    destruct (row_for_assignment declared settings c Hlen Hc)
      as (i & Hi & Hagree).
    rewrite Hagree. now apply Hrows.
  - intros Hall i Hi. apply Hall, rowContext_assignsOnly.
Qed.

(** ** The shortened-truth-table report *)

Lemma find_first {A : Type} (f : A -> bool) (l : list A) :
  forallb (fun x => negb (f x)) l = false ->
  exists x l1 l2, l = l1 ++ x :: l2 /\ f x = true
                  /\ (forall y, In y l1 -> f y = false)
                  /\ find f l = Some x.
Proof.
  induction l as [|y l IH]; simpl; [discriminate|].
  destruct (f y) eqn:Ey; simpl.
  - intros _. exists y, [], l. repeat split; auto. intros z [].
  - intros H. destruct (IH H) as (x & l1 & l2 & -> & Hx & Hl1 & Hf).
    exists x, (y :: l1), l2. repeat split; auto.
    intros z [<-|Hz]; auto.
Qed.

Lemma performSTTT_reported rows e :
  stttReported rows e
    (classify (fst (scanFlags e rows)) (snd (scanFlags e rows)))
    (performSTTT rows e
       (classify (fst (scanFlags e rows)) (snd (scanFlags e rows)))).
Proof.
  unfold scanFlags. rewrite scanFlags_fold. cbn [fst snd andb].
  unfold stttReported, classify, performSTTT.
  destruct (forallb (rowValue e) rows) eqn:Et;
    destruct (forallb (fun row => negb (rowValue e row)) rows) eqn:Ef;
    try (eexists; split; [reflexivity|reflexivity]).
  assert (Et' : forallb (fun row => negb (negb (rowValue e row))) rows = false).
  { rewrite <- Et. clear. induction rows as [|row rows IH]; simpl; [reflexivity|].
    now rewrite IH, negb_involutive. }
  destruct (find_first (fun r => negb (rowValue e r)) rows Et')
    as (fr & l1 & l2 & Hrows & Hfr & Hl1 & Hfind).
  destruct (find_first (rowValue e) rows Ef) as (tr & _ & _ & _ & _ & _ & Htrue).
  rewrite Hfind, Htrue. eexists. split; [reflexivity|].
  exists fr, l1, l2. cbn [criticalRowId]. repeat split; auto.
  - now apply negb_true_iff in Hfr.
  - intros row Hrow. specialize (Hl1 row Hrow).
    now apply negb_false_iff in Hl1.
Qed.

(** ** The variables of an expression *)

Lemma insertSorted_sorted x l :
  StronglySorted codeNotAfter l -> StronglySorted codeNotAfter (insertSorted x l).
Proof.
  induction l as [|y l IH]; simpl; intros H.
  - repeat constructor.
  - inversion H as [|? ? Hl Hy]; subst.
    destruct (hd 0%N y <=? hd 0%N x)%N eqn:E.
    + apply N.leb_le in E. constructor; [auto|].
      apply Forall_forall. intros z Hz.
      apply insertSorted_in in Hz as [->|Hz]; [exact E|].
      rewrite Forall_forall in Hy. auto.
    + apply N.leb_gt in E. constructor; [exact H|].
      constructor; [unfold codeNotAfter; lia|].
      rewrite Forall_forall in Hy |- *. intros z Hz.
      specialize (Hy z Hz). unfold codeNotAfter in *. lia.
Qed.

Lemma insertSorted_nodup x l :
  ~ In x l -> NoDup l -> NoDup (insertSorted x l).
Proof.
  induction l as [|y l IH]; simpl; intros Hx Hl.
  - repeat constructor. auto.
  - inversion Hl as [|? ? Hy Hl']; subst.
    destruct (hd 0%N y <=? hd 0%N x)%N.
    + constructor; [|apply IH; auto].
      rewrite insertSorted_in. intuition.
    + constructor; [simpl; intuition|exact Hl].
Qed.

Lemma sorted_fold vars : forall init,
  StronglySorted codeNotAfter init -> NoDup init -> NoDup vars ->
  (forall v, In v vars -> ~ In v init) ->
  StronglySorted codeNotAfter (fold_left (fun acc x => insertSorted x acc) vars init)
  /\ NoDup (fold_left (fun acc x => insertSorted x acc) vars init).
Proof.
  induction vars as [|x vars IH]; intros init Hs Hn Hv Hd; simpl; [auto|].
  inversion Hv as [|? ? Hx Hvars]; subst.
  apply IH; auto.
  - now apply insertSorted_sorted.
  - apply insertSorted_nodup; auto. apply Hd. now left.
  - intros v Hin Hi. apply insertSorted_in in Hi as [->|Hi]; [contradiction|].
    apply (Hd v); auto. now right.
Qed.

Lemma collected_nodup toks : forall acc,
  NoDup acc ->
  NoDup (fold_left
           (fun vars t =>
              if isVariableToken t
              then (if includes vars (tok_value t) then vars
                    else vars ++ [tok_value t])
              else vars) toks acc).
Proof.
  induction toks as [|t toks IH]; intros acc H; simpl; [exact H|].
  apply IH. destruct (isVariableToken t); [|exact H].
  destruct (includes acc (tok_value t)) eqn:E; [exact H|].
  apply NoDup_app; [exact H|repeat constructor; auto|].
  intros x Hx [<-|[]].
  apply includes_In in Hx. congruence.
Qed.

Lemma extractVariables_letters up expr v :
  In v (extractVariablesFromExpression up expr) ->
  exists ch, v = [ch] /\ isUpperLetter ch = true.
Proof.
  intros H. apply extractVariables_in in H as (t & Hin & Ht & Hv & H0 & H1).
  destruct (scanTokens_var _ _ _ Hin Ht) as (ch & Hval & Hch).
  exists ch. split; [congruence|].
  destruct Hch as [Hch|[->| ->]]; [exact Hch|congruence|congruence].
Qed.

Lemma extractVariables_sorted up expr :
  StronglySorted codeNotAfter (extractVariablesFromExpression up expr)
  /\ NoDup (extractVariablesFromExpression up expr).
Proof.
  unfold extractVariablesFromExpression.
  apply sorted_fold; try constructor.
  - change (fold_left _ (tokenize up expr) [])
      with (fold_left
              (fun vars t =>
                 if isVariableToken t
                 then (if includes vars (tok_value t) then vars
                       else vars ++ [tok_value t])
                 else vars) (tokenize up expr) []).
    apply collected_nodup. constructor.
  - intros v _ [].
Qed.

Lemma strictly_sorted (l : list jsstring) :
  StronglySorted codeNotAfter l -> NoDup l ->
  (forall v, In v l -> exists ch, v = [ch]) ->
  StronglySorted codeBefore l.
Proof.
  induction l as [|x l IH]; intros Hs Hn Hc; [constructor|].
  inversion Hs as [|? ? Hl Hx]; subst.
  inversion Hn as [|? ? Hni Hn']; subst.
  constructor.
  - apply IH; auto. intros v Hv. apply Hc. now right.
  - rewrite Forall_forall in Hx |- *. intros y Hy.
    specialize (Hx y Hy).
    destruct (Hc x (or_introl eq_refl)) as (cx & ->).
    destruct (Hc y (or_intror Hy)) as (cy & ->).
    unfold codeBefore, codeNotAfter in *. cbn [hd] in *.
    assert (cx <> cy) by (intros ->; contradiction). lia.
Qed.

(** ** The shape of the tokens *)

Lemma OPS_opKeys kv : In kv OPS <-> In kv opKeys.
Proof. vm_compute. tauto. Qed.

Lemma matchOperator_some remainder key symbol :
  In (key, symbol) OPS -> startsWith remainder key = true ->
  matchOperator remainder <> None.
Proof.
  intros Hin Hs E. unfold matchOperator in E.
  apply OPS_opKeys in Hin.
  apply (find_none _ _ E) in Hin. cbn [fst] in Hin. congruence.
Qed.

Lemma matchOperator_minus rest : matchOperator (ch_minus :: rest) <> None.
Proof.
  apply (matchOperator_some _ (lit "-") ch_not).
  - vm_compute. tauto.
  - change (lit "-") with [ch_minus]. simpl. now destruct rest.
Qed.

Lemma operator_glyph key symbol :
  In (key, symbol) OPS ->
  glyphToken {| tok_type := operatorType symbol; tok_value := [symbol] |}.
Proof.
  intros H. exists symbol. cbn [tok_type tok_value].
  simpl in H.
  repeat (destruct H as [H|H]; [injection H as _ <-; now vm_compute|]).
  destruct H.
Qed.

Lemma charToken_glyph char rest t :
  matchOperator (char :: rest) = None -> charToken char = Some t ->
  glyphToken t.
Proof.
  intros Hop. unfold charToken.
  destruct (existsb (N.eqb char) SYMBOLS || _) eqn:Esym.
  - intros H. injection H as <-. exists char. cbn [tok_type tok_value].
    apply orb_true_iff in Esym.
    assert (Hc : In char (SYMBOLS ++ [ch_lbracket; ch_rbracket; ch_lbrace;
                                       ch_rbrace; ch_lparen; ch_rparen])).
    { apply in_app_iff.
      destruct Esym as [E|E]; apply existsb_exists in E as (x & Hx & Ex);
        apply N.eqb_eq in Ex; subst x; auto. }
    simpl in Hc.
    repeat (destruct Hc as [Hc|Hc]; [subst char; now vm_compute|]).
    destruct Hc.
  - destruct (isUpperLetter char || (char =? ch_one)%N || (char =? ch_zero)%N)
      eqn:Evar.
    + intros H. injection H as <-. exists char. cbn [tok_type tok_value].
      split; [reflexivity|]. split.
      * unfold isTokenChar.
        rewrite !orb_true_iff in Evar. rewrite !orb_true_iff. tauto.
      * apply orb_false_iff in Esym as [Esym _].
        unfold SYMBOLS in Esym. cbn [existsb] in Esym.
        rewrite !orb_false_iff in Esym.
        destruct Esym as (E1 & E2 & E3 & E4 & E5 & E6 & E7 & E8 & E9
                          & E10 & E11 & E12 & _).
        unfold symbolType, operatorType.
        now rewrite E1, E2, E3, E4, E5, E6, E7, E8, E9, E10, E11, E12.
    + destruct (char =? ch_minus)%N eqn:Em; [|discriminate].
      apply N.eqb_eq in Em. subst char.
      now apply matchOperator_minus in Hop.
Qed.

Lemma scanTokens_shape str : forall skip,
  exists body, scanTokens skip str = body ++ [eofToken]
               /\ Forall glyphToken body.
Proof.
  induction str as [|char rest IH]; intros skip; simpl.
  - exists []. split; [reflexivity|constructor].
  - destruct skip; [|apply IH].
    destruct (matchOperator (char :: rest)) as [[key symbol]|] eqn:Eop.
    + destruct (IH (length key - 1)) as (body & -> & Hb).
      eexists (_ :: body). split; [reflexivity|].
      constructor; [|exact Hb].
      apply matchOperator_in in Eop. eapply operator_glyph; eauto.
    + destruct (charToken char) as [t|] eqn:Ec; [|apply IH].
      destruct (IH 0) as (body & -> & Hb).
      exists (t :: body). split; [reflexivity|].
      constructor; [|exact Hb]. eapply charToken_glyph; eauto.
Qed.

(** ** The longest alias wins *)

Lemma find_split {A : Type} (f : A -> bool) (l : list A) (x : A) :
  find f l = Some x ->
  exists l1 l2, l = l1 ++ x :: l2 /\ f x = true
                /\ forall y, In y l1 -> f y = false.
Proof.
  induction l as [|y l IH]; simpl; [discriminate|].
  destruct (f y) eqn:Ey.
  - intros H. injection H as ->. exists [], l. repeat split; auto.
    intros z [].
  - intros H. destruct (IH H) as (l1 & l2 & -> & Hx & Hl1).
    exists (y :: l1), l2. repeat split; auto.
    intros z [<-|Hz]; auto.
Qed.

Lemma sorted_after {A : Type} (R : A -> A -> Prop) (l1 l2 : list A) (x : A) :
  StronglySorted R (l1 ++ x :: l2) -> Forall (R x) l2.
Proof.
  induction l1 as [|y l1 IH]; simpl; intros H;
    inversion H as [|? ? Hl Hy]; subst; auto.
Qed.

Lemma opKeys_sorted :
  StronglySorted (fun a b : jsstring * N => length (fst b) <= length (fst a))
    opKeys.
Proof.
  vm_compute opKeys.
  repeat (constructor; [|repeat (constructor; [simpl; lia|]); constructor]).
  constructor.
Qed.

Lemma matchOperator_longest_alias remainder key symbol :
  matchOperator remainder = Some (key, symbol) ->
  In (key, symbol) OPS /\ startsWith remainder key = true
  /\ forall key' symbol', In (key', symbol') OPS ->
       startsWith remainder key' = true -> length key' <= length key.
Proof.
  intros H. split; [now apply matchOperator_in in H|].
  unfold matchOperator in H.
  destruct (find_split _ _ _ H) as (l1 & l2 & E & Hx & Hl1).
  cbn [fst] in Hx. split; [exact Hx|].
  intros key' symbol' Hin Hs.
  apply OPS_opKeys in Hin. rewrite E in Hin.
  apply in_app_iff in Hin as [Hin|[Hin|Hin]].
  - apply Hl1 in Hin. cbn [fst] in Hin. congruence.
  - injection Hin as -> _. lia.
  - pose proof opKeys_sorted as Hs'. rewrite E in Hs'.
    apply sorted_after in Hs'. rewrite Forall_forall in Hs'.
    apply (Hs' _ Hin).
Qed.

(** ** Depth *)

Lemma calculateComplexity_setExpression n e :
  calculateComplexity (setExpression n e) = calculateComplexity n.
Proof. now destruct n. Qed.

Lemma node_depth_setExpression n e :
  node_depth (setExpression n e) = node_depth n.
Proof. now destruct n. Qed.

Lemma parse_depth toks a :
  parse toks = Some a -> snd (calculateComplexity a) = node_depth a + 1.
Proof.
  intros H.
  apply (parse_induction
           (fun _ n _ => snd (calculateComplexity n) = node_depth n + 1))
    in H as [_ H]; [exact H|..]; clear; cbn [calculateComplexity snd node_depth].
  - reflexivity.
  - reflexivity.
  - intros _ operand _ _ H. lia.
  - intros p node _ _ H _.
    now rewrite calculateComplexity_setExpression, node_depth_setExpression.
  - auto.
  - intros _ _ lhs _ rhs _ H1 _ H2. lia.
Qed.

(** ** The code units of expression strings *)

Lemma subnode_setExpression m n e :
  subnode m (setExpression n e) -> m = setExpression n e \/ subnode m n.
Proof.
  destruct n; simpl; intros [H|H]; auto.
Qed.

Lemma peek_forall (P : Token -> Prop) p :
  P eofToken -> Forall P (tokens p) -> P (peek p).
Proof.
  intros He Hall. unfold peek.
  destruct (nth_in_or_default (pos p) (tokens p) eofToken) as [H|H].
  - rewrite Forall_forall in Hall. auto.
  - now rewrite H.
Qed.

Lemma isTokenChar_expression ch :
  isTokenChar ch = true -> isExpressionChar ch = true.
Proof. unfold isExpressionChar. now intros ->. Qed.

Lemma tokenChars_expression t : tokenChars t -> exprChars (tok_value t).
Proof.
  unfold tokenChars, exprChars. apply Forall_impl.
  intros ch. apply isTokenChar_expression.
Qed.

Lemma parse_exprChars toks a :
  Forall tokenChars toks -> parse toks = Some a ->
  forall m, subnode m a -> exprChars (node_expression m).
Proof.
  intros Htoks H.
  apply (parse_induction
           (fun p n p' =>
              tokens p' = tokens p
              /\ (Forall tokenChars (tokens p) ->
                  forall m, subnode m n -> exprChars (node_expression m))))
    in H as [p' [_ H]]; [now apply H|..]; clear;
    cbn [consume generateId snd tokens].
  - intros p _. split; [reflexivity|]. intros Hall m [->|[]].
    cbn [node_expression]. apply tokenChars_expression.
    apply peek_forall; [constructor|exact Hall].
  - intros p _ _. split; [reflexivity|]. intros _ m [->|[]].
    repeat constructor.
  - intros p operand p2 _ [Ht IH]. split; [exact Ht|].
    intros Hall m [->|Hm]; [|now apply IH].
    cbn [node_expression]. apply Forall_app. split.
    + apply tokenChars_expression.
      apply peek_forall; [constructor|exact Hall].
    + apply IH; [exact Hall|apply subnode_refl].
  - intros p node p2 Hopen [Ht IH] _. split; [exact Ht|].
    intros Hall m Hm. apply subnode_setExpression in Hm as [->|Hm];
      [|now apply IH].
    rewrite node_expression_setExpression.
    apply Forall_app. split; [|apply Forall_app; split].
    + apply tokenChars_expression.
      apply peek_forall; [constructor|exact Hall].
    + apply IH; [exact Hall|apply subnode_refl].
    + constructor; [|constructor].
      now destruct (tok_type (peek p)).
  - intros p node p2 _ H _. exact H.
  - intros op p lhs p1 rhs p2 [Ht1 IH1] _ [Ht2 IH2].
    split; [congruence|].
    intros Hall m [->|[Hm|Hm]].
    + cbn [node_expression]. unfold binExpression.
      apply Forall_app. split; [apply IH1; auto using subnode_refl|].
      apply Forall_app. split.
      * repeat constructor. now destruct op.
      * apply IH2; [now rewrite Ht1|apply subnode_refl].
    + now apply IH1.
    + apply IH2; [now rewrite Ht1|exact Hm].
Qed.

Lemma glyphToken_chars t : glyphToken t -> tokenChars t.
Proof.
  intros (ch & Hv & Hc & _). unfold tokenChars. rewrite Hv.
  now repeat constructor.
Qed.

Lemma tokenize_chars up input : Forall tokenChars (tokenize up input).
Proof.
  unfold tokenize.
  destruct (scanTokens_shape
              (filter (fun c => negb (isWhitespace c)) (up input)) 0)
    as (body & -> & Hb).
  apply Forall_app. split.
  - revert Hb. apply Forall_impl. apply glyphToken_chars.
  - repeat constructor.
Qed.


(** ** Labels under the setting normalize *)








(** ** The steps of the step-by-step view *)

Lemma traverse_app row node : forall steps,
  traverse row node steps = steps ++ traverse row node [].
Proof.
  induction node as [id v e d|id o IHo e d|id op l IHl r IHr e d];
    intros steps; cbn [traverse].
  - now rewrite app_nil_r.
  - rewrite (IHo steps). now rewrite app_assoc.
  - rewrite (IHr (traverse row l steps)), (IHl steps),
      (IHr (traverse row l [])).
    now rewrite !app_assoc.
Qed.

Lemma traverse_length row node :
  length (traverse row node []) = fst (calculateComplexity node).
Proof.
  induction node as [id v e d|id o IHo e d|id op l IHl r IHr e d];
    cbn [traverse calculateComplexity fst].
  - reflexivity.
  - rewrite length_app, IHo. simpl. lia.
  - rewrite length_app, traverse_app, length_app, IHl, IHr. simpl. lia.
Qed.

Lemma traverse_nodes row node :
  map step_node (traverse row node [])
  = filter isOperatorNode (postOrder node).
Proof.
  induction node as [id v e d|id o IHo e d|id op l IHl r IHr e d];
    cbn [traverse postOrder].
  - reflexivity.
  - rewrite map_app, IHo, filter_app. reflexivity.
  - rewrite map_app, traverse_app, map_app, IHl, IHr, !filter_app.
    now rewrite <- app_assoc.
Qed.

Lemma nodeIds_postOrder n : nodeIds n = map node_id (postOrder n).
Proof.
  induction n as [id v e d|id o IHo e d|id op l IHl r IHr e d];
    cbn [nodeIds postOrder]; rewrite ?map_app, ?IHo, ?IHl, ?IHr; reflexivity.
Qed.

(** ** Recomputing an edited row *)

Lemma assigned_silent upd k cols :
  (forall col, In col cols -> upd col = None) -> assigned upd k cols = None.
Proof.
  induction cols as [|c rest IH]; simpl; intros H; [reflexivity|].
  rewrite IH by auto. now rewrite (H c (or_introl eq_refl)).
Qed.


(** A variable key keeps its truth value through [recalculateRow]. *)
Lemma recalculateRow_variable ast declared settings u q :
  wf_node ast ->
  length q = 1 -> q <> [ch_one] -> q <> [ch_zero] -> In q declared ->
  truthy (obj_get
            (values (recalculateRow u (finalColumns ast declared settings) ast))
            q)
  = truthy (obj_get (values u) q).
Proof.
  intros Hw Hlen H1 H0 Hq.
  rewrite recalculateRow_values, obj_get_writeColumns.
  set (cols := finalColumns ast declared settings).
  set (upd := recalcWrite ast (extractSubExpressions ast [])
                (inputContext u cols)).
  destruct (finalColumns_parts ast declared settings)
    as (mid & Ecols & _ & Hmid & _).
  fold cols in Ecols. rewrite Ecols.
  rewrite !assigned_app.
  assert (Hvars : assigned upd q (varColumns declared) = None).
  { apply assigned_silent. intros c Hc. apply varColumns_in in Hc as [Hc _].
    unfold upd, recalcWrite. now rewrite Hc. }
  assert (Hmid' : assigned upd q mid = None).
  { apply assigned_untouched. intros c Hc Hk.
    destruct (Hmid c Hc) as (_ & _ & n & Hn & Hty & He & _).
    apply extractSubExpressions_subnode in Hn.
    pose proof (subnode_wf _ _ Hn Hw) as Hwn.
    rewrite He in Hk.
    destruct n; simpl in *; try congruence; subst q; lia. }
  rewrite Hmid', Hvars. cbn [assigned].
  destruct (upd (resultColumn ast settings)) as [w|] eqn:Eu; [|reflexivity].
  cbn [expression resultColumn].
  destruct (str_eqb q (node_expression ast)) eqn:E; [|reflexivity].
  apply str_eqb_eq in E. cbn [truthy].
  unfold upd, recalcWrite in Eu. cbn [isInput resultColumn] in Eu.
  assert (Hc : columnNode ast (extractSubExpressions ast [])
                 (resultColumn ast settings) = Some ast).
  { unfold columnNode.
    destruct (find _ _) as [n'|] eqn:Ef.
    - f_equal. exact (find_root ast (resultColumn ast settings) n' Hw eq_refl Ef).
    - unfold idMatches. cbn [astId resultColumn]. now rewrite Nat.eqb_refl. }
  rewrite Hc in Eu. cbn [option_map] in Eu. injection Eu as <-.
  destruct ast as [id v e d|id o e d|id op l r e d]; simpl in E, Hw.
  - subst e. destruct Hw as (_ & _ & Hv). rewrite <- (Hv Hlen).
    cbn [evaluateAST].
    apply str_eqb_neq in H1, H0. rewrite H1, H0.
    unfold cols. rewrite inputContext_get.
    now destruct (in_dec str_eq_dec q declared).
  - subst e. lia.
  - subst e. lia.
Qed.



(** ** Neighbouring cells of a Karnaugh map *)

Lemma layout_adjacent rowGray colGray mintermMap r c :
  layoutOf rowGray colGray ->
  r < length rowGray -> c < length colGray ->
  let g := buildGrid rowGray colGray mintermMap in
  oneBitApart (mintermIndex (cellAt g r c))
    (mintermIndex (cellAt g r ((c + 1) mod length colGray)))
  /\ oneBitApart (mintermIndex (cellAt g r c))
       (mintermIndex (cellAt g ((r + 1) mod length rowGray) c)).
Proof.
  cbv zeta. rewrite !mintermIndex_cellAt, buildGrid_indices.
  intros [[-> ->]|[[-> ->]|[-> ->]]]; cbn [getGrayCode Nat.eqb length];
    intros Hr Hc;
    repeat (destruct r as [|r]; [|try lia]);
    repeat (destruct c as [|c]; [|try lia]);
    split;
    first [ exists 0%N; vm_compute; reflexivity
          | exists 1%N; vm_compute; reflexivity
          | exists 2%N; vm_compute; reflexivity
          | exists 3%N; vm_compute; reflexivity ].
Qed.

(** ** The cells of a Karnaugh map hold the formula's values *)

Lemma tableRow_lastValue ast declared settings i :
  wf_node ast ->
  ~ In (node_expression ast) declared ->
  arrayIndex (node_expression ast) = None ->
  lastValue (tableRow ast declared settings i)
  = evaluateAST ast
      (rowContext declared (valIndexOf settings (2 ^ length declared) i)).
Proof.
  intros Hw Hdecl Hidx. unfold lastValue, tableRow. cbn [values].
  set (context := rowContext declared _).
  rewrite evaluateColumns_fold.
  destruct (finalColumns_parts ast declared settings)
    as (mid & -> & _ & _ & Hmidroot).
  rewrite app_assoc, fold_left_app. cbn [fold_left].
  set (o := fold_left
              (writeColumn (tableWrite ast (extractSubExpressions ast []) context))
              (varColumns declared ++ mid) []).
  unfold writeColumn at 1. rewrite tableWrite_result by assumption.
  cbn [expression resultColumn].
  assert (Hnone : obj_get o (node_expression ast) = None).
  { unfold o. rewrite obj_get_writeColumns, assigned_untouched; [reflexivity|].
    intros col Hc E. apply in_app_iff in Hc as [Hc|Hc].
    - apply varColumns_in in Hc as [_ Hc]. now rewrite E in Hc.
    - now apply (Hmidroot col Hc). }
  unfold obj_set. rewrite Hnone, Hidx. unfold obj_values.
  rewrite map_app. cbn [map snd]. apply last_last.
Qed.

Lemma obj_get_fold_nodup {A : Type} (f : A * jsstring -> bool)
  (l : list (A * jsstring)) (iv : A * jsstring) :
  NoDup (map snd l) -> In iv l ->
  forall init,
    obj_get (fold_left (fun c iv => obj_set c (snd iv) (f iv)) l init) (snd iv)
    = Some (f iv).
Proof.
  induction l as [|x l IH]; simpl; intros Hnd Hin init; [contradiction|].
  inversion Hnd as [|? ? Hx Hl]; subst.
  destruct Hin as [->|Hin]; [|now apply IH].
  rewrite (proj2 (obj_get_fold_pairs f l (snd iv) _) Hx).
  apply obj_get_set_same.
Qed.

Lemma rowContext_position declared vi i v :
  NoDup declared -> In (i, v) (combine (seq 0 (length declared)) declared) ->
  obj_get (rowContext declared vi) v
  = Some (bitIsSet vi (length declared - 1 - i)).
Proof.
  intros Hnd Hin. unfold rowContext.
  apply (obj_get_fold_nodup
           (fun iv => bitIsSet vi (length declared - 1 - fst iv))
           (combine (seq 0 (length declared)) declared) (i, v));
    [now rewrite map_snd_combine_seq|exact Hin].
Qed.

Lemma combine_in_snd (l : list jsstring) s i v :
  In (i, v) (combine (seq s (length l)) l) -> In v l.
Proof. intros H. now apply in_combine_r in H. Qed.

Lemma fold_left_combine_fst {A : Type} (f : A -> nat -> A) (l : list jsstring) :
  forall s init,
    fold_left (fun a (iv : nat * jsstring) => f a (fst iv))
      (combine (seq s (length l)) l) init
    = fold_left f (seq s (length l)) init.
Proof.
  induction l as [|x l IH]; intros s init; simpl; [reflexivity|]. apply IH.
Qed.

Lemma bits_sum n vi :
  2 <= n <= 4 -> vi < 2 ^ n ->
  fold_left
    (fun minterm i =>
       if bitIsSet vi (n - 1 - i)
       then N.lor minterm (N.shiftl 1 (N.of_nat (n - 1 - i)))
       else minterm)
    (seq 0 n) 0%N
  = N.of_nat vi.
Proof.
  intros Hn Hvi.
  assert (Hcases : n = 2 \/ n = 3 \/ n = 4) by lia.
  destruct Hcases as [->|[->| ->]]; cbn [Nat.pow Nat.mul Nat.add] in Hvi;
    repeat (destruct vi as [|vi]; [vm_compute; reflexivity|]); lia.
Qed.

Lemma rowMinterm_tableRow ast declared settings i :
  wf_node ast -> NoDup declared -> Forall variableName declared ->
  2 <= length declared <= 4 -> i < 2 ^ length declared ->
  rowMinterm declared (tableRow ast declared settings i)
  = N.of_nat (valIndexOf settings (2 ^ length declared) i).
Proof.
  intros Hw Hnd Hnames Hlen Hi.
  set (vi := valIndexOf settings (2 ^ length declared) i).
  assert (Hvi : vi < 2 ^ length declared).
  { unfold vi, valIndexOf. destruct (rowOrder (logic settings)); lia. }
  unfold rowMinterm.
  set (step := fun (m : N) (k : nat) =>
                 if bitIsSet vi (length declared - 1 - k)
                 then N.lor m (N.shiftl 1 (N.of_nat (length declared - 1 - k)))
                 else m).
  transitivity (fold_left step (seq 0 (length declared)) 0%N);
    [|now apply bits_sum].
  rewrite <- (fold_left_combine_fst step declared 0 0%N).
  apply fold_left_ext_in.
  intros m [k v] Hin. unfold step. cbn [fst snd].
  pose proof (combine_in_snd _ _ _ _ Hin) as Hv.
  rewrite Forall_forall in Hnames.
  destruct (Hnames v Hv) as (ch & -> & Hch).
  unfold rowValue.
  rewrite tableRow_values_key; auto.
  - now rewrite (rowContext_position declared _ k [ch] Hnd Hin).
  - unfold isUpperLetter in Hch. apply andb_true_iff in Hch as [H1 H2].
    apply N.leb_le in H1. intros E. injection E as ->. now vm_compute in H1.
  - unfold isUpperLetter in Hch. apply andb_true_iff in Hch as [H1 H2].
    apply N.leb_le in H1. intros E. injection E as ->. now vm_compute in H1.
Qed.

Lemma mintermMap_rev (f : TruthTableRow -> N * bool) rows : forall acc,
  fold_left (fun acc row => f row :: acc) rows acc = rev (map f rows) ++ acc.
Proof.
  induction rows as [|row rows IH]; intros acc; simpl; [reflexivity|].
  rewrite IH, <- app_assoc. reflexivity.
Qed.

Lemma mintermLookup_keyed (g : N -> bool) (m : list (N * bool)) (k : N) :
  (forall kv, In kv m -> snd kv = g (fst kv)) ->
  (exists kv, In kv m /\ fst kv = k) ->
  mintermLookup m k = Some (g k).
Proof.
  intros Hall (kv & Hin & Hk). unfold mintermLookup.
  destruct (find (fun kv0 => (fst kv0 =? k)%N) m) as [kv'|] eqn:E.
  - apply find_some in E as [Hin' Hk']. apply N.eqb_eq in Hk'.
    now rewrite (Hall kv' Hin'), Hk'.
  - apply (find_none _ _ E) in Hin. rewrite Hk, N.eqb_refl in Hin.
    discriminate.
Qed.

Lemma layout_minterm_bound n rowGray colGray mintermMap r c :
  2 <= n <= 4 ->
  rowGray = getGrayCode (if n =? 4 then 2 else 1) ->
  colGray = getGrayCode (if n =? 2 then 1 else 2) ->
  r < length rowGray -> c < length colGray ->
  (mintermIndex (cellAt (buildGrid rowGray colGray mintermMap) r c)
   < 2 ^ N.of_nat n)%N.
Proof.
  rewrite mintermIndex_cellAt, buildGrid_indices.
  intros Hn -> ->.
  assert (Hcases : n = 2 \/ n = 3 \/ n = 4) by lia.
  destruct Hcases as [->|[->| ->]]; cbn [getGrayCode Nat.eqb length];
    intros Hr Hc;
    repeat (destruct r as [|r]; [|try lia]);
    repeat (destruct c as [|c]; [|try lia]);
    vm_compute; reflexivity.
Qed.

Lemma buildGrid_cell rowGray colGray mm r c :
  r < length rowGray -> c < length colGray ->
  cellAt (buildGrid rowGray colGray mm) r c
  = {| value :=
         truthy (mintermLookup mm
                   (parseBinary (nth r rowGray [] ++ nth c colGray [])));
       mintermIndex := parseBinary (nth r rowGray [] ++ nth c colGray []) |}.
Proof.
  intros Hr Hc. unfold cellAt, buildGrid. cbv zeta.
  set (h := fun rbits cbits =>
              {| value := truthy (mintermLookup mm (parseBinary (rbits ++ cbits)));
                 mintermIndex := parseBinary (rbits ++ cbits) |}).
  set (f := fun rbits => map (h rbits) colGray).
  change (nth c (nth r (map f rowGray) []) {| value := false; mintermIndex := 0 |}
          = h (nth r rowGray []) (nth c colGray [])).
  rewrite (nth_indep (map f rowGray) [] (f [])) by (rewrite length_map; exact Hr).
  rewrite (map_nth f rowGray [] r). unfold f.
  rewrite (nth_indep (map (h (nth r rowGray [])) colGray) _
             (h (nth r rowGray []) []))
    by (rewrite length_map; exact Hc).
  now rewrite (map_nth (h (nth r rowGray [])) colGray [] c).
Qed.

Lemma generateKMap_grid variables rows k :
  generateKMap variables rows = Some k ->
  2 <= length variables <= 4
  /\ grid k
     = buildGrid
         (getGrayCode (if length variables =? 4 then 2 else 1))
         (getGrayCode (if length variables =? 2 then 1 else 2))
         (fold_left
            (fun acc row => (rowMinterm variables row, lastValue row) :: acc)
            rows []).
Proof.
  unfold generateKMap.
  destruct ((length variables <? 2) || (4 <? length variables)) eqn:Econd;
    [discriminate|].
  apply orb_false_iff in Econd as [E2 E4].
  apply Nat.ltb_ge in E2, E4.
  cbv zeta.
  match goal with
  | |- (let (_, _) := solveKMap (buildGrid ?rg ?cg ?mm) ?on ?rv ?cv _ _ in _)
       = _ -> _ =>
      destruct (solveKMap (buildGrid rg cg mm) on rv cv rg cg)
        as [grps mexpr] eqn:Es;
      intros H; injection H as <-; cbv beta iota delta [grid]
  end.
  split; [lia|].
  destruct variables as [|a [|b [|c [|d [|e rest]]]]]; cbn [length] in *;
    try lia; reflexivity.
Qed.

Lemma valIndexOf_onto settings n m :
  m < 2 ^ n -> exists i, i < 2 ^ n /\ valIndexOf settings (2 ^ n) i = m.
Proof.
  intros Hm. unfold valIndexOf. destruct (rowOrder (logic settings)).
  - exists m. split; [exact Hm|reflexivity].
  - exists (2 ^ n - 1 - m). split; lia.
Qed.

(** Each cell of the map of an analysis holds the value of the formula
    under the assignment its minterm index spells. *)
Lemma kmap_cell_value ast declared settings k r c :
  wf_node ast -> NoDup declared -> Forall variableName declared ->
  ~ In (node_expression ast) declared ->
  arrayIndex (node_expression ast) = None ->
  generateKMap declared (tableRows ast declared settings) = Some k ->
  r < length (rowLabels k) -> c < length (colLabels k) ->
  value (cellAt (grid k) r c)
  = evaluateAST ast
      (rowContext declared (N.to_nat (mintermIndex (cellAt (grid k) r c)))).
Proof.
  intros Hw Hnd Hnames Hroot Hidx Hk Hr Hc.
  destruct (generateKMap_grid _ _ _ Hk) as [Hlen Hgrid].
  assert (Hlabels : rowLabels k
                    = getGrayCode (if length declared =? 4 then 2 else 1)
                    /\ colLabels k
                       = getGrayCode (if length declared =? 2 then 1 else 2)).
  { clear - Hk Hlen. unfold generateKMap in Hk.
    destruct ((length declared <? 2) || (4 <? length declared));
      [discriminate|].
    cbv zeta in Hk.
    match type of Hk with
    | (let (_, _) := solveKMap (buildGrid ?rg ?cg ?mm) ?on ?rv ?cv _ _ in _)
      = _ =>
        destruct (solveKMap (buildGrid rg cg mm) on rv cv rg cg)
          as [grps mexpr];
        injection Hk as <-; cbv beta iota delta [rowLabels colLabels]
    end.
    destruct declared as [|a [|b [|c [|d [|e rest]]]]]; cbn [length] in *;
      try lia; split; reflexivity. }
  destruct Hlabels as [Hrl Hcl]. rewrite Hrl in Hr. rewrite Hcl in Hc.
  rewrite Hgrid.
  set (mm := fold_left _ _ []).
  pose proof (layout_minterm_bound (length declared) _ _ mm r c Hlen
                eq_refl eq_refl Hr Hc) as Hbound.
  set (g := buildGrid _ _ mm) in *.
  set (m := mintermIndex (cellAt g r c)) in *.
  assert (Hval : value (cellAt g r c) = truthy (mintermLookup mm m)).
  { unfold m, g. now rewrite buildGrid_cell. }
  rewrite Hval.
  assert (Hm : N.to_nat m < 2 ^ length declared).
  { rewrite <- (Nat2N.id (2 ^ length declared)), Nat2N.inj_pow.
    change (N.of_nat 2) with 2%N. lia. }
  rewrite (mintermLookup_keyed
             (fun key => evaluateAST ast (rowContext declared (N.to_nat key))));
    [reflexivity| |].
  - intros kv Hin. unfold mm in Hin. rewrite mintermMap_rev, app_nil_r in Hin.
    apply in_rev, in_map_iff in Hin as (row & <- & Hrow).
    cbn [fst snd]. unfold tableRows in Hrow.
    apply in_map_iff in Hrow as (i & <- & Hi). apply in_seq in Hi.
    rewrite tableRow_lastValue, rowMinterm_tableRow by (auto; lia).
    now rewrite Nat2N.id.
  - destruct (valIndexOf_onto settings (length declared) (N.to_nat m) Hm)
      as (i & Hi & Hvi).
    exists (rowMinterm declared (tableRow ast declared settings i),
            lastValue (tableRow ast declared settings i)).
    split.
    + unfold mm. rewrite mintermMap_rev, app_nil_r. apply -> in_rev.
      apply (in_map (fun row => (rowMinterm declared row, lastValue row))).
      unfold tableRows. apply in_map, in_seq. lia.
    + cbn [fst]. rewrite rowMinterm_tableRow by (auto; lia).
      rewrite Hvi. apply N2Nat.id.
Qed.

(** ** Further properties of the engine and of its callers *)

(** X6: within 32 declared variables the classification decides validity.
    An accepted expression is classified Tautology exactly when
    [evaluateRawExpression] gives true under every assignment of the
    declared variables, and Contradiction exactly when it gives false
    under every one: the rows leave no assignment out. *)
Theorem classification_decides up expr declared settings res :
  analyzeLogic up expr declared settings = inl res ->
  length declared <= 32 ->
  (classification res = Tautology
   <-> forall c, assignsOnly declared c ->
                 evaluateRawExpression up expr c = true)
  /\ (classification res = Contradiction
      <-> forall c, assignsOnly declared c ->
                    evaluateRawExpression up expr c = false).
Proof.
  intros H Hlen.
  pose proof (classification_semantics up expr declared settings res true H Hlen)
    as Ht.
  pose proof (classification_semantics up expr declared settings res false H Hlen)
    as Hf.
  apply analyzeLogic_inl in H as (a & _ & _ & ->).
  unfold analysisOf in *. cbn [classification ast rows] in *.
  destruct (classify_consistent (node_expression a)
              (tableRows a declared settings) (tableRows_nonempty _ _ _))
    as (Hc1 & Hc2 & _).
  rewrite <- Ht, <- Hf. split; assumption.
Qed.

(** X7: [extractSubExpressions] keeps one occurrence per expression
    string: the entries are occurrences of the tree, no two of them have
    the same expression string, and the string of every occurrence of the
    tree is the string of an entry. *)
Theorem extractSubExpressions_representatives (ast : ASTNode) :
  NoDup (map node_expression (extractSubExpressions ast []))
  /\ (forall n, In n (extractSubExpressions ast []) -> subnode n ast)
  /\ (forall m, subnode m ast ->
        exists n, In n (extractSubExpressions ast [])
                  /\ node_expression n = node_expression m).
Proof.
  split; [|split].
  - apply extractSubExpressions_nodup. constructor.
  - apply extractSubExpressions_subnode.
  - intros m Hm.
    pose proof (extractSubExpressions_complete ast [] m Hm) as H.
    apply in_map_iff in H as (n & En & Hn). eauto.
Qed.

Lemma nodeIds_last n : exists l, nodeIds n = l ++ [node_id n].
Proof.
  destruct n; cbn [nodeIds node_id].
  - now exists [].
  - eauto.
  - eexists. now rewrite app_assoc.
Qed.

(** X8: the parser numbers the nodes of the tree it returns 0, 1, 2, ...
    in post-order.  The identifiers are therefore pairwise distinct, and
    the root carries the largest, one less than the number of nodes. *)
Theorem parse_numbers_nodes (toks : list Token) :
  exists a, parse toks = Some a
    /\ nodeIds a = seq 0 (length (nodeIds a))
    /\ NoDup (nodeIds a)
    /\ node_id a + 1 = length (nodeIds a).
Proof.
  destruct (parse_total toks) as (a & Hparse & _).
  exists a. split; [exact Hparse|].
  pose proof (parse_ids toks a Hparse) as Hids.
  split; [exact Hids|]. split; [rewrite Hids; apply seq_NoDup|].
  destruct (nodeIds_last a) as (l & El).
  assert (Hlen : length (nodeIds a) = length l + 1)
    by (rewrite El, length_app; simpl; lia).
  assert (Hnth : nth (length l) (nodeIds a) 0 = node_id a)
    by (rewrite El, app_nth2, Nat.sub_diag by lia; reflexivity).
  rewrite Hids, seq_nth in Hnth by lia. lia.
Qed.

(** X9: in every row of an accepted analysis, every derived column (the
    result column and each step column) holds the value [evaluateAST]
    gives for the node the column names by [astId], in the context formed
    from the row's input columns. *)
Theorem derived_columns_roundtrip up expr declared settings res row col :
  analyzeLogic up expr declared settings = inl res ->
  In row (rows res) -> In col (columns res) -> isInput col = false ->
  exists n, subnode n (ast res) /\ astId col = Some (node_id n)
            /\ expression col = node_expression n
            /\ obj_get (values row) (expression col)
               = Some (evaluateAST n (inputContext row (columns res))).
Proof.
  intros H Hrow Hcol Hin.
  destruct (derived_column_row _ _ _ _ _ row col H Hrow Hcol Hin)
    as (n & Hn & Hid & He & _ & Hv).
  exists n. auto.
Qed.

(** X10: a row of an accepted analysis is a fixed point of
    [recalculateRow]: recomputing it over the analysis's columns and tree
    returns the row unchanged. *)
Theorem recalculateRow_fixed up expr declared settings res row :
  analyzeLogic up expr declared settings = inl res ->
  In row (rows res) ->
  recalculateRow row (columns res) (ast res) = row.
Proof. exact (recalculateRow_fixed_row up expr declared settings res row). Qed.

Lemma map_replace_same (rows : list TruthTableRow) (row : TruthTableRow) :
  (forall r, In r rows -> row_id r = row_id row -> r = row) ->
  map (fun r => if row_id r =? row_id row then row else r) rows = rows.
Proof.
  intros H. induction rows as [|r rows IH]; simpl; [reflexivity|].
  rewrite IH by (intros r0 Hr0; apply H; now right).
  destruct (row_id r =? row_id row) eqn:E; [|reflexivity].
  apply Nat.eqb_eq in E. f_equal. symmetry. apply H; [now left|exact E].
Qed.

(** X11: handing [handleRowChange] a row of the analysis as it stands
    leaves the analysis as it is, whichever column is named as changed:
    recomputation, replacement by identifier and reanalysis are all the
    identity then. *)
Theorem handleRowChange_unchanged up expr declared settings settings' res row col :
  analyzeLogic up expr declared settings = inl res ->
  In row (rows res) ->
  handleRowChange (Some res) settings' row col = Some res.
Proof.
  intros H Hrow. unfold handleRowChange.
  assert (Hfinal : (if isInput col
                    then recalculateRow row (columns res) (ast res)
                    else row) = row).
  { destruct (isInput col); [|reflexivity].
    now apply (recalculateRow_fixed_row up expr declared settings). }
  rewrite Hfinal. f_equal.
  rewrite map_replace_same.
  - now apply (reanalyzeFromRows_unchanged up expr declared settings).
  - apply analyzeLogic_inl in H as (a & _ & _ & ->).
    unfold analysisOf in *. cbn [rows] in *. unfold tableRows in *.
    intros r Hr Hid.
    apply in_map_iff in Hr as (i & <- & _).
    apply in_map_iff in Hrow as (j & <- & _).
    cbn [row_id tableRow] in Hid. now subst.
Qed.


(** X13: [performSTTT] always reports for the classification computed
    from the same rows, in [analyzeLogic] and in [reanalyzeFromRows] (any
    row list): it never returns [undefined] there.  It names a critical row
    exactly for a contingency, and that row is the first one whose result
    column reads false. *)
Theorem sttt_always_reported :
  (forall up expr declared settings res,
      analyzeLogic up expr declared settings = inl res ->
      stttReported (rows res) (node_expression (ast res))
        (classification res) (sttt res))
  /\
  (forall current updatedRows settings,
      stttReported updatedRows (node_expression (ast current))
        (classification (reanalyzeFromRows current updatedRows settings))
        (sttt (reanalyzeFromRows current updatedRows settings))).
Proof.
  split.
  - intros up expr declared settings res H.
    apply analyzeLogic_inl in H as (a & _ & _ & ->).
    apply performSTTT_reported.
  - intros current updatedRows settings. apply performSTTT_reported.
Qed.

(** X14: [extractVariablesFromExpression] returns, for every input,
    single upper-case letters in strictly ascending order of their code
    units (hence without repetition, and never the constants [0] and [1]
    or the placeholder). *)
Theorem extractVariables_sorted_letters up expr :
  StronglySorted codeBefore (extractVariablesFromExpression up expr)
  /\ Forall variableName (extractVariablesFromExpression up expr).
Proof.
  destruct (extractVariables_sorted up expr) as [Hs Hn].
  split.
  - apply strictly_sorted; auto.
    intros v Hv. destruct (extractVariables_letters up expr v Hv) as (ch & -> & _).
    eauto.
  - apply Forall_forall. intros v Hv.
    now apply (extractVariables_letters up expr).
Qed.

(** X15: the token list of any input is a list of one-code-unit tokens
    followed by the single end marker.  Each token holds a connective
    glyph, a bracket, an upper-case letter, [0] or [1], and its type is the
    one that code unit determines; in particular no token holds [-], [!]
    or [~]: the aliases are replaced by the glyph, and the tokenizer's
    separate branch for [-] is never reached. *)
Theorem tokenize_shape up input :
  exists body, tokenize up input = body ++ [eofToken]
               /\ Forall glyphToken body.
Proof. apply scanTokens_shape. Qed.

(** X16: the alias loop of the tokenizer takes the longest alias the
    remaining input starts with: the alias it matches is a key of [OPS]
    that is a prefix of the input, and no key of [OPS] that is a prefix of
    the input is longer. *)
Theorem matchOperator_longest remainder key symbol :
  matchOperator remainder = Some (key, symbol) ->
  In (key, symbol) OPS /\ startsWith remainder key = true
  /\ forall key' symbol', In (key', symbol') OPS ->
       startsWith remainder key' = true -> length key' <= length key.
Proof. exact (matchOperator_longest_alias remainder key symbol). Qed.


(** X18: the depth reported in the complexity metrics of an accepted
    analysis is the [depth] field the parser gave the root, plus one. *)
Theorem complexity_depth up expr declared settings res :
  analyzeLogic up expr declared settings = inl res ->
  cx_depth (complexity res) = node_depth (ast res) + 1.
Proof.
  intros H. apply analyzeLogic_inl in H as (a & Hparse & _ & ->).
  unfold analysisOf. cbn [complexity cx_depth ast].
  now apply (parse_depth (tokenize up expr)).
Qed.

(** X19: the step-by-step view shows one step per operator node, in
    post-order: as many steps as the complexity metrics count operators. *)
Theorem steps_are_operators row ast :
  map step_node (traverse row ast []) = filter isOperatorNode (postOrder ast)
  /\ length (traverse row ast []) = fst (calculateComplexity ast).
Proof. split; [apply traverse_nodes|apply traverse_length]. Qed.

(** X20: in every Karnaugh map [generateKMap] produces, the minterm
    indices of a cell and of its right neighbour, and of a cell and of the
    cell below it, differ in exactly one binary digit; the last column and
    row wrap around to the first. *)
Theorem kmap_gray_adjacent variables rows k r c :
  generateKMap variables rows = Some k ->
  r < length (rowLabels k) -> c < length (colLabels k) ->
  oneBitApart (mintermIndex (cellAt (grid k) r c))
    (mintermIndex (cellAt (grid k) r ((c + 1) mod length (colLabels k))))
  /\ oneBitApart (mintermIndex (cellAt (grid k) r c))
       (mintermIndex (cellAt (grid k) ((r + 1) mod length (rowLabels k)) c)).
Proof.
  intros H.
  assert (Hk : exists rowGray colGray mintermMap,
             layoutOf rowGray colGray
             /\ grid k = buildGrid rowGray colGray mintermMap
             /\ rowLabels k = rowGray /\ colLabels k = colGray).
  { unfold generateKMap in H.
    destruct ((length variables <? 2) || (4 <? length variables)) eqn:Econd;
      [discriminate|].
    cbv zeta in H.
    match type of H with
    | (let (_, _) := solveKMap (buildGrid ?rg ?cg ?mm) ?on ?rv ?cv _ _ in _)
      = _ =>
        destruct (solveKMap (buildGrid rg cg mm) on rv cv rg cg)
          as [grps mexpr];
        injection H as <-; cbv beta iota delta [grid rowLabels colLabels];
        exists rg, cg, mm
    end.
    split; [|repeat split].
    apply orb_false_iff in Econd as [E2 E4].
    apply Nat.ltb_ge in E2, E4.
    destruct variables as [|a [|b [|c' [|d [|e rest]]]]]; cbn [length] in *;
      try lia; cbn; unfold layoutOf; auto. }
  destruct Hk as (rowGray & colGray & mm & Hlay & -> & -> & ->).
  intros Hr Hc. now apply layout_adjacent.
Qed.

(** X21: the Karnaugh map of an accepted analysis shows the formula.
    When the declared variables are pairwise distinct upper-case letters
    and the root's expression string is neither a declared variable nor an
    array index (so that it is the last property of every row object),
    each cell holds the value [evaluateRawExpression] gives under the
    assignment whose binary code is the cell's minterm index. *)
Theorem kmap_shows_formula up expr declared settings res k r c :
  analyzeLogic up expr declared settings = inl res ->
  kMapData res = Some k ->
  NoDup declared -> Forall variableName declared ->
  ~ In (node_expression (ast res)) declared ->
  arrayIndex (node_expression (ast res)) = None ->
  r < length (rowLabels k) -> c < length (colLabels k) ->
  value (cellAt (grid k) r c)
  = evaluateRawExpression up expr
      (rowContext declared (N.to_nat (mintermIndex (cellAt (grid k) r c)))).
Proof.
  intros H Hk Hnd Hnames Hroot Hidx Hr Hc.
  apply analyzeLogic_inl in H as (a & Hparse & _ & ->).
  pose proof (parse_tokenize_wf _ _ _ Hparse) as Hw.
  unfold analysisOf in *. cbn [kMapData ast] in *.
  unfold evaluateRawExpression. rewrite Hparse.
  now apply (kmap_cell_value a declared settings).
Qed.

(** ** Witnesses of the further properties *)

Lemma sample_accepted :
  analyzeLogic upperAscii (lit "P&Q") [varP; varQ] DEFAULT_SETTINGS = inl sample.
Proof. vm_compute. reflexivity. Defined.

Lemma classification_decides_witness :
  analyzeLogic upperAscii (lit "P&Q") [varP; varQ] DEFAULT_SETTINGS = inl sample
  /\ length [varP; varQ] <= 32
  /\ (classification sample = Contradiction
      <-> forall c, assignsOnly [varP; varQ] c ->
                    evaluateRawExpression upperAscii (lit "P&Q") c = false).
Proof.
  assert (H2 : length [varP; varQ] <= 32) by (cbn; lia).
  split; [exact sample_accepted|]. split; [exact H2|].
  exact (proj2 (classification_decides upperAscii (lit "P&Q") [varP; varQ]
                  DEFAULT_SETTINGS sample sample_accepted H2)).
Defined.

Lemma derived_columns_roundtrip_witness :
  analyzeLogic upperAscii (lit "P&Q") [varP; varQ] DEFAULT_SETTINGS = inl sample
  /\ In sampleRow (rows sample)
  /\ In sampleResultColumn (columns sample)
  /\ isInput sampleResultColumn = false
  /\ exists n, subnode n (ast sample)
       /\ astId sampleResultColumn = Some (node_id n)
       /\ expression sampleResultColumn = node_expression n
       /\ obj_get (values sampleRow) (expression sampleResultColumn)
          = Some (evaluateAST n (inputContext sampleRow (columns sample))).
Proof.
  assert (H2 : In sampleRow (rows sample))
    by (right; right; right; left; reflexivity).
  assert (H3 : In sampleResultColumn (columns sample))
    by (right; right; left; reflexivity).
  split; [exact sample_accepted|]. split; [exact H2|]. split; [exact H3|].
  split; [reflexivity|].
  exact (derived_columns_roundtrip upperAscii (lit "P&Q") [varP; varQ]
           DEFAULT_SETTINGS sample sampleRow sampleResultColumn
           sample_accepted H2 H3 eq_refl).
Defined.

Lemma recalculateRow_fixed_witness :
  analyzeLogic upperAscii (lit "P&Q") [varP; varQ] DEFAULT_SETTINGS = inl sample
  /\ In sampleRow (rows sample)
  /\ recalculateRow sampleRow (columns sample) (ast sample) = sampleRow.
Proof.
  assert (H2 : In sampleRow (rows sample))
    by (right; right; right; left; reflexivity).
  split; [exact sample_accepted|]. split; [exact H2|].
  exact (recalculateRow_fixed upperAscii (lit "P&Q") [varP; varQ]
           DEFAULT_SETTINGS sample sampleRow sample_accepted H2).
Defined.

Lemma handleRowChange_unchanged_witness :
  analyzeLogic upperAscii (lit "P&Q") [varP; varQ] DEFAULT_SETTINGS = inl sample
  /\ In sampleRow (rows sample)
  /\ handleRowChange (Some sample) simplifySettings sampleRow columnP
     = Some sample.
Proof.
  assert (H2 : In sampleRow (rows sample))
    by (right; right; right; left; reflexivity).
  split; [exact sample_accepted|]. split; [exact H2|].
  exact (handleRowChange_unchanged upperAscii (lit "P&Q") [varP; varQ]
           DEFAULT_SETTINGS simplifySettings sample sampleRow columnP
           sample_accepted H2).
Defined.


Lemma matchOperator_longest_witness :
  matchOperator (lit "<->Q") = Some (lit "<->", ch_iff)
  /\ forall key' symbol', In (key', symbol') OPS ->
       startsWith (lit "<->Q") key' = true -> length key' <= 3.
Proof.
  assert (H : matchOperator (lit "<->Q") = Some (lit "<->", ch_iff))
    by reflexivity.
  split; [exact H|].
  exact (proj2 (proj2 (matchOperator_longest (lit "<->Q") (lit "<->") ch_iff H))).
Defined.


Lemma complexity_depth_witness :
  analyzeLogic upperAscii (lit "P&Q") [varP; varQ] DEFAULT_SETTINGS = inl sample
  /\ cx_depth (complexity sample) = node_depth (ast sample) + 1.
Proof.
  split; [exact sample_accepted|].
  exact (complexity_depth upperAscii (lit "P&Q") [varP; varQ]
           DEFAULT_SETTINGS sample sample_accepted).
Defined.

Lemma sample_kmap :
  generateKMap [varP; varQ] (rows sample) = Some sampleKMap.
Proof. vm_compute. reflexivity. Defined.

Lemma kmap_gray_adjacent_witness :
  generateKMap [varP; varQ] (rows sample) = Some sampleKMap
  /\ 1 < length (rowLabels sampleKMap) /\ 1 < length (colLabels sampleKMap)
  /\ oneBitApart (mintermIndex (cellAt (grid sampleKMap) 1 1))
       (mintermIndex
          (cellAt (grid sampleKMap) 1 ((1 + 1) mod length (colLabels sampleKMap)))).
Proof.
  assert (H2 : 1 < length (rowLabels sampleKMap)) by (cbn; lia).
  assert (H3 : 1 < length (colLabels sampleKMap)) by (cbn; lia).
  split; [exact sample_kmap|]. split; [exact H2|]. split; [exact H3|].
  exact (proj1 (kmap_gray_adjacent [varP; varQ] (rows sample) sampleKMap 1 1
                  sample_kmap H2 H3)).
Defined.

Lemma kmap_shows_formula_witness :
  analyzeLogic upperAscii (lit "P&Q") [varP; varQ] DEFAULT_SETTINGS = inl sample
  /\ kMapData sample = Some sampleKMap
  /\ NoDup [varP; varQ] /\ Forall variableName [varP; varQ]
  /\ ~ In (node_expression (ast sample)) [varP; varQ]
  /\ arrayIndex (node_expression (ast sample)) = None
  /\ 1 < length (rowLabels sampleKMap) /\ 1 < length (colLabels sampleKMap)
  /\ value (cellAt (grid sampleKMap) 1 1)
     = evaluateRawExpression upperAscii (lit "P&Q")
         (rowContext [varP; varQ]
            (N.to_nat (mintermIndex (cellAt (grid sampleKMap) 1 1)))).
Proof.
  assert (H2 : kMapData sample = Some sampleKMap) by exact sample_kmap.
  assert (H3 : NoDup [varP; varQ]).
  { constructor; [intros [E|[]]; discriminate E|].
    constructor; [intros []|constructor]. }
  assert (H4 : Forall variableName [varP; varQ]).
  { constructor; [exists 80%N; split; reflexivity|].
    constructor; [exists 81%N; split; reflexivity|constructor]. }
  assert (H5 : ~ In (node_expression (ast sample)) [varP; varQ])
    by (intros [E|[E|[]]]; discriminate E).
  assert (H6 : arrayIndex (node_expression (ast sample)) = None) by reflexivity.
  assert (H7 : 1 < length (rowLabels sampleKMap)) by (cbn; lia).
  assert (H8 : 1 < length (colLabels sampleKMap)) by (cbn; lia).
  split; [exact sample_accepted|]. split; [exact H2|]. split; [exact H3|].
  split; [exact H4|]. split; [exact H5|]. split; [exact H6|].
  split; [exact H7|]. split; [exact H8|].
  exact (kmap_shows_formula upperAscii (lit "P&Q") [varP; varQ]
           DEFAULT_SETTINGS sample sampleKMap 1 1
           sample_accepted H2 H3 H4 H5 H6 H7 H8).
Defined.

(** ** The keys of a row object *)

Lemma obj_get_none o k : obj_get o k = None <-> ~ In k (map fst o).
Proof.
  induction o as [|[k' v'] o IH]; simpl; [tauto|].
  destruct (str_eqb k k') eqn:E.
  - apply str_eqb_eq in E. split; [discriminate|]. intros H. exfalso. auto.
  - apply str_eqb_neq in E. rewrite IH. intuition congruence.
Qed.

Lemma obj_update_keys o k v : map fst (obj_update o k v) = map fst o.
Proof.
  induction o as [|[k' v'] o IH]; simpl; [reflexivity|].
  destruct (str_eqb k k'); simpl; [reflexivity|]. now rewrite IH.
Qed.

Lemma obj_set_keys_present o k v :
  obj_get o k <> None -> map fst (obj_set o k v) = map fst o.
Proof.
  intros H. unfold obj_set. destruct (obj_get o k); [|congruence].
  apply obj_update_keys.
Qed.

Lemma obj_insertIndex_keys o n k v :
  exists l1 l2, map fst o = l1 ++ l2
                /\ map fst (obj_insertIndex o n k v) = l1 ++ k :: l2.
Proof.
  induction o as [|[k' v'] o IH]; simpl.
  - now exists [], [].
  - destruct (arrayIndex k') as [n'|].
    + destruct (n' <? n)%N.
      * destruct IH as (l1 & l2 & E1 & E2).
        exists (k' :: l1), l2. simpl. now rewrite E1, E2.
      * now exists [], (k' :: map fst o).
    + now exists [], (k' :: map fst o).
Qed.

Lemma obj_set_nodup o k v : NoDup (map fst o) -> NoDup (map fst (obj_set o k v)).
Proof.
  intros H. unfold obj_set. destruct (obj_get o k) eqn:E.
  - now rewrite obj_update_keys.
  - apply obj_get_none in E. destruct (arrayIndex k) as [n|].
    + destruct (obj_insertIndex_keys o n k v) as (l1 & l2 & E1 & E2).
      rewrite E2. rewrite E1 in H, E.
      apply (NoDup_Add (Add_app k l1 l2)). split; assumption.
    + rewrite map_app. simpl. apply NoDup_app; [exact H|repeat constructor; auto|].
      intros x Hx [<-|[]]. contradiction.
Qed.

Lemma obj_ext o1 : forall o2,
  NoDup (map fst o1) -> map fst o1 = map fst o2 ->
  (forall k, obj_get o1 k = obj_get o2 k) -> o1 = o2.
Proof.
  induction o1 as [|[k v] o1 IH]; intros [|[k' v'] o2] Hnd Hk Hget;
    try discriminate; [reflexivity|].
  simpl in Hk. injection Hk as <- Hk.
  inversion Hnd as [|? ? Hni Hnd']; subst.
  pose proof (Hget k) as Hkk. simpl in Hkk. rewrite str_eqb_refl in Hkk.
  injection Hkk as <-. f_equal. apply IH; auto.
  intros q. destruct (str_eq_dec q k) as [->|Hne].
  - rewrite (proj2 (obj_get_none o1 k)) by assumption.
    symmetry. apply obj_get_none. now rewrite <- Hk.
  - specialize (Hget q). simpl in Hget.
    apply str_eqb_neq in Hne. now rewrite Hne in Hget.
Qed.

Section WriteKeys.

Variable upd : TableColumn -> option bool.

Lemma writeColumns_keys cols : forall o,
  (forall col, In col cols -> upd col <> None ->
               In (expression col) (map fst o)) ->
  map fst (fold_left (writeColumn upd) cols o) = map fst o.
Proof.
  induction cols as [|c cols IH]; intros o H; simpl; [reflexivity|].
  assert (Hc : map fst (writeColumn upd o c) = map fst o).
  { unfold writeColumn. destruct (upd c) eqn:E; [|reflexivity].
    apply obj_set_keys_present. rewrite obj_get_none.
    intros Hn. apply Hn, H; [now left|congruence]. }
  rewrite IH; [exact Hc|].
  intros col Hin Hu. rewrite Hc. apply H; [now right|exact Hu].
Qed.

Lemma writeColumns_nodup cols : forall o,
  NoDup (map fst o) -> NoDup (map fst (fold_left (writeColumn upd) cols o)).
Proof.
  induction cols as [|c cols IH]; intros o H; simpl; [exact H|].
  apply IH. unfold writeColumn. destruct (upd c); [|exact H].
  now apply obj_set_nodup.
Qed.

End WriteKeys.

(** ** Restoring a row *)

Lemma assigned_nowhere upd q cols :
  (forall col, In col cols -> upd col = None \/ expression col <> q) ->
  assigned upd q cols = None.
Proof.
  induction cols as [|c cols IH]; simpl; intros H; [reflexivity|].
  rewrite IH by auto.
  destruct (upd c) eqn:Eu; [|reflexivity].
  destruct (str_eqb q (expression c)) eqn:E; [|reflexivity].
  apply str_eqb_eq in E.
  destruct (H c (or_introl eq_refl)) as [Hn|Hn]; congruence.
Qed.

Lemma tableRow_nodup ast declared settings i :
  NoDup (map fst (values (tableRow ast declared settings i))).
Proof.
  unfold tableRow. cbn [values]. rewrite evaluateColumns_fold.
  apply writeColumns_nodup. constructor.
Qed.

(** [recalculateRow] restores a row of the table from any row object with
    the same keys, the same truth values of the declared variables and
    the same entries under the keys that are not derived columns. *)
Lemma recalculateRow_restores ast declared settings i w :
  wf_node ast -> NoDup (nodeIds ast) ->
  map fst (values w) = map fst (values (tableRow ast declared settings i)) ->
  (forall k, In k declared -> length k = 1 -> k <> [ch_one] -> k <> [ch_zero] ->
     truthy (obj_get (values w) k)
     = truthy (obj_get (values (tableRow ast declared settings i)) k)) ->
  (forall q,
     (forall col, In col (finalColumns ast declared settings) ->
                  isInput col = false -> expression col <> q) ->
     obj_get (values w) q
     = obj_get (values (tableRow ast declared settings i)) q) ->
  row_id w = i -> index w = i ->
  recalculateRow w (finalColumns ast declared settings) ast
  = tableRow ast declared settings i.
Proof.
  intros Hw Hnd Hkeys Hvars Hrest Hid Hidx.
  set (cols := finalColumns ast declared settings) in *.
  set (row := tableRow ast declared settings i) in *.
  set (ctx := rowContext declared (valIndexOf settings (2 ^ length declared) i)).
  assert (Hrow : forall col, In col cols -> isInput col = false ->
            exists n, subnode n ast
              /\ columnNode ast (extractSubExpressions ast []) col = Some n
              /\ obj_get (values row) (expression col)
                 = Some (evaluateAST n ctx)).
  { intros col Hc Hi.
    destruct (derived_column_value ast declared settings col ctx Hw Hnd Hc Hi)
      as (n & Hn & _ & _ & Hcn & Hv).
    exists n. auto. }
  assert (Hctx : forall n, subnode n ast ->
            evaluateAST n (inputContext w cols) = evaluateAST n ctx).
  { intros n Hn. apply evaluateAST_agree, agreeOn_keys.
    - exact (subnode_wf _ _ Hn Hw).
    - intros k Hlen H1 H0. unfold cols. rewrite inputContext_get.
      destruct (in_dec str_eq_dec k declared) as [Hin|Hni].
      + cbn [truthy]. rewrite Hvars by assumption.
        now apply tableRow_values_key.
      + unfold ctx. now rewrite (proj2 (rowContext_get declared _ k) Hni). }
  assert (Hvalues : values (recalculateRow w cols ast) = values row).
  { apply obj_ext.
    - rewrite recalculateRow_values, writeColumns_keys.
      + rewrite Hkeys. apply tableRow_nodup.
      + intros col Hc Hu. rewrite Hkeys.
        unfold recalcWrite in Hu. destruct (isInput col) eqn:Ei; [congruence|].
        destruct (Hrow col Hc Ei) as (n & _ & _ & Hv).
        destruct (in_dec str_eq_dec (expression col) (map fst (values row)))
          as [Hin|Hni]; [exact Hin|].
        apply obj_get_none in Hni. congruence.
    - rewrite recalculateRow_values, writeColumns_keys; [exact Hkeys|].
      intros col Hc Hu. rewrite Hkeys.
      unfold recalcWrite in Hu. destruct (isInput col) eqn:Ei; [congruence|].
      destruct (Hrow col Hc Ei) as (n & _ & _ & Hv).
      destruct (in_dec str_eq_dec (expression col) (map fst (values row)))
        as [Hin|Hni]; [exact Hin|].
      apply obj_get_none in Hni. congruence.
    - intros q. rewrite recalculateRow_values, obj_get_writeColumns.
      destruct (find (fun col => negb (isInput col)
                                 && str_eqb (expression col) q) cols)
        as [col|] eqn:Ef.
      + apply find_some in Ef as [Hc Hq].
        apply andb_true_iff in Hq as [Hi Hq].
        apply negb_true_iff in Hi. apply str_eqb_eq in Hq. subst q.
        destruct (Hrow col Hc Hi) as (n & Hn & Hcn & Hv).
        rewrite (last_writer _ ast declared settings col
                   (evaluateAST n (inputContext w cols)) Hc Hi).
        * rewrite Hv. f_equal. now apply Hctx.
        * unfold recalcWrite. now rewrite Hi, Hcn.
      + assert (Hno : forall col, In col cols -> isInput col = false ->
                                  expression col <> q).
        { intros col Hc Hi E.
          apply (find_none _ _ Ef) in Hc.
          rewrite Hi, E, str_eqb_refl in Hc. discriminate. }
        rewrite assigned_nowhere; [now apply Hrest|].
        intros col Hc. unfold recalcWrite.
        destruct (isInput col) eqn:Ei; [now left|right; now apply Hno]. }
  destruct w as [wid wvals widx].
  unfold recalculateRow in *. cbn [row_id index values] in *.
  rewrite Hvalues. subst wid widx. reflexivity.
Qed.

Lemma tableRow_declared_present ast declared settings i k :
  In k declared ->
  obj_get (values (tableRow ast declared settings i)) k <> None.
Proof.
  intros Hin. unfold tableRow. cbn [values].
  rewrite evaluateColumns_fold, obj_get_writeColumns.
  set (upd := tableWrite _ _ _).
  destruct (assigned upd k (finalColumns ast declared settings)) eqn:E;
    [discriminate|].
  exfalso.
  pose proof (assigned_none _ _ _ E
                {| col_id := VarColumnId k; label := k; expression := k;
                   isInput := true; isOutput := false; astId := None;
                   dependencyIds := None |}) as Hnone.
  assert (Hcol : In {| col_id := VarColumnId k; label := k; expression := k;
                       isInput := true; isOutput := false; astId := None;
                       dependencyIds := None |}
                   (finalColumns ast declared settings)).
  { destruct (finalColumns_parts ast declared settings) as (mid & -> & _).
    apply in_app_iff. left. unfold varColumns. apply in_map_iff. eauto. }
  specialize (Hnone Hcol eq_refl). discriminate Hnone.
Qed.

Lemma recalculateRow_keys ast declared settings i w :
  wf_node ast -> NoDup (nodeIds ast) ->
  map fst (values w) = map fst (values (tableRow ast declared settings i)) ->
  map fst (values (recalculateRow w (finalColumns ast declared settings) ast))
  = map fst (values w).
Proof.
  intros Hw Hnd Hkeys.
  rewrite recalculateRow_values. apply writeColumns_keys.
  intros col Hc Hu. rewrite Hkeys.
  unfold recalcWrite in Hu. destruct (isInput col) eqn:Ei; [congruence|].
  destruct (derived_column_value ast declared settings col
              (rowContext declared (valIndexOf settings (2 ^ length declared) i))
              Hw Hnd Hc Ei) as (n & _ & _ & _ & _ & Hv).
  destruct (in_dec str_eq_dec (expression col)
              (map fst (values (tableRow ast declared settings i))))
    as [Hin|Hni]; [exact Hin|].
  apply obj_get_none in Hni. unfold tableRow in Hni. cbn [values] in Hni.
  congruence.
Qed.

Lemma upper_letter_variable ch :
  isUpperLetter ch = true -> [ch] <> [ch_one] /\ [ch] <> [ch_zero].
Proof.
  intros Hc. unfold isUpperLetter in Hc.
  apply andb_true_iff in Hc as [Hc1 Hc2]. apply N.leb_le in Hc1, Hc2.
  split; intros E; injection E as ->; vm_compute in Hc1; congruence.
Qed.

(** A second click on the same input cell undoes the first. *)
Lemma double_click_row ast declared settings i ch :
  wf_node ast -> NoDup (nodeIds ast) ->
  In [ch] declared -> isUpperLetter ch = true ->
  let cols := finalColumns ast declared settings in
  let row := tableRow ast declared settings i in
  let click := fun r =>
    recalculateRow
      {| row_id := row_id r;
         values := obj_set (values r) [ch] (negb (rowValue [ch] r));
         index := index r |} cols ast in
  click (click row) = row.
Proof.
  intros Hw Hnd Hdecl Hch cols row click.
  destruct (upper_letter_variable ch Hch) as [Hne1 Hne0].
  set (u := {| row_id := row_id row;
               values := obj_set (values row) [ch] (negb (rowValue [ch] row));
               index := index row |}).
  set (r1 := recalculateRow u cols ast).
  assert (Hpresent : obj_get (values row) [ch] <> None)
    by now apply tableRow_declared_present.
  assert (Hku : map fst (values u) = map fst (values row))
    by (unfold u; cbn [values]; now apply obj_set_keys_present).
  assert (Hk1 : map fst (values r1) = map fst (values row)).
  { unfold r1, cols. rewrite (recalculateRow_keys ast declared settings i u);
      auto. }
  assert (Hflip : rowValue [ch] r1 = negb (rowValue [ch] row)).
  { unfold rowValue at 1. unfold r1, cols.
    rewrite recalculateRow_variable; auto.
    unfold u. cbn [values]. now rewrite obj_get_set_same. }
  assert (Hvar1 : forall k, In k declared -> length k = 1 ->
            k <> [ch_one] -> k <> [ch_zero] ->
            truthy (obj_get (values r1) k) = truthy (obj_get (values u) k)).
  { intros k Hk Hlen H1 H0. unfold r1, cols.
    now apply recalculateRow_variable. }
  assert (Hrest1 : forall q,
            (forall col, In col cols -> isInput col = false ->
                         expression col <> q) ->
            obj_get (values r1) q = obj_get (values u) q).
  { intros q Hq. unfold r1.
    rewrite recalculateRow_values, obj_get_writeColumns.
    rewrite assigned_nowhere; [reflexivity|].
    intros col Hc. unfold recalcWrite.
    destruct (isInput col) eqn:Ei; [now left|right; now apply Hq]. }
  assert (Hu : forall q, obj_get (values u) q
                         = if str_eqb q [ch]
                           then Some (negb (rowValue [ch] row))
                           else obj_get (values row) q).
  { intros q. unfold u. cbn [values]. apply obj_get_set. }
  assert (Hid1 : row_id r1 = i) by reflexivity.
  assert (Hidx1 : index r1 = i) by reflexivity.
  change (recalculateRow
            {| row_id := row_id r1;
               values := obj_set (values r1) [ch] (negb (rowValue [ch] r1));
               index := index r1 |} cols ast = row).
  clearbody r1. clearbody u.
  rewrite Hid1, Hidx1.
  apply (recalculateRow_restores ast declared settings i); auto;
    cbn [values row_id index]; fold row.
  - rewrite obj_set_keys_present; [exact Hk1|].
    intros Hn. apply obj_get_none in Hn. rewrite Hk1 in Hn.
    apply Hpresent. now apply obj_get_none.
  - intros k Hk Hlen H1 H0. rewrite Hflip, negb_involutive.
    destruct (str_eq_dec k [ch]) as [->|Hne].
    + now rewrite obj_get_set_same.
    + rewrite obj_get_set_other by congruence.
      rewrite Hvar1, Hu by assumption.
      apply str_eqb_neq in Hne. now rewrite Hne.
  - intros q Hq. rewrite Hflip, negb_involutive.
    destruct (str_eq_dec q [ch]) as [->|Hne].
    + rewrite obj_get_set_same. unfold rowValue.
      destruct (obj_get (values row) [ch]); [reflexivity|congruence].
    + rewrite obj_get_set_other by congruence.
      rewrite Hrest1, Hu by assumption.
      apply str_eqb_neq in Hne. now rewrite Hne.
Qed.

Lemma tableRows_ids ast declared settings r r' :
  In r (tableRows ast declared settings) ->
  In r' (tableRows ast declared settings) ->
  row_id r = row_id r' -> r = r'.
Proof.
  unfold tableRows. intros Hr Hr' Hid.
  apply in_map_iff in Hr as (i & <- & _).
  apply in_map_iff in Hr' as (j & <- & _).
  cbn [row_id tableRow] in Hid. now subst.
Qed.

(** X22: a second click on the same input cell undoes the first.  In the
    table of an accepted analysis, a click on the cell of a variable (an
    upper-case letter) in a row gives a new analysis, and the same click
    on the row that has taken its place there gives back the analysis as
    it was before the two clicks. *)
Theorem double_click_restores up expr declared settings res row col ch :
  analyzeLogic up expr declared settings = inl res ->
  In row (rows res) -> In col (columns res) -> isInput col = true ->
  expression col = [ch] -> isUpperLetter ch = true ->
  exists res1,
    handleCellClick (handleRowChange (Some res) settings) row col = Some res1
    /\ forall row1, In row1 (rows res1) -> row_id row1 = row_id row ->
         handleCellClick (handleRowChange (Some res1) settings) row1 col
         = Some res.
Proof.
  intros H Hrow Hcol Hinput Hexpr Hch.
  apply analyzeLogic_inl in H as (a & Hparse & _ & ->).
  pose proof (parse_tokenize_wf _ _ _ Hparse) as Hw.
  pose proof (parse_tokenize_nodup _ _ _ Hparse) as Hnd.
  assert (Hdecl : In [ch] declared).
  { unfold analysisOf in Hcol. cbn [columns] in Hcol.
    destruct (finalColumns_parts a declared settings) as (mid & E & _ & Hmid & _).
    rewrite E in Hcol. rewrite !in_app_iff in Hcol.
    destruct Hcol as [Hc|[Hc|[<-|[]]]].
    - apply varColumns_in in Hc as [_ Hc]. now rewrite Hexpr in Hc.
    - destruct (Hmid col Hc) as (Hi & _). congruence.
    - discriminate. }
  set (res := analysisOf a declared settings) in *.
  set (cols := finalColumns a declared settings).
  set (click := fun r =>
         recalculateRow
           {| row_id := row_id r;
              values := obj_set (values r) [ch] (negb (rowValue [ch] r));
              index := index r |} cols a).
  assert (Hclick : forall (current : AnalysisResult) r,
            ast current = a -> columns current = cols ->
            handleCellClick (handleRowChange (Some current) settings) r col
            = Some (reanalyzeFromRows current
                      (map (fun x => if row_id x =? row_id r then click r else x)
                         (rows current))
                      settings)).
  { intros current r Ha Hc. unfold handleCellClick, handleRowChange.
    rewrite Hinput, Hexpr, Ha, Hc. reflexivity. }
  assert (Hrow' : exists i, row = tableRow a declared settings i).
  { unfold res, analysisOf in Hrow. cbn [rows] in Hrow. unfold tableRows in Hrow.
    apply in_map_iff in Hrow as (i & <- & _). eauto. }
  destruct Hrow' as (i & Ei).
  assert (Hback : click (click row) = row).
  { rewrite Ei. apply (double_click_row a declared settings i ch); auto. }
  eexists. split; [apply Hclick; reflexivity|].
  cbn [rows reanalyzeFromRows].
  intros row1 Hrow1 Hid1.
  assert (E1 : row1 = click row).
  { apply in_map_iff in Hrow1 as (r & Er & Hr).
    destruct (row_id r =? row_id row) eqn:E; [now symmetry|].
    subst row1. apply Nat.eqb_neq in E. contradiction. }
  subst row1.
  rewrite Hclick by reflexivity. f_equal.
  cbn [rows reanalyzeFromRows]. rewrite map_map, Hback.
  assert (Hrows : map (fun x =>
                    if row_id (if row_id x =? row_id row then click row else x)
                       =? row_id (click row)
                    then row
                    else if row_id x =? row_id row then click row else x)
                    (rows res) = rows res).
  { rewrite <- (map_id (rows res)) at 2.
    apply map_ext_in. intros r Hr.
    change (row_id (click row)) with (row_id row).
    destruct (row_id r =? row_id row) eqn:E.
    - change (row_id (click row)) with (row_id row).
      rewrite Nat.eqb_refl. symmetry.
      apply Nat.eqb_eq in E.
      now apply (tableRows_ids a declared settings).
    - now rewrite E. }
  rewrite Hrows. reflexivity.
Qed.

(** ** The row order *)

Lemma finalColumns_settings a declared s1 s2 :
  negationHandling (logic s1) = negationHandling (logic s2) ->
  table s1 = table s2 ->
  finalColumns a declared s1 = finalColumns a declared s2.
Proof.
  intros Hneg Htable.
  assert (Hlabel : forall e, formatLabel e s1 = formatLabel e s2).
  { intros e. unfold formatLabel. now rewrite Hneg. }
  unfold finalColumns, resultColumn, stepColumns. rewrite Htable, Hlabel.
  destruct (showSubExpressions (table s2)); [|reflexivity].
  do 2 f_equal. apply map_ext. intros n. now rewrite Hlabel.
Qed.

Lemma rev_map_seq {A : Type} (f : nat -> A) n :
  rev (map f (seq 0 n)) = map (fun i => f (n - 1 - i)) (seq 0 n).
Proof.
  induction n as [|n IH]; [reflexivity|].
  replace (rev (map f (seq 0 (S n))))
    with (f n :: rev (map f (seq 0 n))).
  - rewrite IH. cbn [seq map]. f_equal; [f_equal; lia|].
    rewrite <- seq_shift, map_map. apply map_ext_in.
    intros i Hi. apply in_seq in Hi. f_equal. lia.
  - rewrite seq_S, map_app, rev_app_distr. reflexivity.
Qed.

(** The rows of the other order: the same value objects, last first. *)
Lemma tableRows_reversed a declared s1 s2 :
  negationHandling (logic s1) = negationHandling (logic s2) ->
  table s1 = table s2 ->
  rowOrder (logic s1) <> rowOrder (logic s2) ->
  map values (tableRows a declared s2)
  = rev (map values (tableRows a declared s1)).
Proof.
  intros Hneg Htable Horder. unfold tableRows. rewrite !map_map.
  rewrite rev_map_seq. apply map_ext_in. intros i Hi. apply in_seq in Hi.
  unfold tableRow. cbn [values].
  rewrite (finalColumns_settings a declared s1 s2 Hneg Htable).
  do 2 f_equal. unfold valIndexOf.
  destruct (rowOrder (logic s1)), (rowOrder (logic s2));
    try congruence; lia.
Qed.

Lemma forallb_rev {A : Type} (f : A -> bool) l :
  forallb f (rev l) = forallb f l.
Proof.
  induction l as [|x l IH]; [reflexivity|].
  cbn [rev forallb]. rewrite forallb_app, IH. cbn [forallb].
  rewrite andb_true_r. apply andb_comm.
Qed.

Lemma forallb_values (f : JSObject -> bool) rows :
  forallb (fun row => f (values row)) rows = forallb f (map values rows).
Proof. induction rows as [|r rows IH]; simpl; congruence. Qed.

Lemma scanFlags_reversed e rows1 rows2 :
  map values rows2 = rev (map values rows1) ->
  scanFlags e rows2 = scanFlags e rows1.
Proof.
  intros H. unfold scanFlags. rewrite !scanFlags_fold. cbn [andb].
  unfold rowValue.
  rewrite (forallb_values (fun o => truthy (obj_get o e)) rows2),
    (forallb_values (fun o => truthy (obj_get o e)) rows1),
    (forallb_values (fun o => negb (truthy (obj_get o e))) rows2),
    (forallb_values (fun o => negb (truthy (obj_get o e))) rows1).
  now rewrite H, !forallb_rev.
Qed.

(** ** The minterm map of a table *)

Lemma mintermMap_lookup ast declared settings m :
  wf_node ast -> NoDup declared -> Forall variableName declared ->
  2 <= length declared <= 4 ->
  (m < 2 ^ N.of_nat (length declared))%N ->
  mintermLookup
    (fold_left
       (fun acc row => (rowMinterm declared row, lastValue row) :: acc)
       (tableRows ast declared settings) [])
    m
  = Some (last (obj_values
                  (evaluateColumns ast (extractSubExpressions ast [])
                     (finalColumns ast declared settings)
                     (rowContext declared (N.to_nat m))))
            false).
Proof.
  intros Hw Hnd Hnames Hlen Hbound.
  assert (Hm : N.to_nat m < 2 ^ length declared).
  { rewrite <- (Nat2N.id (2 ^ length declared)), Nat2N.inj_pow.
    change (N.of_nat 2) with 2%N. lia. }
  rewrite mintermMap_rev, app_nil_r.
  apply (mintermLookup_keyed
           (fun key =>
              last (obj_values
                      (evaluateColumns ast (extractSubExpressions ast [])
                         (finalColumns ast declared settings)
                         (rowContext declared (N.to_nat key))))
                false)).
  - intros kv Hin.
    apply in_rev, in_map_iff in Hin as (row & <- & Hrow).
    cbn [fst snd]. unfold tableRows in Hrow.
    apply in_map_iff in Hrow as (i & <- & Hi). apply in_seq in Hi.
    rewrite rowMinterm_tableRow by (auto; lia).
    now rewrite Nat2N.id.
  - destruct (valIndexOf_onto settings (length declared) (N.to_nat m) Hm)
      as (i & Hi & Hvi).
    exists (rowMinterm declared (tableRow ast declared settings i),
            lastValue (tableRow ast declared settings i)).
    split.
    + apply -> in_rev.
      apply (in_map (fun row => (rowMinterm declared row, lastValue row))).
      unfold tableRows. apply in_map, in_seq. lia.
    + cbn [fst]. rewrite rowMinterm_tableRow by (auto; lia).
      rewrite Hvi. apply N2Nat.id.
Qed.

Lemma grayCode_bound n rbits cbits :
  2 <= n <= 4 ->
  In rbits (getGrayCode (if n =? 4 then 2 else 1)) ->
  In cbits (getGrayCode (if n =? 2 then 1 else 2)) ->
  (parseBinary (rbits ++ cbits) < 2 ^ N.of_nat n)%N.
Proof.
  intros Hn.
  assert (Hcases : n = 2 \/ n = 3 \/ n = 4) by lia.
  destruct Hcases as [->|[->| ->]]; cbn [getGrayCode Nat.eqb In];
    intros Hr Hc;
    repeat (destruct Hr as [<-|Hr]; [|try contradiction]);
    repeat (destruct Hc as [<-|Hc]; [|try contradiction]);
    vm_compute; reflexivity.
Qed.

Lemma buildGrid_ext n mm1 mm2 :
  2 <= n <= 4 ->
  (forall m, (m < 2 ^ N.of_nat n)%N -> mintermLookup mm1 m = mintermLookup mm2 m) ->
  buildGrid (getGrayCode (if n =? 4 then 2 else 1))
    (getGrayCode (if n =? 2 then 1 else 2)) mm1
  = buildGrid (getGrayCode (if n =? 4 then 2 else 1))
      (getGrayCode (if n =? 2 then 1 else 2)) mm2.
Proof.
  intros Hn H. unfold buildGrid.
  apply map_ext_in. intros rbits Hr. apply map_ext_in. intros cbits Hc.
  cbv zeta. f_equal. f_equal. apply H. now apply (grayCode_bound n).
Qed.

Lemma onMinterms_empty variables rows :
  fold_left
    (fun acc row =>
       if lastValue row then set_add (rowMinterm variables row) acc else acc)
    rows []
  = []
  <-> forallb (fun row => negb (lastValue row)) rows = true.
Proof.
  assert (Hkeep : forall rows acc, acc <> [] ->
            fold_left
              (fun acc row =>
                 if lastValue row then set_add (rowMinterm variables row) acc
                 else acc) rows acc <> []).
  { intros rs. induction rs as [|r rs IH]; intros acc Hacc; [exact Hacc|].
    cbn [fold_left]. apply IH. destruct (lastValue r); [|exact Hacc].
    unfold set_add. destruct (existsb _ acc); [exact Hacc|].
    now destruct acc. }
  induction rows as [|r rows IH]; [now split|].
  cbn [fold_left forallb]. destruct (lastValue r) eqn:E; cbn [negb andb].
  - split; [|discriminate]. intros H. exfalso. revert H. apply Hkeep.
    discriminate.
  - exact IH.
Qed.

Lemma generateKMap_ext variables rows1 rows2 :
  (forall m, (m < 2 ^ N.of_nat (length variables))%N ->
     mintermLookup
       (fold_left
          (fun acc row => (rowMinterm variables row, lastValue row) :: acc)
          rows1 []) m
     = mintermLookup
         (fold_left
            (fun acc row => (rowMinterm variables row, lastValue row) :: acc)
            rows2 []) m) ->
  forallb (fun row => negb (lastValue row)) rows1
  = forallb (fun row => negb (lastValue row)) rows2 ->
  generateKMap variables rows1 = generateKMap variables rows2.
Proof.
  intros Hlookup Hon. unfold generateKMap.
  destruct ((length variables <? 2) || (4 <? length variables)) eqn:Econd;
    [reflexivity|].
  apply orb_false_iff in Econd as [E2 E4].
  apply Nat.ltb_ge in E2, E4.
  assert (Hn : 2 <= length variables <= 4) by lia.
  pose proof (buildGrid_ext (length variables) _ _ Hn Hlookup) as Hgrid.
  pose proof (onMinterms_empty variables rows1) as H1.
  pose proof (onMinterms_empty variables rows2) as H2.
  rewrite <- Hon in H2.
  cbv zeta.
  set (on1 := fold_left
                (fun acc row =>
                   if lastValue row then set_add (rowMinterm variables row) acc
                   else acc) rows1 []) in *.
  set (on2 := fold_left
                (fun acc row =>
                   if lastValue row then set_add (rowMinterm variables row) acc
                   else acc) rows2 []) in *.
  set (mm1 := fold_left
                (fun acc row => (rowMinterm variables row, lastValue row) :: acc)
                rows1 []) in *.
  set (mm2 := fold_left
                (fun acc row => (rowMinterm variables row, lastValue row) :: acc)
                rows2 []) in *.
  assert (Hfallback : match on1 with [] => lit "0" | _ => lit "1" end
                      = match on2 with [] => lit "0" | _ => lit "1" end).
  { destruct on1 as [|x on1], on2 as [|y on2]; try reflexivity.
    - exfalso. assert (H : y :: on2 = []) by (apply H2, H1; reflexivity).
      discriminate.
    - exfalso. assert (H : x :: on1 = []) by (apply H1, H2; reflexivity).
      discriminate. }
  clearbody on1 on2 mm1 mm2.
  destruct variables as [|a [|b [|c [|d [|e rest]]]]]; cbn [length] in *;
    try lia;
    cbn [Nat.eqb length nth firstn skipn] in *;
    rewrite Hgrid; unfold solveKMap; cbv zeta; cbn [fst snd];
    now rewrite Hfallback.
Qed.

(** X23: the row order only reorders.  Two settings that differ in the
    row order (and possibly in the truth-value style) give analyses with
    the same columns, the same value objects in the opposite order under
    the same row identifiers, the same classification and, for pairwise
    distinct upper-case letters as variables, the same Karnaugh map. *)
Theorem rowOrder_only_reorders up expr declared s1 s2 res1 :
  analyzeLogic up expr declared s1 = inl res1 ->
  negationHandling (logic s1) = negationHandling (logic s2) ->
  table s1 = table s2 ->
  rowOrder (logic s1) <> rowOrder (logic s2) ->
  exists res2,
    analyzeLogic up expr declared s2 = inl res2
    /\ columns res2 = columns res1
    /\ map row_id (rows res2) = map row_id (rows res1)
    /\ map values (rows res2) = rev (map values (rows res1))
    /\ classification res2 = classification res1
    /\ (NoDup declared -> Forall variableName declared ->
        kMapData res2 = kMapData res1).
Proof.
  intros H Hneg Htable Horder.
  pose proof H as H'.
  apply analyzeLogic_inl in H' as (a & Hparse & Hund & ->).
  pose proof (parse_tokenize_wf _ _ _ Hparse) as Hw.
  exists (analysisOf a declared s2).
  assert (Hcols : finalColumns a declared s2 = finalColumns a declared s1)
    by (symmetry; now apply finalColumns_settings).
  pose proof (tableRows_reversed a declared s1 s2 Hneg Htable Horder) as Hrev.
  split; [|split; [|split; [|split; [|split]]]].
  - unfold analyzeLogic in *. rewrite Hparse in *.
    destruct (undeclaredVariables up expr declared); [reflexivity|discriminate].
  - exact Hcols.
  - cbn [rows analysisOf]. unfold tableRows. rewrite !map_map. reflexivity.
  - exact Hrev.
  - cbn [classification analysisOf].
    now rewrite (scanFlags_reversed (node_expression a) _ _ Hrev).
  - intros Hnd Hnames. cbn [kMapData analysisOf].
    destruct ((length declared <? 2) || (4 <? length declared)) eqn:Econd.
    { unfold generateKMap. now rewrite Econd. }
    apply orb_false_iff in Econd as [E2 E4].
    apply Nat.ltb_ge in E2, E4.
    apply generateKMap_ext.
    + intros m Hm.
      rewrite !mintermMap_lookup by (auto; lia). now rewrite Hcols.
    + unfold lastValue.
      rewrite (forallb_values
                 (fun o => negb (last (obj_values o) false))
                 (tableRows a declared s2)),
        (forallb_values
           (fun o => negb (last (obj_values o) false))
           (tableRows a declared s1)).
      now rewrite Hrev, forallb_rev.
Qed.

(** ** The map of a bare variable or constant *)

Lemma variableName_plain v :
  variableName v -> length v = 1 /\ arrayIndex v = None
                    /\ v <> [ch_one] /\ v <> [ch_zero].
Proof.
  intros (ch & -> & Hch). unfold isUpperLetter in Hch.
  apply andb_true_iff in Hch as [H1 H2]. apply N.leb_le in H1, H2.
  split; [reflexivity|]. split.
  - unfold arrayIndex. cbn [forallb]. unfold isDigit.
    replace ((48 <=? ch)%N && (ch <=? 57)%N) with false; [reflexivity|].
    symmetry. apply andb_false_iff. right. apply N.leb_gt.
    lia.
  - split; intros E; injection E as ->; now vm_compute in H1.
Qed.

(** The input columns write the declared variables in their order. *)
Lemma varColumns_written (upd : TableColumn -> option bool) (g : jsstring -> bool)
  declared :
  (forall col, isInput col = true -> upd col = Some (g (expression col))) ->
  NoDup declared -> Forall variableName declared ->
  forall o, (forall v, In v declared -> obj_get o v = None) ->
    fold_left (writeColumn upd) (varColumns declared) o
    = o ++ map (fun v => (v, g v)) declared.
Proof.
  intros Hupd Hnd Hnames.
  induction declared as [|v declared IH]; intros o Hfresh;
    cbn [varColumns map fold_left]; [now rewrite app_nil_r|].
  inversion Hnd as [|? ? Hv Hnd']; subst.
  inversion Hnames as [|? ? Hname Hnames']; subst.
  destruct (variableName_plain v Hname) as (_ & Hidx & _).
  unfold writeColumn at 2. rewrite Hupd by reflexivity. cbn [expression].
  unfold obj_set. rewrite (Hfresh v (or_introl eq_refl)), Hidx.
  fold (varColumns declared). rewrite IH; auto.
  - now rewrite <- app_assoc.
  - intros w Hw. rewrite obj_get_app.
    rewrite (Hfresh w (or_intror Hw)). cbn [obj_get].
    destruct (str_eqb w v) eqn:E; [|reflexivity].
    apply str_eqb_eq in E. subst w. contradiction.
Qed.

Lemma last_map_pairs (g : jsstring -> bool) declared :
  declared <> [] ->
  last (map snd (map (fun v => (v, g v)) declared)) false
  = g (last declared []).
Proof.
  induction declared as [|v declared IH]; intros Hne; [congruence|].
  destruct declared as [|w declared]; [reflexivity|].
  change (last (map snd (map (fun v => (v, g v)) (w :: declared))) false
          = g (last (w :: declared) [])).
  apply IH. discriminate.
Qed.

Lemma bareColumns v e id d declared settings :
  finalColumns (VarNode id v e d) declared settings
  = varColumns declared ++ [resultColumn (VarNode id v e d) settings].
Proof.
  unfold finalColumns.
  destruct (showSubExpressions (table settings)); reflexivity.
Qed.

(** The last property of a row whose formula is one code unit that is a
    declared variable or an array index: the last declared variable. *)
Lemma bareRow_lastValue ast declared settings context :
  wf_node ast -> NoDup declared -> Forall variableName declared ->
  declared <> [] ->
  length (node_expression ast) = 1 ->
  In (node_expression ast) declared \/ arrayIndex (node_expression ast) <> None ->
  last (obj_values
          (evaluateColumns ast (extractSubExpressions ast [])
             (finalColumns ast declared settings) context))
    false
  = truthy (obj_get context (last declared [])).
Proof.
  intros Hw Hnd Hnames Hne Hlen Hcase.
  destruct ast as [id v e d|id o e d|id op l r e d]; cbn [node_expression] in *;
    [|cbn [wf_node] in Hw; lia|cbn [wf_node] in Hw; lia].
  destruct Hw as (_ & _ & Hev). specialize (Hev Hlen). subst v.
  set (ast := VarNode id e e d).
  rewrite evaluateColumns_fold. unfold ast at 3. rewrite bareColumns.
  fold ast. rewrite fold_left_app. cbn [fold_left].
  set (upd := tableWrite ast (extractSubExpressions ast []) context).
  rewrite (varColumns_written upd (fun v => truthy (obj_get context v)));
    auto; [|intros col Hcol; unfold upd, tableWrite; now rewrite Hcol].
  cbn [app].
  set (O := map (fun v => (v, truthy (obj_get context v))) declared).
  assert (Hres : upd (resultColumn ast settings)
                 = Some (evaluateAST ast context)).
  { unfold upd, tableWrite. cbn [isInput isOutput resultColumn].
    destruct (find _ _) as [n|] eqn:E; [|reflexivity].
    cbn in E. rewrite Nat.eqb_refl in E. now injection E as <-. }
  unfold writeColumn. rewrite Hres. cbn [expression resultColumn node_expression ast].
  fold ast.
  assert (HO : forall k, obj_get O k
                         = if existsb (str_eqb k) declared
                           then Some (truthy (obj_get context k)) else None).
  { intros k. unfold O. clear. induction declared as [|w declared IH];
      [reflexivity|].
    cbn [map obj_get existsb]. destruct (str_eqb k w) eqn:E; [|exact IH].
    apply str_eqb_eq in E. now subst. }
  destruct Hcase as [Hin|Hidx].
  - rewrite Forall_forall in Hnames.
    destruct (variableName_plain e (Hnames e Hin)) as (_ & _ & H1 & H0).
    assert (Hval : evaluateAST ast context = truthy (obj_get context e)).
    { unfold ast. cbn [evaluateAST].
      destruct (str_eqb e [ch_one]) eqn:E1;
        [apply str_eqb_eq in E1; contradiction|].
      destruct (str_eqb e [ch_zero]) eqn:E0;
        [apply str_eqb_eq in E0; contradiction|].
      reflexivity. }
    assert (Hget : obj_get O e = Some (truthy (obj_get context e))).
    { rewrite HO.
      replace (existsb (str_eqb e) declared) with true; [reflexivity|].
      symmetry. apply existsb_exists. exists e. split; [exact Hin|].
      apply str_eqb_refl. }
    rewrite Hval, (obj_set_same O e _ Hget).
    unfold obj_values, O. now apply last_map_pairs.
  - assert (Hnot : ~ In e declared).
    { intros Hin. rewrite Forall_forall in Hnames.
      now destruct (variableName_plain e (Hnames e Hin)) as (_ & H & _). }
    assert (Hget : obj_get O e = None).
    { rewrite HO.
      replace (existsb (str_eqb e) declared) with false; [reflexivity|].
      symmetry. apply not_true_is_false. intros H.
      apply existsb_exists in H as (w & Hw & E).
      apply str_eqb_eq in E. now subst. }
    unfold obj_set. rewrite Hget.
    destruct (arrayIndex e) as [n|]; [|congruence].
    destruct declared as [|w declared]; [congruence|].
    inversion Hnames as [|? ? Hname _]; subst.
    destruct (variableName_plain w Hname) as (_ & Hw & _).
    unfold O at 1. cbn [map obj_insertIndex]. rewrite Hw.
    unfold obj_values. cbn [map snd].
    change (last (evaluateAST ast context
                  :: map snd (map (fun v => (v, truthy (obj_get context v)))
                                (w :: declared))) false
            = truthy (obj_get context (last (w :: declared) []))).
    rewrite <- (last_map_pairs (fun v => truthy (obj_get context v)) (w :: declared))
      by discriminate.
    reflexivity.
Qed.

Lemma generateKMap_labels variables rows k :
  generateKMap variables rows = Some k ->
  rowLabels k = getGrayCode (if length variables =? 4 then 2 else 1)
  /\ colLabels k = getGrayCode (if length variables =? 2 then 1 else 2).
Proof.
  intros Hk. destruct (generateKMap_grid _ _ _ Hk) as [Hlen _].
  unfold generateKMap in Hk.
  destruct ((length variables <? 2) || (4 <? length variables));
    [discriminate|].
  cbv zeta in Hk.
  match type of Hk with
  | (let (_, _) := solveKMap (buildGrid ?rg ?cg ?mm) ?on ?rv ?cv _ _ in _)
    = _ =>
      destruct (solveKMap (buildGrid rg cg mm) on rv cv rg cg)
        as [grps mexpr];
      injection Hk as <-; cbv beta iota delta [rowLabels colLabels]
  end.
  destruct variables as [|a [|b [|c [|d [|e rest]]]]]; cbn [length] in *;
    try lia; split; reflexivity.
Qed.

(** The value of a cell of the map of a table: the last property of the
    row whose assignment the minterm index spells. *)
Lemma kmap_cell_lastValue ast declared settings k r c :
  wf_node ast -> NoDup declared -> Forall variableName declared ->
  generateKMap declared (tableRows ast declared settings) = Some k ->
  r < length (rowLabels k) -> c < length (colLabels k) ->
  value (cellAt (grid k) r c)
  = last (obj_values
            (evaluateColumns ast (extractSubExpressions ast [])
               (finalColumns ast declared settings)
               (rowContext declared
                  (N.to_nat (mintermIndex (cellAt (grid k) r c))))))
      false.
Proof.
  intros Hw Hnd Hnames Hk Hr Hc.
  destruct (generateKMap_grid _ _ _ Hk) as [Hlen Hgrid].
  destruct (generateKMap_labels _ _ _ Hk) as [Hrl Hcl].
  rewrite Hrl in Hr. rewrite Hcl in Hc. rewrite Hgrid.
  set (mm := fold_left
               (fun acc row => (rowMinterm declared row, lastValue row) :: acc)
               (tableRows ast declared settings) []).
  pose proof (layout_minterm_bound (length declared) _ _ mm r c Hlen
                eq_refl eq_refl Hr Hc) as Hbound.
  rewrite buildGrid_cell in * by assumption.
  cbn [value mintermIndex] in *.
  unfold mm. now rewrite mintermMap_lookup by auto.
Qed.

(** X5: over declared variables that are pairwise distinct upper-case
    letters, when the expression string of the formula is one code unit
    that is a declared variable or an array index (a bare variable, or
    the constant 0 or 1), every cell of the Karnaugh map of the accepted
    analysis holds the value of the last declared variable under the
    cell's assignment, whatever the formula is. *)
Theorem kmap_bare_variable up expr declared settings res k r c :
  analyzeLogic up expr declared settings = inl res ->
  kMapData res = Some k ->
  NoDup declared -> Forall variableName declared ->
  length (node_expression (ast res)) = 1 ->
  In (node_expression (ast res)) declared
  \/ arrayIndex (node_expression (ast res)) <> None ->
  r < length (rowLabels k) -> c < length (colLabels k) ->
  value (cellAt (grid k) r c)
  = truthy (obj_get
              (rowContext declared
                 (N.to_nat (mintermIndex (cellAt (grid k) r c))))
              (last declared [])).
Proof.
  intros H Hk Hnd Hnames Hlen Hcase Hr Hc.
  apply analyzeLogic_inl in H as (a & Hparse & _ & ->).
  pose proof (parse_tokenize_wf _ _ _ Hparse) as Hw.
  cbn [ast kMapData analysisOf] in *.
  assert (Hne : declared <> []).
  { destruct (generateKMap_grid _ _ _ Hk) as [Hn _].
    intros ->. cbn in Hn. lia. }
  rewrite (kmap_cell_lastValue a declared settings k r c) by assumption.
  now apply bareRow_lastValue.
Qed.

(** ** Records in property order *)

Section RecordFacts.

Context {V : Type}.

Implicit Types (o : list (jsstring * V)) (k : jsstring) (v : V).

Lemma rec_get_none o k : rec_get o k = None <-> ~ In k (map fst o).
Proof.
  induction o as [|[k' v'] o IH]; simpl; [tauto|].
  destruct (str_eqb k k') eqn:E.
  - apply str_eqb_eq in E. split; [discriminate|]. intros H. exfalso. auto.
  - apply str_eqb_neq in E. rewrite IH. intuition congruence.
Qed.

Lemma rec_get_update o k v k' :
  rec_get o k <> None ->
  rec_get (rec_update o k v) k' = if str_eqb k' k then Some v else rec_get o k'.
Proof.
  induction o as [|[q w] o IH]; simpl; [congruence|].
  destruct (str_eqb k q) eqn:E; simpl.
  - apply str_eqb_eq in E. subst q. intros _.
    now destruct (str_eqb k' k).
  - intros H. destruct (str_eqb k' q) eqn:E'.
    + destruct (str_eqb k' k) eqn:E''; [|reflexivity].
      apply str_eqb_eq in E', E''. subst. now rewrite str_eqb_refl in E.
    + now apply IH.
Qed.

Lemma rec_get_insertIndex o n k v k' :
  rec_get o k = None ->
  rec_get (rec_insertIndex o n k v) k'
  = if str_eqb k' k then Some v else rec_get o k'.
Proof.
  induction o as [|[q w] o IH]; simpl; [reflexivity|].
  destruct (str_eqb k q) eqn:E; [discriminate|]. intros H.
  assert (Hhead : rec_get ((k, v) :: (q, w) :: o) k'
                  = if str_eqb k' k then Some v
                    else if str_eqb k' q then Some w else rec_get o k')
    by reflexivity.
  destruct (arrayIndex q) as [n'|]; [|exact Hhead].
  destruct (n' <? n)%N; [|exact Hhead].
  simpl. rewrite IH by assumption.
  destruct (str_eqb k' q) eqn:E'; [|reflexivity].
  destruct (str_eqb k' k) eqn:E''; [|reflexivity].
  apply str_eqb_eq in E', E''. subst. now rewrite str_eqb_refl in E.
Qed.

Lemma rec_get_app o1 o2 k :
  rec_get (o1 ++ o2) k
  = match rec_get o1 k with Some v => Some v | None => rec_get o2 k end.
Proof.
  induction o1 as [|[q w] o1 IH]; simpl; [reflexivity|].
  now destruct (str_eqb k q).
Qed.

Lemma rec_get_set o k v k' :
  rec_get (rec_set o k v) k' = if str_eqb k' k then Some v else rec_get o k'.
Proof.
  unfold rec_set. destruct (rec_get o k) eqn:E.
  - apply rec_get_update. congruence.
  - destruct (arrayIndex k); [now apply rec_get_insertIndex|].
    rewrite rec_get_app. simpl.
    destruct (str_eqb k' k) eqn:E'.
    + apply str_eqb_eq in E'. subst. now rewrite E.
    + now destruct (rec_get o k').
Qed.

Lemma rec_update_keys o k v : map fst (rec_update o k v) = map fst o.
Proof.
  induction o as [|[q w] o IH]; simpl; [reflexivity|].
  destruct (str_eqb k q); simpl; [reflexivity|]. now rewrite IH.
Qed.

Lemma rec_insertIndex_keys o n k v :
  exists l1 l2, map fst o = l1 ++ l2
                /\ map fst (rec_insertIndex o n k v) = l1 ++ k :: l2.
Proof.
  induction o as [|[q w] o IH]; simpl.
  - now exists [], [].
  - destruct (arrayIndex q) as [n'|].
    + destruct (n' <? n)%N.
      * destruct IH as (l1 & l2 & E1 & E2).
        exists (q :: l1), l2. simpl. now rewrite E1, E2.
      * now exists [], (q :: map fst o).
    + now exists [], (q :: map fst o).
Qed.

Lemma rec_set_nodup o k v :
  NoDup (map fst o) -> NoDup (map fst (rec_set o k v)).
Proof.
  intros H. unfold rec_set. destruct (rec_get o k) eqn:E.
  - now rewrite rec_update_keys.
  - apply rec_get_none in E. destruct (arrayIndex k) as [n|].
    + destruct (rec_insertIndex_keys o n k v) as (l1 & l2 & E1 & E2).
      rewrite E2. rewrite E1 in H, E.
      apply (NoDup_Add (Add_app k l1 l2)). split; assumption.
    + rewrite map_app. simpl.
      apply NoDup_app; [exact H|repeat constructor; auto|].
      intros x Hx [<-|[]]. contradiction.
Qed.

Lemma rec_get_in o k v :
  NoDup (map fst o) -> In (k, v) o -> rec_get o k = Some v.
Proof.
  induction o as [|[q w] o IH]; simpl; [contradiction|].
  intros Hnd [E|Hin].
  - injection E as -> ->. now rewrite str_eqb_refl.
  - inversion Hnd as [|? ? Hq Hnd']; subst.
    destruct (str_eqb k q) eqn:E; [|now apply IH].
    apply str_eqb_eq in E. subst q. exfalso. apply Hq.
    apply in_map_iff. now exists (k, v).
Qed.

End RecordFacts.

(** ** The interactive test and the table *)

Lemma startTest_get variables m k :
  rec_get (assumptions (startTest variables m)) k
  = if in_dec str_eq_dec k variables then Some (@None bool) else None.
Proof.
  unfold startTest. cbn [assumptions].
  assert (H : forall o : Assumptions,
            rec_get (fold_left (fun o v => rec_set o v None) variables o) k
            = if in_dec str_eq_dec k variables then Some (@None bool)
              else rec_get o k).
  { induction variables as [|v vs IH]; intros o; cbn [fold_left].
    - now destruct (in_dec str_eq_dec k []).
    - rewrite IH, rec_get_set.
      destruct (in_dec str_eq_dec k vs) as [Hin|Hni];
        destruct (in_dec str_eq_dec k (v :: vs)) as [Hin'|Hni'];
        try reflexivity.
      + exfalso. apply Hni'. now right.
      + destruct Hin' as [->|Hin']; [|contradiction].
        now rewrite str_eqb_refl.
      + destruct (str_eqb k v) eqn:E; [|reflexivity].
        apply str_eqb_eq in E. subst. exfalso. apply Hni'. now left. }
  rewrite H. now destruct (in_dec str_eq_dec k variables).
Qed.

Lemma toggleAssumption_get st v k :
  rec_get (assumptions (toggleAssumption st v)) k
  = if str_eqb k v
    then Some match rec_get (assumptions st) v with
              | Some None => Some true
              | Some (Some true) => Some false
              | _ => None
              end
    else rec_get (assumptions st) k.
Proof. unfold toggleAssumption. cbn [assumptions]. apply rec_get_set. Qed.

Lemma clicks_nodup st clicks :
  NoDup (map fst (assumptions st)) ->
  NoDup (map fst (assumptions (fold_left toggleAssumption clicks st))).
Proof.
  revert st. induction clicks as [|v clicks IH]; intros st H; [exact H|].
  cbn [fold_left]. apply IH. unfold toggleAssumption. cbn [assumptions].
  now apply rec_set_nodup.
Qed.

Lemma clicks_mode st clicks :
  mode (fold_left toggleAssumption clicks st) = mode st.
Proof.
  revert st. induction clicks as [|v clicks IH]; intros st; [reflexivity|].
  cbn [fold_left]. now rewrite IH.
Qed.

Lemma startTest_nodup variables m :
  NoDup (map fst (assumptions (startTest variables m))).
Proof.
  unfold startTest. cbn [assumptions].
  assert (H : forall o : Assumptions, NoDup (map fst o) ->
            NoDup (map fst (fold_left (fun o v => rec_set o v None) variables o))).
  { induction variables as [|v vs IH]; intros o Ho; [exact Ho|].
    cbn [fold_left]. apply IH. now apply rec_set_nodup. }
  apply H. constructor.
Qed.

(** Clicks on declared variables leave the keys the declared variables. *)
Lemma afterClicks_keys declared m clicks k :
  Forall (fun v => In v declared) clicks ->
  rec_get (assumptions (afterClicks declared m clicks)) k <> None ->
  In k declared.
Proof.
  unfold afterClicks. intros Hclicks.
  assert (H : forall st,
            (rec_get (assumptions st) k <> None -> In k declared) ->
            rec_get (assumptions (fold_left toggleAssumption clicks st)) k
            <> None -> In k declared).
  { induction Hclicks as [|v clicks Hv _ IH]; intros st Hst; [exact Hst|].
    cbn [fold_left]. apply IH. rewrite toggleAssumption_get.
    destruct (str_eqb k v) eqn:E; [|exact Hst].
    apply str_eqb_eq in E. now subst. }
  apply H. rewrite startTest_get.
  destruct (in_dec str_eq_dec k declared); [auto|congruence].
Qed.

Lemma contextOf_get a k :
  obj_get (contextOf a) k
  = match rec_get a k with
    | Some (Some b) => Some b
    | Some None => Some false
    | None => None
    end.
Proof.
  induction a as [|[q w] a IH]; simpl; [reflexivity|].
  destruct (str_eqb k q); [|exact IH]. now destruct w.
Qed.

Lemma afterClicks_assignsOnly declared m clicks :
  Forall (fun v => In v declared) clicks ->
  assignsOnly declared (contextOf (assumptions (afterClicks declared m clicks))).
Proof.
  intros Hclicks k Hk. apply (afterClicks_keys declared m clicks k Hclicks).
  rewrite contextOf_get in Hk.
  now destruct (rec_get (assumptions (afterClicks declared m clicks)) k).
Qed.

Section Interactive.

Variable up : jsstring -> jsstring.

(** When the check reports 'Success'. *)
Lemma checkLogic_success expr st :
  option_map status (result (checkLogic up expr st)) = Some Success
  <-> forallb (fun kv => match snd kv with Some _ => true | None => false end)
        (assumptions st) = true
      /\ evaluateRawExpression up expr (contextOf (assumptions st))
         = match mode st with
           | Some TestTautology => false
           | _ => true
           end.
Proof.
  unfold checkLogic.
  destruct (forallb _ (assumptions st)); cbn [negb];
    [|cbn; split; [discriminate|intros [H _]; discriminate]].
  destruct (evaluateRawExpression up expr (contextOf (assumptions st)));
    destruct (mode st) as [[|]|]; cbn; split;
    try discriminate; try (intros [_ H]; discriminate); auto.
Qed.

(** The clicks that spell the assignment [g]: one click for true, two for
    false, on each variable once. *)
Lemma clicks_spell (g : jsstring -> bool) l : forall st,
  NoDup l ->
  (forall v, In v l -> rec_get (assumptions st) v = Some None) ->
  forall k,
    rec_get
      (assumptions
         (fold_left toggleAssumption
            (flat_map (fun v => if g v then [v] else [v; v]) l) st)) k
    = if in_dec str_eq_dec k l then Some (Some (g k))
      else rec_get (assumptions st) k.
Proof.
  induction l as [|v l IH]; intros st Hnd Hnull k; [reflexivity|].
  inversion Hnd as [|? ? Hv Hnd']; subst.
  cbn [flat_map]. rewrite fold_left_app.
  set (st' := fold_left toggleAssumption (if g v then [v] else [v; v]) st).
  assert (Hst' : forall q, rec_get (assumptions st') q
                           = if str_eqb q v then Some (Some (g v))
                             else rec_get (assumptions st) q).
  { intros q. unfold st'. destruct (g v); cbn [fold_left];
      rewrite !toggleAssumption_get, ?str_eqb_refl,
        (Hnull v (or_introl eq_refl));
      now destruct (str_eqb q v). }
  rewrite IH; auto.
  - rewrite Hst'.
    destruct (in_dec str_eq_dec k l) as [Hin|Hni];
      destruct (in_dec str_eq_dec k (v :: l)) as [Hin'|Hni'];
      try reflexivity.
    + exfalso. apply Hni'. now right.
    + destruct Hin' as [->|Hin']; [|contradiction].
      now rewrite str_eqb_refl.
    + destruct (str_eqb k v) eqn:E; [|reflexivity].
      apply str_eqb_eq in E. subst. exfalso. apply Hni'. now left.
  - intros w Hw. rewrite Hst'.
    destruct (str_eqb w v) eqn:E; [|apply Hnull; now right].
    apply str_eqb_eq in E. now subst.
Qed.

Lemma flat_map_Forall {A B : Type} (P : B -> Prop) (f : A -> list B) l :
  (forall x, In x l -> Forall P (f x)) -> Forall P (flat_map f l).
Proof.
  induction l as [|x l IH]; intros H; simpl; [constructor|].
  apply Forall_app. split.
  - apply H. now left.
  - apply IH. intros y Hy. apply H. now right.
Qed.

(** Every assignment of the declared variables can be clicked. *)
Lemma assignment_clickable declared m (g : jsstring -> bool) :
  exists clicks,
    Forall (fun v => In v declared) clicks
    /\ mode (afterClicks declared m clicks) = Some m
    /\ forallb (fun kv => match snd kv with Some _ => true | None => false end)
         (assumptions (afterClicks declared m clicks)) = true
    /\ forall k,
         obj_get (contextOf (assumptions (afterClicks declared m clicks))) k
         = if in_dec str_eq_dec k declared then Some (g k) else None.
Proof.
  set (clicks := flat_map (fun v => if g v then [v] else [v; v])
                   (nodup str_eq_dec declared)).
  assert (Hclicks : Forall (fun v => In v declared) clicks).
  { apply flat_map_Forall. intros v Hv. apply nodup_In in Hv.
    destruct (g v); repeat constructor; assumption. }
  assert (Hget : forall k,
            rec_get (assumptions (afterClicks declared m clicks)) k
            = if in_dec str_eq_dec k declared then Some (Some (g k))
              else None).
  { intros k. unfold afterClicks, clicks.
    rewrite clicks_spell.
    - rewrite startTest_get.
      destruct (in_dec str_eq_dec k (nodup str_eq_dec declared)) as [H|H];
        destruct (in_dec str_eq_dec k declared) as [H'|H'];
        try reflexivity.
      + apply nodup_In in H. contradiction.
      + exfalso. apply H. now apply nodup_In.
    - apply NoDup_nodup.
    - intros v Hv. apply nodup_In in Hv. rewrite startTest_get.
      now destruct (in_dec str_eq_dec v declared). }
  exists clicks. split; [exact Hclicks|].
  split; [unfold afterClicks; now rewrite clicks_mode|]. split.
  - apply forallb_forall. intros [k x] Hin. cbn [snd].
    assert (Hnd : NoDup (map fst (assumptions (afterClicks declared m clicks))))
      by (unfold afterClicks; apply clicks_nodup, startTest_nodup).
    pose proof (rec_get_in _ k x Hnd Hin) as Hk. rewrite Hget in Hk.
    destruct (in_dec str_eq_dec k declared); [|discriminate].
    now injection Hk as <-.
  - intros k. rewrite contextOf_get, Hget.
    now destruct (in_dec str_eq_dec k declared).
Qed.

Lemma some_row_differs e rows b :
  ~ allRows b e rows -> exists row, In row rows /\ rowValue e row = negb b.
Proof.
  unfold allRows. induction rows as [|r rows IH]; intros H.
  - exfalso. apply H. intros row [].
  - destruct (Bool.bool_dec (rowValue e r) b) as [E|E].
    + destruct IH as (row & Hin & Hrow).
      * intros Hall. apply H. intros row [<-|Hin]; auto.
      * exists row. split; [now right|exact Hrow].
    + exists r. split; [now left|].
      destruct (rowValue e r), b; try reflexivity; congruence.
Qed.

End Interactive.

(** X24: the interactive shortened-truth-table test agrees with the table.
    Within 32 declared variables, some sequence of clicks on the variable
    buttons after [startTest] makes [checkLogic] report 'Success' exactly
    when the analysis of the same expression does not classify it as what
    the test tries to refute (Tautology or Contradiction). *)
Theorem interactive_test_agrees up expr declared settings res m :
  analyzeLogic up expr declared settings = inl res ->
  length declared <= 32 ->
  classification res <> refuted m
  <-> exists clicks,
        Forall (fun v => In v declared) clicks
        /\ option_map status
             (result (checkLogic up expr (afterClicks declared m clicks)))
           = Some Success.
Proof.
  intros H Hlen.
  pose proof (classification_semantics up expr declared settings res true H Hlen)
    as Ht.
  pose proof (classification_semantics up expr declared settings res false H Hlen)
    as Hf.
  apply analyzeLogic_inl in H as (a & Hparse & _ & ->).
  pose proof (parse_tokenize_wf _ _ _ Hparse) as Hw.
  unfold analysisOf in *. cbn [classification ast rows] in *.
  destruct (classify_consistent (node_expression a)
              (tableRows a declared settings) (tableRows_nonempty _ _ _))
    as (Hc1 & Hc2 & _).
  set (cls := classify _ _) in *. clearbody cls.
  assert (Hsame : forall b,
            (cls = refuted m <-> allRows b (node_expression a)
                                   (tableRows a declared settings)) ->
            ((forall c, assignsOnly declared c ->
                        evaluateRawExpression up expr c = b)
             <-> allRows b (node_expression a)
                   (tableRows a declared settings)) ->
            negb b = match Some m with
                     | Some TestTautology => false
                     | _ => true
                     end ->
            (cls <> refuted m
             <-> exists clicks,
                   Forall (fun v => In v declared) clicks
                   /\ option_map status
                        (result (checkLogic up expr
                                   (afterClicks declared m clicks)))
                      = Some Success)).
  { intros b Hcls Hsem Hb. split.
    - intros Hne.
      assert (Hnot : ~ allRows b (node_expression a)
                       (tableRows a declared settings))
        by (intros Hall; apply Hne, Hcls, Hall).
      destruct (some_row_differs _ _ _ Hnot) as (row & Hrow & Hval).
      unfold tableRows in Hrow.
      apply in_map_iff in Hrow as (i & <- & _).
      unfold rowValue, tableRow in Hval. cbn [values] in Hval.
      rewrite evaluateColumns_root in Hval by assumption.
      cbn [truthy] in Hval.
      set (ctx := rowContext declared _) in Hval.
      destruct (assignment_clickable declared m
                  (fun k => truthy (obj_get ctx k)))
        as (clicks & Hclicks & Hmode & Hall & Hget).
      exists clicks. split; [exact Hclicks|].
      apply checkLogic_success. split; [exact Hall|].
      rewrite Hmode, <- Hb, <- Hval.
      unfold evaluateRawExpression. rewrite Hparse.
      apply evaluateAST_agree, agreeOn_all. intros k. rewrite Hget.
      destruct (in_dec str_eq_dec k declared) as [Hin|Hni]; [reflexivity|].
      unfold ctx. now rewrite (proj2 (rowContext_get declared _ k) Hni).
    - intros (clicks & Hclicks & Hok) Hcontra.
      apply checkLogic_success in Hok as [_ Hval].
      unfold afterClicks in Hval at 2. rewrite clicks_mode in Hval.
      cbn [mode startTest] in Hval. rewrite <- Hb in Hval.
      pose proof (proj2 Hsem (proj1 Hcls Hcontra)) as Hall.
      rewrite (Hall _ (afterClicks_assignsOnly declared m clicks Hclicks))
        in Hval.
      now destruct b. }
  destruct m; cbn [refuted] in *.
  - apply (Hsame true); [exact Hc1|now symmetry|reflexivity].
  - apply (Hsame false); [exact Hc2|now symmetry|reflexivity].
Qed.

(** ** Witnesses: clicks, row order, bare variables, the interactive test *)

Lemma double_click_restores_witness :
  analyzeLogic upperAscii (lit "P&Q") [varP; varQ] DEFAULT_SETTINGS = inl sample
  /\ In sampleRow (rows sample) /\ In columnP (columns sample)
  /\ isInput columnP = true
  /\ expression columnP = [80%N] /\ isUpperLetter 80 = true
  /\ exists res1,
       handleCellClick (handleRowChange (Some sample) DEFAULT_SETTINGS)
         sampleRow columnP = Some res1
       /\ forall row1, In row1 (rows res1) -> row_id row1 = row_id sampleRow ->
            handleCellClick (handleRowChange (Some res1) DEFAULT_SETTINGS)
              row1 columnP
            = Some sample.
Proof.
  assert (H2 : In sampleRow (rows sample))
    by (right; right; right; left; reflexivity).
  assert (H3 : In columnP (columns sample)) by (left; reflexivity).
  split; [exact sample_accepted|]. split; [exact H2|]. split; [exact H3|].
  split; [reflexivity|]. split; [reflexivity|]. split; [reflexivity|].
  exact (double_click_restores upperAscii (lit "P&Q") [varP; varQ]
           DEFAULT_SETTINGS sample sampleRow columnP 80%N
           sample_accepted H2 H3 eq_refl eq_refl eq_refl).
Defined.

Lemma rowOrder_only_reorders_witness :
  analyzeLogic upperAscii (lit "P&Q") [varP; varQ] DEFAULT_SETTINGS = inl sample
  /\ negationHandling (logic DEFAULT_SETTINGS)
     = negationHandling (logic descendingSettings)
  /\ table DEFAULT_SETTINGS = table descendingSettings
  /\ rowOrder (logic DEFAULT_SETTINGS) <> rowOrder (logic descendingSettings)
  /\ exists res2,
       analyzeLogic upperAscii (lit "P&Q") [varP; varQ] descendingSettings
       = inl res2
       /\ map values (rows res2) = rev (map values (rows sample))
       /\ classification res2 = classification sample.
Proof.
  assert (H4 : rowOrder (logic DEFAULT_SETTINGS)
               <> rowOrder (logic descendingSettings)) by discriminate.
  split; [exact sample_accepted|]. split; [reflexivity|].
  split; [reflexivity|]. split; [exact H4|].
  destruct (rowOrder_only_reorders upperAscii (lit "P&Q") [varP; varQ]
              DEFAULT_SETTINGS descendingSettings sample
              sample_accepted eq_refl eq_refl H4)
    as (res2 & Hacc & _ & _ & Hrev & Hcls & _).
  exists res2. split; [exact Hacc|]. split; [exact Hrev|exact Hcls].
Defined.

Lemma bareP_accepted :
  analyzeLogic upperAscii (lit "P") [varP; varQ] DEFAULT_SETTINGS = inl bareP.
Proof. vm_compute. reflexivity. Defined.

Lemma kmap_bare_variable_witness :
  analyzeLogic upperAscii (lit "P") [varP; varQ] DEFAULT_SETTINGS = inl bareP
  /\ kMapData bareP = Some barePKMap
  /\ NoDup [varP; varQ] /\ Forall variableName [varP; varQ]
  /\ length (node_expression (ast bareP)) = 1
  /\ (In (node_expression (ast bareP)) [varP; varQ]
      \/ arrayIndex (node_expression (ast bareP)) <> None)
  /\ 0 < length (rowLabels barePKMap) /\ 1 < length (colLabels barePKMap)
  /\ value (cellAt (grid barePKMap) 0 1)
     = truthy (obj_get
                 (rowContext [varP; varQ]
                    (N.to_nat (mintermIndex (cellAt (grid barePKMap) 0 1))))
                 (last [varP; varQ] [])).
Proof.
  assert (H2 : kMapData bareP = Some barePKMap) by (vm_compute; reflexivity).
  assert (H3 : NoDup [varP; varQ]).
  { constructor; [intros [E|[]]; discriminate E|].
    constructor; [intros []|constructor]. }
  assert (H4 : Forall variableName [varP; varQ]).
  { constructor; [exists 80%N; split; reflexivity|].
    constructor; [exists 81%N; split; reflexivity|constructor]. }
  assert (H5 : length (node_expression (ast bareP)) = 1) by reflexivity.
  assert (H6 : In (node_expression (ast bareP)) [varP; varQ]
               \/ arrayIndex (node_expression (ast bareP)) <> None)
    by (left; left; reflexivity).
  assert (H7 : 0 < length (rowLabels barePKMap)) by (cbn; lia).
  assert (H8 : 1 < length (colLabels barePKMap)) by (cbn; lia).
  split; [exact bareP_accepted|]. split; [exact H2|]. split; [exact H3|].
  split; [exact H4|]. split; [exact H5|]. split; [exact H6|].
  split; [exact H7|]. split; [exact H8|].
  exact (kmap_bare_variable upperAscii (lit "P") [varP; varQ]
           DEFAULT_SETTINGS bareP barePKMap 0 1
           bareP_accepted H2 H3 H4 H5 H6 H7 H8).
Defined.

Lemma interactive_test_agrees_witness :
  analyzeLogic upperAscii (lit "P&Q") [varP; varQ] DEFAULT_SETTINGS = inl sample
  /\ length [varP; varQ] <= 32
  /\ (classification sample <> refuted TestTautology
      <-> exists clicks,
            Forall (fun v => In v [varP; varQ]) clicks
            /\ option_map status
                 (result (checkLogic upperAscii (lit "P&Q")
                            (afterClicks [varP; varQ] TestTautology clicks)))
               = Some Success).
Proof.
  assert (H2 : length [varP; varQ] <= 32) by (cbn; lia).
  split; [exact sample_accepted|]. split; [exact H2|].
  exact (interactive_test_agrees upperAscii (lit "P&Q") [varP; varQ]
           DEFAULT_SETTINGS sample TestTautology sample_accepted H2).
Defined.

(** ** The selection of variables *)

Lemma str_ltb_irrefl a : str_ltb a a = false.
Proof.
  induction a as [|x a IH]; [reflexivity|]. cbn [str_ltb].
  now rewrite N.ltb_irrefl, N.eqb_refl, IH.
Qed.

Lemma str_ltb_trans a : forall b c,
  str_ltb a b = true -> str_ltb b c = true -> str_ltb a c = true.
Proof.
  induction a as [|x a IH]; intros [|y b] [|z c]; cbn [str_ltb];
    try discriminate; try reflexivity.
  intros H1 H2.
  apply orb_true_iff in H1 as [H1|H1]; apply orb_true_iff in H2 as [H2|H2];
    apply orb_true_iff.
  - left. apply N.ltb_lt in H1, H2. apply N.ltb_lt. lia.
  - apply andb_true_iff in H2 as [E _]. apply N.eqb_eq in E. subst z.
    now left.
  - apply andb_true_iff in H1 as [E _]. apply N.eqb_eq in E. subst y.
    now left.
  - apply andb_true_iff in H1 as [E1 H1]. apply andb_true_iff in H2 as [E2 H2].
    apply N.eqb_eq in E1, E2. subst. right. rewrite N.eqb_refl.
    now rewrite (IH b c).
Qed.

Lemma str_ltb_total a : forall b,
  str_ltb a b = false -> a <> b -> str_ltb b a = true.
Proof.
  induction a as [|x a IH]; intros [|y b]; cbn [str_ltb]; try congruence.
  intros H Hne. apply orb_false_iff in H as [H1 H2].
  apply N.ltb_ge in H1.
  destruct (N.eqb_spec x y) as [->|Hxy].
  - cbn [andb] in H2. rewrite N.ltb_irrefl, N.eqb_refl. cbn [orb andb].
    apply IH; [exact H2|congruence].
  - assert (E : (y <? x)%N = true) by (apply N.ltb_lt; lia).
    now rewrite E.
Qed.

Lemma strictlySorted_nodup l : strictlySorted l -> NoDup l.
Proof.
  induction 1 as [|x l Hl IH Hx]; constructor; [|exact IH].
  intros Hin. rewrite Forall_forall in Hx. specialize (Hx x Hin).
  now rewrite str_ltb_irrefl in Hx.
Qed.

Lemma insertString_in x y l : In y (insertString x l) <-> y = x \/ In y l.
Proof.
  induction l as [|z l IH]; cbn [insertString]; [simpl; intuition|].
  destruct (str_ltb x z); simpl; rewrite ?IH; intuition.
Qed.

Lemma insertString_sorted x l :
  strictlySorted l -> ~ In x l -> strictlySorted (insertString x l).
Proof.
  induction 1 as [|z l Hl IH Hz]; intros Hx; cbn [insertString].
  - repeat constructor.
  - destruct (str_ltb x z) eqn:E.
    + constructor; [now constructor|]. constructor; [exact E|].
      apply Forall_forall. intros w Hw. rewrite Forall_forall in Hz.
      apply (str_ltb_trans x z w E), Hz, Hw.
    + assert (Hzx : str_ltb z x = true).
      { apply str_ltb_total; [|intros ->; apply Hx; now left].
        destruct (str_ltb x z) eqn:E'; [discriminate|].
        reflexivity. }
      constructor; [apply IH; intros H; apply Hx; now right|].
      apply Forall_forall. intros w Hw. apply insertString_in in Hw as [->|Hw];
        [exact Hzx|].
      rewrite Forall_forall in Hz. now apply Hz.
Qed.

(** Inserting after a sorted list of smaller strings appends. *)
Lemma insertString_last x l :
  Forall (fun a => str_ltb a x = true) l -> insertString x l = l ++ [x].
Proof.
  induction 1 as [|z l Hz _ IH]; [reflexivity|]. cbn [insertString].
  destruct (str_ltb x z) eqn:E.
  - pose proof (str_ltb_trans x z x E Hz) as H.
    now rewrite str_ltb_irrefl in H.
  - cbn [app]. now rewrite IH.
Qed.

Lemma strictlySorted_snoc l x :
  strictlySorted (l ++ [x]) -> Forall (fun a => str_ltb a x = true) l.
Proof.
  induction l as [|z l IH]; intros H; [constructor|].
  cbn [app] in H. inversion H as [|? ? Hl Hz]; subst.
  constructor; [|now apply IH].
  rewrite Forall_forall in Hz. apply Hz, in_or_app. right. now left.
Qed.

Lemma strictlySorted_app_l l1 l2 :
  strictlySorted (l1 ++ l2) -> strictlySorted l1.
Proof.
  induction l1 as [|z l1 IH]; intros H; [constructor|].
  cbn [app] in H. inversion H as [|? ? Hl Hz]; subst.
  constructor; [now apply IH|].
  apply Forall_forall. intros w Hw. rewrite Forall_forall in Hz.
  apply Hz, in_or_app. now left.
Qed.

(** Sorting a strictly sorted list changes nothing. *)
Lemma sort_sorted l : forall acc,
  strictlySorted (acc ++ l) ->
  fold_left (fun acc x => insertString x acc) l acc = acc ++ l.
Proof.
  induction l as [|x l IH]; intros acc H; cbn [fold_left];
    [now rewrite app_nil_r|].
  assert (H' : strictlySorted ((acc ++ [x]) ++ l))
    by now rewrite <- app_assoc.
  rewrite insertString_last
    by (apply strictlySorted_snoc; now apply strictlySorted_app_l in H').
  rewrite IH by exact H'. now rewrite <- app_assoc.
Qed.

Lemma sortStrings_sorted l : strictlySorted l -> sortStrings l = l.
Proof. intros H. unfold sortStrings. now rewrite sort_sorted. Qed.

Lemma sortStrings_snoc l v :
  strictlySorted l -> sortStrings (l ++ [v]) = insertString v l.
Proof.
  intros H. unfold sortStrings. rewrite fold_left_app.
  fold (sortStrings l). now rewrite sortStrings_sorted.
Qed.

Lemma filter_sorted (f : jsstring -> bool) l :
  strictlySorted l -> strictlySorted (filter f l).
Proof.
  induction 1 as [|z l Hl IH Hz]; cbn [filter]; [constructor|].
  destruct (f z); [|exact IH]. constructor; [exact IH|].
  apply Forall_forall. intros w Hw. apply filter_In in Hw as [Hw _].
  rewrite Forall_forall in Hz. now apply Hz.
Qed.

Lemma filter_other_id v l :
  ~ In v l -> filter (fun s => negb (str_eqb s v)) l = l.
Proof.
  induction l as [|z l IH]; intros H; cbn [filter]; [reflexivity|].
  destruct (str_eqb z v) eqn:E.
  - apply str_eqb_eq in E. subst. exfalso. apply H. now left.
  - cbn [negb]. rewrite IH; [reflexivity|]. intros Hin. apply H. now right.
Qed.

(** Removing a string that was inserted, and inserting one that was
    removed. *)
Lemma filter_insertString v l :
  ~ In v l -> filter (fun s => negb (str_eqb s v)) (insertString v l) = l.
Proof.
  induction l as [|z l IH]; intros H; cbn [insertString filter].
  - now rewrite str_eqb_refl.
  - assert (Ez : str_eqb z v = false).
    { apply str_eqb_neq. intros ->. apply H. now left. }
    assert (Hl : ~ In v l) by (intros Hin; apply H; now right).
    destruct (str_ltb v z); cbn [filter].
    + rewrite str_eqb_refl, Ez. cbn [negb]. now rewrite filter_other_id.
    + rewrite Ez. cbn [negb]. now rewrite IH.
Qed.

Lemma insertString_filter v l :
  strictlySorted l -> In v l ->
  insertString v (filter (fun s => negb (str_eqb s v)) l) = l.
Proof.
  induction 1 as [|z l Hl IH Hz]; intros Hin; [contradiction|].
  pose proof (strictlySorted_nodup _ (SSorted_cons z Hl Hz)) as Hnd.
  inversion Hnd as [|? ? Hzl _]; subst.
  cbn [filter]. destruct (str_eqb z v) eqn:E; cbn [negb].
  - apply str_eqb_eq in E. subst z. rewrite filter_other_id by assumption.
    destruct l as [|w l]; [reflexivity|]. cbn [insertString].
    inversion Hz as [|? ? Hw _]; subst. now rewrite Hw.
  - apply str_eqb_neq in E. destruct Hin as [->|Hin]; [congruence|].
    cbn [insertString].
    rewrite Forall_forall in Hz. specialize (Hz v Hin).
    destruct (str_ltb v z) eqn:E'.
    + pose proof (str_ltb_trans v z v E' Hz) as H.
      now rewrite str_ltb_irrefl in H.
    + now rewrite IH.
Qed.

(** X25: the selection of the variable selector stays in strictly
    ascending order.  [toggleVar] on such a selection gives such a
    selection in which exactly the membership of the toggled variable has
    changed, and toggling the same variable again gives back the selection;
    [handleAddSubmit] hands on such a selection too, and what it adds is a
    new name made of an upper-case letter and digits. *)
Theorem selection_stays_sorted up selected v newVar :
  strictlySorted selected ->
  (strictlySorted (toggleVar selected v)
   /\ (forall x, In x (toggleVar selected v)
                 <-> (x <> v /\ In x selected) \/ (x = v /\ ~ In v selected))
   /\ toggleVar (toggleVar selected v) v = selected)
  /\ (forall selected',
        handleAddSubmit up selected newVar = Some selected' ->
        strictlySorted selected'
        /\ exists name, isVariableName name = true /\ ~ In name selected
             /\ forall x, In x selected' <-> x = name \/ In x selected).
Proof.
  intros Hs. split.
  - destruct (includes selected v) eqn:E.
    + pose proof (filter_sorted (fun s => negb (str_eqb s v)) selected Hs) as Hf.
      assert (Ht : toggleVar selected v
                   = filter (fun s => negb (str_eqb s v)) selected).
      { unfold toggleVar. rewrite E. now apply sortStrings_sorted. }
      apply includes_In in E.
      assert (Hni : ~ In v (filter (fun s => negb (str_eqb s v)) selected)).
      { intros H. apply filter_In in H as [_ H].
        now rewrite str_eqb_refl in H. }
      rewrite Ht. split; [exact Hf|]. split.
      * intros x. rewrite filter_In. split.
        -- intros [Hx Hne]. left. split; [|exact Hx].
           intros ->. now rewrite str_eqb_refl in Hne.
        -- intros [[Hne Hx]|[_ Hni']]; [|contradiction].
           split; [exact Hx|]. apply negb_true_iff. now apply str_eqb_neq.
      * unfold toggleVar.
        replace (includes (filter (fun s => negb (str_eqb s v)) selected) v)
          with false
          by (symmetry; apply not_true_is_false; intros H;
              now apply includes_In in H).
        rewrite sortStrings_snoc by exact Hf.
        now apply insertString_filter.
    + assert (Ht : toggleVar selected v = insertString v selected).
      { unfold toggleVar. rewrite E. now apply sortStrings_snoc. }
      assert (Hni : ~ In v selected)
        by (intros H; apply includes_In in H; congruence).
      rewrite Ht. split; [now apply insertString_sorted|]. split.
      * intros x. rewrite insertString_in. split.
        -- intros [->|Hx]; [right; now split|].
           left. split; [|exact Hx]. intros ->. contradiction.
        -- intros [[_ Hx]|[-> _]]; [now right|now left].
      * unfold toggleVar.
        replace (includes (insertString v selected) v) with true
          by (symmetry; apply includes_In, insertString_in; now left).
        rewrite filter_insertString by exact Hni.
        now apply sortStrings_sorted.
  - intros selected'. unfold handleAddSubmit. cbv zeta.
    set (name := up (trim newVar)).
    destruct (negb (length name =? 0) && isVariableName name) eqn:E;
      [|discriminate].
    apply andb_true_iff in E as [_ Hname].
    destruct (includes selected name) eqn:Ei; cbn [negb]; [discriminate|].
    intros H. injection H as <-.
    assert (Hni : ~ In name selected)
      by (intros H; apply includes_In in H; congruence).
    rewrite sortStrings_snoc by exact Hs.
    split; [now apply insertString_sorted|].
    exists name. split; [exact Hname|]. split; [exact Hni|].
    intros x. apply insertString_in.
Qed.

(** ** The exported text *)

Lemma splitOn_nonempty sep s : splitOn sep s <> [].
Proof.
  destruct s as [|c s]; cbn [splitOn]; [discriminate|].
  destruct (c =? sep)%N; [discriminate|].
  destruct (splitOn sep s); discriminate.
Qed.

Lemma splitOn_field sep s :
  ~ In sep s -> splitOn sep s = [s].
Proof.
  induction s as [|c s IH]; intros H; cbn [splitOn]; [reflexivity|].
  destruct (N.eqb_spec c sep) as [->|Hne]; [exfalso; apply H; now left|].
  rewrite IH; [reflexivity|]. intros Hin. apply H. now right.
Qed.

Lemma splitOn_app sep a s :
  ~ In sep a ->
  splitOn sep (a ++ sep :: s) = a :: splitOn sep s.
Proof.
  induction a as [|c a IH]; intros H; cbn [app splitOn].
  - now rewrite N.eqb_refl.
  - destruct (N.eqb_spec c sep) as [->|Hne]; [exfalso; apply H; now left|].
    rewrite IH; [reflexivity|]. intros Hin. apply H. now right.
Qed.

(** Splitting undoes joining when no field holds the separator. *)
Lemma splitOn_join sep l :
  l <> [] -> Forall (fun field => ~ In sep field) l ->
  splitOn sep (join [sep] l) = l.
Proof.
  induction l as [|x l IH]; intros Hne Hall; [congruence|].
  inversion Hall as [|? ? Hx Hl]; subst.
  destruct l as [|y l]; [now apply splitOn_field|].
  change (join [sep] (x :: y :: l)) with (x ++ sep :: join [sep] (y :: l)).
  rewrite splitOn_app by exact Hx. f_equal. apply IH; [discriminate|exact Hl].
Qed.

Lemma join_chars (P : N -> Prop) sep l :
  Forall P sep -> Forall (Forall P) l -> Forall P (join sep l).
Proof.
  intros Hsep. induction 1 as [|x l Hx Hl IH]; [constructor|].
  destruct l as [|y l]; [exact Hx|].
  change (join sep (x :: y :: l)) with (x ++ sep ++ join sep (y :: l)).
  apply Forall_app. split; [exact Hx|]. apply Forall_app. now split.
Qed.

(** The code units of a label. *)
Lemma removeDoubleNegations_chars (P : N -> Prop) s :
  Forall P s -> Forall P (removeDoubleNegations s).
Proof.
  assert (H : forall n s, length s <= n -> Forall P s ->
                          Forall P (removeDoubleNegations s)).
  { intros n. induction n as [|n IH]; intros [|a [|b rest]] Hlen Hs;
      try exact Hs; cbn [length] in Hlen; try lia.
    rewrite removeDoubleNegations_cons.
    inversion Hs as [|? ? Ha Hs']; subst.
    inversion Hs' as [|? ? Hb Hrest]; subst.
    destruct ((a =? ch_not) && (b =? ch_not))%N.
    - apply IH; [lia|exact Hrest].
    - constructor; [exact Ha|]. apply IH; [cbn [length]; lia|exact Hs']. }
  now apply (H (length s)).
Qed.

Lemma simplifyLoop_chars (P : N -> Prop) fuel : forall s prev r,
  Forall P s -> simplifyLoop fuel s prev = Some r -> Forall P r.
Proof.
  induction fuel as [|fuel IH]; intros s prev r Hs; cbn [simplifyLoop];
    [discriminate|].
  destruct (str_eqb s prev).
  - intros H. injection H as <-. exact Hs.
  - apply IH. now apply removeDoubleNegations_chars.
Qed.

Lemma formatLabel_chars (P : N -> Prop) e settings :
  P ch_not -> Forall P e -> Forall P (formatLabel e settings).
Proof.
  intros Hnot He.
  assert (Hn : Forall P (normalizeNegations e)).
  { unfold normalizeNegations. clear - Hnot He.
    induction He as [|ch s Hch Hs IH]; cbn [map]; constructor; [|exact IH].
    now destruct ((ch =? ch_minus) || (ch =? ch_bang) || (ch =? ch_tilde))%N. }
  unfold formatLabel.
  destruct (negationHandling (logic settings)); [exact He|exact Hn|].
  cbv zeta.
  destruct (simplifyLoop _ _ _) as [r|] eqn:E; [|exact He].
  apply (simplifyLoop_chars P) in E; [|exact Hn].
  destruct r; [repeat constructor; exact Hnot|exact E].
Qed.

Lemma exprChars_field s :
  exprChars s -> Forall (fun ch => ch <> 44%N /\ ch <> 10%N) s.
Proof.
  unfold exprChars. apply Forall_impl. intros ch H.
  split; intros ->; discriminate H.
Qed.

Lemma variableName_field v :
  variableName v -> Forall (fun ch => ch <> 44%N /\ ch <> 10%N) v.
Proof.
  intros (ch & -> & H). constructor; [|constructor].
  split; intros ->; discriminate H.
Qed.

Lemma column_labels up expr a declared settings col :
  parse (tokenize up expr) = Some a ->
  Forall variableName declared ->
  In col (finalColumns a declared settings) ->
  Forall (fun ch => ch <> 44%N /\ ch <> 10%N) (label col).
Proof.
  intros Hparse Hnames Hcol.
  assert (Hnode : forall n, subnode n a ->
            Forall (fun ch => ch <> 44%N /\ ch <> 10%N)
              (formatLabel (node_expression n) settings)).
  { intros n Hn. apply formatLabel_chars; [split; discriminate|].
    apply exprChars_field.
    apply (parse_exprChars _ _ (tokenize_chars up expr) Hparse n Hn). }
  assert (Hvar : forall c, In c (varColumns declared) ->
            Forall (fun ch => ch <> 44%N /\ ch <> 10%N) (label c)).
  { intros c Hc. unfold varColumns in Hc.
    apply in_map_iff in Hc as (v & <- & Hv). cbn [label].
    rewrite Forall_forall in Hnames. now apply variableName_field, Hnames. }
  assert (Hres : Forall (fun ch => ch <> 44%N /\ ch <> 10%N)
                   (label (resultColumn a settings)))
    by (apply Hnode, subnode_refl).
  unfold finalColumns in Hcol.
  destruct (showSubExpressions (table settings));
    rewrite !in_app_iff in Hcol.
  - destruct Hcol as [Hc|[Hc|[<-|[]]]]; [now apply Hvar| |exact Hres].
    unfold stepColumns in Hc. apply in_map_iff in Hc as (n & <- & Hn).
    apply filter_In in Hn as [Hn _]. cbn [label].
    apply Hnode. now apply extractSubExpressions_subnode.
  - destruct Hcol as [Hc|[<-|[]]]; [now apply Hvar|exact Hres].
Qed.

Lemma finalColumns_nonempty a declared settings :
  finalColumns a declared settings <> [].
Proof.
  unfold finalColumns.
  destruct (showSubExpressions (table settings)); intros H;
    repeat (apply app_eq_nil in H as [_ H]); discriminate.
Qed.

(** X26: the exported text reads back as the table.  For an accepted
    analysis over variables that are upper-case letters, splitting
    [csvContent] at the line feeds and each line at the commas gives the
    labels of the columns, followed by one list per row with a 1 or a 0
    for each column: no label holds a comma or a line feed. *)
Theorem csv_reads_back up expr declared settings res :
  analyzeLogic up expr declared settings = inl res ->
  Forall variableName declared ->
  readCsv (csvContent res)
  = map label (columns res)
    :: map (fun r =>
              map (fun c => if rowValue (expression c) r then lit "1"
                            else lit "0")
                (columns res))
         (rows res).
Proof.
  intros H Hnames.
  apply analyzeLogic_inl in H as (a & Hparse & _ & ->).
  cbn [columns rows analysisOf].
  set (cols := finalColumns a declared settings).
  set (table := map (fun r => map (fun c => if rowValue (expression c) r
                                             then lit "1" else lit "0") cols)
                  (tableRows a declared settings)).
  assert (Hcols : cols <> []) by apply finalColumns_nonempty.
  assert (Hheader : Forall (Forall (fun ch => ch <> 44%N /\ ch <> 10%N))
                      (map label cols)).
  { apply Forall_forall. intros l Hl. apply in_map_iff in Hl as (c & <- & Hc).
    now apply (column_labels up expr a declared settings c). }
  assert (Hcells : Forall (Forall (Forall (fun ch => ch <> 44%N /\ ch <> 10%N)))
                     table).
  { apply Forall_forall. intros line Hline.
    apply in_map_iff in Hline as (r & <- & _).
    apply Forall_forall. intros cell Hcell.
    apply in_map_iff in Hcell as (c & <- & _).
    destruct (rowValue (expression c) r); repeat constructor; discriminate. }
  assert (Hall : Forall (Forall (Forall (fun ch => ch <> 44%N /\ ch <> 10%N)))
                   (map label cols :: table))
    by (constructor; assumption).
  assert (Hne : Forall (fun line : list jsstring => line <> [])
                  (map label cols :: table)).
  { constructor.
    - destruct cols; [congruence|discriminate].
    - apply Forall_forall. intros line Hline.
      apply in_map_iff in Hline as (r & <- & _).
      destruct cols; [congruence|discriminate]. }
  unfold readCsv, csvContent. cbn [columns rows analysisOf].
  fold cols. fold table.
  change (join (lit ",") (map label cols)
          :: map (fun r => join (lit ",") r) table)
    with (map (fun r => join (lit ",") r) (map label cols :: table)).
  set (lines := map label cols :: table) in *.
  assert (Hlines : lines <> []) by discriminate. clearbody lines.
  rewrite splitOn_join.
  - rewrite map_map. rewrite <- (map_id lines) at 2.
    apply map_ext_in. intros line Hline.
    rewrite Forall_forall in Hall, Hne.
    change (lit ",") with [44%N]. apply splitOn_join; [now apply Hne|].
    specialize (Hall line Hline). revert Hall. apply Forall_impl.
    intros field Hf Hin. rewrite Forall_forall in Hf.
    now destruct (Hf _ Hin).
  - destruct lines; [congruence|discriminate].
  - apply Forall_forall. intros text Htext.
    apply in_map_iff in Htext as (line & <- & Hline).
    rewrite Forall_forall in Hall. specialize (Hall line Hline).
    intros Hin.
    assert (Hchars : Forall (fun ch => ch <> 10%N) (join (lit ",") line)).
    { apply join_chars.
      - change (lit ",") with [44%N]. constructor; [discriminate|constructor].
      - revert Hall. apply Forall_impl. intros field.
        apply Forall_impl. now intros ch [_ H]. }
    rewrite Forall_forall in Hchars. now apply (Hchars _ Hin).
Qed.

(** ** The parser within the call stack *)

(** A parsing method leaves the token list alone and never moves back. *)
Lemma parser_state (fuel : nat) :
  (forall lv p node p',
     parseAt fuel lv p = Some (node, p') ->
     tokens p' = tokens p /\ pos p <= pos p')
  /\
  (forall op p0 lhs p node p',
     tokens p = tokens p0 /\ pos p0 <= pos p ->
     parseLoop fuel op lhs p = Some (node, p') ->
     tokens p' = tokens p0 /\ pos p0 <= pos p').
Proof.
  apply (parser_induction
           (fun p _ p' => tokens p' = tokens p /\ pos p <= pos p'));
    clear; cbn [consume generateId snd tokens pos].
  - intros p _. split; [reflexivity|lia].
  - intros p _ _. split; [reflexivity|lia].
  - intros p operand p2 _ [Ht Hp]. split; [exact Ht|lia].
  - intros p node p2 _ [Ht Hp] _. split; [exact Ht|lia].
  - intros p node p2 _ [Ht Hp] _. split; [exact Ht|lia].
  - intros op p lhs p1 rhs p2 [Ht1 Hp1] _ [Ht2 Hp2].
    split; [congruence|lia].
Qed.

Lemma parseAt_state fuel lv p node p' :
  parseAt fuel lv p = Some (node, p') ->
  tokens p' = tokens p /\ pos p <= pos p'.
Proof. apply parser_state. Qed.

Lemma parseLoop_state fuel op lhs p node p' :
  parseLoop fuel op lhs p = Some (node, p') ->
  tokens p' = tokens p /\ pos p <= pos p'.
Proof.
  apply (proj2 (parser_state fuel) op p lhs p node p').
  split; [reflexivity|lia].
Qed.

Lemma framesTo_nextLevel op :
  framesTo (nextLevel op) + 1 = framesTo (LevelBin op).
Proof. now destruct op. Qed.

Lemma framesTo_pos lv : 1 <= framesTo lv.
Proof. destruct lv as [[]| |]; simpl; lia. Qed.

(** What the parser returns within a stack it returns with any stack
    that suffices. *)
Lemma parseAtWithin_sound (fuel : nat) :
  (forall stack lv p r,
     parseAtWithin fuel stack lv p = Some (Returned r) ->
     parseAt fuel lv p = Some r)
  /\
  (forall avail op lhs p r,
     parseLoopWithin fuel avail op lhs p = Some (Returned r) ->
     parseLoop fuel op lhs p = Some r).
Proof.
  induction fuel as [|fuel [IHat IHloop]].
  - split; intros; discriminate.
  - split.
    + intros [|[|stack]] lv p r H; cbn [parseAtWithin] in H;
        try discriminate.
      destruct lv as [op| |]; cbn [parseAt].
      * destruct (parseAtWithin fuel (S stack) (nextLevel op) p)
          as [[[lhs p1]|]|] eqn:E1; try discriminate.
        rewrite (IHat _ _ _ _ E1). now apply IHloop in H.
      * destruct (toktype_eqb (tok_type (peek p)) T_NOT).
        -- destruct (consume p) as [token p1].
           destruct (parseAtWithin fuel (S stack) LevelNot p1)
             as [[[operand p2]|]|] eqn:E2; try discriminate.
           rewrite (IHat _ _ _ _ E2).
           destruct (generateId p2) as [id p3].
           now injection H as <-.
        -- now apply IHat in H.
      * cbv zeta in H |- *.
        destruct (isOpenBracket (tok_type (peek p))).
        -- destruct (consume p) as [token p1].
           destruct (parseAtWithin fuel (S stack) (LevelBin IFF) p1)
             as [[[node p2]|]|] eqn:E2; try discriminate.
           rewrite (IHat _ _ _ _ E2).
           destruct (toktype_eqb (tok_type (peek p2))
                       (expectedCloseType (tok_type (peek p)))).
           ++ destruct (consume p2) as [t3 p3]. now injection H as <-.
           ++ now injection H as <-.
        -- destruct (toktype_eqb (tok_type (peek p)) T_VAR);
             destruct (consume p) as [token p1];
             destruct (generateId p1) as [id p2];
             now injection H as <-.
    + intros avail op lhs p r H. cbn [parseLoopWithin] in H.
      cbn [parseLoop].
      destruct (toktype_eqb (tok_type (peek p)) (T_BIN op)).
      * destruct (consume p) as [t1 p1].
        destruct (parseAtWithin fuel avail (nextLevel op) p1)
          as [[[rhs p2]|]|] eqn:E2; try discriminate.
        rewrite (IHat _ _ _ _ E2).
        destruct (generateId p2) as [id p3].
        now apply IHloop in H.
      * now injection H as <-.
Qed.

(** Whatever the stack, a method that returns with stack enough either
    returns the same or throws. *)
Lemma parseAtWithin_cases (fuel : nat) :
  (forall stack lv p r,
     parseAt fuel lv p = Some r ->
     parseAtWithin fuel stack lv p = Some (Returned r)
     \/ parseAtWithin fuel stack lv p = Some RangeError)
  /\
  (forall avail op lhs p r,
     parseLoop fuel op lhs p = Some r ->
     parseLoopWithin fuel avail op lhs p = Some (Returned r)
     \/ parseLoopWithin fuel avail op lhs p = Some RangeError).
Proof.
  induction fuel as [|fuel [IHat IHloop]].
  - split; intros; discriminate.
  - split.
    + intros [|[|stack]] lv p r H; cbn [parseAtWithin]; auto.
      destruct lv as [op| |]; cbn [parseAt] in H.
      * destruct (parseAt fuel (nextLevel op) p) as [[lhs p1]|] eqn:E1;
          [|discriminate].
        destruct (IHat (S stack) _ _ _ E1) as [-> | ->]; auto.
      * destruct (toktype_eqb (tok_type (peek p)) T_NOT).
        -- destruct (consume p) as [token p1].
           destruct (parseAt fuel LevelNot p1) as [[operand p2]|] eqn:E2;
             [|discriminate].
           destruct (IHat (S stack) _ _ _ E2) as [-> | ->]; auto.
           destruct (generateId p2) as [id p3].
           injection H as <-. auto.
        -- now apply IHat.
      * cbv zeta in H |- *.
        destruct (isOpenBracket (tok_type (peek p))).
        -- destruct (consume p) as [token p1].
           destruct (parseAt fuel (LevelBin IFF) p1) as [[node p2]|] eqn:E2;
             [|discriminate].
           destruct (IHat (S stack) _ _ _ E2) as [-> | ->]; auto.
           destruct (toktype_eqb (tok_type (peek p2))
                       (expectedCloseType (tok_type (peek p)))).
           ++ destruct (consume p2) as [t3 p3]. injection H as <-. auto.
           ++ injection H as <-. auto.
        -- destruct (toktype_eqb (tok_type (peek p)) T_VAR);
             destruct (consume p) as [token p1];
             destruct (generateId p1) as [id p2];
             injection H as <-; auto.
    + intros avail op lhs p r H. cbn [parseLoop] in H.
      cbn [parseLoopWithin].
      destruct (toktype_eqb (tok_type (peek p)) (T_BIN op)).
      * destruct (consume p) as [t1 p1].
        destruct (parseAt fuel (nextLevel op) p1) as [[rhs p2]|] eqn:E2;
          [|discriminate].
        destruct (IHat avail _ _ _ E2) as [-> | ->]; auto.
        destruct (generateId p2) as [id p3].
        now apply IHloop.
      * injection H as <-. auto.
Qed.

(** Seven frames for each token still to be read, and those down to the
    atoms, are enough. *)
Lemma parseAtWithin_enough (fuel : nat) :
  (forall stack lv p node p',
     parseAt fuel lv p = Some (node, p') ->
     framesTo lv + 7 * remaining p + 1 <= stack ->
     parseAtWithin fuel stack lv p = Some (Returned (node, p')))
  /\
  (forall avail op lhs p node p',
     parseLoop fuel op lhs p = Some (node, p') ->
     framesTo (LevelBin op) + 7 * remaining p <= avail ->
     parseLoopWithin fuel avail op lhs p = Some (Returned (node, p'))).
Proof.
  induction fuel as [|fuel [IHat IHloop]].
  - split; intros; discriminate.
  - split.
    + intros stack lv p node p' H Hs.
      pose proof (framesTo_pos lv) as Hpos.
      destruct stack as [|[|stack]]; try lia.
      cbn [parseAtWithin]. destruct lv as [op| |]; cbn [parseAt] in H.
      * pose proof (framesTo_nextLevel op) as Hn.
        destruct (parseAt fuel (nextLevel op) p) as [[lhs p1]|] eqn:E1;
          [|discriminate].
        rewrite (IHat (S stack) _ _ _ _ E1) by lia.
        apply IHloop; [exact H|].
        apply parseAt_state in E1 as [Ht Hp].
        unfold remaining in *. rewrite Ht. lia.
      * destruct (toktype_eqb (tok_type (peek p)) T_NOT) eqn:Enot.
        -- apply toktype_eqb_eq in Enot.
           assert (Hlt : pos p < length (tokens p))
             by (apply peek_not_eof; rewrite Enot; discriminate).
           unfold consume in *.
           destruct (parseAt fuel LevelNot _) as [[operand p2]|] eqn:E2;
             [|discriminate].
           rewrite (IHat (S stack) _ _ _ _ E2);
             [|unfold remaining in *; cbn [framesTo tokens pos] in *; lia].
           unfold generateId in *. now injection H as <- <-.
        -- apply IHat; [exact H|cbn [framesTo] in *; lia].
      * cbv zeta in H |- *.
        destruct (isOpenBracket (tok_type (peek p))) eqn:Eopen.
        -- assert (Hlt : pos p < length (tokens p))
             by (apply peek_not_eof; now apply isOpenBracket_not_eof).
           unfold consume in *.
           destruct (parseAt fuel (LevelBin IFF) _) as [[inner p2]|] eqn:E2;
             [|discriminate].
           rewrite (IHat (S stack) _ _ _ _ E2);
             [|unfold remaining in *; cbn [framesTo tokens pos] in *; lia].
           destruct (toktype_eqb (tok_type (peek p2))
                       (expectedCloseType (tok_type (peek p))));
             now injection H as <- <-.
        -- unfold consume, generateId in *.
           destruct (toktype_eqb (tok_type (peek p)) T_VAR);
             now injection H as <- <-.
    + intros avail op lhs p node p' H Hs. cbn [parseLoop] in H.
      cbn [parseLoopWithin].
      pose proof (framesTo_nextLevel op) as Hn.
      destruct (toktype_eqb (tok_type (peek p)) (T_BIN op)) eqn:Eop.
      * apply toktype_eqb_eq in Eop.
        assert (Hlt : pos p < length (tokens p))
          by (apply peek_not_eof; rewrite Eop; discriminate).
        unfold consume in *.
        destruct (parseAt fuel (nextLevel op) _) as [[rhs p2]|] eqn:E2;
          [|discriminate].
        rewrite (IHat avail _ _ _ _ E2);
          [|unfold remaining in *; cbn [tokens pos] in *; lia].
        unfold generateId in *.
        apply IHloop; [exact H|].
        apply parseAt_state in E2 as [Ht Hp].
        unfold remaining in *. cbn [tokens pos] in *. rewrite Ht. lia.
      * now injection H as <- <-.
Qed.

(** The open brackets at the parser's position. *)
Lemma leadingOpens_peek p :
  leadingOpens p
  = if isOpenBracket (tok_type (peek p))
    then S (leadingOpens (snd (consume p))) else 0.
Proof.
  unfold leadingOpens, peek, consume. cbn [snd tokens pos].
  generalize (pos p) as n. generalize (tokens p) as l. clear p.
  induction l as [|t l IH]; intros [|n]; try reflexivity.
  cbn [skipn nth]. apply IH.
Qed.

(** Each open bracket in front takes seven frames that are not given
    back before the atom behind them is read. *)
Lemma parseAtWithin_needs (fuel : nat) :
  forall stack lv p r,
    parseAtWithin fuel stack lv p = Some (Returned r) ->
    framesTo lv + 7 * leadingOpens p + 1 <= stack.
Proof.
  induction fuel as [|fuel IH]; [discriminate|].
  intros [|[|stack]] lv p r H; cbn [parseAtWithin] in H; try discriminate.
  destruct lv as [op| |].
  - pose proof (framesTo_nextLevel op) as Hn.
    destruct (parseAtWithin fuel (S stack) (nextLevel op) p)
      as [[[lhs p1]|]|] eqn:E1; try discriminate.
    apply IH in E1. lia.
  - rewrite leadingOpens_peek.
    destruct (toktype_eqb (tok_type (peek p)) T_NOT) eqn:Enot.
    + apply toktype_eqb_eq in Enot. rewrite Enot. cbn [isOpenBracket].
      destruct (consume p) as [token p1].
      destruct (parseAtWithin fuel (S stack) LevelNot p1)
        as [[[operand p2]|]|] eqn:E2; try discriminate.
      apply IH in E2. cbn [framesTo] in *. lia.
    + apply IH in H. rewrite leadingOpens_peek in H. cbn [framesTo] in *.
      destruct (isOpenBracket (tok_type (peek p))); lia.
  - cbv zeta in H. rewrite leadingOpens_peek.
    destruct (isOpenBracket (tok_type (peek p))).
    + destruct (consume p) as [token p1]. cbn [snd].
      destruct (parseAtWithin fuel (S stack) (LevelBin IFF) p1)
        as [[[node p2]|]|] eqn:E2; try discriminate.
      apply IH in E2. cbn [framesTo] in *. lia.
    + cbn [framesTo]. lia.
Qed.

(** More stack does no harm. *)
Lemma parseAtWithin_more (fuel : nat) :
  (forall stack stack' lv p r,
     parseAtWithin fuel stack lv p = Some (Returned r) ->
     stack <= stack' ->
     parseAtWithin fuel stack' lv p = Some (Returned r))
  /\
  (forall avail avail' op lhs p r,
     parseLoopWithin fuel avail op lhs p = Some (Returned r) ->
     avail <= avail' ->
     parseLoopWithin fuel avail' op lhs p = Some (Returned r)).
Proof.
  induction fuel as [|fuel [IHat IHloop]].
  - split; intros; discriminate.
  - split.
    + intros [|[|stack]] stack' lv p r H Hle; cbn [parseAtWithin] in H;
        try discriminate.
      destruct stack' as [|[|stack']]; try lia.
      cbn [parseAtWithin].
      assert (Hav : S stack <= S stack') by lia.
      destruct lv as [op| |].
      * destruct (parseAtWithin fuel (S stack) (nextLevel op) p)
          as [[[lhs p1]|]|] eqn:E1; try discriminate.
        rewrite (IHat _ _ _ _ _ E1 Hav). now apply (IHloop _ _ _ _ _ _ H).
      * destruct (toktype_eqb (tok_type (peek p)) T_NOT).
        -- destruct (consume p) as [token p1].
           destruct (parseAtWithin fuel (S stack) LevelNot p1)
             as [[[operand p2]|]|] eqn:E2; try discriminate.
           now rewrite (IHat _ _ _ _ _ E2 Hav).
        -- now apply (IHat _ _ _ _ _ H).
      * cbv zeta in H |- *.
        destruct (isOpenBracket (tok_type (peek p))); [|exact H].
        destruct (consume p) as [token p1].
        destruct (parseAtWithin fuel (S stack) (LevelBin IFF) p1)
          as [[[node p2]|]|] eqn:E2; try discriminate.
        now rewrite (IHat _ _ _ _ _ E2 Hav).
    + intros avail avail' op lhs p r H Hle. cbn [parseLoopWithin] in H |- *.
      destruct (toktype_eqb (tok_type (peek p)) (T_BIN op)); [|exact H].
      destruct (consume p) as [t1 p1].
      destruct (parseAtWithin fuel avail (nextLevel op) p1)
        as [[[rhs p2]|]|] eqn:E2; try discriminate.
      rewrite (IHat _ _ _ _ _ E2 Hle).
      destruct (generateId p2) as [id p3].
      now apply (IHloop _ _ _ _ _ _ H).
Qed.

(** ** The whole parse within the call stack *)

Lemma leadingOpens_newParser toks :
  leadingOpens (newParser toks) = leadingOpenCount toks.
Proof. reflexivity. Qed.

(** [parse] gives the tree the parser returns whenever it returns: with
    any stack the outcome is that tree or the [RangeError], the tree
    with seven frames a token and nine more, the error with fewer than
    seven frames for each open bracket in front and nine more. *)
Lemma parseWithin_parse (stack : nat) (toks : list Token) :
  exists ast,
    parse toks = Some ast
    /\ (Forall tok_ok toks -> wf_node ast)
    /\ (parseWithin stack toks = Returned ast
        \/ parseWithin stack toks = RangeError)
    /\ (7 * length toks + 9 <= stack -> parseWithin stack toks = Returned ast)
    /\ (stack < 7 * leadingOpenCount toks + 9 ->
        parseWithin stack toks = RangeError).
Proof.
  destruct (parseAt_total (LevelBin IFF) (newParser toks) (parseFuel toks))
    as (node & p' & E & G).
  { unfold remaining, parseFuel. simpl. lia. }
  exists node. unfold parse, parseIFF. rewrite E.
  split; [reflexivity|]. split; [now destruct G as (_ & _ & _ & _ & Hw)|].
  split; [|split].
  - unfold parseWithin. destruct stack as [|avail]; [now right|].
    destruct (proj1 (parseAtWithin_cases (parseFuel toks)) avail _ _ _ E)
      as [-> | ->]; auto.
  - intros Hs. unfold parseWithin. destruct stack as [|avail]; [lia|].
    rewrite (proj1 (parseAtWithin_enough (parseFuel toks)) avail _ _ _ _ E);
      [reflexivity|].
    unfold remaining. cbn [framesTo newParser tokens pos]. lia.
  - intros Hs. unfold parseWithin. destruct stack as [|avail]; [reflexivity|].
    destruct (parseAtWithin (parseFuel toks) avail (LevelBin IFF)
                (newParser toks)) as [[[n q]|]|] eqn:Ew; try reflexivity.
    apply parseAtWithin_needs in Ew.
    rewrite leadingOpens_newParser in Ew. cbn [framesTo] in Ew. lia.
Qed.

Lemma parseWithin_returned stack toks ast :
  parseWithin stack toks = Returned ast -> parse toks = Some ast.
Proof.
  intros H. destruct (parseWithin_parse stack toks)
    as (a & Hp & _ & [Hr|Hr] & _); congruence.
Qed.

Lemma parseWithin_more stack stack' toks ast :
  parseWithin stack toks = Returned ast -> stack <= stack' ->
  parseWithin stack' toks = Returned ast.
Proof.
  unfold parseWithin. destruct stack as [|avail]; [discriminate|].
  destruct stack' as [|avail']; [lia|].
  destruct (parseAtWithin (parseFuel toks) avail (LevelBin IFF)
              (newParser toks)) as [[[n q]|]|] eqn:Ew; try discriminate.
  intros H Hle. injection H as ->.
  now rewrite (proj1 (parseAtWithin_more _) _ avail' _ _ _ Ew) by lia.
Qed.

(** ** The parser and the grammar *)

(** What the parser returns the grammar derives. *)
Lemma parser_derives (fuel : nat) :
  (forall lv p node p',
     parseAt fuel lv p = Some (node, p') -> Derives (Whole lv) p node p')
  /\
  (forall op p0 lhs p node p',
     Derives (Fold op) p0 lhs p ->
     parseLoop fuel op lhs p = Some (node, p') ->
     Derives (Whole (LevelBin op)) p0 node p').
Proof.
  induction fuel as [|fuel [IHat IHloop]].
  - split; intros; discriminate.
  - split.
    + intros [op| |] p node p' H; cbn [parseAt] in H.
      * destruct (parseAt fuel (nextLevel op) p) as [[lhs p1]|] eqn:E1;
          [|discriminate].
        apply IHat in E1. eapply IHloop; [|exact H].
        now apply derives_first.
      * destruct (toktype_eqb (tok_type (peek p)) T_NOT) eqn:Enot.
        -- apply toktype_eqb_eq in Enot. unfold consume in H.
           destruct (parseAt fuel LevelNot _) as [[operand p2]|] eqn:E2;
             [|discriminate].
           unfold generateId in H. injection H as <- <-.
           apply (derives_not p operand p2 Enot). now apply IHat.
        -- apply derives_atom; [|now apply IHat].
           intros Heq. rewrite Heq in Enot. discriminate.
      * cbv zeta in H.
        destruct (isOpenBracket (tok_type (peek p))) eqn:Eopen.
        -- unfold consume at 1 in H.
           destruct (parseAt fuel (LevelBin IFF) _) as [[inner p2]|] eqn:E2;
             [|discriminate].
           apply IHat in E2.
           destruct (toktype_eqb (tok_type (peek p2))
                       (expectedCloseType (tok_type (peek p)))) eqn:Eclose.
           ++ apply toktype_eqb_eq in Eclose. unfold consume in H.
              injection H as <- <-.
              now apply (derives_group p inner p2).
           ++ injection H as <- <-.
              apply (derives_unclosed p inner p2); auto.
              intros Heq. rewrite Heq in Eclose.
              now rewrite (proj2 (toktype_eqb_eq _ _) eq_refl) in Eclose.
        -- destruct (toktype_eqb (tok_type (peek p)) T_VAR) eqn:Evar;
             unfold consume, generateId in H; injection H as <- <-.
           ++ apply toktype_eqb_eq in Evar. now apply derives_var.
           ++ apply derives_placeholder; auto.
              intros Heq. rewrite Heq in Evar. discriminate.
    + intros op p0 lhs p node p' Hlhs H. cbn [parseLoop] in H.
      destruct (toktype_eqb (tok_type (peek p)) (T_BIN op)) eqn:Eop.
      * apply toktype_eqb_eq in Eop. unfold consume in H.
        destruct (parseAt fuel (nextLevel op) _) as [[rhs p2]|] eqn:E2;
          [|discriminate].
        unfold generateId in H.
        eapply IHloop; [|exact H].
        apply (derives_more op p0 lhs p rhs p2); auto.
      * injection H as <- <-. apply derives_level; auto.
        intros Heq. rewrite Heq in Eop.
        now rewrite (proj2 (toktype_eqb_eq _ _) eq_refl) in Eop.
Qed.

(** More fuel changes nothing. *)
Lemma parser_fuel (fuel : nat) :
  (forall fuel' lv p r,
     parseAt fuel lv p = Some r -> fuel <= fuel' ->
     parseAt fuel' lv p = Some r)
  /\
  (forall fuel' op lhs p r,
     parseLoop fuel op lhs p = Some r -> fuel <= fuel' ->
     parseLoop fuel' op lhs p = Some r).
Proof.
  induction fuel as [|fuel [IHat IHloop]].
  - split; intros; discriminate.
  - split.
    + intros [|fuel'] lv p r H Hle; [lia|].
      assert (Hf : fuel <= fuel') by lia.
      destruct lv as [op| |]; cbn [parseAt] in H |- *.
      * destruct (parseAt fuel (nextLevel op) p) as [[lhs p1]|] eqn:E1;
          [|discriminate].
        rewrite (IHat _ _ _ _ E1 Hf). now apply IHloop.
      * destruct (toktype_eqb (tok_type (peek p)) T_NOT); [|now apply IHat].
        destruct (consume p) as [token p1].
        destruct (parseAt fuel LevelNot p1) as [[operand p2]|] eqn:E2;
          [|discriminate].
        now rewrite (IHat _ _ _ _ E2 Hf).
      * cbv zeta in H |- *.
        destruct (isOpenBracket (tok_type (peek p))); [|exact H].
        destruct (consume p) as [token p1].
        destruct (parseAt fuel (LevelBin IFF) p1) as [[inner p2]|] eqn:E2;
          [|discriminate].
        now rewrite (IHat _ _ _ _ E2 Hf).
    + intros [|fuel'] op lhs p r H Hle; [lia|].
      assert (Hf : fuel <= fuel') by lia.
      cbn [parseLoop] in H |- *.
      destruct (toktype_eqb (tok_type (peek p)) (T_BIN op)); [|exact H].
      destruct (consume p) as [t1 p1].
      destruct (parseAt fuel (nextLevel op) p1) as [[rhs p2]|] eqn:E2;
        [|discriminate].
      rewrite (IHat _ _ _ _ E2 Hf).
      destruct (generateId p2) as [id p3]. now apply IHloop.
Qed.

(** What the grammar derives the parser returns, given fuel. *)
Lemma derives_parser ph p node p' :
  Derives ph p node p' ->
  match ph with
  | Whole lv => exists fuel, parseAt fuel lv p = Some (node, p')
  | Fold op =>
      exists lhs0 p0 fuel0,
        parseAt fuel0 (nextLevel op) p = Some (lhs0, p0)
        /\ forall fuel r,
             parseLoop fuel op node p' = Some r ->
             exists fuel', parseLoop fuel' op lhs0 p0 = Some r
  end.
Proof.
  induction 1 as [p Hvar|p Hopen Hvar|p node p2 Hopen _ [f IH] Hclose
                  |p node p2 Hopen _ [f IH] Hclose
                  |p operand p2 Hnot _ [f IH]|p node p' Hnot _ [f IH]
                  |op p node p' _ [f IH]
                  |op p lhs p1 rhs p2 _ (lhs0 & p0 & f0 & E0 & Hthrough)
                     Hop _ [f2 E2]
                  |op p node p' _ (lhs0 & p0 & f0 & E0 & Hthrough) Hstop].
  - exists 1. cbn [parseAt]. rewrite Hvar. reflexivity.
  - exists 1. cbn [parseAt]. cbv zeta. rewrite Hopen.
    destruct (toktype_eqb (tok_type (peek p)) T_VAR) eqn:E; [|reflexivity].
    apply toktype_eqb_eq in E. contradiction.
  - exists (S f). cbn [parseAt]. cbv zeta. rewrite Hopen.
    unfold consume in *. cbn [snd] in IH. cbv beta iota. rewrite IH, Hclose.
    now rewrite (proj2 (toktype_eqb_eq _ _) eq_refl).
  - exists (S f). cbn [parseAt]. cbv zeta. rewrite Hopen.
    unfold consume in *. cbn [snd] in IH. cbv beta iota. rewrite IH.
    destruct (toktype_eqb _ _) eqn:E; [|reflexivity].
    apply toktype_eqb_eq in E. contradiction.
  - exists (S f). cbn [parseAt]. rewrite Hnot. cbn [toktype_eqb].
    unfold consume in *. cbn [snd] in IH. cbv beta iota. now rewrite IH.
  - exists (S f). cbn [parseAt].
    destruct (toktype_eqb (tok_type (peek p)) T_NOT) eqn:E; [|exact IH].
    apply toktype_eqb_eq in E. contradiction.
  - exists node, p', f. split; [exact IH|]. intros fuel r Hr. eauto.
  - exists lhs0, p0, f0. split; [exact E0|].
    intros fuel r Hr. apply (Hthrough (S (Nat.max fuel f2))).
    cbn [parseLoop]. rewrite Hop.
    rewrite (proj2 (toktype_eqb_eq _ _) eq_refl).
    unfold consume in *. cbn [snd] in E2. cbv beta iota.
    rewrite (proj1 (parser_fuel f2) (Nat.max fuel f2) _ _ _ E2) by lia.
    unfold generateId in *. cbn [snd] in Hr. cbv beta iota.
    apply (proj2 (parser_fuel fuel)); [exact Hr|lia].
  - destruct (Hthrough 1 (node, p')) as [f' Hf'].
    { cbn [parseLoop].
      destruct (toktype_eqb (tok_type (peek p')) (T_BIN op)) eqn:E;
        [|reflexivity].
      apply toktype_eqb_eq in E. contradiction. }
    exists (S (Nat.max f0 f')). cbn [parseAt].
    rewrite (proj1 (parser_fuel f0) (Nat.max f0 f') _ _ _ E0) by lia.
    apply (proj2 (parser_fuel f')); [exact Hf'|lia].
Qed.

(** The tree of the grammar is the tree [parse] returns, with the state
    the top level ends in. *)
Lemma parseIFF_derives toks a p' :
  Derives (Whole (LevelBin IFF)) (newParser toks) a p'
  <-> parseIFF (parseFuel toks) (newParser toks) = Some (a, p').
Proof.
  split; [|apply parser_derives].
  intros H. apply derives_parser in H as [f Hf].
  destruct (parseAt_total (LevelBin IFF) (newParser toks) (parseFuel toks))
    as (node & q & E & _).
  { unfold remaining, parseFuel. simpl. lia. }
  unfold parseIFF. rewrite E.
  pose proof (proj1 (parser_fuel f) (Nat.max f (parseFuel toks)) _ _ _ Hf
                (Nat.le_max_l _ _)) as H1.
  pose proof (proj1 (parser_fuel (parseFuel toks))
                (Nat.max f (parseFuel toks)) _ _ _ E (Nat.le_max_r _ _))
    as H2.
  congruence.
Qed.

Lemma parse_grammarTree toks a :
  grammarTree toks a <-> parse toks = Some a.
Proof.
  unfold grammarTree, parse. split.
  - intros [p' H]. apply parseIFF_derives in H. now rewrite H.
  - destruct (parseIFF (parseFuel toks) (newParser toks)) as [[n q]|] eqn:E;
      [|discriminate].
    intros H. injection H as <-. exists q. now apply parseIFF_derives.
Qed.

(** ** Where a derivation ends *)

Lemma derives_state ph p node p' :
  Derives ph p node p' -> tokens p' = tokens p /\ pos p <= pos p'.
Proof.
  induction 1; cbn [consume generateId snd tokens pos] in *;
    repeat match goal with H : _ /\ _ |- _ => destruct H end;
    split; try congruence; try lia.
Qed.

Lemma levelHas_cases op op' :
  levelHas (LevelBin op) op' -> op' = op \/ levelHas (nextLevel op) op'.
Proof.
  destruct op, op'; cbn [levelHas nextLevel framesTo]; intros H;
    try lia; auto; right; lia.
Qed.

(** No connective of the level, or of a level it calls, follows a whole
    expression. *)
Lemma derives_ends ph p node p' :
  Derives ph p node p' ->
  forall op,
    match ph with
    | Whole lv => levelHas lv op
    | Fold o => levelHas (nextLevel o) op
    end ->
    tok_type (peek p') <> T_BIN op.
Proof.
  induction 1 as [p Hvar|p Hopen Hvar|p node p2 Hopen _ IH Hclose
                  |p node p2 Hopen _ IH Hclose
                  |p operand p2 Hnot _ IH|p node p' Hnot _ IH
                  |op p node p' _ IH
                  |op p lhs p1 rhs p2 _ IH1 Hop _ IH2
                  |op p node p' _ IH Hstop];
    intros op' Hhas; cbn [levelHas] in Hhas; try contradiction.
  - now apply IH.
  - change (peek (snd (generateId p2))) with (peek p2). now apply IH2.
  - apply levelHas_cases in Hhas as [->|Hhas]; [exact Hstop|now apply IH].
Qed.

(** From an atom up to the top level, when no connective follows. *)
Lemma derives_climb p node p' :
  Derives (Whole LevelFactor) p node p' ->
  tok_type (peek p) <> T_NOT ->
  (forall op, tok_type (peek p') <> T_BIN op) ->
  Derives (Whole (LevelBin IFF)) p node p'.
Proof.
  intros H Hnot Hno.
  apply derives_level; [|apply Hno]. apply derives_first.
  apply derives_level; [|apply Hno]. apply derives_first.
  apply derives_level; [|apply Hno]. apply derives_first.
  apply derives_level; [|apply Hno]. apply derives_first.
  apply derives_level; [|apply Hno]. apply derives_first.
  now apply derives_atom.
Qed.

(** ** States with the same tokens ahead *)

Lemma sameRest_peek p q : sameRest p q -> peek p = peek q.
Proof.
  intros [_ H]. specialize (H 0). now rewrite !Nat.add_0_r in H.
Qed.

Lemma sameRest_consume p q :
  sameRest p q -> sameRest (snd (consume p)) (snd (consume q)).
Proof.
  intros [Hc H]. split; [exact Hc|]. intros k.
  cbn [consume snd tokens pos]. specialize (H (S k)).
  now rewrite !Nat.add_succ_r in H.
Qed.

Lemma sameRest_generateId p q :
  sameRest p q -> sameRest (snd (generateId p)) (snd (generateId q)).
Proof.
  intros [Hc H]. split; [cbn; now rewrite Hc|exact H].
Qed.

Lemma sameRest_behind t p : sameRest p (behind t p).
Proof. split; reflexivity. Qed.

(** A derivation depends on the counter and the tokens ahead only. *)
Lemma derives_sameRest ph p node p' :
  Derives ph p node p' ->
  forall q, sameRest p q ->
    exists q', Derives ph q node q' /\ sameRest p' q'.
Proof.
  induction 1 as [p Hvar|p Hopen Hvar|p node p2 Hopen _ IH Hclose
                  |p node p2 Hopen _ IH Hclose
                  |p operand p2 Hnot _ IH|p node p' Hnot _ IH
                  |op p node p' _ IH
                  |op p lhs p1 rhs p2 _ IH1 Hop _ IH2
                  |op p node p' _ IH Hstop];
    intros q Hq; pose proof (sameRest_peek _ _ Hq) as Hpeek.
  - eexists. split.
    + rewrite (proj1 Hq), Hpeek. apply derives_var. now rewrite <- Hpeek.
    + now apply sameRest_generateId, sameRest_consume.
  - eexists. split.
    + rewrite (proj1 Hq). apply derives_placeholder; now rewrite <- Hpeek.
    + now apply sameRest_generateId, sameRest_consume.
  - destruct (IH _ (sameRest_consume _ _ Hq)) as (q2 & Hd & Hs).
    pose proof (sameRest_peek _ _ Hs) as Hpeek2.
    eexists. split.
    + rewrite Hpeek. apply (derives_group q node q2); rewrite <- ?Hpeek;
        auto. now rewrite <- Hpeek2.
    + now apply sameRest_consume.
  - destruct (IH _ (sameRest_consume _ _ Hq)) as (q2 & Hd & Hs).
    pose proof (sameRest_peek _ _ Hs) as Hpeek2.
    exists q2. split; [|exact Hs].
    apply (derives_unclosed q node q2); rewrite <- ?Hpeek; auto.
    now rewrite <- Hpeek2.
  - destruct (IH _ (sameRest_consume _ _ Hq)) as (q2 & Hd & Hs).
    eexists. split.
    + rewrite (proj1 Hs), Hpeek. apply (derives_not q operand q2); auto.
      now rewrite <- Hpeek.
    + now apply sameRest_generateId.
  - destruct (IH _ Hq) as (q2 & Hd & Hs).
    exists q2. split; [|exact Hs].
    apply derives_atom; auto. now rewrite <- Hpeek.
  - destruct (IH _ Hq) as (q2 & Hd & Hs).
    exists q2. split; [|exact Hs]. now apply derives_first.
  - destruct (IH1 _ Hq) as (q1 & Hd1 & Hs1).
    destruct (IH2 _ (sameRest_consume _ _ Hs1)) as (q2 & Hd2 & Hs2).
    eexists. split.
    + rewrite (proj1 Hs2). apply (derives_more op q lhs q1 rhs q2); auto.
      now rewrite <- (sameRest_peek _ _ Hs1).
    + now apply sameRest_generateId.
  - destruct (IH _ Hq) as (q2 & Hd & Hs).
    exists q2. split; [|exact Hs].
    apply derives_level; auto. now rewrite <- (sameRest_peek _ _ Hs).
Qed.

(** With one more token in front, the derivation is the same one place
    further on. *)
Lemma derives_behind t ph p node p' :
  Derives ph p node p' -> Derives ph (behind t p) node (behind t p').
Proof.
  induction 1; try (econstructor; eassumption).
  - apply (derives_var (behind t p)); assumption.
  - apply (derives_placeholder (behind t p)); assumption.
  - apply (derives_group (behind t p) node (behind t p2)); assumption.
  - apply (derives_not (behind t p) operand (behind t p2)); assumption.
  - apply (derives_more op (behind t p) lhs (behind t p1) rhs (behind t p2));
      assumption.
Qed.

(** ** A token that starts no atom *)

(** At the head of a derivation, a token that is no variable, no open
    bracket and no negation does what the variable [?] would. *)
Lemma derives_question ph p node p' :
  Derives ph p node p' ->
  forall q,
    isOpenBracket (tok_type (peek p)) = false ->
    tok_type (peek p) <> T_VAR -> tok_type (peek p) <> T_NOT ->
    peek q = questionToken ->
    nodeIdCounter p = nodeIdCounter q ->
    sameRest (snd (consume p)) (snd (consume q)) ->
    exists q', Derives ph q node q' /\ sameRest p' q'.
Proof.
  induction 1 as [p Hvar|p Hopen Hvar|p node p2 Hopen _ IH Hclose
                  |p node p2 Hopen _ IH Hclose
                  |p operand p2 Hnot _ IH|p node p' Hnot _ IH
                  |op p node p' _ IH
                  |op p lhs p1 rhs p2 _ IH1 Hop Hrhs _
                  |op p node p' _ IH Hstop];
    intros q Ho Hv Hn Hq Hc Hs; try congruence.
  - eexists. split.
    + rewrite Hc.
      replace [ch_question] with (tok_value (peek q)) by now rewrite Hq.
      apply derives_var. now rewrite Hq.
    + now apply sameRest_generateId.
  - destruct (IH q Ho Hv Hn Hq Hc Hs) as (q2 & Hd & Hs2).
    exists q2. split; [|exact Hs2].
    apply derives_atom; [|exact Hd]. rewrite Hq. discriminate.
  - destruct (IH q Ho Hv Hn Hq Hc Hs) as (q2 & Hd & Hs2).
    exists q2. split; [|exact Hs2]. now apply derives_first.
  - destruct (IH1 q Ho Hv Hn Hq Hc Hs) as (q1 & Hd1 & Hs1).
    destruct (derives_sameRest _ _ _ _ Hrhs _ (sameRest_consume _ _ Hs1))
      as (q2 & Hd2 & Hs2).
    eexists. split.
    + rewrite (proj1 Hs2). apply (derives_more op q lhs q1 rhs q2); auto.
      now rewrite <- (sameRest_peek _ _ Hs1).
    + now apply sameRest_generateId.
  - destruct (IH q Ho Hv Hn Hq Hc Hs) as (q2 & Hd & Hs2).
    exists q2. split; [|exact Hs2].
    apply derives_level; auto. now rewrite <- (sameRest_peek _ _ Hs2).
Qed.

(** ** The lenient rules in a whole parse *)

(** An open bracket in front of tokens whose expression the matching
    close bracket does not follow changes nothing: the tree is the one of
    the tokens behind it, and the parser ends at the same token. *)
Lemma parse_unclosed open rest node p' :
  isOpenBracket (tok_type open) = true ->
  parseIFF (parseFuel rest) (newParser rest) = Some (node, p') ->
  tok_type (peek p') <> expectedCloseType (tok_type open) ->
  parseIFF (parseFuel (open :: rest)) (newParser (open :: rest))
  = Some (node, behind open p').
Proof.
  intros Hopen H Hclose. apply parseIFF_derives.
  apply parseIFF_derives in H.
  pose proof (derives_ends _ _ _ _ H) as Hends.
  apply (derives_behind open) in H.
  apply derives_climb.
  - apply (derives_unclosed (newParser (open :: rest)) node (behind open p'));
      [exact Hopen|exact H|exact Hclose].
  - change (peek (newParser (open :: rest))) with open.
    intros E. rewrite E in Hopen. discriminate.
  - intros op. change (peek (behind open p')) with (peek p').
    apply Hends. cbn [levelHas framesTo]. destruct op; cbn; lia.
Qed.

(** A first token that starts no atom gives the tree the variable [?]
    gives in its place. *)
Lemma parse_question t rest :
  isOpenBracket (tok_type t) = false ->
  tok_type t <> T_VAR -> tok_type t <> T_NOT ->
  parse (t :: rest) = parse (questionToken :: rest).
Proof.
  intros Ho Hv Hn.
  destruct (parse_total (t :: rest)) as (a & Ha & _). rewrite Ha.
  symmetry. apply parse_grammarTree.
  apply parse_grammarTree in Ha as [p' Hd].
  destruct (derives_question _ _ _ _ Hd (newParser (questionToken :: rest)))
    as (q' & Hq & _); try assumption; try reflexivity.
  - split; reflexivity.
  - now exists q'.
Qed.

(** ** Code units that give no token *)

Lemma scanTokens_no_token c rest :
  isTokenChar c = false ->
  (forall key symbol,
     In (key, symbol) OPS -> startsWith (c :: rest) key = false) ->
  scanTokens 0 (c :: rest) = scanTokens 0 rest.
Proof.
  intros Hc Hops. cbn [scanTokens].
  destruct (matchOperator (c :: rest)) as [[key symbol]|] eqn:Eop.
  { apply matchOperator_longest_alias in Eop as (Hin & Hs & _).
    rewrite (Hops key symbol Hin) in Hs. discriminate. }
  assert (Hminus : (c =? ch_minus)%N = false).
  { destruct (c =? ch_minus)%N eqn:E; [|reflexivity].
    apply N.eqb_eq in E. subst c.
    assert (Hin : In (lit "-", ch_not) OPS) by (cbn; tauto).
    specialize (Hops _ _ Hin). destruct rest; discriminate Hops. }
  unfold charToken. rewrite Hminus.
  unfold isTokenChar in Hc. cbn [existsb] in Hc.
  repeat match goal with
         | H : (_ || _)%bool = false |- _ =>
             apply orb_false_iff in H as [? ?]
         end.
  unfold SYMBOLS. cbn [existsb].
  repeat match goal with
         | H : _ = false |- _ => rewrite ?H; clear H
         end.
  reflexivity.
Qed.

(** ** Brackets without end *)

Lemma scanTokens_open n rest :
  scanTokens 0 (repeat ch_lparen n ++ rest)
  = repeat {| tok_type := LPAREN; tok_value := [ch_lparen] |} n
      ++ scanTokens 0 rest.
Proof.
  induction n as [|n IH]; [reflexivity|].
  cbn [repeat app]. rewrite <- IH. reflexivity.
Qed.

Lemma upperAscii_plain s :
  Forall (fun c => (c < 97)%N /\ isWhitespace c = false) s ->
  filter (fun c => negb (isWhitespace c)) (upperAscii s) = s.
Proof.
  induction 1 as [|c s [Hc Hw] _ IH]; [reflexivity|].
  cbn [upperAscii map filter].
  replace (97 <=? c)%N with false by (symmetry; apply N.leb_gt; exact Hc).
  cbn [andb]. rewrite Hw. cbn [negb]. f_equal. exact IH.
Qed.

Lemma tokenize_open n rest :
  Forall (fun c => (c < 97)%N /\ isWhitespace c = false) rest ->
  tokenize upperAscii (repeat ch_lparen n ++ rest)
  = repeat {| tok_type := LPAREN; tok_value := [ch_lparen] |} n
      ++ scanTokens 0 rest.
Proof.
  intros H. unfold tokenize. rewrite upperAscii_plain.
  - apply scanTokens_open.
  - apply Forall_app. split; [|exact H].
    apply Forall_forall. intros c Hc. apply repeat_spec in Hc. subst c.
    split; reflexivity.
Qed.

Lemma leadingOpenCount_open n toks :
  n <= leadingOpenCount
         (repeat {| tok_type := LPAREN; tok_value := [ch_lparen] |} n ++ toks).
Proof. induction n as [|n IH]; cbn; lia. Qed.

Lemma parseWithin_open stack n rest :
  Forall (fun c => (c < 97)%N /\ isWhitespace c = false) rest ->
  stack < 7 * n + 9 ->
  parseWithin stack (tokenize upperAscii (repeat ch_lparen n ++ rest))
  = RangeError.
Proof.
  intros Hrest Hs.
  destruct (parseWithin_parse stack
              (tokenize upperAscii (repeat ch_lparen n ++ rest)))
    as (_ & _ & _ & _ & _ & H).
  apply H. rewrite tokenize_open by exact Hrest.
  pose proof (leadingOpenCount_open n (scanTokens 0 rest)). lia.
Qed.

(** C5 (as amended): for every input the grammar gives the token list
    one tree, and tokenizing and parsing returns this tree or, when the
    call stack is used up, throws the engine's [RangeError]: the tree with
    seven frames for each token and nine more, the error with fewer than
    seven frames for each open bracket the input starts with and nine
    more; and a stack that is enough stays enough when it grows.  A code
    unit that is no token by itself and where no operator alias starts
    gives no token.  After an open bracket, an inner expression followed
    by anything but the matching close bracket is returned as it is, the
    token found in its place not consumed: so for the parsing method, and
    so for a whole parse, where the open bracket in front of the tokens
    changes neither the tree nor the token the parser ends at.  Where an
    atom is expected, a token that is neither a variable nor an open
    bracket is consumed and replaced by the placeholder variable [?]: so
    for the parsing method, which the negation method calls for every
    token but a negation, and so for a whole parse, where such a first
    token gives the tree a variable [?] gives in its place. *)
Theorem lenient_parsing_within_stack :
  (forall up input stack,
     exists ast,
       parse (tokenize up input) = Some ast
       /\ wf_node ast
       /\ (forall a, grammarTree (tokenize up input) a <-> a = ast)
       /\ (parseWithin stack (tokenize up input) = Returned ast
           \/ parseWithin stack (tokenize up input) = RangeError)
       /\ (7 * length (tokenize up input) + 9 <= stack ->
           parseWithin stack (tokenize up input) = Returned ast)
       /\ (stack < 7 * leadingOpenCount (tokenize up input) + 9 ->
           parseWithin stack (tokenize up input) = RangeError)
       /\ (forall stack',
             parseWithin stack (tokenize up input) = Returned ast ->
             stack <= stack' ->
             parseWithin stack' (tokenize up input) = Returned ast))
  /\ (forall c rest,
        isTokenChar c = false ->
        (forall key symbol,
           In (key, symbol) OPS -> startsWith (c :: rest) key = false) ->
        scanTokens 0 (c :: rest) = scanTokens 0 rest)
  /\ (forall fuel p node p',
        isOpenBracket (tok_type (peek p)) = true ->
        parseIFF fuel (snd (consume p)) = Some (node, p') ->
        tok_type (peek p') <> expectedCloseType (tok_type (peek p)) ->
        parseFactor (S fuel) p = Some (node, p'))
  /\ (forall open rest node p',
        isOpenBracket (tok_type open) = true ->
        parseIFF (parseFuel rest) (newParser rest) = Some (node, p') ->
        tok_type (peek p') <> expectedCloseType (tok_type open) ->
        parseIFF (parseFuel (open :: rest)) (newParser (open :: rest))
        = Some (node, behind open p')
        /\ parse (open :: rest) = Some node
        /\ peek (behind open p') = peek p')
  /\ (forall fuel p,
        isOpenBracket (tok_type (peek p)) = false ->
        tok_type (peek p) <> T_VAR ->
        parseFactor (S fuel) p
        = Some (VarNode (nodeIdCounter p) [ch_question] [ch_question] 0,
                {| tokens := tokens p; pos := S (pos p);
                   nodeIdCounter := S (nodeIdCounter p) |}))
  /\ (forall t rest,
        isOpenBracket (tok_type t) = false ->
        tok_type t <> T_VAR -> tok_type t <> T_NOT ->
        parse (t :: rest) = parse (questionToken :: rest)).
Proof.
  split; [|split; [|split; [|split; [|split]]]].
  - intros up input stack.
    destruct (parseWithin_parse stack (tokenize up input))
      as (ast & Hp & _ & Hcases & Henough & Hneeds).
    exists ast. split; [exact Hp|].
    split; [now apply (parse_tokenize_wf up input)|].
    split; [|split; [exact Hcases|split; [exact Henough|split;
                      [exact Hneeds|]]]].
    + intros a. rewrite parse_grammarTree, Hp.
      split; [now intros [= ->]|now intros ->].
    + intros stack' Hr Hle. now apply (parseWithin_more stack stack').
  - apply scanTokens_no_token.
  - apply parseFactor_mismatch.
  - intros open rest node p' Hopen H Hclose.
    pose proof (parse_unclosed open rest node p' Hopen H Hclose) as E.
    split; [exact E|]. split; [|reflexivity].
    unfold parse. now rewrite E.
  - apply parseFactor_placeholder.
  - apply parse_question.
Qed.

(** C5 (counterexample): two thousand open brackets use up a stack of
    ten thousand frames, and whatever the stack, as many open brackets as
    it has frames use it up: the parse throws. *)
Lemma deep_brackets_raise :
  parseWithin sampleStack (tokenize upperAscii deepOpen) = RangeError
  /\ (forall stack,
        parseWithin stack (tokenize upperAscii (repeat ch_lparen stack))
        = RangeError).
Proof.
  split.
  - unfold deepOpen. rewrite <- (app_nil_r (repeat ch_lparen 2000)).
    apply parseWithin_open; [constructor|]. unfold sampleStack. lia.
  - intros stack. rewrite <- (app_nil_r (repeat ch_lparen stack)).
    apply parseWithin_open; [constructor|lia].
Qed.

Lemma no_alias_at_less :
  forall key symbol,
    In (key, symbol) OPS -> startsWith (lit "<P") key = false.
Proof.
  intros key symbol H. cbn in H.
  repeat (destruct H as [H|H]; [injection H as <- <-; reflexivity|]).
  destruct H.
Qed.

Lemma lenient_parsing_within_stack_witness :
  7 * length (tokenize upperAscii (lit "(P&Q")) + 9 <= sampleStack
  /\ (exists ast,
        parse (tokenize upperAscii (lit "(P&Q")) = Some ast
        /\ wf_node ast
        /\ parseWithin sampleStack (tokenize upperAscii (lit "(P&Q"))
           = Returned ast)
  /\ scanTokens 0 (lit "<P") = scanTokens 0 (lit "P")
  /\ parseFactor 21 mismatchParser
     = Some (VarNode 0 (lit "A") (lit "A") 0,
             {| tokens := tokens mismatchParser; pos := 2;
                nodeIdCounter := 1 |})
  /\ parse (tokenize upperAscii (lit "(P&Q")) = Some sampleAst
  /\ parse (tokenize upperAscii (lit "P&Q")) = Some sampleAst
  /\ parseFactor 1 (newParser [eofToken])
     = Some (VarNode 0 [ch_question] [ch_question] 0,
             {| tokens := [eofToken]; pos := 1; nodeIdCounter := 1 |})
  /\ parse (tokenize upperAscii (lit ")&Q"))
     = parse (questionToken :: tokenize upperAscii (lit "&Q")).
Proof.
  assert (H : 7 * length (tokenize upperAscii (lit "(P&Q")) + 9
              <= sampleStack)
    by (vm_compute; lia).
  destruct lenient_parsing_within_stack
    as (H1 & H2 & H3 & H4 & H5 & H6).
  split; [exact H|]. split.
  { destruct (H1 upperAscii (lit "(P&Q") sampleStack)
      as (ast & Hp & Hw & _ & _ & Hen & _ & _).
    exists ast. split; [exact Hp|]. split; [exact Hw|exact (Hen H)]. }
  split; [exact (H2 60%N (lit "P") eq_refl no_alias_at_less)|].
  split; [apply H3; [reflexivity|reflexivity|discriminate]|].
  split.
  { refine (proj1 (proj2 (H4 {| tok_type := LPAREN; tok_value := [ch_lparen] |}
                             (tokenize upperAscii (lit "P&Q")) sampleAst
                             {| tokens := tokenize upperAscii (lit "P&Q");
                                pos := 3; nodeIdCounter := 3 |}
                             eq_refl _ _)));
      [reflexivity|discriminate]. }
  split; [reflexivity|].
  split; [apply (H5 0 (newParser [eofToken])); [reflexivity|discriminate]|].
  apply (H6 {| tok_type := RPAREN; tok_value := [ch_rparen] |}
            (tokenize upperAscii (lit "&Q")));
    [reflexivity|discriminate|discriminate].
Defined.

(** ** The undeclared variables *)








(** ** The check of [analyzeLogic] *)

Lemma analyzeLogicCheck_cases up stack expr declared :
  (parseWithin stack (tokenize up expr) = RangeError
   /\ analyzeLogicCheck up stack expr declared = RangeError)
  \/ (exists a,
        parseWithin stack (tokenize up expr) = Returned a
        /\ parse (tokenize up expr) = Some a
        /\ analyzeLogicCheck up stack expr declared
           = if 0 <? length (undeclaredVariables up expr declared)
             then Returned (inr (undeclaredMessage
                                   (undeclaredVariables up expr declared)))
             else Returned (inl a)).
Proof.
  unfold analyzeLogicCheck.
  destruct (parseWithin stack (tokenize up expr)) as [a|] eqn:E.
  - right. exists a. split; [reflexivity|].
    split; [now apply parseWithin_returned in E|reflexivity].
  - now left.
Qed.






(** ** Cancelling double negations *)

Lemma cancels_trans s t r : cancels s t -> cancels t r -> cancels s r.
Proof.
  induction 1 as [|s t' t Hstep _ IH]; [auto|].
  intros H. eapply cancels_step; [exact Hstep|now apply IH].
Qed.












(** ** The strings that are labelled *)









(** On a string of negation symbols only the loop leaves nothing or a
    single negation sign, and the guard at the end of [formatLabel] puts
    [¬¬] where nothing is left. *)
Lemma formatLabel_only_negations (settings : AppSettings) (s : jsstring) :
  negationHandling (logic settings) = simplify ->
  Forall (fun ch => isNegationSymbol ch = true) s ->
  (Nat.Even (length s) -> formatLabel s settings = [ch_not; ch_not])
  /\ (Nat.Odd (length s) -> formatLabel s settings = [ch_not]).
Proof.
  intros Hs Hall. unfold formatLabel. rewrite Hs.
  rewrite (normalizeNegations_negations s Hall), repeat_length.
  split; intros [k Hk]; rewrite Hk.
  - destruct k as [|k]; [reflexivity|].
    replace (2 * S k + 2) with (S (S (S (2 * k + 1)))) by lia.
    now rewrite simplifyLoop_even.
  - replace (2 * k + 1 + 2) with (S (S (S (2 * k)))) by lia.
    now rewrite simplifyLoop_odd.
Qed.


(** ** Validation and analysis *)

Lemma tokenize_trim up s :
  trimInsensitive up -> tokenize up (trim s) = tokenize up s.
Proof. intros H. unfold tokenize. now rewrite H. Qed.

Lemma undeclared_trim up s declared :
  trimInsensitive up ->
  filter (fun v => negb (includes declared v))
    (extractVariablesFromExpression up (trim s))
  = undeclaredVariables up s declared.
Proof.
  intros H. unfold undeclaredVariables, extractVariablesFromExpression.
  now rewrite tokenize_trim.
Qed.

Lemma whitespace_upperAscii c :
  isWhitespace c = true ->
  (if ((97 <=? c) && (c <=? 122))%N then (c - 32)%N else c) = c.
Proof.
  intros H. destruct ((97 <=? c) && (c <=? 122))%N eqn:E; [|reflexivity].
  exfalso. apply andb_true_iff in E as [E1 E2]. apply N.leb_le in E1, E2.
  unfold isWhitespace in H.
  repeat (apply orb_true_iff in H as [H|H]);
    repeat match goal with
           | H : (_ && _)%bool = true |- _ => apply andb_true_iff in H as [? ?]
           | H : (_ <=? _)%N = true |- _ => apply N.leb_le in H
           | H : (_ =? _)%N = true |- _ => apply N.eqb_eq in H
           end; lia.
Qed.

Lemma upperAscii_trimStart s :
  filter (fun c => negb (isWhitespace c)) (upperAscii (trimStart s))
  = filter (fun c => negb (isWhitespace c)) (upperAscii s).
Proof.
  induction s as [|c s IH]; [reflexivity|]. cbn [trimStart].
  destruct (isWhitespace c) eqn:E; [|reflexivity].
  rewrite IH. unfold upperAscii. cbn [map filter].
  now rewrite (whitespace_upperAscii c E), E.
Qed.

Lemma upperAscii_rev s : upperAscii (rev s) = rev (upperAscii s).
Proof. unfold upperAscii. apply map_rev. Qed.

Lemma upperAscii_trimInsensitive : trimInsensitive upperAscii.
Proof.
  intros s. unfold trim.
  rewrite upperAscii_rev, filter_rev, upperAscii_trimStart,
    upperAscii_rev, filter_rev, rev_involutive.
  apply upperAscii_trimStart.
Qed.

(** X27: what the validation lets through passes the check of
    [analyzeLogic].  For a [toUpperCase] that treats white space as the
    tokenizer does, when the validation effect finds an expression and a
    selection valid, the selection is not empty and [analyzeLogic] does
    not throw its undeclared-variable [Error]: with any call stack its
    check ends with the parsed tree or, the validation knowing nothing of
    how deep the brackets nest, with the [RangeError] of the parser; with
    seven frames for each token and nine more it ends with the tree.  And
    for an expression that is not blank, the check of [analyzeLogic]
    throws its [Error] exactly when the validation reports undeclared
    variables, the same ones, and the parse does not use up the stack. *)
Theorem validation_guards_analysis up expression selectedVars :
  trimInsensitive up ->
  (fst (validate up expression selectedVars) = true ->
   selectedVars <> []
   /\ exists a,
        parse (tokenize up expression) = Some a
        /\ forall stack,
             (analyzeLogicCheck up stack expression selectedVars
              = Returned (inl a)
              \/ analyzeLogicCheck up stack expression selectedVars
                 = RangeError)
             /\ (7 * length (tokenize up expression) + 9 <= stack ->
                 analyzeLogicCheck up stack expression selectedVars
                 = Returned (inl a)))
  /\ (trim expression <> [] ->
      forall stack,
        (exists msg,
           analyzeLogicCheck up stack expression selectedVars
           = Returned (inr msg))
        <-> snd (validate up expression selectedVars)
            = Some (lit "Undeclared: "
                      ++ join (lit ", ")
                           (undeclaredVariables up expression selectedVars))
            /\ parseWithin stack (tokenize up expression) <> RangeError).
Proof.
  intros Hup.
  pose proof (undeclared_trim up expression selectedVars Hup) as Hund.
  unfold validate. cbv zeta. rewrite Hund.
  set (undeclared := undeclaredVariables up expression selectedVars).
  split.
  - destruct (length (trim expression) =? 0); [discriminate|].
    destruct (0 <? length undeclared) eqn:Eu; [discriminate|].
    destruct (length selectedVars =? 0) eqn:E; [discriminate|].
    intros _. split; [intros ->; discriminate E|].
    destruct (parse_total (tokenize up expression)) as (a & Hparse & _).
    exists a. split; [exact Hparse|]. intros stack.
    destruct (parseWithin_parse stack (tokenize up expression))
      as (a' & Hp' & _ & _ & Henough & _).
    assert (a' = a) by congruence. subst a'.
    destruct (analyzeLogicCheck_cases up stack expression selectedVars)
      as [[Hpw Hc]|(b & Hpw & Hp & Hc)].
    + split; [now right|]. intros Hs. rewrite (Henough Hs) in Hpw.
      discriminate.
    + assert (b = a) by congruence. subst b.
      fold undeclared in Hc. rewrite Eu in Hc. split; [now left|auto].
  - intros Hne stack.
    destruct (length (trim expression) =? 0) eqn:E.
    { apply Nat.eqb_eq in E. destruct (trim expression); [congruence|].
      discriminate E. }
    destruct (analyzeLogicCheck_cases up stack expression selectedVars)
      as [[Hpw Hc]|(b & Hpw & Hp & Hc)]; rewrite Hc, Hpw.
    + split; [intros (msg & H); discriminate|intros [_ H]; now elim H].
    + fold undeclared.
      destruct (0 <? length undeclared).
      * split; [intros _; split; [reflexivity|discriminate]|eauto].
      * split; [intros (msg & H); discriminate|].
        intros [H _]. revert H.
        destruct (length selectedVars =? 0); [discriminate|].
        now destruct (negb _).
Qed.

(** ** The steps when the sub-expression columns are hidden *)

Lemma traverse_step row node step :
  In step (traverse row node []) ->
  subnode (step_node step) node
  /\ isOperatorNode (step_node step) = true
  /\ step_result step
     = obj_get (values row) (node_expression (step_node step)).
Proof.
  induction node as [id v e d|id o IHo e d|id op l IHl r IHr e d];
    cbn [traverse]; [intros []| |].
  - intros H. apply in_app_iff in H as [H|[<-|[]]].
    + destruct (IHo H) as (Hs & Hop & Hr).
      split; [simpl; now right|]. now split.
    + cbn [step_node step_result].
      split; [apply subnode_refl|]. now split.
  - rewrite traverse_app. intros H.
    apply in_app_iff in H as [H|[<-|[]]];
      [apply in_app_iff in H as [H|H]|].
    + destruct (IHl H) as (Hs & Hop & Hr).
      split; [simpl; right; now left|]. now split.
    + destruct (IHr H) as (Hs & Hop & Hr).
      split; [simpl; right; now right|]. now split.
    + cbn [step_node step_result].
      split; [apply subnode_refl|]. now split.
Qed.

Lemma operator_expression_long n :
  wf_node n -> isOperatorNode n = true -> 2 <= length (node_expression n).
Proof.
  destruct n as [id v e d|id o e d|id op l r e d]; cbn; intros Hw Hop;
    [discriminate|tauto|tauto].
Qed.

(** X28: with the sub-expression columns hidden, the step-by-step view
    has no value for the inner steps.  For an accepted analysis whose
    settings hide the sub-expression columns, over variables that are
    upper-case letters, a step of a row reads the value of the formula
    when its node has the expression string of the root, and reads
    [undefined] otherwise, which the view shows as false whatever the
    sub-expression evaluates to. *)
Theorem hidden_columns_blank_steps up expr declared settings res row step :
  analyzeLogic up expr declared settings = inl res ->
  showSubExpressions (table settings) = false ->
  Forall variableName declared ->
  In row (rows res) -> In step (traverse row (ast res) []) ->
  step_result step
  = if str_eqb (node_expression (step_node step)) (node_expression (ast res))
    then Some (evaluateAST (ast res) (inputContext row (columns res)))
    else None.
Proof.
  intros H Hhide Hnames Hrow Hstep.
  apply analyzeLogic_inl in H as (a & Hparse & _ & ->).
  pose proof (parse_tokenize_wf _ _ _ Hparse) as Hw.
  cbn [ast rows columns analysisOf] in *.
  destruct (traverse_step row a step Hstep) as (Hsub & Hop & ->).
  pose proof (operator_expression_long _ (subnode_wf _ _ Hsub Hw) Hop) as Hlen.
  set (e := node_expression (step_node step)) in *.
  unfold tableRows in Hrow. apply in_map_iff in Hrow as (i & <- & _).
  rewrite <- (rowContext_inputContext a declared settings i a Hw
                (subnode_refl a)).
  unfold tableRow. cbn [values].
  set (context := rowContext declared _).
  rewrite evaluateColumns_fold, obj_get_writeColumns.
  unfold finalColumns. rewrite Hhide. rewrite assigned_app.
  cbn [assigned]. rewrite tableWrite_result by assumption.
  cbn [expression resultColumn].
  destruct (str_eqb e (node_expression a)); [reflexivity|].
  rewrite assigned_untouched; [reflexivity|].
  intros col Hcol E. apply varColumns_in in Hcol as [_ Hcol].
  rewrite E in Hcol. rewrite Forall_forall in Hnames.
  destruct (Hnames e Hcol) as (ch & Ee & _). rewrite Ee in Hlen.
  cbn in Hlen. lia.
Qed.

(** ** Witnesses: the selection, the exported text, the validation *)

Lemma selection_stays_sorted_witness :
  strictlySorted [varP; varQ]
  /\ toggleVar (toggleVar [varP; varQ] (lit "A")) (lit "A") = [varP; varQ]
  /\ forall selected',
       handleAddSubmit upperAscii [varP; varQ] (lit " r ") = Some selected' ->
       strictlySorted selected'.
Proof.
  assert (H : strictlySorted [varP; varQ]).
  { constructor; [repeat constructor|].
    constructor; [reflexivity|constructor]. }
  split; [exact H|].
  destruct (selection_stays_sorted upperAscii [varP; varQ] (lit "A")
              (lit " r ") H) as [(_ & _ & Hback) Hadd].
  split; [exact Hback|].
  intros selected' Hs. exact (proj1 (Hadd selected' Hs)).
Defined.

Lemma csv_reads_back_witness :
  analyzeLogic upperAscii (lit "P&Q") [varP; varQ] DEFAULT_SETTINGS = inl sample
  /\ Forall variableName [varP; varQ]
  /\ readCsv (csvContent sample)
     = map label (columns sample)
       :: map (fun r =>
                 map (fun c => if rowValue (expression c) r then lit "1"
                               else lit "0")
                   (columns sample))
            (rows sample).
Proof.
  assert (H2 : Forall variableName [varP; varQ]).
  { constructor; [exists 80%N; split; reflexivity|].
    constructor; [exists 81%N; split; reflexivity|constructor]. }
  split; [exact sample_accepted|]. split; [exact H2|].
  exact (csv_reads_back upperAscii (lit "P&Q") [varP; varQ] DEFAULT_SETTINGS
           sample sample_accepted H2).
Defined.

Lemma validation_guards_analysis_witness :
  trimInsensitive upperAscii
  /\ fst (validate upperAscii (lit " P&Q ") [varP; varQ]) = true
  /\ [varP; varQ] <> []
  /\ 7 * length (tokenize upperAscii (lit " P&Q ")) + 9 <= sampleStack
  /\ exists a,
       parse (tokenize upperAscii (lit " P&Q ")) = Some a
       /\ analyzeLogicCheck upperAscii sampleStack (lit " P&Q ") [varP; varQ]
          = Returned (inl a).
Proof.
  assert (H2 : fst (validate upperAscii (lit " P&Q ") [varP; varQ]) = true)
    by reflexivity.
  assert (H3 : 7 * length (tokenize upperAscii (lit " P&Q ")) + 9
               <= sampleStack)
    by (vm_compute; lia).
  split; [exact upperAscii_trimInsensitive|]. split; [exact H2|].
  destruct (proj1 (validation_guards_analysis upperAscii (lit " P&Q ")
                     [varP; varQ] upperAscii_trimInsensitive) H2)
    as [Hne (a & Hp & Hacc)].
  split; [exact Hne|]. split; [exact H3|].
  exists a. split; [exact Hp|exact (proj2 (Hacc sampleStack) H3)].
Defined.

Lemma hiddenSample_accepted :
  analyzeLogic upperAscii (lit "-P&Q") [varP; varQ] hiddenSettings
  = inl hiddenSample.
Proof. vm_compute. reflexivity. Defined.

Lemma hidden_columns_blank_steps_witness :
  analyzeLogic upperAscii (lit "-P&Q") [varP; varQ] hiddenSettings
  = inl hiddenSample
  /\ showSubExpressions (table hiddenSettings) = false
  /\ Forall variableName [varP; varQ]
  /\ In hiddenRow (rows hiddenSample)
  /\ forall step, In step (traverse hiddenRow (ast hiddenSample) []) ->
        step_result step
        = if str_eqb (node_expression (step_node step))
               (node_expression (ast hiddenSample))
          then Some (evaluateAST (ast hiddenSample)
                       (inputContext hiddenRow (columns hiddenSample)))
          else None.
Proof.
  assert (H3 : Forall variableName [varP; varQ]).
  { constructor; [exists 80%N; split; reflexivity|].
    constructor; [exists 81%N; split; reflexivity|constructor]. }
  assert (H4 : In hiddenRow (rows hiddenSample)) by (left; reflexivity).
  split; [exact hiddenSample_accepted|]. split; [reflexivity|].
  split; [exact H3|]. split; [exact H4|].
  intros step Hstep.
  exact (hidden_columns_blank_steps upperAscii (lit "-P&Q") [varP; varQ]
           hiddenSettings hiddenSample hiddenRow step
           hiddenSample_accepted eq_refl H3 H4 Hstep).
Defined.
